(* ===== verification/_CoqProject ===== *)
-Q . S2P
Prelude.v
GoStd.v
Codec.v
K6.v
Metrics.v
Lang.v
Socket.v
Events.v
Exec.v
Trace.v
Connect.v
ReadWrite.v
System.v
Scenarios.v
WriteSpec.v
ConnectSpec.v
ReadSpec.v
Progress.v
Anomalies.v
Contract.v
Ordering.v
Promises.v
Buffers.v
Product.v
Stream.v
StreamSpec.v
Sent.v
SentSpec.v
Locking.v
Lifecycle.v
Deadlock.v
EchoTcp.v
RoundTrip.v
Echo.v
WithEcho.v
Unicode.v
Console.v
TestScript.v
Extension.v
