(* ===== verification/Prelude.v ===== *)
(** * xk6-tcp: a verification development

    The repository is a k6 extension in Go: a JavaScript class [Socket] over a
    TCP connection (src/tcp), two small servers and a command runner for its
    tests (src/internal/echo, src/tools/with-echo), and a harness that runs test
    scripts (src/internal/testscript). This library models these parts in Rocq
    and proves what makes them correct. This file is its root: the definitions,
    tactics and lemmas that the components share.

    ** The socket

    A socket is shared by several goroutines: the VU's JS thread calls its
    methods and runs its event handlers; [connect] and [write] start one
    goroutine each; an established connection has a reader; and a dispatch loop
    hands events to k6's task queue. They share the struct [socket], its mutex, a
    [sync.Once], a channel and a buffer pool.

    - GoStd: the Go library as the sources use it (errors, formatting, strings,
      JoinHostPort). K6: the host (tag sets, JS values) as the class [K6], with
      the documented behaviour relied on in [K6Laws] and a concrete instance
      [K6Ref] for witnesses. Codec: encoding/hex and encoding/base64, and
      [decodeString] of tcp/socket_write.go.
    - Metrics: tcp/metrics.go and the tags of tcp/socket_metrics.go.
    - Lang: the execution model. The record [socket] is the Go struct of
      tcp/socket_base.go; the record [world] adds the mutex, the Once, the
      dispatch loop of tcp/socket_loop.go ([loop_step]), the network connections,
      the pool, the arrays that slices share, what arrived, and what was emitted:
      task queue, samples, settled promises, started goroutines, handler calls. A
      Go function is a [prog], a tree of primitive operations [op]; [interp] is one
      atomic step, given the environment's [reply]; [exec] runs a program alone. Trace
      gives the exchanges of a run: what it asked of the environment, with the
      arguments, and what it was answered.
    - Socket (tcp/socket_base.go, socket_state.go, socket_metrics.go), Events
      (socket_on.go), Connect (socket_connect.go), ReadWrite (socket_read.go,
      socket_write.go, socket_timeout.go): the functions, each a [prog] under its
      Go name.
    - System: all goroutines interleaved. A configuration [cfg] has the JS
      thread, the goroutines and the world; [cfg_step] is one step of any of
      them, of the loop, of the clock, or the end of the VU, and [reachable]
      closes a constructed socket under it. The class [Protocol] with its
      [ProtocolLaws] is the interface between the programs and the invariants: a
      protocol assigns phases to threads, every program conforms to it, every
      allowed operation keeps an invariant, and [reachable_Inv] gives the
      invariant in every reachable configuration. Product runs two protocols
      side by side, the second relying on the invariant of the first.
      Scenarios: concrete runs.
    - Extension (register.go, tcp/module.go, the constructor of
      tcp/socket_base.go): what is registered, the metrics of each VU's module
      instance, the properties of the JS object.

    What is proved of the socket:
    - one program alone (Exec has the step rules): ConnectSpec, WriteSpec and
      ReadSpec give the effect of [connectExecute], [destroy], [writeExecute],
      [readLoopStep], [setTimeout] and of rejected calls on every branch. For
      [connectExecute] and [readLoopStep] the last world is a function of the
      exchanges: what the resolver, the dialer, the deadline, the handshake and
      [conn.Read] were asked and answered. Progress gives total correctness: on a
      live socket with nothing else running every goroutine returns, whatever the
      environment answers, and an API call returns or panics, and it says exactly
      which calls panic;
    - all interleavings, by protocols: Locking (mutual exclusion, consistency of
      state and connection, the state follows the life-cycle machine [life]),
      Deadlock (the only deadlock is an event offered after the dispatch loop has
      ended), Lifecycle (teardown at most once, when the loop ends), Promises
      (settled at most once, all settled in the end), Ordering (connect before the
      reader's events), Buffers (pooled buffers are exclusive, a handler gets the
      bytes that were read), Contract (shape of handlers, events and samples);
    - the two directions of the stream, by products of protocols: Stream and
      StreamSpec (with one reader the script's data handler is called with the
      chunks that [conn.Read] returned, in order, none lost or doubled, and
      [bytes_read] counts them), Sent and SentSpec (what a connection is given are
      the fragments of the script's writes and nothing else, and the promise of a
      write resolves only when all of its bytes are among them, if nobody assigned
      to them);
    - RoundTrip composes the socket with the TCP echo server: the script gets
      back what it wrote, in order if it awaits its writes;
    - Codec and Metrics: round trips of the decoders, rejected encodings, the
      tag sets as maps; Extension: the constructor gives the object its documented
      interface, every name running the program of its Go function, or throws and
      starts nothing, and all VUs share the documented metrics;
    - Anomalies: reachable runs that the documentation excludes.

    ** The tools

    - EchoTcp (internal/echo/server_tcp.go): acceptors, one handler per
      connection with [io.Copy], and [Stop], interleaved ([tcp_step]): the echo
      is faithful, the WaitGroup exact, [Stop] terminates.
    - Echo (server_http.go, server.go): the HTTP handler with the exact response,
      whatever order Go gives its maps, the pair of servers ([server_step]) and
      what is left of them after [Stop], the environment variables.
    - WithEcho (tools/with-echo/main.go): effects and exit codes of a run, and
      signal forwarding, with the signals that a full channel or an ended child
      leave behind.
    - Unicode, Console and TestScript (internal/testscript): UTF-8 and UTF-16 text
      on its way through the host's strings; assertions and logging; the
      runtime, environment and command lines of test scripts, and what becomes
      of each file.

    ** Bounds and fuel

    Integers are [Z]; [int64] wraps where Go's counters and durations do. Times
    are [Z] nanoseconds. [write_loop] has fuel [S (slice_len data)]:
    [write_loop_terminates] shows that any larger bound does the same. [read_upto]
    bounds the rounds of [read] when it runs alone; in System the reader loops
    without bound. [scenario_fuel] only limits the steps of scripted examples,
    which evaluate to their expected end. No theorem over all interleavings has
    a bound.

    ** What is a parameter, and what is not modelled

    - k6, sobek, the task queue library and the test framework are not part of
      the repository: the classes [K6], [JSValues] and [MetricRegistry], the
      order of the Queue calls, and the answers carried by replies and actions.
      The scheduler may start queued callbacks in any order; StreamSpec states
      its theorems for runs in which the task queue keeps the order, as it
      documents.
    - The network may answer anything that the Go documentation allows: a read
      returns at most a buffer of bytes, with or without an error, a write accepts
      at most what it is given; the link of RoundTrip ([tcp_link]) delivers bytes in order.
    - Logging (logrus, slog) has no effect on the state and is left out.
    - The data of a write is a slice ([goslice]) that may share its array with
      the script or with a pooled buffer, and is read when it is sent; one call of
      [Write] reads it in one step. A buffer that must grow gets a new array, which
      is the case of a fresh buffer. Scripts may assign to their own ArrayBuffers
      ([AStore]), but not into the bytes that a data event gave them.
    - Accesses are interleaved, without Go's weak memory; the data race on the
      read buffer of two readers is shown as an interleaving.
    - The [%q] verb is modelled up to non-ASCII escapes; a VU without state and
      times beyond Go's range are not considered.
    - Not modelled: the inside of k6's runtime and VU state, which
      internal/testscript/runtime.go fills in, the HTTP protocol and the JSON
      text of the HTTP echo, the Go tests and the JS examples. *)
From Stdlib Require Export ZArith Lia.
From Stdlib Require Export Strings.Byte.
From stdpp Require Export prelude gmap strings list sorting pretty.

(** ** Results of fallible Go functions

    A Go function returning [(v, err)] returns [Ok v] when [err] is nil and
    [Err err] otherwise. *)
Inductive result (A E : Type) : Type :=
| Ok (a : A)
| Err (e : E).
Arguments Ok {A E} a.
Arguments Err {A E} e.

Definition result_bind {A B E} (r : result A E) (f : A -> result B E) : result B E :=
  match r with
  | Ok a => f a
  | Err e => Err e
  end.

Definition is_ok {A E} (r : result A E) : bool :=
  match r with Ok _ => true | Err _ => false end.

Definition isSome {A} (o : option A) : bool := match o with Some _ => true | None => false end.

Declare Scope go_scope.
Delimit Scope go_scope with go.
Notation "'let?' x ':=' r 'in' k" := (result_bind r (fun x => k))
  (at level 10, x pattern, r at level 100, k at level 200) : go_scope.

Lemma is_ok_inv {A E} (r : result A E) : is_ok r = true -> exists a, r = Ok a.
Proof. destruct r as [a|]; [by exists a|done]. Qed.

(** ** Machine integers

    Go's [int64] arithmetic wraps around modulo [2 ^ 64]. *)
Definition int64 (z : Z) : Z := (z + 2 ^ 63) `mod` 2 ^ 64 - 2 ^ 63.

Definition int64_min : Z := - 2 ^ 63.
Definition int64_max : Z := 2 ^ 63 - 1.

Lemma int64_range z : (int64_min <= int64 z <= int64_max)%Z.
Proof.
  unfold int64, int64_min, int64_max.
  pose proof (Z.mod_pos_bound (z + 2 ^ 63) (2 ^ 64) eq_refl). lia.
Qed.

Lemma int64_id z : (int64_min <= z <= int64_max)%Z -> int64 z = z.
Proof.
  unfold int64, int64_min, int64_max. intros H. rewrite Z.mod_small; lia.
Qed.

Lemma int64_idemp z : int64 (int64 z) = int64 z.
Proof. apply int64_id, int64_range. Qed.

Lemma int64_add_l a b : int64 (int64 a + b) = int64 (a + b).
Proof.
  unfold int64. f_equal.
  replace ((a + 2 ^ 63) `mod` 2 ^ 64 - 2 ^ 63 + b + 2 ^ 63)%Z
    with ((a + 2 ^ 63) `mod` 2 ^ 64 + b)%Z by lia.
  rewrite Zplus_mod_idemp_l. f_equal. lia.
Qed.

(** ** Bytes *)
Definition byte_of_N (n : N) : byte := default x00 (Byte.of_N (n `mod` 256)).

Lemma byte_to_N_lt b : (Byte.to_N b < 256)%N.
Proof. pose proof (Byte.to_N_bounded b). lia. Qed.

Lemma byte_of_to_N b : byte_of_N (Byte.to_N b) = b.
Proof.
  unfold byte_of_N. rewrite N.mod_small by apply byte_to_N_lt.
  by rewrite Byte.of_to_N.
Qed.

#[export] Instance byte_eq_dec : EqDecision byte := Byte.byte_eq_dec.

(** [[]byte(s)] and [string(b)]. *)
Definition bytes_of_string (s : string) : list byte := String.list_byte_of_string s.
Definition string_of_bytes (b : list byte) : string := String.string_of_list_byte b.

Lemma bytes_of_string_of_bytes b : bytes_of_string (string_of_bytes b) = b.
Proof. apply String.list_byte_of_string_of_list_byte. Qed.

Lemma string_of_bytes_of_string s : string_of_bytes (bytes_of_string s) = s.
Proof. apply String.string_of_list_byte_of_string. Qed.

(** ** Shared automation *)

(** The lemmas that close the routine goals of the components. *)
Create HintDb tcp.
#[export] Hint Resolve int64_range byte_to_N_lt : tcp.

(** Split on the [match]es of a hypothesis or goal, keeping equations. *)
Ltac case_all :=
  repeat (case_match; simplify_eq/=).

(** Destruct existentials and conjunctions of the context. *)
Ltac deex :=
  repeat match goal with
  | H : exists x, _ |- _ => let y := fresh x in destruct H as [y H]
  | H : _ /\ _ |- _ => destruct H
  end.

(** ** Bits of natural numbers *)
Lemma N_lor_shiftl_add a b n :
  (b < 2 ^ n)%N -> N.lor (N.shiftl a n) b = (a * 2 ^ n + b)%N.
Proof.
  intros Hb.
  assert (Hz : N.land (N.shiftl a n) b = 0%N).
  { apply N.bits_inj_0. intros i. rewrite N.land_spec.
    destruct (N.lt_ge_cases i n) as [Hi|Hi].
    - by rewrite N.shiftl_spec_low.
    - rewrite <- (N.mod_small b (2 ^ n)) by done.
      by rewrite N.mod_pow2_bits_high, andb_false_r by done. }
  rewrite <- N.lxor_lor, <- N.add_nocarry_lxor by done.
  by rewrite N.shiftl_mul_pow2.
Qed.

Lemma byte_of_N_eq n b : (n `mod` 256 = Byte.to_N b)%N -> byte_of_N n = b.
Proof.
  intros H. unfold byte_of_N. rewrite H. by rewrite Byte.of_to_N.
Qed.

(** [lia] with division and remainder by constants. *)
Ltac divmod_lia := zify; Z.to_euclidean_division_equations; lia.

(** ** Counting the elements of a list that satisfy a test *)
Fixpoint countb {A} (p : A -> bool) (l : list A) : nat :=
  match l with
  | [] => 0
  | x :: r => Nat.b2n (p x) + countb p r
  end.

Section countb.
Context {A : Type} (p : A -> bool).

Lemma countb_app l1 l2 : countb p (l1 ++ l2) = countb p l1 + countb p l2.
Proof. induction l1; cbn; lia. Qed.

Lemma countb_insert l i x y :
  l !! i = Some x -> countb p (<[i := y]> l) + Nat.b2n (p x) = countb p l + Nat.b2n (p y).
Proof.
  revert i. induction l as [|a l IH]; intros [|i]; intros H; simplify_eq/=; [lia|].
  specialize (IH i H). lia.
Qed.

Lemma countb_lookup l i x : l !! i = Some x -> Nat.b2n (p x) <= countb p l.
Proof.
  revert i. induction l as [|a l IH]; intros [|i]; intros H; simplify_eq/=; [lia|].
  specialize (IH i H). lia.
Qed.

Lemma countb_lookup2 l i j x y :
  l !! i = Some x -> l !! j = Some y -> i <> j -> Nat.b2n (p x) + Nat.b2n (p y) <= countb p l.
Proof.
  revert i j. induction l as [|a l IH]; intros [|i] [|j]; intros Hi Hj Hne; simplify_eq/=.
  - apply countb_lookup in Hj. lia.
  - apply countb_lookup in Hi. lia.
  - specialize (IH i j Hi Hj ltac:(lia)). lia.
Qed.

Lemma countb_ex l : 0 < countb p l -> exists i x, l !! i = Some x /\ p x = true.
Proof.
  induction l as [|y l IH]; cbn; [lia|]. destruct (p y) eqn:Hy.
  - intros _. by exists 0, y.
  - intros H. destruct (IH H) as (i & x & Hi & Hx). by exists (S i), x.
Qed.

Lemma countb_none l : (forall x, x ∈ l -> p x = false) -> countb p l = 0.
Proof.
  induction l as [|a l IH]; cbn; intros H; [done|]. rewrite (H a) by set_solver.
  cbn. apply IH. set_solver.
Qed.
End countb.

Lemma sum_list_with_insert {A} (f : A -> nat) l i x y :
  l !! i = Some x -> sum_list_with f (<[i := y]> l) + f x = sum_list_with f l + f y.
Proof.
  revert i. induction l as [|a l IH]; intros [|i]; intros H; simplify_eq/=; [lia|].
  specialize (IH i H). lia.
Qed.

(** ** Values owned by the entries of a list

    What the threads own, one entry per thread. *)
Section owned.
Context {A : Type}.

Definition owned (qs : list (option A)) : list A := omap id qs.

Lemma owned_app l1 l2 : owned (l1 ++ l2) = owned l1 ++ owned l2.
Proof. unfold owned. by rewrite omap_app. Qed.

(** Replacing the phase of a thread moves what it owned for what it owns. *)
Lemma owned_insert (qs : list (option A)) (i : nat) q q' :
  qs !! i = Some q ->
  owned (<[i := q']> qs) ++ option_list q ≡ₚ owned qs ++ option_list q'.
Proof.
  intros Hi. rewrite (insert_take_drop _ _ _ (lookup_lt_Some _ _ _ Hi)).
  rewrite <-(take_drop_middle _ _ _ Hi) at 3. rewrite !owned_app.
  assert (Hc : forall x (l : list (option A)), owned (x :: l) = option_list x ++ owned l)
    by (by intros []).
  rewrite !Hc. solve_Permutation.
Qed.

Lemma owned_acquire (qs : list (option A)) (i : nat) b :
  qs !! i = Some None -> owned (<[i := Some b]> qs) ≡ₚ b :: owned qs.
Proof.
  intros Hi. pose proof (owned_insert qs i None (Some b) Hi) as H. cbn in H.
  rewrite app_nil_r in H. rewrite H. by rewrite Permutation_app_comm.
Qed.

Lemma owned_release (qs : list (option A)) (i : nat) b :
  qs !! i = Some (Some b) -> owned qs ≡ₚ b :: owned (<[i := None]> qs).
Proof.
  intros Hi. pose proof (owned_insert qs i (Some b) None Hi) as H. cbn in H.
  rewrite app_nil_r in H. rewrite <-H. by rewrite Permutation_app_comm.
Qed.

Lemma owned_lookup (qs : list (option A)) (i : nat) b :
  qs !! i = Some (Some b) -> b ∈ owned qs.
Proof. intros Hi. rewrite (owned_release _ _ _ Hi). apply list_elem_of_here. Qed.

Lemma owned_nones {B} (l : list B) : owned (map (fun _ => None) l) = [].
Proof. by induction l. Qed.
End owned.

(** ** Lists of lists, sums and selections *)
Lemma flat_map_lookup_ext {A B} (f g : A -> list B) (l : list A) :
  (forall (i : nat) a, l !! i = Some a -> f a = g a) -> flat_map f l = flat_map g l.
Proof.
  induction l as [|a l IH]; intros H; [done|]. cbn. rewrite (H 0 a eq_refl), IH; [done|].
  intros i b. apply (H (S i)).
Qed.

Lemma sum_app l1 l2 : foldr Z.add 0%Z (l1 ++ l2) = (foldr Z.add 0 l1 + foldr Z.add 0 l2)%Z.
Proof. induction l1 as [|z l1 IH]; cbn; [done|]. rewrite IH. lia. Qed.

Lemma concat_prefix {A} (l1 l2 : list (list A)) :
  l1 `prefix_of` l2 -> List.concat l1 `prefix_of` List.concat l2.
Proof. intros [l ->]. rewrite concat_app. by eexists. Qed.

Lemma StronglySorted_snoc {A} (R : A -> A -> Prop) (l : list A) x :
  StronglySorted R l -> Forall (fun y => R y x) l -> StronglySorted R (l ++ [x]).
Proof.
  induction 1 as [|y l Hl IH Hy]; intros Hx; [by repeat constructor|].
  apply Forall_cons in Hx as [Hyx Hx]. cbn. constructor; [by apply IH|].
  apply Forall_app. split; [done|by constructor].
Qed.

Lemma filter_all {A} (P : A -> Prop) `{forall x, Decision (P x)} (l : list A) :
  Forall P l -> filter P l = l.
Proof. induction 1 as [|x l Hx _ IH]; [done|]. by rewrite filter_cons, decide_True, IH. Qed.

Lemma filter_none {A} (P : A -> Prop) `{forall x, Decision (P x)} (l : list A) :
  Forall (fun x => ~ P x) l -> filter P l = [].
Proof. induction 1 as [|x l Hx _ IH]; [done|]. by rewrite filter_cons, decide_False. Qed.
