(* ===== verification/GoStd.v ===== *)
(** * The Go standard library, as far as the sources use it

    [fmt] and [strconv] formatting, [strings], [net.JoinHostPort] and the
    [errors] package. Non-ASCII text is kept as its UTF-8 bytes. *)
From S2P Require Import Prelude.
From Stdlib Require Import Ascii String.

Local Open Scope string_scope.

(** ** Strings *)

(** [strconv.Itoa]. *)
Definition Itoa (z : Z) : string := pretty z.

(** [strings.Contains(s, sub)]. *)
Fixpoint contains (sub s : string) : bool :=
  String.prefix sub s ||
  match s with
  | EmptyString => false
  | String _ s' => contains sub s'
  end.

(** [strings.HasPrefix]-style search of one byte. *)
Fixpoint has_char (c : ascii) (s : string) : bool :=
  match s with
  | EmptyString => false
  | String d s' => Ascii.eqb c d || has_char c s'
  end.

Definition ascii_lower (c : ascii) : ascii :=
  let n := nat_of_ascii c in
  if (65 <=? n)%nat && (n <=? 90)%nat then ascii_of_nat (n + 32) else c.

(** [strings.ToLower]. Bytes of multi-byte runes are copied, except the two
    runes whose lower case is ASCII: U+0130 (C4 B0) is mapped to [i] and
    U+212A (E2 84 AA) to [k]. *)
Fixpoint ToLower (s : string) : string :=
  match s with
  | String "196" (String "176" r) => String "i" (ToLower r)
  | String "226" (String "132" (String "170" r)) => String "k" (ToLower r)
  | String c r => String (ascii_lower c) (ToLower r)
  | EmptyString => EmptyString
  end.

Definition ascii_upper (c : ascii) : ascii :=
  let n := nat_of_ascii c in
  if (97 <=? n)%nat && (n <=? 122)%nat then ascii_of_nat (n - 32) else c.

(** [strings.ToUpper] on ASCII text. *)
Fixpoint ToUpper (s : string) : string :=
  match s with
  | EmptyString => EmptyString
  | String c r => String (ascii_upper c) (ToUpper r)
  end.

(** [net.JoinHostPort]. *)
Definition JoinHostPort (host port : string) : string :=
  if has_char ":" host then "[" ++ host ++ "]:" ++ port
  else host ++ ":" ++ port.

(** ** Errors

    An [error] value, as a term: sentinels made by [errors.New], the wrappers
    of [fmt.Errorf] with one [%w] verb (text before and after it), and the
    error types of the standard library the sources tell apart. *)
Inductive goerr : Type :=
| ErrNew (msg : string)
| ErrWrap (before : string) (e : goerr) (after : string)
| ErrEOF                                   (* io.EOF *)
| ErrNet (msg : string) (timeout : bool)   (* net.Error, with its Timeout() *)
| CorruptInputError (off : Z)              (* encoding/base64 *)
| InvalidByteError (b : byte)              (* encoding/hex *)
| ErrLength.                               (* encoding/hex *)

#[export] Instance goerr_eq_dec : EqDecision goerr.
Proof. solve_decision. Defined.

Definition nibble (n : N) : ascii :=
  if (n <? 10)%N then ascii_of_N (48 + n) else ascii_of_N (87 + n).

(** The body of [strconv.Quote]: quotes and backslashes are escaped, control
    bytes take their short or [\x] form, bytes from 0x80 on are copied (the
    printable runes). *)
Fixpoint quote_body (s : string) : string :=
  match s with
  | EmptyString => EmptyString
  | String c r =>
      let n := N_of_ascii c in
      (if (n =? 34)%N || (n =? 92)%N then String "\" (String c EmptyString)
       else if (n =? 7)%N then "\a" else if (n =? 8)%N then "\b"
       else if (n =? 12)%N then "\f" else if (n =? 10)%N then "\n"
       else if (n =? 13)%N then "\r" else if (n =? 9)%N then "\t"
       else if (n =? 11)%N then "\v"
       else if (n <? 32)%N || (n =? 127)%N
       then "\x" ++ String (nibble (n / 16)) (String (nibble (n `mod` 16)) EmptyString)
       else String c EmptyString) ++ quote_body r
  end.

(** The [%q] verb. *)
Definition quote (s : string) : string :=
  String "034" (quote_body s ++ String "034" EmptyString).

(** [encoding/hex] prints the byte with [%#U]. *)
Definition upper_nibble (n : N) : ascii :=
  if (n <? 10)%N then ascii_of_N (48 + n) else ascii_of_N (55 + n).
Definition sharp_U (b : byte) : string :=
  let n := Byte.to_N b in
  "U+00" ++ String (upper_nibble (n / 16)) (String (upper_nibble (n `mod` 16))
    (if (32 <=? n)%N && (n <? 127)%N
     then " '" ++ String (ascii_of_N n) "'" else EmptyString)).

(** [err.Error()]. *)
Fixpoint Error (e : goerr) : string :=
  match e with
  | ErrNew msg => msg
  | ErrWrap b e a => b ++ Error e ++ a
  | ErrEOF => "EOF"
  | ErrNet msg _ => msg
  | CorruptInputError off => "illegal base64 data at input byte " ++ Itoa off
  | InvalidByteError b => "encoding/hex: invalid byte: " ++ sharp_U b
  | ErrLength => "encoding/hex: odd length hex string"
  end.

(** [errors.Is(err, target)]: some error of the chain equals the target. *)
Fixpoint errors_Is (e target : goerr) : bool :=
  bool_decide (e = target) ||
  match e with
  | ErrWrap _ e' _ => errors_Is e' target
  | _ => false
  end.

(** [errors.As(err, &netErr)] followed by [netErr.Timeout()]: the first
    [net.Error] of the chain decides. *)
Fixpoint is_net_timeout (e : goerr) : bool :=
  match e with
  | ErrNet _ t => t
  | ErrWrap _ e' _ => is_net_timeout e'
  | _ => false
  end.

Lemma errors_Is_refl e : errors_Is e e = true.
Proof. destruct e; cbn -[bool_decide]; by rewrite bool_decide_true. Qed.

Lemma errors_Is_wrap b e a t : errors_Is e t = true -> errors_Is (ErrWrap b e a) t = true.
Proof. intros H. cbn -[bool_decide]. by rewrite H, orb_true_r. Qed.

#[export] Hint Resolve errors_Is_refl errors_Is_wrap : tcp.

(** ** Byte slices

    A [[]byte] is a window into an array that others may hold too: the array of
    a pooled buffer, or the one of the script's ArrayBuffers. A slice that
    nobody else holds is given by its bytes. *)
Inductive array := APooled (b : nat) | AScript (m : nat).
#[export] Instance array_eq_dec : EqDecision array.
Proof. solve_decision. Defined.

Inductive goslice := Fresh (data : list byte) | Window (a : array) (off len : nat).

#[export] Instance goslice_eq_dec : EqDecision goslice.
Proof. solve_decision. Defined.

(** [len(s)] *)
Definition slice_len (s : goslice) : nat :=
  match s with Fresh data => List.length data | Window _ _ len => len end.

(** [s[n:]] *)
Definition slice_from (n : nat) (s : goslice) : goslice :=
  match s with
  | Fresh data => Fresh (drop n data)
  | Window a off len => Window a (off + n) (len - n)
  end.

(** [len] bytes of an array, from [off] on. *)
Definition window (off len : nat) (bytes : list byte) : list byte :=
  map (fun k => nth k bytes x00) (seq off len).

(** What a slice shows, the arrays holding [mem]. *)
Definition slice_bytes (mem : array -> list byte) (s : goslice) : list byte :=
  match s with Fresh data => data | Window a off len => window off len (mem a) end.

Lemma length_slice_bytes mem s : List.length (slice_bytes mem s) = slice_len s.
Proof. destruct s; [done|]. cbn. unfold window. by rewrite length_map, length_seq. Qed.

Lemma slice_len_from n s : slice_len (slice_from n s) = slice_len s - n.
Proof. destruct s; [apply length_drop|done]. Qed.

Lemma slice_bytes_from mem n s : slice_bytes mem (slice_from n s) = drop n (slice_bytes mem s).
Proof.
  destruct s as [|a off len]; [done|]. cbn. unfold window.
  change (map ?f ?l) with (f <$> l). by rewrite <-fmap_drop, drop_seq.
Qed.

Lemma slice_from_0 s : slice_from 0 s = s.
Proof. destruct s; [done|]. cbn. f_equal; lia. Qed.

Lemma slice_from_from n m s : slice_from m (slice_from n s) = slice_from (n + m) s.
Proof. destruct s; cbn; [by rewrite drop_drop|]. f_equal; lia. Qed.

(** Sanity checks against the Go test suite and documentation. *)
Example JoinHostPort_v6 : JoinHostPort "::1" (Itoa 80) = "[::1]:80".
Proof. vm_compute. reflexivity. Qed.
Example ToLower_mixed : ToLower "Base64URL" = "base64url".
Proof. reflexivity. Qed.
Example contains_sub : contains "reset by peer" "read: connection reset by peer" = true.
Proof. reflexivity. Qed.
