(* ===== verification/Codec.v ===== *)
(** * String decoding of [write]

    The decoders of [encoding/hex] and [encoding/base64] that
    [tcp/socket_write.go] calls, and on top of them the source's own
    [decodeString] and [decodeBase64URLString]. The encoders of the same
    packages serve as the reference for the round trips. *)
From S2P Require Import Prelude GoStd.

(** ** encoding/hex *)
Module Hex.

(** [reverseHexTable]: the value of a hexadecimal digit. *)
Definition from_digit (c : byte) : option N :=
  let n := Byte.to_N c in
  if (48 <=? n)%N && (n <=? 57)%N then Some (n - 48)%N
  else if (97 <=? n)%N && (n <=? 102)%N then Some (n - 87)%N
  else if (65 <=? n)%N && (n <=? 70)%N then Some (n - 55)%N
  else None.

(** [hex.DecodeString]: digits are taken in pairs; a lone last digit is
    checked before the odd length is reported. *)
Fixpoint decode (src : list byte) : result (list byte) goerr :=
  match src with
  | [] => Ok []
  | [p] => match from_digit p with
           | None => Err (InvalidByteError p)
           | Some _ => Err ErrLength
           end
  | p :: q :: rest =>
      match from_digit p, from_digit q with
      | None, _ => Err (InvalidByteError p)
      | _, None => Err (InvalidByteError q)
      | Some a, Some b =>
          match decode rest with
          | Ok r => Ok (byte_of_N (N.lor (N.shiftl a 4) b) :: r)
          | Err e => Err e
          end
      end
  end.

Definition to_digit (n : N) : byte := byte_of_N (if (n <? 10)%N then 48 + n else 87 + n).

(** [hex.EncodeToString], the reference encoder. *)
Fixpoint encode (b : list byte) : list byte :=
  match b with
  | [] => []
  | x :: r => to_digit (N.shiftr (Byte.to_N x) 4) :: to_digit (N.land (Byte.to_N x) 15)
              :: encode r
  end.

End Hex.

(** ** encoding/base64 *)
Module Base64.

(** An [Encoding]: its last two alphabet characters and its padding. *)
Record encoding := { c62 : byte; c63 : byte; padChar : option byte }.

Definition StdEncoding := {| c62 := "+"; c63 := "/"; padChar := Some "="%byte |}.
Definition URLEncoding := {| c62 := "-"; c63 := "_"; padChar := Some "="%byte |}.
Definition RawURLEncoding := {| c62 := "-"; c63 := "_"; padChar := None |}.

(** [enc.decodeMap]: the six bits of a character of the alphabet. *)
Definition decodeMap (enc : encoding) (c : byte) : option N :=
  let n := Byte.to_N c in
  if (65 <=? n)%N && (n <=? 90)%N then Some (n - 65)%N
  else if (97 <=? n)%N && (n <=? 122)%N then Some (n - 71)%N
  else if (48 <=? n)%N && (n <=? 57)%N then Some (n + 4)%N
  else if Byte.eqb c (c62 enc) then Some 62%N
  else if Byte.eqb c (c63 enc) then Some 63%N
  else None.

Definition newline (c : byte) : bool := Byte.eqb c x0a || Byte.eqb c x0d.

(** Skip newlines, counting the bytes skipped. *)
Fixpoint skip_nl (src : list byte) (si : Z) : list byte * Z :=
  match src with
  | c :: r => if newline c then skip_nl r (si + 1) else (src, si)
  | [] => ([], si)
  end.

(** The bytes of a quantum: [dlen - 1] bytes of the 24-bit value. *)
Definition emit (d : list N) : list byte :=
  let v i := nth i d 0%N in
  let val := N.lor (N.lor (N.lor (N.shiftl (v 0%nat) 18) (N.shiftl (v 1%nat) 12))
                          (N.shiftl (v 2%nat) 6)) (v 3%nat) in
  take (length d - 1) [byte_of_N (N.shiftr val 16); byte_of_N (N.shiftr val 8); byte_of_N val].

(** [enc.DecodeString]: [d] holds the characters of the current quantum
    (its length is [j] of [decodeQuantum]), [si] the read position and
    [total] the length of the input. *)
Fixpoint decode_from (enc : encoding) (total : Z) (src : list byte) (si : Z) (d : list N)
    : result (list byte) goerr :=
  match src with
  | [] =>
      match d, padChar enc with
      | [], _ => Ok []
      | [_], _ => Err (CorruptInputError (si - 1))
      | _, Some _ => Err (CorruptInputError (si - Z.of_nat (length d)))
      | _, None => Ok (emit d)
      end
  | c :: r =>
      match decodeMap enc c with
      | Some v =>
          if Nat.eqb (length d) 3 then
            match decode_from enc total r (si + 1) [] with
            | Ok rest => Ok (emit (d ++ [v]) ++ rest)
            | Err e => Err e
            end
          else decode_from enc total r (si + 1) (d ++ [v])
      | None =>
          if newline c then decode_from enc total r (si + 1) d
          else if negb (bool_decide (Some c = padChar enc)) then Err (CorruptInputError si)
          else match length d with
               | O | S O => Err (CorruptInputError si)
               | S (S O) =>
                   match skip_nl r (si + 1) with
                   | ([], _) => Err (CorruptInputError total)
                   | (c' :: r', si') =>
                       if negb (bool_decide (Some c' = padChar enc))
                       then Err (CorruptInputError (si' - 1))
                       else match skip_nl r' (si' + 1) with
                            | ([], _) => Ok (emit d)
                            | (_, si'') => Err (CorruptInputError si'')
                            end
                   end
               | _ => match skip_nl r (si + 1) with
                      | ([], _) => Ok (emit d)
                      | (_, si'') => Err (CorruptInputError si'')
                      end
               end
      end
  end.

Definition decode (enc : encoding) (src : list byte) : result (list byte) goerr :=
  decode_from enc (Z.of_nat (length src)) src 0 [].

Definition encodeChar (enc : encoding) (n : N) : byte :=
  if (n <? 26)%N then byte_of_N (n + 65)
  else if (n <? 52)%N then byte_of_N (n + 71)
  else if (n <? 62)%N then byte_of_N (n - 4)
  else if (n =? 62)%N then c62 enc else c63 enc.

Definition pad (enc : encoding) (k : nat) : list byte :=
  match padChar enc with Some p => replicate k p | None => [] end.

(** The 24-bit value of three bytes and its 6-bit digits. *)
Definition tri (x y z : byte) : N :=
  N.lor (N.lor (N.shiftl (Byte.to_N x) 16) (N.shiftl (Byte.to_N y) 8)) (Byte.to_N z).
Definition sextet (v k : N) : N := N.land (N.shiftr v k) 63.

(** [enc.EncodeToString], the reference encoder. *)
Fixpoint encode (enc : encoding) (b : list byte) : list byte :=
  let ch v k := encodeChar enc (sextet v k) in
  match b with
  | [] => []
  | [x] => let v := tri x x00 x00 in [ch v 18; ch v 12] ++ pad enc 2
  | [x; y] => let v := tri x y x00 in [ch v 18; ch v 12; ch v 6] ++ pad enc 1
  | x :: y :: z :: r => let v := tri x y z in [ch v 18; ch v 12; ch v 6; ch v 0] ++ encode enc r
  end%N.

End Base64.

(** ** tcp/socket_write.go: decodeBase64URLString *)
Definition decodeBase64URLString (s : string) : result (list byte) goerr :=
  match Base64.decode Base64.RawURLEncoding (bytes_of_string s) with
  | Ok data => Ok data
  | Err _ => Base64.decode Base64.URLEncoding (bytes_of_string s)
  end.

Definition errUnsupportedEncoding : goerr := ErrNew "unsupported encoding".

(** ** tcp/socket_write.go: decodeString *)
Definition decodeString (s encoding : string) : result (list byte) goerr :=
  let enc := ToLower encoding in
  if bool_decide (enc ∈ [""; "utf8"; "utf-8"; "ascii"]) then Ok (bytes_of_string s)
  else if bool_decide (enc = "base64") then Base64.decode Base64.StdEncoding (bytes_of_string s)
  else if bool_decide (enc = "base64url") then decodeBase64URLString s
  else if bool_decide (enc = "hex") then Hex.decode (bytes_of_string s)
  else Err (ErrWrap "" errUnsupportedEncoding (String.append " " (quote encoding))).

(** ** Facts about the decoders *)

Lemma from_to_digit n : (n < 16)%N -> Hex.from_digit (Hex.to_digit n) = Some n.
Proof.
  intros H. assert (Hall : forallb (fun k => bool_decide
    (Hex.from_digit (Hex.to_digit (N.of_nat k)) = Some (N.of_nat k))) (seq 0 16) = true)
    by (vm_compute; reflexivity).
  rewrite forallb_forall in Hall. specialize (Hall (N.to_nat n)).
  rewrite bool_decide_eq_true, N2Nat.id in Hall. apply Hall, in_seq. lia.
Qed.

Lemma hex_byte (x : byte) :
  byte_of_N (N.lor (N.shiftl (N.shiftr (Byte.to_N x) 4) 4) (N.land (Byte.to_N x) 15)) = x.
Proof. destruct x; reflexivity. Qed.

Lemma hex_decode_encode b : Hex.decode (Hex.encode b) = Ok b.
Proof.
  induction b as [|x b IH]; simpl; [done|].
  pose proof (byte_to_N_lt x).
  rewrite !from_to_digit, IH, hex_byte; [done| |].
  - change 15%N with (N.ones 4). rewrite N.land_ones. apply N.mod_lt. done.
  - rewrite N.shiftr_div_pow2. change (2 ^ 4)%N with 16%N. divmod_lia.
Qed.

(** The two facts about an alphabet that the round trip needs. *)
Class Base64Alphabet (enc : Base64.encoding) : Prop := {
  alphabet_ok n : (n < 64)%N -> Base64.decodeMap enc (Base64.encodeChar enc n) = Some n;
  pad_ok p : Base64.padChar enc = Some p ->
    Base64.decodeMap enc p = None /\ Base64.newline p = false
}.

Ltac solve_alphabet enc :=
  constructor;
  [ intros n Hn;
    assert (Hall : forallb (fun k => bool_decide
      (Base64.decodeMap enc (Base64.encodeChar enc (N.of_nat k)) = Some (N.of_nat k))) (seq 0 64) = true)
      by (vm_compute; reflexivity);
    rewrite forallb_forall in Hall; specialize (Hall (N.to_nat n));
    rewrite bool_decide_eq_true, N2Nat.id in Hall; apply Hall, in_seq; lia
  | intros p Hp; simplify_eq/=; split; reflexivity ].

#[export] Instance StdEncoding_alphabet : Base64Alphabet Base64.StdEncoding.
Proof. solve_alphabet Base64.StdEncoding. Qed.
#[export] Instance URLEncoding_alphabet : Base64Alphabet Base64.URLEncoding.
Proof. solve_alphabet Base64.URLEncoding. Qed.
#[export] Instance RawURLEncoding_alphabet : Base64Alphabet Base64.RawURLEncoding.
Proof. solve_alphabet Base64.RawURLEncoding. Qed.

(** A quantum in arithmetic form. *)
Lemma quantum_val a b c d :
  (a < 64)%N -> (b < 64)%N -> (c < 64)%N -> (d < 64)%N ->
  N.lor (N.lor (N.lor (N.shiftl a 18) (N.shiftl b 12)) (N.shiftl c 6)) d
  = (a * 262144 + b * 4096 + c * 64 + d)%N.
Proof.
  intros. rewrite <- !N.lor_assoc.
  rewrite (N_lor_shiftl_add c d 6) by done.
  rewrite (N_lor_shiftl_add b _ 12), (N_lor_shiftl_add a _ 18);
    change (2 ^ 18)%N with 262144%N; change (2 ^ 12)%N with 4096%N;
    change (2 ^ 6)%N with 64%N; lia.
Qed.

Lemma tri_val x y z :
  Base64.tri x y z = (Byte.to_N x * 65536 + Byte.to_N y * 256 + Byte.to_N z)%N.
Proof.
  unfold Base64.tri. pose proof (byte_to_N_lt x). pose proof (byte_to_N_lt y).
  pose proof (byte_to_N_lt z). rewrite <- N.lor_assoc.
  rewrite (N_lor_shiftl_add (Byte.to_N y) _ 8), (N_lor_shiftl_add (Byte.to_N x) _ 16);
    change (2 ^ 16)%N with 65536%N; change (2 ^ 8)%N with 256%N; lia.
Qed.

Lemma sextet_lt v k : (Base64.sextet v k < 64)%N.
Proof.
  unfold Base64.sextet. change 63%N with (N.ones 6). rewrite N.land_ones. by apply N.mod_lt.
Qed.
#[export] Hint Resolve sextet_lt : tcp.

Lemma sextet_arith v k : Base64.sextet v k = ((v / 2 ^ k) `mod` 64)%N.
Proof.
  unfold Base64.sextet. change 63%N with (N.ones 6).
  by rewrite N.land_ones, N.shiftr_div_pow2.
Qed.

(** The digits of three bytes, in arithmetic form. *)
Ltac sextets x y z :=
  pose proof (byte_to_N_lt x); pose proof (byte_to_N_lt y); pose proof (byte_to_N_lt z);
  rewrite ?sextet_arith, tri_val;
  change (2 ^ 18)%N with 262144%N; change (2 ^ 12)%N with 4096%N;
  change (2 ^ 6)%N with 64%N; change (2 ^ 0)%N with 1%N;
  change (Byte.to_N x00) with 0%N.

Lemma emit4 a b c d :
  (a < 64)%N -> (b < 64)%N -> (c < 64)%N -> (d < 64)%N ->
  let v := (a * 262144 + b * 4096 + c * 64 + d)%N in
  Base64.emit [a; b; c; d] = [byte_of_N (v / 65536); byte_of_N (v / 256); byte_of_N v].
Proof.
  intros. unfold Base64.emit. cbn [nth length take Nat.sub].
  rewrite quantum_val by done. by rewrite !N.shiftr_div_pow2.
Qed.

Lemma emit_pad2 a b : Base64.emit [a; b] = take 1 (Base64.emit [a; b; 0; 0]%N).
Proof. done. Qed.
Lemma emit_pad1 a b c : Base64.emit [a; b; c] = take 2 (Base64.emit [a; b; c; 0]%N).
Proof. done. Qed.

(** The four characters of three bytes decode to the three bytes. *)
Lemma emit_triple (x y z : byte) :
  let v := Base64.tri x y z in
  Base64.emit [Base64.sextet v 18; Base64.sextet v 12; Base64.sextet v 6; Base64.sextet v 0]
  = [x; y; z].
Proof.
  intros v. rewrite emit4 by auto with tcp. unfold v.
  repeat f_equal; apply byte_of_N_eq; sextets x y z; divmod_lia.
Qed.

Lemma tri_low6 x y : Base64.sextet (Base64.tri x y x00) 0 = 0%N.
Proof. sextets x y x00. divmod_lia. Qed.

Lemma tri_low12 x : Base64.sextet (Base64.tri x x00 x00) 6 = 0%N.
Proof. sextets x x00 x00. divmod_lia. Qed.

Section round_trip.
Context (enc : Base64.encoding) `{!Base64Alphabet enc}.

Lemma decode_char total n r si d :
  (n < 64)%N -> length d < 3 ->
  Base64.decode_from enc total (Base64.encodeChar enc n :: r) si d
  = Base64.decode_from enc total r (si + 1) (d ++ [n]).
Proof.
  intros Hn Hd. cbn [Base64.decode_from]. rewrite alphabet_ok by done.
  destruct (Nat.eqb_spec (length d) 3); [lia | done].
Qed.

Lemma decode_char4 total n r si d :
  (n < 64)%N -> length d = 3 ->
  Base64.decode_from enc total (Base64.encodeChar enc n :: r) si d
  = match Base64.decode_from enc total r (si + 1) [] with
    | Ok rest => Ok (Base64.emit (d ++ [n]) ++ rest)
    | Err e => Err e
    end.
Proof.
  intros Hn Hd. cbn [Base64.decode_from]. rewrite alphabet_ok by done.
  by rewrite Hd.
Qed.

Lemma decode_pad2 total a b si :
  Base64.decode_from enc total (Base64.pad enc 2) si [a; b] = Ok (Base64.emit [a; b]).
Proof.
  unfold Base64.pad. destruct (Base64.padChar enc) as [p|] eqn:Hp; simpl; rewrite ?Hp; [|done].
  destruct (pad_ok p Hp) as [-> Hnl]. rewrite !Hnl.
  by repeat (case_bool_decide; simpl; [|congruence]).
Qed.

Lemma decode_pad1 total a b c si :
  Base64.decode_from enc total (Base64.pad enc 1) si [a; b; c] = Ok (Base64.emit [a; b; c]).
Proof.
  unfold Base64.pad. destruct (Base64.padChar enc) as [p|] eqn:Hp; simpl; rewrite ?Hp; [|done].
  destruct (pad_ok p Hp) as [-> ->].
  by case_bool_decide; simpl; [|congruence].
Qed.

(** Three bytes at a time, whatever the position. *)
Lemma decode_from_encode total b si :
  Base64.decode_from enc total (Base64.encode enc b) si [] = Ok b.
Proof.
  revert si. induction b as [b IH] using (induction_ltof1 _ length).
  unfold ltof in IH. intros si.
  destruct b as [|x [|y [|z r]]]; [done|..]; cbn [Base64.encode app];
    rewrite !decode_char by (simpl; auto with tcp; lia); cbn [app].
  - rewrite decode_pad2, emit_pad2. pose proof (emit_triple x x00 x00) as He.
    cbn zeta in He. rewrite tri_low12, tri_low6 in He. by rewrite He.
  - rewrite decode_pad1, emit_pad1. pose proof (emit_triple x y x00) as He.
    cbn zeta in He. rewrite tri_low6 in He. by rewrite He.
  - rewrite decode_char4, IH by (simpl; auto with tcp; lia).
    cbn [app]. by rewrite (emit_triple x y z).
Qed.

Lemma base64_decode_encode b : Base64.decode enc (Base64.encode enc b) = Ok b.
Proof. apply decode_from_encode. Qed.
End round_trip.

(** The unpadded decoder on padded text: it succeeds only when there is no
    padding, and then with the right bytes. *)
Lemma raw_decode_padded total b si :
  let r := Base64.decode_from Base64.RawURLEncoding total (Base64.encode Base64.URLEncoding b) si [] in
  r = Ok b \/ exists e, r = Err e.
Proof.
  cbn zeta. revert si. induction b as [b IH] using (induction_ltof1 _ length).
  unfold ltof in IH. intros si.
  assert (Hc : forall n, Base64.encodeChar Base64.URLEncoding n
                  = Base64.encodeChar Base64.RawURLEncoding n) by done.
  destruct b as [|x [|y [|z r]]]; cbn [Base64.encode app]; rewrite ?Hc.
  - by left.
  - right. rewrite 2!(decode_char Base64.RawURLEncoding) by (simpl; auto with tcp; lia). simpl. eauto.
  - right. rewrite 3!(decode_char Base64.RawURLEncoding) by (simpl; auto with tcp; lia). simpl. eauto.
  - rewrite 3!(decode_char Base64.RawURLEncoding), (decode_char4 Base64.RawURLEncoding) by (simpl; auto with tcp; lia).
    match goal with |- context [Base64.decode_from _ _ _ ?k _] =>
      destruct (IH r ltac:(simpl; lia) k) as [H|[e H]]; rewrite H end; [|eauto].
    left. cbn [app]. by rewrite (emit_triple x y z).
Qed.

Lemma decodeBase64URLString_padded b :
  decodeBase64URLString (string_of_bytes (Base64.encode Base64.URLEncoding b)) = Ok b.
Proof.
  unfold decodeBase64URLString, Base64.decode at 1.
  rewrite bytes_of_string_of_bytes.
  destruct (raw_decode_padded (Z.of_nat (length (Base64.encode Base64.URLEncoding b))) b 0) as [H|[e H]];
    cbn zeta in H; rewrite H; [done|].
  apply base64_decode_encode, _.
Qed.

Lemma decodeBase64URLString_raw b :
  decodeBase64URLString (string_of_bytes (Base64.encode Base64.RawURLEncoding b)) = Ok b.
Proof.
  unfold decodeBase64URLString. rewrite bytes_of_string_of_bytes.
  by rewrite base64_decode_encode by apply _.
Qed.

(** Which encoding names are accepted: the comparison is on the lower-cased
    name. *)
Definition encoding_names : list string :=
  [""; "utf8"; "utf-8"; "ascii"; "base64"; "base64url"; "hex"].

Lemma decodeString_unsupported s enc :
  ToLower enc ∉ encoding_names ->
  decodeString s enc = Err (ErrWrap "" errUnsupportedEncoding (String.append " " (quote enc))).
Proof.
  intros H. unfold decodeString.
  unfold encoding_names in H.
  rewrite bool_decide_false by set_solver.
  by rewrite !bool_decide_false by (intros Hc; rewrite Hc in H; set_solver).
Qed.

(** Every error of the base64 decoder is a [CorruptInputError], every error
    of the hex decoder one of its two kinds. *)
Lemma base64_decode_error enc total src si d e :
  Base64.decode_from enc total src si d = Err e -> exists off, e = CorruptInputError off.
Proof.
  revert si d. induction src as [|c r IH]; intros si d; simpl; intros H.
  - repeat case_match; simplify_eq; eauto.
  - repeat case_match; simplify_eq; eauto.
Qed.

Lemma hex_decode_error src e :
  Hex.decode src = Err e -> e = ErrLength \/ exists b, e = InvalidByteError b.
Proof.
  induction src as [src IH] using (induction_ltof1 _ length). unfold ltof in IH.
  destruct src as [|p [|q r]]; simpl; intros H; repeat case_match; simplify_eq; eauto.
  match goal with Hd : Hex.decode ?k = Err _ |- _ => apply (IH k); [simpl; lia | done] end.
Qed.

Lemma decodeBase64URLString_error s e :
  decodeBase64URLString s = Err e -> exists off, e = CorruptInputError off.
Proof.
  unfold decodeBase64URLString. case_match; [done|]. apply base64_decode_error.
Qed.

(** The encodings of a byte string under a name: text is its bytes; [base64url]
    comes with and without padding. *)
Definition encodings (name : string) (b : list byte) : list (list byte) :=
  if bool_decide (name ∈ [""; "utf8"; "utf-8"; "ascii"]) then [b]
  else if bool_decide (name = "base64") then [Base64.encode Base64.StdEncoding b]
  else if bool_decide (name = "base64url") then
    [Base64.encode Base64.URLEncoding b; Base64.encode Base64.RawURLEncoding b]
  else if bool_decide (name = "hex") then [Hex.encode b]
  else [].

(** C20: under each of the seven names that [write] accepts, in any letter case,
    every byte string has an encoding, and each of its encodings is decoded back to
    exactly those bytes. *)
Theorem decodeString_roundtrip (enc : string) (b : list byte) :
  (ToLower enc ∈ encoding_names -> encodings (ToLower enc) b <> []) /\
  forall text, text ∈ encodings (ToLower enc) b -> decodeString (string_of_bytes text) enc = Ok b.
Proof.
  split.
  - unfold encodings, encoding_names. intros Hin. repeat case_bool_decide; try done. set_solver.
  - intros text. unfold encodings, decodeString.
    repeat case_bool_decide; rewrite ?elem_of_cons, ?elem_of_nil; intros Ht;
      repeat destruct Ht as [Ht|Ht]; try done; subst text;
      rewrite ?bytes_of_string_of_bytes, ?hex_decode_encode, ?base64_decode_encode by apply _;
      by rewrite ?decodeBase64URLString_padded, ?decodeBase64URLString_raw.
Qed.

(** C21: [decodeString] rejects exactly the encoding names outside the
    documented list, compared in lower case, and the rejection is an
    [errUnsupportedEncoding]; a supported name never yields that error, even
    when the text does not decode. *)
Theorem decodeString_unsupported_iff (s enc : string) :
  (exists e, decodeString s enc = Err e /\ errors_Is e errUnsupportedEncoding = true)
  <-> ToLower enc ∉ encoding_names.
Proof.
  split.
  - intros (e & He & His) Hin. revert He. unfold decodeString.
    repeat case_bool_decide; intros He; simplify_eq.
    + destruct (base64_decode_error _ _ _ _ _ _ He) as [? ->]. discriminate.
    + destruct (decodeBase64URLString_error _ _ He) as [? ->]. discriminate.
    + destruct (hex_decode_error _ _ He) as [->|[? ->]]; discriminate.
    + unfold encoding_names in Hin. set_solver.
  - intros H. exists (ErrWrap "" errUnsupportedEncoding (String.append " " (quote enc))).
    split; [by apply decodeString_unsupported | auto with tcp].
Qed.

(** ** Witness *)
Lemma decodeString_roundtrip_witness :
  [x7a; xc3; xa9] ∈ encodings (ToLower "UTF-8") [x7a; xc3; xa9] /\
  decodeString (string_of_bytes [x7a; xc3; xa9]) "UTF-8" = Ok [x7a; xc3; xa9].
Proof.
  assert (H : [x7a; xc3; xa9] ∈ encodings (ToLower "UTF-8") [x7a; xc3; xa9])
    by (apply (bool_decide_unpack _); vm_compute; exact I).
  split; [exact H|]. exact (proj2 (decodeString_roundtrip "UTF-8" [x7a; xc3; xa9]) _ H).
Defined.
