(* ===== verification/K6.v ===== *)
(** * What the extension relies on: k6 and the sobek runtime

    The host is not part of this repository. Its operations are the fields of
    the class [K6]; what the code relies on is stated by [K6Laws] (documented
    behaviour of [metrics.TagSet]). [K6Ref] is a concrete instance on which
    the witnesses evaluate. The options records of the extension itself,
    filled in by the runtime's [ExportTo], are declared here too. *)
From S2P Require Import Prelude GoStd.

(** tcp/socket_connect.go: connectOptions *)
Record connectOptions := {
  Port : Z;
  Host : string;
  TLS : bool;
  co_Tags : gmap string string
}.

(** tcp/socket_base.go: socketOptions *)
Record socketOptions := { so_Tags : gmap string string }.

(** tcp/socket_write.go: writeOptions *)
Record writeOptions := { Encoding : string; wo_Tags : gmap string string }.

(** The Go types the sources compare [ExportType()] with. *)
Inductive gotype := TInt64 | TString | TMap | TBytes | TArrayBuffer | TOther.

Class K6 := {
  (** metrics.TagSet *)
  tagset : Type;
  With : tagset -> string -> string -> tagset;
  WithTagsFromMap : tagset -> gmap string string -> tagset;
  TagGet : tagset -> string -> option string;
  (** sobek.Value *)
  Value : Type;
  ExportType : Value -> gotype;
  ToInteger : Value -> Z;
  ValueString : Value -> string;
  IsUndefined : Value -> bool;
  IsNull : Value -> bool;
  (** runtime.ExportTo, at each target type the sources use; the pointer
      targets may be left nil *)
  ExportTo_connectOptions : Value -> result (option connectOptions) goerr;
  ExportTo_string : Value -> result string goerr;
  ExportTo_bytes : Value -> result goslice goerr;
  ExportTo_ArrayBuffer : Value -> result goslice goerr   (** its [Bytes()] *)
}.

(** Documented behaviour of [TagSet]: [With] sets one tag and keeps the
    others; [WithTagsFromMap] does so for every entry of the map. *)
Class K6Laws (K : K6) : Prop := {
  TagGet_With ts k v k' :
    TagGet (With ts k v) k' = if decide (k = k') then Some v else TagGet ts k';
  TagGet_WithTagsFromMap ts m k :
    TagGet (WithTagsFromMap ts m) k = match m !! k with Some v => Some v | None => TagGet ts k end
}.

(** Tag sets that answer every query alike. *)
#[export] Instance tagset_equiv `{K : K6} : Equiv tagset :=
  fun t1 t2 => forall k, TagGet t1 k = TagGet t2 k.

#[export] Instance tagset_equivalence `{K : K6} : Equivalence (≡@{tagset}).
Proof.
  split.
  - by intros t k.
  - intros t1 t2 H k. by rewrite H.
  - intros t1 t2 t3 H1 H2 k. by rewrite H1, H2.
Qed.

#[export] Instance TagGet_proper `{K : K6} : Proper ((≡) ==> (=) ==> (=)) TagGet.
Proof. intros t1 t2 H k k' <-. apply H. Qed.

#[export] Instance With_proper `{KL : K6Laws} : Proper ((≡) ==> (=) ==> (=) ==> (≡)) With.
Proof.
  intros t1 t2 H k k' <- v v' <- j. rewrite !TagGet_With. by rewrite H.
Qed.

#[export] Instance WithTagsFromMap_proper `{KL : K6Laws} :
  Proper ((≡) ==> (=) ==> (≡)) WithTagsFromMap.
Proof.
  intros t1 t2 H m m' <- j. rewrite !TagGet_WithTagsFromMap. by rewrite H.
Qed.

(** ** A concrete host for the witnesses *)
Inductive js_value :=
| JSUndefined
| JSNull
| JSInt (z : Z)
| JSString (s : string) (num : Z)    (* with its numeric value *)
| JSOptions (o : connectOptions)
| JSBytes (b : goslice)
| JSArrayBuffer (b : goslice)
| JSOther.

Definition K6Ref : K6 := {|
  tagset := gmap string string;
  With ts k v := <[k := v]> ts;
  WithTagsFromMap ts m := m ∪ ts;
  TagGet ts k := ts !! k;
  Value := js_value;
  ExportType v := match v with
    | JSInt _ => TInt64 | JSString _ _ => TString | JSOptions _ => TMap
    | JSBytes _ => TBytes | JSArrayBuffer _ => TArrayBuffer | _ => TOther end;
  ToInteger v := match v with JSInt z | JSString _ z => z | _ => 0%Z end;
  ValueString v := match v with JSString s _ => s | _ => "" end;
  IsUndefined v := match v with JSUndefined => true | _ => false end;
  IsNull v := match v with JSNull => true | _ => false end;
  ExportTo_connectOptions v := match v with
    | JSOptions o => Ok (Some o) | _ => Err (ErrNew "cannot export") end;
  ExportTo_string v := match v with JSString s _ => Ok s | _ => Err (ErrNew "cannot export") end;
  ExportTo_bytes v := match v with JSBytes b => Ok b | _ => Err (ErrNew "cannot export") end;
  ExportTo_ArrayBuffer v := match v with
    | JSArrayBuffer b => Ok b | _ => Err (ErrNew "cannot export") end
|}.

#[export] Instance K6Ref_laws : K6Laws K6Ref.
Proof.
  split.
  - intros ts k v k'. apply lookup_insert.
  - intros ts m k. cbn. rewrite lookup_union. by destruct (m !! k), ((ts : gmap string string) !! k).
Qed.
