(* ===== verification/Metrics.v ===== *)
(** * Metrics and tag sets: tcp/metrics.go

    The nine metrics the module registers, and the tag-set construction
    shared by every operation that emits a sample. *)
From S2P Require Import Prelude GoStd K6.

(** The fields of [tcpMetrics]. *)
Inductive metric :=
| tcpConnecting | tcpResolving | tcpDuration
| tcpSockets | tcpReads | tcpWrites | tcpErrors | tcpTimeouts | tcpPartialWrites.

#[export] Instance metric_eq_dec : EqDecision metric.
Proof. solve_decision. Defined.

(** The constants of the same names. *)
Definition metric_name (m : metric) : string :=
  match m with
  | tcpConnecting => "tcp_socket_connecting"
  | tcpResolving => "tcp_socket_resolving"
  | tcpDuration => "tcp_socket_duration"
  | tcpSockets => "tcp_sockets"
  | tcpReads => "tcp_reads"
  | tcpWrites => "tcp_writes"
  | tcpErrors => "tcp_errors"
  | tcpTimeouts => "tcp_timeouts"
  | tcpPartialWrites => "tcp_partial_writes"
  end.

Inductive metric_type := Counter | Trend.
#[export] Instance metric_type_eq_dec : EqDecision metric_type.
Proof. solve_decision. Defined.

(** A call of [Registry.MustNewMetric(name, type, valueType...)]; the flag says
    whether [metrics.Time] is passed. *)
Record registration := { reg_metric : metric; reg_type : metric_type; reg_time : bool }.

(** The registrations of [newTCPMetrics], in order. *)
Definition newTCPMetrics : list registration :=
  [ {| reg_metric := tcpConnecting; reg_type := Trend; reg_time := true |};
    {| reg_metric := tcpResolving; reg_type := Trend; reg_time := true |};
    {| reg_metric := tcpDuration; reg_type := Trend; reg_time := true |};
    {| reg_metric := tcpSockets; reg_type := Counter; reg_time := false |};
    {| reg_metric := tcpReads; reg_type := Counter; reg_time := false |};
    {| reg_metric := tcpWrites; reg_type := Counter; reg_time := false |};
    {| reg_metric := tcpErrors; reg_type := Counter; reg_time := false |};
    {| reg_metric := tcpTimeouts; reg_type := Counter; reg_time := false |};
    {| reg_metric := tcpPartialWrites; reg_type := Counter; reg_time := false |} ].

(** [sort.Strings]. *)
Definition sort_Strings (l : list string) : list string := merge_sort String.le l.

Section tags.
Context `{K : K6}.

(** [addToTagSet], given the order in which the runtime enumerates the keys
    of the map (Go leaves that order unspecified). *)
Definition addToTagSet_from (range_keys : list string) (ts : tagset)
    (tags : gmap string string) : tagset :=
  let keys := sort_Strings range_keys in
  foldl (fun ts k => With ts k (default "" (tags !! k))) ts keys.

(** The keys of a map, in some order. *)
Definition map_keys (tags : gmap string string) : list string := (map_to_list tags).*1.

Definition addToTagSet (ts : tagset) (tags : gmap string string) : tagset :=
  addToTagSet_from (map_keys tags) ts tags.

(** The tags of a socket, given the VU's current tags, the socket options, the
    connect options and the remote IP: what [tags] of tcp/socket_metrics.go
    computes when none of them changes while it runs. *)
Definition socket_tags (cur : tagset) (socketOpts : socketOptions)
    (connectOpts : option connectOptions) (remoteIP : string) : tagset :=
  let tags := With cur "proto" "TCP" in
  let tags := addToTagSet tags (so_Tags socketOpts) in
  let tags := match connectOpts with
    | Some co => With (With (WithTagsFromMap tags (co_Tags co)) "host" (Host co))
                      "port" (Itoa (Port co))
    | None => tags
    end in
  if bool_decide (remoteIP = "") then tags else With tags "ip" remoteIP.
End tags.

(** ** Facts *)

Lemma sort_Strings_perm l l' : l ≡ₚ l' -> sort_Strings l = sort_Strings l'.
Proof.
  intros H. apply (Sorted_unique String.le).
  - apply Sorted_merge_sort, _.
  - apply Sorted_merge_sort, _.
  - unfold sort_Strings. by rewrite !merge_sort_Permutation.
Qed.

Lemma map_keys_elem (m : gmap string string) k : k ∈ map_keys m <-> is_Some (m !! k).
Proof.
  unfold map_keys. rewrite list_elem_of_fmap. split.
  - intros ([k' v] & -> & Hin). apply elem_of_map_to_list in Hin. by exists v.
  - intros [v Hv]. exists (k, v). split; [done|]. by apply elem_of_map_to_list.
Qed.

Section facts.
Context `{KL : K6Laws}.

Lemma foldl_With_get (f : string -> string) keys ts k :
  TagGet (foldl (fun ts k => With ts k (f k)) ts keys) k
  = if decide (k ∈ keys) then Some (f k) else TagGet ts k.
Proof.
  revert ts. induction keys as [|a keys IH]; intros ts; cbn [foldl].
  - by rewrite decide_False by set_solver.
  - rewrite IH, TagGet_With. destruct (decide (k ∈ keys)) as [Hin|Hin].
    + by rewrite decide_True by set_solver.
    + destruct (decide (a = k)) as [->|Hne].
      * by rewrite decide_True by set_solver.
      * by rewrite decide_False by set_solver.
Qed.

Lemma addToTagSet_lookup (ts : tagset) (tags : gmap string string) (k : string) :
  TagGet (addToTagSet ts tags) k
  = match tags !! k with Some v => Some v | None => TagGet ts k end.
Proof.
  unfold addToTagSet, addToTagSet_from.
  rewrite (foldl_With_get (fun k => default "" (tags !! k))). unfold sort_Strings.
  destruct (tags !! k) as [v|] eqn:Hv.
  - rewrite decide_True; [done|]. rewrite merge_sort_Permutation. apply map_keys_elem. eauto.
  - rewrite decide_False; [done|]. rewrite merge_sort_Permutation, map_keys_elem, Hv.
    by intros [? ?].
Qed.

#[export] Instance addToTagSet_proper :
  Proper ((≡) ==> (=) ==> (≡)) addToTagSet.
Proof. intros t1 t2 H m m' <- k. rewrite !addToTagSet_lookup. by rewrite H. Qed.

(** C30: [addToTagSet] is the specification [WithTagsFromMap] of k6: it sets
    exactly the tags of the map and keeps the others, whatever the order of the
    map's keys. *)
Theorem addToTagSet_refines (ts : tagset) (tags : gmap string string) :
  addToTagSet ts tags ≡ WithTagsFromMap ts tags.
Proof. intros k. by rewrite addToTagSet_lookup, TagGet_WithTagsFromMap. Qed.

(** Precedence of the tags of a socket sample, once the connect options
    are there: the resolved IP, port and host first, then the tags of the connect
    options, those of the socket, [proto], and last the tags of the VU. *)
Theorem socket_tags_get cur so co ip (k : string) :
  TagGet (socket_tags cur so (Some co) ip) k
  = if decide (k = "ip" /\ ip <> "") then Some ip
    else if decide (k = "port") then Some (Itoa (Port co))
    else if decide (k = "host") then Some (Host co)
    else match co_Tags co !! k, so_Tags so !! k with
         | Some v, _ => Some v
         | None, Some v => Some v
         | None, None => if decide (k = "proto") then Some "TCP" else TagGet cur k
         end.
Proof.
  unfold socket_tags. case_bool_decide as Hip.
  - rewrite (decide_False (P := _ /\ _)) by naive_solver.
    rewrite !TagGet_With, TagGet_WithTagsFromMap, addToTagSet_lookup, TagGet_With.
    destruct (co_Tags co !! k), (so_Tags so !! k); repeat case_decide; congruence.
  - rewrite !TagGet_With, TagGet_WithTagsFromMap, addToTagSet_lookup, TagGet_With.
    destruct (co_Tags co !! k), (so_Tags so !! k); repeat case_decide; naive_solver.
Qed.
End facts.

(** The tag set built by [addToTagSet] does not depend on the order in
    which the runtime enumerates the map: the keys are sorted first. *)
Theorem addToTagSet_order_irrelevant `{K : K6} (keys : list string) (ts : tagset)
    (tags : gmap string string) :
  keys ≡ₚ map_keys tags -> addToTagSet_from keys ts tags = addToTagSet ts tags.
Proof.
  intros H. unfold addToTagSet, addToTagSet_from. by rewrite (sort_Strings_perm _ _ H).
Qed.

(** ** Witnesses *)

Definition some_tags : gmap string string := {["a" := "1"; "b" := "2"]}.
Definition vu_tags : gmap string string := {["a" := "0"; "c" := "3"]}.

Lemma addToTagSet_refines_witness :
  addToTagSet (K := K6Ref) vu_tags some_tags ≡@{@tagset K6Ref}
  WithTagsFromMap (K6 := K6Ref) vu_tags some_tags.
Proof. exact (addToTagSet_refines (K := K6Ref) vu_tags some_tags). Defined.

Definition plain_socket : socketOptions := {| so_Tags := some_tags |}.
Definition plain_connect : connectOptions :=
  {| Port := 80; Host := "example.com"; TLS := false; co_Tags := {["b" := "4"]} |}.

Lemma socket_tags_get_witness :
  TagGet (K6 := K6Ref)
    (socket_tags (K := K6Ref) vu_tags plain_socket (Some plain_connect) "1.2.3.4") "b"
  = Some "4".
Proof.
  etransitivity; [exact (socket_tags_get (K := K6Ref) vu_tags plain_socket plain_connect "1.2.3.4" "b")|].
  vm_compute. reflexivity.
Defined.

Lemma addToTagSet_order_irrelevant_witness :
  ["b"; "a"] ≡ₚ map_keys some_tags /\
  addToTagSet_from (K := K6Ref) ["b"; "a"] vu_tags some_tags
  = addToTagSet (K := K6Ref) vu_tags some_tags.
Proof.
  assert (H : ["b"; "a"] ≡ₚ map_keys some_tags)
    by (apply (bool_decide_unpack _); vm_compute; exact I).
  split; [exact H|]. exact (addToTagSet_order_irrelevant (K := K6Ref) _ vu_tags some_tags H).
Defined.
