(* ===== verification/Lang.v ===== *)
(** * The execution model: socket state, Go primitives and programs

    The Go struct [socket] of tcp/socket_base.go is the record [socket]; its
    synchronisation objects, the channel's receiving goroutine, the network
    connections and everything the code emits make up the record [world].

    A Go function is a [prog]: a tree of primitive operations [op], each
    interpreted by [interp] as one atomic step on the world. What the outside
    (resolver, dialer, kernel, clock, k6) answers is a [reply]; [interp] admits
    the replies that the Go documentation allows. [exec] runs one program
    alone, while the file System interleaves all goroutines of a socket. *)
From S2P Require Import Prelude GoStd K6 Metrics.

(** ** The socket *)

(** tcp/socket_state.go *)
Inductive socketState :=
| socketStateOpening
| socketStateOpen
| socketStateDestroyed
| socketStateDisconnected.

#[export] Instance socketState_eq_dec : EqDecision socketState.
Proof. solve_decision. Defined.

Definition socketState_string (s : socketState) : string :=
  match s with
  | socketStateOpening => "opening"
  | socketStateOpen => "open"
  | socketStateDestroyed => "destroyed"
  | socketStateDisconnected => "disconnected"
  end.

(** tcp/socket_base.go: socketEndpoints *)
Record socketEndpoints := {
  remotePort : Z;
  remoteIP : string;
  remoteAddr : string;
  localPort : Z;
  localIP : string
}.

Definition no_endpoints : socketEndpoints :=
  {| remotePort := 0; remoteIP := ""; remoteAddr := ""; localPort := 0; localIP := "" |}.

Abbreviation connid := nat (only parsing).
Abbreviation bufid := nat (only parsing).
Abbreviation promise := nat (only parsing).

(** Values stored in the [sync.Map] of handlers, as the type assertion
    [f.(sobek.Callable)] sees them; a callable is known by its identity. *)
Inductive anyval := AnyCallable (fn : nat) | AnyOther.

(** tcp/socket_base.go: socket. Maps are finite maps; [conn] is the identity
    of the connection; times and durations are in nanoseconds. *)
Record socket := {
  conn : option connid;
  sock_opts : option socketOptions;
  connect_opts : option connectOptions;
  handlers : gmap string anyval;
  connectTime : Z;
  endpoints : socketEndpoints;
  totalWritten : Z;
  totalRead : Z;
  state : socketState;
  timeout : Z;
  readBuf : list byte
}.

Definition with_conn (v : option connid) (s : socket) : socket :=
  {| conn := v; sock_opts := sock_opts s; connect_opts := connect_opts s; handlers := handlers s; connectTime := connectTime s; endpoints := endpoints s; totalWritten := totalWritten s; totalRead := totalRead s; state := state s; timeout := timeout s; readBuf := readBuf s |}.
Definition with_sock_opts (v : option socketOptions) (s : socket) : socket :=
  {| conn := conn s; sock_opts := v; connect_opts := connect_opts s; handlers := handlers s; connectTime := connectTime s; endpoints := endpoints s; totalWritten := totalWritten s; totalRead := totalRead s; state := state s; timeout := timeout s; readBuf := readBuf s |}.
Definition with_connect_opts (v : option connectOptions) (s : socket) : socket :=
  {| conn := conn s; sock_opts := sock_opts s; connect_opts := v; handlers := handlers s; connectTime := connectTime s; endpoints := endpoints s; totalWritten := totalWritten s; totalRead := totalRead s; state := state s; timeout := timeout s; readBuf := readBuf s |}.
Definition with_handlers (v : gmap string anyval) (s : socket) : socket :=
  {| conn := conn s; sock_opts := sock_opts s; connect_opts := connect_opts s; handlers := v; connectTime := connectTime s; endpoints := endpoints s; totalWritten := totalWritten s; totalRead := totalRead s; state := state s; timeout := timeout s; readBuf := readBuf s |}.
Definition with_connectTime (v : Z) (s : socket) : socket :=
  {| conn := conn s; sock_opts := sock_opts s; connect_opts := connect_opts s; handlers := handlers s; connectTime := v; endpoints := endpoints s; totalWritten := totalWritten s; totalRead := totalRead s; state := state s; timeout := timeout s; readBuf := readBuf s |}.
Definition with_endpoints (v : socketEndpoints) (s : socket) : socket :=
  {| conn := conn s; sock_opts := sock_opts s; connect_opts := connect_opts s; handlers := handlers s; connectTime := connectTime s; endpoints := v; totalWritten := totalWritten s; totalRead := totalRead s; state := state s; timeout := timeout s; readBuf := readBuf s |}.
Definition with_totalWritten (v : Z) (s : socket) : socket :=
  {| conn := conn s; sock_opts := sock_opts s; connect_opts := connect_opts s; handlers := handlers s; connectTime := connectTime s; endpoints := endpoints s; totalWritten := v; totalRead := totalRead s; state := state s; timeout := timeout s; readBuf := readBuf s |}.
Definition with_totalRead (v : Z) (s : socket) : socket :=
  {| conn := conn s; sock_opts := sock_opts s; connect_opts := connect_opts s; handlers := handlers s; connectTime := connectTime s; endpoints := endpoints s; totalWritten := totalWritten s; totalRead := v; state := state s; timeout := timeout s; readBuf := readBuf s |}.
Definition with_state (v : socketState) (s : socket) : socket :=
  {| conn := conn s; sock_opts := sock_opts s; connect_opts := connect_opts s; handlers := handlers s; connectTime := connectTime s; endpoints := endpoints s; totalWritten := totalWritten s; totalRead := totalRead s; state := v; timeout := timeout s; readBuf := readBuf s |}.
Definition with_timeout (v : Z) (s : socket) : socket :=
  {| conn := conn s; sock_opts := sock_opts s; connect_opts := connect_opts s; handlers := handlers s; connectTime := connectTime s; endpoints := endpoints s; totalWritten := totalWritten s; totalRead := totalRead s; state := state s; timeout := v; readBuf := readBuf s |}.
Definition with_readBuf (v : list byte) (s : socket) : socket :=
  {| conn := conn s; sock_opts := sock_opts s; connect_opts := connect_opts s; handlers := handlers s; connectTime := connectTime s; endpoints := endpoints s; totalWritten := totalWritten s; totalRead := totalRead s; state := state s; timeout := timeout s; readBuf := v |}.

(** The assignments to fields of the socket that the code performs. *)
Inductive upd :=
| SetState (st : socketState)
| SetConn (c : option connid)
| SetConnectOpts (o : connectOptions)
| SetRemoteIP (ip : string)
| SetRemotePort (p : Z)
| SetRemoteAddr (a : string)
| SetLocalIP (ip : string)
| SetLocalPort (p : Z)
| SetConnectTime (t : Z)
| SetTimeout (d : Z)
| StoreHandler (event : string) (h : anyval)
| AddRead (n : Z)       (** atomic.AddInt64(&s.totalRead, n) *)
| AddWritten (n : Z).   (** atomic.AddInt64(&s.totalWritten, n) *)

Definition apply_upd (u : upd) (s : socket) : socket :=
  let e := endpoints s in
  match u with
  | SetState st => with_state st s
  | SetConn c => with_conn c s
  | SetConnectOpts o => with_connect_opts (Some o) s
  | SetRemoteIP ip => with_endpoints {| remotePort := remotePort e; remoteIP := ip;
      remoteAddr := remoteAddr e; localPort := localPort e; localIP := localIP e |} s
  | SetRemotePort p => with_endpoints {| remotePort := p; remoteIP := remoteIP e;
      remoteAddr := remoteAddr e; localPort := localPort e; localIP := localIP e |} s
  | SetRemoteAddr a => with_endpoints {| remotePort := remotePort e; remoteIP := remoteIP e;
      remoteAddr := a; localPort := localPort e; localIP := localIP e |} s
  | SetLocalIP ip => with_endpoints {| remotePort := remotePort e; remoteIP := remoteIP e;
      remoteAddr := remoteAddr e; localPort := localPort e; localIP := ip |} s
  | SetLocalPort p => with_endpoints {| remotePort := remotePort e; remoteIP := remoteIP e;
      remoteAddr := remoteAddr e; localPort := p; localIP := localIP e |} s
  | SetConnectTime t => with_connectTime t s
  | SetTimeout d => with_timeout d s
  | StoreHandler ev h => with_handlers (<[ev := h]> (handlers s)) s
  | AddRead n => with_totalRead (int64 (totalRead s + n)) s
  | AddWritten n => with_totalWritten (int64 (totalWritten s + n)) s
  end.

(** ** What the socket sends and emits *)

(** tcp/socket_on.go: TCPError *)
Record TCPError := { Name : string; Method : string; Message : string }.

(** A raw event argument: an error, or the bytes of a pooled buffer. *)
Inductive arg := ArgErr (e : TCPError) | ArgBytes (b : bufid).

(** The closure sent on [callChan]: the event, the handler found for it, its
    arguments and the buffer its cleanup returns to the pool. *)
Record call := {
  call_event : string;
  call_fn : nat;
  call_args : list arg;
  call_cleanup : option bufid
}.

(** One [metrics.Sample]. *)
Record sample `{K : K6} := {
  s_metric : metric;
  s_tags : tagset;
  s_time : Z;
  s_value : Z
}.

(** How a promise is settled. *)
Inductive settlement :=
| Resolved
| RejectedTCP (e : TCPError)
| RejectedErr (e : goerr).

(** An argument as the handler receives it, and one call of a handler. *)
Inductive argval := VErr (e : TCPError) | VBytes (data : list byte).
Record invocation := { inv_event : string; inv_fn : nat; inv_args : list argval }.

(** The [go] statements of the sources. *)
Inductive goroutine :=
| GConnect (p : promise)
| GWrite (p : promise) (data : goslice) (opts : writeOptions)
| GRead.

(** ** Primitives of Go and its environment *)

(** One write to an array that slices share: the array, all its bytes from
    then on, and how many [go] statements had been executed before. *)
Record store := { st_after : nat; st_array : array; st_bytes : list byte }.

(** What an array holds after these writes. *)
Definition contents (l : list store) (a : array) : list byte :=
  match last (filter (fun s => st_array s = a) l) with Some s => st_bytes s | None => [] end.

(** A [net.Conn]: closed or not, its read deadline, whether it is wrapped by a
    TLS client, and the bytes it accepted for sending. *)
Record netconn := {
  nc_closed : bool;
  nc_deadline : option Z;
  nc_tls : bool;
  nc_sent : list byte
}.

Record tls_config := { ServerName : string; NextProtos : list string }.

Inductive rwmutex := MFree | MRead (n : nat) | MWrite.
#[export] Instance rwmutex_eq_dec : EqDecision rwmutex.
Proof. solve_decision. Defined.

Inductive once_state := OnceIdle | OnceBusy | OnceDone.
Inductive loop_state := LoopSelect | LoopGot (c : call) | LoopExit.

Section lang.
Context `{K : K6}.

Record world := {
  sk : socket;  (** the fields of the Go struct *)
  mu : rwmutex;  (** socket.mu *)
  once : once_state;  (** socket.destroyOnce *)
  lp : loop_state;  (** the goroutine running socket.loop *)
  sctx_done : bool;  (** s.cancel() was called *)
  vu_done : bool;  (** vu.Context() is done *)
  queue : list call;  (** the arguments of tq.Queue, in order *)
  samples : list sample;  (** the samples pushed, in order *)
  settled : list (promise * settlement);  (** resolve and reject calls, in order *)
  next_promise : promise;  (** fresh promise *)
  conns : gmap connid netconn;  (** the connections *)
  next_conn : connid;  (** fresh connection *)
  bufs : gmap bufid (list byte);  (** contents of the buffers *)
  pool : gset bufid;  (** the buffers resting in s.bufferPool *)
  clock : Z;  (** time.Now(), in nanoseconds *)
  spawned : list goroutine;  (** go statements executed, in order *)
  invoked : list invocation;  (** handler calls made by callbacks, in order *)
  arrived : list (list byte);  (** what conn.Read returned, in order, but empty reads *)
  stores : list store;  (** what was written to the shared arrays, in order *)
  marks : list nat  (** for each go statement, the number of promises settled before it *)
}.

Definition set_sk (v : socket) (w : world) : world :=
  {| sk := v; mu := mu w; once := once w; lp := lp w; sctx_done := sctx_done w; vu_done := vu_done w; queue := queue w; samples := samples w; settled := settled w; next_promise := next_promise w; conns := conns w; next_conn := next_conn w; bufs := bufs w; pool := pool w; clock := clock w; spawned := spawned w; invoked := invoked w; arrived := arrived w; stores := stores w; marks := marks w |}.
Definition set_mu (v : rwmutex) (w : world) : world :=
  {| sk := sk w; mu := v; once := once w; lp := lp w; sctx_done := sctx_done w; vu_done := vu_done w; queue := queue w; samples := samples w; settled := settled w; next_promise := next_promise w; conns := conns w; next_conn := next_conn w; bufs := bufs w; pool := pool w; clock := clock w; spawned := spawned w; invoked := invoked w; arrived := arrived w; stores := stores w; marks := marks w |}.
Definition set_once (v : once_state) (w : world) : world :=
  {| sk := sk w; mu := mu w; once := v; lp := lp w; sctx_done := sctx_done w; vu_done := vu_done w; queue := queue w; samples := samples w; settled := settled w; next_promise := next_promise w; conns := conns w; next_conn := next_conn w; bufs := bufs w; pool := pool w; clock := clock w; spawned := spawned w; invoked := invoked w; arrived := arrived w; stores := stores w; marks := marks w |}.
Definition set_lp (v : loop_state) (w : world) : world :=
  {| sk := sk w; mu := mu w; once := once w; lp := v; sctx_done := sctx_done w; vu_done := vu_done w; queue := queue w; samples := samples w; settled := settled w; next_promise := next_promise w; conns := conns w; next_conn := next_conn w; bufs := bufs w; pool := pool w; clock := clock w; spawned := spawned w; invoked := invoked w; arrived := arrived w; stores := stores w; marks := marks w |}.
Definition set_sctx_done (v : bool) (w : world) : world :=
  {| sk := sk w; mu := mu w; once := once w; lp := lp w; sctx_done := v; vu_done := vu_done w; queue := queue w; samples := samples w; settled := settled w; next_promise := next_promise w; conns := conns w; next_conn := next_conn w; bufs := bufs w; pool := pool w; clock := clock w; spawned := spawned w; invoked := invoked w; arrived := arrived w; stores := stores w; marks := marks w |}.
Definition set_vu_done (v : bool) (w : world) : world :=
  {| sk := sk w; mu := mu w; once := once w; lp := lp w; sctx_done := sctx_done w; vu_done := v; queue := queue w; samples := samples w; settled := settled w; next_promise := next_promise w; conns := conns w; next_conn := next_conn w; bufs := bufs w; pool := pool w; clock := clock w; spawned := spawned w; invoked := invoked w; arrived := arrived w; stores := stores w; marks := marks w |}.
Definition set_queue (v : list call) (w : world) : world :=
  {| sk := sk w; mu := mu w; once := once w; lp := lp w; sctx_done := sctx_done w; vu_done := vu_done w; queue := v; samples := samples w; settled := settled w; next_promise := next_promise w; conns := conns w; next_conn := next_conn w; bufs := bufs w; pool := pool w; clock := clock w; spawned := spawned w; invoked := invoked w; arrived := arrived w; stores := stores w; marks := marks w |}.
Definition set_samples (v : list sample) (w : world) : world :=
  {| sk := sk w; mu := mu w; once := once w; lp := lp w; sctx_done := sctx_done w; vu_done := vu_done w; queue := queue w; samples := v; settled := settled w; next_promise := next_promise w; conns := conns w; next_conn := next_conn w; bufs := bufs w; pool := pool w; clock := clock w; spawned := spawned w; invoked := invoked w; arrived := arrived w; stores := stores w; marks := marks w |}.
Definition set_settled (v : list (promise * settlement)) (w : world) : world :=
  {| sk := sk w; mu := mu w; once := once w; lp := lp w; sctx_done := sctx_done w; vu_done := vu_done w; queue := queue w; samples := samples w; settled := v; next_promise := next_promise w; conns := conns w; next_conn := next_conn w; bufs := bufs w; pool := pool w; clock := clock w; spawned := spawned w; invoked := invoked w; arrived := arrived w; stores := stores w; marks := marks w |}.
Definition set_next_promise (v : promise) (w : world) : world :=
  {| sk := sk w; mu := mu w; once := once w; lp := lp w; sctx_done := sctx_done w; vu_done := vu_done w; queue := queue w; samples := samples w; settled := settled w; next_promise := v; conns := conns w; next_conn := next_conn w; bufs := bufs w; pool := pool w; clock := clock w; spawned := spawned w; invoked := invoked w; arrived := arrived w; stores := stores w; marks := marks w |}.
Definition set_conns (v : gmap connid netconn) (w : world) : world :=
  {| sk := sk w; mu := mu w; once := once w; lp := lp w; sctx_done := sctx_done w; vu_done := vu_done w; queue := queue w; samples := samples w; settled := settled w; next_promise := next_promise w; conns := v; next_conn := next_conn w; bufs := bufs w; pool := pool w; clock := clock w; spawned := spawned w; invoked := invoked w; arrived := arrived w; stores := stores w; marks := marks w |}.
Definition set_next_conn (v : connid) (w : world) : world :=
  {| sk := sk w; mu := mu w; once := once w; lp := lp w; sctx_done := sctx_done w; vu_done := vu_done w; queue := queue w; samples := samples w; settled := settled w; next_promise := next_promise w; conns := conns w; next_conn := v; bufs := bufs w; pool := pool w; clock := clock w; spawned := spawned w; invoked := invoked w; arrived := arrived w; stores := stores w; marks := marks w |}.
Definition set_bufs (v : gmap bufid (list byte)) (w : world) : world :=
  {| sk := sk w; mu := mu w; once := once w; lp := lp w; sctx_done := sctx_done w; vu_done := vu_done w; queue := queue w; samples := samples w; settled := settled w; next_promise := next_promise w; conns := conns w; next_conn := next_conn w; bufs := v; pool := pool w; clock := clock w; spawned := spawned w; invoked := invoked w; arrived := arrived w; stores := stores w; marks := marks w |}.
Definition set_pool (v : gset bufid) (w : world) : world :=
  {| sk := sk w; mu := mu w; once := once w; lp := lp w; sctx_done := sctx_done w; vu_done := vu_done w; queue := queue w; samples := samples w; settled := settled w; next_promise := next_promise w; conns := conns w; next_conn := next_conn w; bufs := bufs w; pool := v; clock := clock w; spawned := spawned w; invoked := invoked w; arrived := arrived w; stores := stores w; marks := marks w |}.
Definition set_clock (v : Z) (w : world) : world :=
  {| sk := sk w; mu := mu w; once := once w; lp := lp w; sctx_done := sctx_done w; vu_done := vu_done w; queue := queue w; samples := samples w; settled := settled w; next_promise := next_promise w; conns := conns w; next_conn := next_conn w; bufs := bufs w; pool := pool w; clock := v; spawned := spawned w; invoked := invoked w; arrived := arrived w; stores := stores w; marks := marks w |}.
Definition set_spawned (v : list goroutine) (w : world) : world :=
  {| sk := sk w; mu := mu w; once := once w; lp := lp w; sctx_done := sctx_done w; vu_done := vu_done w; queue := queue w; samples := samples w; settled := settled w; next_promise := next_promise w; conns := conns w; next_conn := next_conn w; bufs := bufs w; pool := pool w; clock := clock w; spawned := v; invoked := invoked w; arrived := arrived w; stores := stores w; marks := marks w |}.
Definition set_invoked (v : list invocation) (w : world) : world :=
  {| sk := sk w; mu := mu w; once := once w; lp := lp w; sctx_done := sctx_done w; vu_done := vu_done w; queue := queue w; samples := samples w; settled := settled w; next_promise := next_promise w; conns := conns w; next_conn := next_conn w; bufs := bufs w; pool := pool w; clock := clock w; spawned := spawned w; invoked := v; arrived := arrived w; stores := stores w; marks := marks w |}.
Definition set_arrived (v : list (list byte)) (w : world) : world :=
  {| sk := sk w; mu := mu w; once := once w; lp := lp w; sctx_done := sctx_done w; vu_done := vu_done w; queue := queue w; samples := samples w; settled := settled w; next_promise := next_promise w; conns := conns w; next_conn := next_conn w; bufs := bufs w; pool := pool w; clock := clock w; spawned := spawned w; invoked := invoked w; arrived := v; stores := stores w; marks := marks w |}.
Definition set_stores (v : list store) (w : world) : world :=
  {| sk := sk w; mu := mu w; once := once w; lp := lp w; sctx_done := sctx_done w; vu_done := vu_done w; queue := queue w; samples := samples w; settled := settled w; next_promise := next_promise w; conns := conns w; next_conn := next_conn w; bufs := bufs w; pool := pool w; clock := clock w; spawned := spawned w; invoked := invoked w; arrived := arrived w; stores := v; marks := marks w |}.
Definition set_marks (v : list nat) (w : world) : world :=
  {| sk := sk w; mu := mu w; once := once w; lp := lp w; sctx_done := sctx_done w; vu_done := vu_done w; queue := queue w; samples := samples w; settled := settled w; next_promise := next_promise w; conns := conns w; next_conn := next_conn w; bufs := bufs w; pool := pool w; clock := clock w; spawned := spawned w; invoked := invoked w; arrived := arrived w; stores := stores w; marks := v |}.

(** What the slice shows now. *)
Definition shown (w : world) (s : goslice) : list byte := slice_bytes (contents (stores w)) s.

Lemma length_shown w s : length (shown w s) = slice_len s.
Proof. apply length_slice_bytes. Qed.

Lemma shown_from w n s : shown w (slice_from n s) = drop n (shown w s).
Proof. apply slice_bytes_from. Qed.

Definition write_array (a : array) (bytes : list byte) (w : world) : world :=
  set_stores (stores w ++ [{| st_after := length (spawned w); st_array := a; st_bytes := bytes |}]) w.

(** Writing [data] to a buffer that holds [old] puts it behind [old] in the
    buffer's array; what lies further on in the array stays. *)
Definition buf_write (b : bufid) (old data : list byte) (w : world) : world :=
  write_array (APooled b)
    (old ++ data ++ drop (length old + length data) (contents (stores w) (APooled b)))
    (set_bufs (<[b := old ++ data]> (bufs w)) w).

Definition start_go (g : goroutine) (w : world) : world :=
  set_marks (marks w ++ [length (settled w)]) (set_spawned (spawned w ++ [g]) w).

(** The socket's context is derived from the VU's. *)
Definition ctx_done (w : world) : bool := sctx_done w || vu_done w.

(** The answer of the environment to one primitive. *)
Inductive reply :=
| RNone
| RResolve (r : result (string * Z) goerr)
| RDial (err : option goerr)
| RError (err : option goerr)
| RRead (data : list byte) (err : option goerr)
| RWrite (n : nat) (err : option goerr)
| RAddr (a : option (string * Z))
| RTLS (cfg : option tls_config)
| RTags (ts : tagset)
| RSelect (sent : bool)
| RBuf (b : bufid).

(** The primitive operations, with the Go expression each stands for. *)
Inductive op : Type -> Type :=
| Lock : op unit                    (** s.mu.Lock() *)
| Unlock : op unit
| RLock : op unit
| RUnlock : op unit
| OnceEnter : op bool               (** destroyOnce.Do: does this call run the body? *)
| OnceLeave : op unit               (** the body has returned *)
| GetS : op socket                  (** read fields of s *)
| SetS (u : upd) : op unit          (** assign a field of s *)
| Send (c : call) : op bool         (** select { s.callChan <- c / <-vu.Context().Done() } *)
| Cancel : op unit                  (** s.cancel() *)
| Push (m : metric) (ts : tagset) (v : Z) : op unit  (** metrics.PushIfNotDone *)
| Now : op Z                        (** time.Now() *)
| CurrentTags : op tagset           (** vu.State().Tags.GetCurrentValues().Tags *)
| GetTLSConfig : op (option tls_config)              (** vu.State().TLSConfig *)
| BufGet : op bufid                 (** s.bufferPool.Get(), then buf.Reset() *)
| BufWrite (b : bufid) (data : list byte) : op unit
| BufRead (b : bufid) : op (list byte)               (** buf.Bytes() *)
| BufPut (b : bufid) : op unit
| ResolveAddr (addr : string) : op (result (string * Z) goerr)
| DialContext (addr : string) : op (result connid goerr)
| Handshake (c : connid) (cfg : tls_config) : op (option goerr)
| ConnClose (c : connid) : op unit
| ConnLocalAddr (c : connid) : op (option (string * Z))
| SetReadDeadline (c : connid) (d : option Z) : op (option goerr)
| ConnRead (c : connid) : op (nat * option goerr)    (** conn.Read(s.readBuf[:]) *)
| ConnWrite (c : connid) (data : goslice) : op (nat * option goerr)
| NewPromise : op promise
| Settle (p : promise) (v : settlement) : op unit
| Go (g : goroutine) : op unit
| Store (m : nat) (bytes : list byte) : op unit      (** the script assigns to an ArrayBuffer *)
| Invoke (i : invocation) : op unit (** fn(sobek.Undefined(), args...) *)
| GoPanic : op Empty_set.           (** a run-time panic *)

Definition readBufSize : nat := 4096.

(** What [conn.Read] may return: at most a buffer of bytes, with any error or
    none (io.Reader). Nothing is asked of when the errors come: a TLS client may
    still hand out what it had buffered after Close, and errors other than an
    expired deadline may be timeouts too. *)
Definition read_allowed (data : list byte) : bool := length data <=? readBufSize.

Definition with_deadline (d : option Z) (nc : netconn) : netconn :=
  {| nc_closed := nc_closed nc; nc_deadline := d; nc_tls := nc_tls nc; nc_sent := nc_sent nc |}.
Definition with_closed (nc : netconn) : netconn :=
  {| nc_closed := true; nc_deadline := nc_deadline nc; nc_tls := nc_tls nc; nc_sent := nc_sent nc |}.
Definition with_tls (nc : netconn) : netconn :=
  {| nc_closed := nc_closed nc; nc_deadline := nc_deadline nc; nc_tls := true; nc_sent := nc_sent nc |}.
Definition with_sent (data : list byte) (nc : netconn) : netconn :=
  {| nc_closed := nc_closed nc; nc_deadline := nc_deadline nc; nc_tls := nc_tls nc;
     nc_sent := nc_sent nc ++ data |}.

Definition on_conn (f : netconn -> netconn) (c : connid) (w : world) : world :=
  set_conns (alter f c (conns w)) w.

Definition upd_sk (f : socket -> socket) (w : world) : world := set_sk (f (sk w)) w.

(** [data] arrives at the start of [s.readBuf]. *)
Definition arrive (data : list byte) (w : world) : world :=
  set_arrived (arrived w ++ match data with [] => [] | _ => [data] end)
    (upd_sk (fun s => with_readBuf (data ++ drop (length data) (readBuf s)) s) w).

(** One atomic step. [None]: the operation blocks, or the reply is not one the
    environment can give here. *)
Definition interp {X : Type} (o : op X) : reply -> world -> option (X * world) :=
  match o in op X return reply -> world -> option (X * world) with
  | Lock => fun _ w => match mu w with MFree => Some (tt, set_mu MWrite w) | _ => None end
  | Unlock => fun _ w => match mu w with MWrite => Some (tt, set_mu MFree w) | _ => None end
  | RLock => fun _ w =>
      match mu w with
      | MFree => Some (tt, set_mu (MRead 1) w)
      | MRead n => Some (tt, set_mu (MRead (S n)) w)
      | MWrite => None
      end
  | RUnlock => fun _ w =>
      match mu w with
      | MRead (S (S n)) => Some (tt, set_mu (MRead (S n)) w)
      | MRead _ => Some (tt, set_mu MFree w)
      | _ => None
      end
  | OnceEnter => fun _ w =>
      match once w with
      | OnceIdle => Some (true, set_once OnceBusy w)
      | OnceBusy => None
      | OnceDone => Some (false, w)
      end
  | OnceLeave => fun _ w => Some (tt, set_once OnceDone w)
  | GetS => fun _ w => Some (sk w, w)
  | SetS u => fun _ w => Some (tt, upd_sk (apply_upd u) w)
  | Send c => fun r w =>
      match r with
      | RSelect true => match lp w with
                        | LoopSelect => Some (true, set_lp (LoopGot c) w)
                        | _ => None
                        end
      | RSelect false => if vu_done w then Some (false, w) else None
      | _ => None
      end
  | Cancel => fun _ w => Some (tt, set_sctx_done true w)
  | Push m ts v => fun _ w =>
      Some (tt, if vu_done w then w
                else set_samples (samples w ++
                  [{| s_metric := m; s_tags := ts; s_time := clock w; s_value := v |}]) w)
  | Now => fun _ w => Some (clock w, w)
  | CurrentTags => fun r w => match r with RTags ts => Some (ts, w) | _ => None end
  | GetTLSConfig => fun r w => match r with RTLS cfg => Some (cfg, w) | _ => None end
  | BufGet => fun r w =>
      match r with
      | RBuf b => if bool_decide (b ∈ pool w) || bool_decide (bufs w !! b = None)
                  then Some (b, set_bufs (<[b := []]> (bufs w)) (set_pool (pool w ∖ {[b]}) w))
                  else None
      | _ => None
      end
  | BufWrite b data => fun _ w =>
      match bufs w !! b with
      | Some old => Some (tt, buf_write b old data w)
      | None => None
      end
  | BufRead b => fun _ w => match bufs w !! b with Some data => Some (data, w) | None => None end
  | BufPut b => fun _ w => Some (tt, set_pool (pool w ∪ {[b]}) w)
  | ResolveAddr _ => fun r w => match r with RResolve res => Some (res, w) | _ => None end
  | DialContext _ => fun r w =>
      match r with
      | RDial None =>
          let c := next_conn w in
          Some (Ok c, set_next_conn (S c) (set_conns (<[c := {| nc_closed := false;
            nc_deadline := None; nc_tls := false; nc_sent := [] |}]> (conns w)) w))
      | RDial (Some e) => Some (Err e, w)
      | _ => None
      end
  | Handshake c _ => fun r w =>
      match r with
      | RError None => Some (None, on_conn with_tls c w)
      | RError (Some e) => Some (Some e, w)
      | _ => None
      end
  | ConnClose c => fun _ w => Some (tt, on_conn with_closed c w)
  | ConnLocalAddr _ => fun r w => match r with RAddr a => Some (a, w) | _ => None end
  | SetReadDeadline c d => fun r w =>
      match r with
      | RError None => Some (None, on_conn (with_deadline d) c w)
      | RError (Some e) => Some (Some e, w)
      | _ => None
      end
  | ConnRead c => fun r w =>
      match r, conns w !! c with
      | RRead data err, Some _ =>
          if read_allowed data
          then Some ((length data, err), arrive data w) else None
      | _, _ => None
      end
  | ConnWrite c data => fun r w =>
      match r with
      | RWrite n err => if n <=? slice_len data
                        then Some ((n, err), on_conn (with_sent (take n (shown w data))) c w)
                        else None
      | _ => None
      end
  | NewPromise => fun _ w => Some (next_promise w, set_next_promise (S (next_promise w)) w)
  | Settle p v => fun _ w => Some (tt, set_settled (settled w ++ [(p, v)]) w)
  | Go g => fun _ w => Some (tt, start_go g w)
  | Store m bytes => fun _ w => Some (tt, write_array (AScript m) bytes w)
  | Invoke i => fun _ w => Some (tt, set_invoked (invoked w ++ [i]) w)
  | GoPanic => fun _ _ => None
  end.

(** ** tcp/socket_loop.go: loop

    The goroutine that receives from [callChan]: the rendezvous with the sender
    is part of [Send]; [loop_step] then queues the call, and the loop exits
    (closing the task queue) when the socket's context is done. *)
Definition loop_step (w : world) : option world :=
  match lp w with
  | LoopGot c => Some (set_lp LoopSelect (set_queue (queue w ++ [c]) w))
  | LoopSelect => if ctx_done w then Some (set_lp LoopExit w) else None
  | LoopExit => None
  end.

(** ** Programs *)
Inductive prog (A : Type) : Type :=
| Ret (a : A)
| Op {X : Type} (o : op X) (k : X -> prog A).

End lang.
Arguments Ret {K A} a.
Arguments Op {K A X} o k.

Section monad.
Context `{K : K6}.

Fixpoint bind {A B} (p : prog A) (f : A -> prog B) : prog B :=
  match p with
  | Ret a => f a
  | Op o k => Op o (fun x => bind (k x) f)
  end.

Definition do {X} (o : op X) : prog X := Op o Ret.

Definition panic {A} : prog A := Op GoPanic (fun e : Empty_set => match e with end).

End monad.

Declare Scope prog_scope.
Delimit Scope prog_scope with prog.
Notation "'let!' x ':=' p 'in' k" := (bind p%prog (fun x => k%prog))
  (at level 10, x pattern, p at level 100, k at level 200) : prog_scope.
Notation "'do!' p 'in' k" := (bind p%prog (fun _ => k%prog))
  (at level 10, p at level 100, k at level 200) : prog_scope.
Bind Scope prog_scope with prog.
Open Scope prog_scope.

(** ** Running one program

    [exec] runs a program from a world with a list of replies, the loop
    goroutine taking its steps as soon as it can. *)
Section exec.
Context `{K : K6}.

Definition takes_reply {X} (o : op X) : bool :=
  match o with
  | Send _ | CurrentTags | GetTLSConfig | BufGet | ResolveAddr _ | DialContext _
  | Handshake _ _ | ConnLocalAddr _ | SetReadDeadline _ _ | ConnRead _ | ConnWrite _ _ => true
  | _ => false
  end.

(** The loop goroutine runs until it waits: a received call is queued, and
    then the loop may exit. *)
Definition loop_run (w : world) : world :=
  match loop_step w with
  | Some w1 => match loop_step w1 with Some w2 => w2 | None => w1 end
  | None => w
  end.

Inductive outcome (A : Type) :=
| Done (a : A) (rs : list reply) (w : world)
| Stuck (w : world).                        (** blocked, or panicked, in w *)
#[global] Arguments Done {A} a rs w.
#[global] Arguments Stuck {A} w.

Fixpoint exec {A} (p : prog A) (rs : list reply) (w : world) : outcome A :=
  match p with
  | Ret a => Done a rs w
  | Op o k =>
      let '(r, rs') := if takes_reply o
                       then match rs with r :: rs' => (r, rs') | [] => (RNone, []) end
                       else (RNone, rs) in
      match interp o r w with
      | Some (x, w') => exec (k x) rs' (loop_run w')
      | None => Stuck w
      end
  end.

Definition exec_bind_cont {A B} (o : outcome A) (f : A -> list reply -> world -> outcome B)
    : outcome B :=
  match o with Done a rs w => f a rs w | Stuck w => Stuck w end.

Lemma exec_bind {A B} (p : prog A) (f : A -> prog B) rs w :
  exec (bind p f) rs w = exec_bind_cont (exec p rs w) (fun a rs' w' => exec (f a) rs' w').
Proof.
  revert rs w. induction p as [a|X o k IH]; intros rs w; [done|]. cbn [bind exec].
  destruct (if takes_reply o then _ else _) as [r rs'].
  destruct (interp o r w) as [[x w']|]; [apply IH | done].
Qed.

Lemma exec_bind_assoc {A B C} (p : prog A) (f : A -> prog B) (g : B -> prog C) rs w :
  exec (bind (bind p f) g) rs w = exec (bind p (fun a => bind (f a) g)) rs w.
Proof.
  rewrite !exec_bind. destruct (exec p rs w); cbn [exec_bind_cont]; [|done]. symmetry. apply exec_bind.
Qed.

(** The loop goroutine touches only its own state and the task queue. *)
Lemma loop_run_frame w : exists l q, loop_run w = set_lp l (set_queue q w).
Proof.
  exists (lp (loop_run w)), (queue (loop_run w)).
  unfold loop_run, loop_step, ctx_done.
  destruct w as [? ? ? [] [] []]; reflexivity.
Qed.

Lemma loop_run_sk w : sk (loop_run w) = sk w.
Proof. by destruct (loop_run_frame w) as (l & q & ->). Qed.
Lemma loop_run_mu w : mu (loop_run w) = mu w.
Proof. by destruct (loop_run_frame w) as (l & q & ->). Qed.

(** Nothing for the loop goroutine to do. *)
Definition quiet (w : world) : bool :=
  match lp w with LoopSelect => negb (ctx_done w) | LoopExit => true | LoopGot _ => false end.

Lemma loop_run_quiet w : quiet w = true -> loop_run w = w.
Proof.
  unfold quiet, loop_run, loop_step. destruct (lp w); intros H; try done.
  apply negb_true_iff in H. by rewrite H.
Qed.

Lemma exec_op {A X} (o : op X) (k : X -> prog A) rs w :
  takes_reply o = false ->
  exec (Op o k) rs w = match interp o RNone w with
                       | Some (x, w') => exec (k x) rs (loop_run w')
                       | None => Stuck w end.
Proof. intros H. cbn [exec]. by rewrite H. Qed.
End exec.

(** Runs [exec] while the loop goroutine has nothing to do: [Hq] says so of
    the world at hand. *)
Ltac exec_quiet Hq :=
  repeat (cbn [exec bind do takes_reply interp];
    match goal with
    | |- context [loop_run ?x] =>
        lazymatch x with
        | context [loop_run _] => fail
        | _ => rewrite (loop_run_quiet x) by exact Hq
        end
    end); cbn [exec bind do takes_reply interp].
