(* ===== verification/Socket.v ===== *)
(** * The socket object: construction, accessors, metrics helpers

    tcp/socket_base.go, tcp/socket_state.go and tcp/socket_metrics.go. The
    properties that the constructor binds are in the file Extension. *)
From S2P Require Import Prelude GoStd K6 Metrics Lang.

Definition errInvalidType : goerr := ErrNew "invalid type".

Section socket.
Context `{K : K6}.

(** newSocket: a zero struct with state [disconnected]. *)
Definition newSocket : socket := {|
  conn := None; sock_opts := None; connect_opts := None; handlers := ∅;
  connectTime := 0; endpoints := no_endpoints; totalWritten := 0; totalRead := 0;
  state := socketStateDisconnected; timeout := 0;
  readBuf := replicate readBufSize x00
|}.

(** The world around a fresh socket whose loop goroutine has been started. *)
Definition world_of (s : socket) (now : Z) : world := {|
  sk := s; mu := MFree; once := OnceIdle; lp := LoopSelect; sctx_done := false;
  vu_done := false; queue := []; samples := []; settled := []; next_promise := 0;
  conns := ∅; next_conn := 0; bufs := ∅; pool := ∅; clock := now; spawned := [];
  invoked := [];
  arrived := []; stores := []; marks := []
|}.

(** module.socket: the constructor. [arg] is the result of exporting the
    first argument, when there is one, into [s.socketOpts]; a failed export
    throws. *)
Definition construct (arg : option (result (option socketOptions) goerr)) (now : Z)
    : result world goerr :=
  let s := newSocket in
  let s := with_sock_opts (Some {| so_Tags := ∅ |}) s in
  match arg with
  | None => Ok (world_of s now)
  | Some (Ok opts) => Ok (world_of (with_sock_opts opts s) now)
  | Some (Err e) => Err e
  end.

(** ** Accessors *)

Definition bytesWritten : prog Z := let! s := do GetS in Ret (totalWritten s).
Definition bytesRead : prog Z := let! s := do GetS in Ret (totalRead s).

(** The body shared by the accessors that take the read lock. *)
Definition rlocked {A} (f : socket -> A) : prog A :=
  do! do RLock in
  let! s := do GetS in
  do! do RUnlock in
  Ret (f s).

(** [None] is [sobek.Undefined()]. *)
Definition when_conn {A} (f : socket -> A) (s : socket) : option A :=
  match conn s with None => None | Some _ => Some (f s) end.

Definition get_localIP : prog (option string) :=
  rlocked (when_conn (fun s => localIP (endpoints s))).
Definition get_localPort : prog (option Z) :=
  rlocked (when_conn (fun s => localPort (endpoints s))).
Definition get_remoteIP : prog (option string) :=
  rlocked (when_conn (fun s => remoteIP (endpoints s))).
Definition get_remotePort : prog (option Z) :=
  rlocked (when_conn (fun s => remotePort (endpoints s))).

(** tcp/socket_state.go *)
Definition readyState : prog string := rlocked (fun s => socketState_string (state s)).
Definition isConnected : prog bool := rlocked (fun s => bool_decide (state s = socketStateOpen)).
Definition isReadable : prog bool := isConnected.

(** ** tcp/socket_metrics.go *)

Definition currentTags : prog tagset := do CurrentTags.

(** [s.connectOpts], dereferenced. *)
Definition get_connectOpts : prog connectOptions :=
  let! s := do GetS in
  match connect_opts s with Some co => Ret co | None => panic end.

(** tags: panics when [s.socketOpts] is nil. Every mention of a field of [s] is
    a read of its own. *)
Definition tags : prog tagset :=
  let! cur := currentTags in
  let ts := With cur "proto" "TCP" in
  let! s := do GetS in
  match sock_opts s with
  | None => panic
  | Some so =>
      let ts := addToTagSet ts (so_Tags so) in
      let! s := do GetS in
      let! ts :=
        match connect_opts s with
        | None => Ret ts
        | Some _ =>
            let! co := get_connectOpts in
            let ts := WithTagsFromMap ts (co_Tags co) in
            let! co := get_connectOpts in
            let ts := With ts "host" (Host co) in
            let! co := get_connectOpts in
            Ret (With ts "port" (Itoa (Port co)))
        end in
      let! s := do GetS in
      if bool_decide (remoteIP (endpoints s) = "") then Ret ts
      else let! s := do GetS in Ret (With ts "ip" (remoteIP (endpoints s)))
  end.

Definition addErrorMetrics (ts : tagset) : prog unit := do (Push tcpErrors ts 1).
Definition addCounterMetrics (m : metric) (ts : tagset) : prog unit := do (Push m ts 1).

(** [duration.Milliseconds()] truncates. *)
Definition Milliseconds (d : Z) : Z := d `quot` 1000000.

Definition addDurationMetrics (duration : Z) (m : metric) (ts : tagset) : prog unit :=
  do (Push m ts (Milliseconds duration)).

Definition addDurationMetricsFor (m : metric) (ts : tagset) (fn : prog (option goerr))
    : prog (option goerr) :=
  let! start := do Now in
  let! err := fn in
  let! now := do Now in
  do! addDurationMetrics (now - start)%Z m ts in
  Ret err.

(** An accessor waits for the write lock and returns a field of the socket. *)
Lemma exec_rlocked {A} (f : socket -> A) rs w a rs' w' :
  exec (rlocked f) rs w = Done a rs' w' ->
  mu w <> MWrite /\ a = f (sk w) /\ rs' = rs /\ sk w' = sk w.
Proof.
  unfold rlocked. cbn [bind do]. rewrite exec_op by done. cbn [interp].
  destruct (mu w) eqn:Hm; [| |done]; rewrite exec_op by done; cbn [interp];
    rewrite exec_op by done; cbn [interp]; repeat rewrite ?loop_run_mu, ?loop_run_sk; cbn;
    repeat case_match; simplify_eq; intros [= <- <- <-]; split_and!; try done;
    repeat (rewrite loop_run_sk; cbn); done.
Qed.
End socket.
