(* ===== verification/Events.v ===== *)
(** * Events: tcp/socket_on.go

    Registration of handlers, the queueing of events on the channel, and the
    error path shared by [connect] and [write]. *)
From S2P Require Import Prelude GoStd K6 Metrics Lang Socket.

(** The set [events] of known event names. *)
Definition events : gset string := {["connect"; "data"; "close"; "error"; "timeout"]}.

Definition newTCPError (err : goerr) (method : string) : TCPError :=
  {| Name := "TCPError"; Method := method; Message := Error err |}.

(** Method Error of TCPError. *)
Definition TCPError_Error (e : TCPError) : string :=
  String.append "TCP error during " (String.append (Method e) (String.append ": " (Message e))).

Section events.
Context `{K : K6}.

(** on: unknown events are ignored; a second handler replaces the first. *)
Definition on (event : string) (handler : nat) : prog unit :=
  if bool_decide (event ∈ events)
  then do (SetS (StoreHandler event (AnyCallable handler)))
  else Ret tt.

Definition run_cleanup (cleanup : option bufid) : prog unit :=
  match cleanup with Some b => do (BufPut b) | None => Ret tt end.

(** fireAndCleanup *)
Definition fireAndCleanup (cleanup : option bufid) (event : string) (args : list arg) : prog bool :=
  let! s := do GetS in
  match handlers s !! event with
  | None => do! run_cleanup cleanup in Ret false
  | Some AnyOther => do! run_cleanup cleanup in Ret false
  | Some (AnyCallable fn) =>
      let! sent := do (Send {| call_event := event; call_fn := fn; call_args := args;
                               call_cleanup := cleanup |}) in
      if sent : bool then Ret true
      else do! run_cleanup cleanup in Ret false
  end.

Definition fire (event : string) (args : list arg) : prog bool :=
  fireAndCleanup None event args.

(** The conversion of the arguments inside the queued closure. *)
Fixpoint convert_args (args : list arg) : prog (list argval) :=
  match args with
  | [] => Ret []
  | ArgErr e :: r => let! vs := convert_args r in Ret (VErr e :: vs)
  | ArgBytes b :: r => let! data := do (BufRead b) in
                       let! vs := convert_args r in Ret (VBytes data :: vs)
  end.

(** The closure queued by [fireAndCleanup]; [handler] is what the JS
    handler does when it is called. The cleanup is deferred. *)
Definition callback (c : call) (handler : prog unit) : prog unit :=
  let! vs := convert_args (call_args c) in
  do! do (Invoke {| inv_event := call_event c; inv_fn := call_fn c; inv_args := vs |}) in
  do! handler in
  run_cleanup (call_cleanup c).

(** handleError: [None] is a nil error. *)
Definition handleError (err : goerr) (method : string) (ts : tagset) : prog (option TCPError) :=
  do! addErrorMetrics ts in
  let wrapped := newTCPError err method in
  let! fired := fire "error" [ArgErr wrapped] in
  if fired : bool then Ret None else Ret (Some wrapped).

Definition rejectWithTCPError (p : promise) (err : goerr) (method : string) (ts : tagset)
    : prog unit :=
  let! tcpErr := handleError err method ts in
  let tcpErr := match tcpErr with None => newTCPError err method | Some e => e end in
  do (Settle p (RejectedTCP tcpErr)).
End events.
