(* ===== verification/Exec.v ===== *)
(** * Running one program alone

    Rules that step [exec] through one operation at a time, for a world in
    which the loop goroutine waits for events and nothing has ended. *)
From S2P Require Import Prelude GoStd K6 Metrics Lang Socket Events.

Section rules.
Context `{K : K6}.

(** The loop goroutine is waiting for an event, and neither the socket nor
    the VU has ended. *)
Definition alive (w : world) : Prop :=
  lp w = LoopSelect /\ sctx_done w = false /\ vu_done w = false.

Lemma alive_quiet w : alive w -> quiet w = true.
Proof. intros (Hl & Hs & Hv). unfold quiet, ctx_done. by rewrite Hl, Hs, Hv. Qed.

Lemma alive_run w : alive w -> loop_run w = w.
Proof. intros H. by apply loop_run_quiet, alive_quiet. Qed.

(** The world after a sample was pushed, or calls were queued. *)
Definition sampled (m : metric) (ts : tagset) (v : Z) (w : world) : world :=
  set_samples (samples w ++ [{| s_metric := m; s_tags := ts; s_time := clock w; s_value := v |}]) w.

Definition queued (cs : list call) (w : world) : world := set_queue (queue w ++ cs) w.

Lemma alive_sampled m ts v w : alive w -> alive (sampled m ts v w).
Proof. done. Qed.
Lemma alive_queued cs w : alive w -> alive (queued cs w).
Proof. done. Qed.

Lemma alive_got c w : alive w -> loop_run (set_lp (LoopGot c) w) = queued [c] w.
Proof.
  intros (Hl & Hs & Hv). unfold loop_run, loop_step, ctx_done. destruct w. cbn in *. by subst.
Qed.

(** Reading the fields changes nothing. *)
Lemma exec_GetS {A} (k : socket -> prog A) rs w :
  alive w -> exec (Op GetS k) rs w = exec (k (sk w)) rs w.
Proof. intros Ha. rewrite exec_op by done. cbn [interp]. by rewrite alive_run. Qed.

Section steps.
Context {A : Type} (rs : list reply) (w : world) (a : A) (rs' : list reply) (w' : world) (C : Prop).
Context (Ha : alive w).

(** An operation that needs no reply. *)
Lemma st_pure {X} (o : op X) k x w1 :
  takes_reply o = false -> interp o RNone w = Some (x, w1) -> alive w1 ->
  (alive w1 -> exec (k x) rs w1 = Done a rs' w' -> C) -> exec (Op o k) rs w = Done a rs' w' -> C.
Proof. intros Ht Hi H1 H. rewrite exec_op, Hi, alive_run by done. by apply H. Qed.

(** An operation that takes the next reply. *)
Lemma st_reply {X} (o : op X) k :
  takes_reply o = true ->
  (forall r rs1 x w1, rs = r :: rs1 -> interp o r w = Some (x, w1) ->
     exec (k x) rs1 (loop_run w1) = Done a rs' w' -> C) ->
  (rs = [] -> interp o RNone w = None) -> exec (Op o k) rs w = Done a rs' w' -> C.
Proof.
  intros Ht H Hnil He. cbn [exec] in He. rewrite Ht in He. destruct rs as [|r rs1].
  - by rewrite Hnil in He.
  - destruct (interp o r w) as [[x w1]|] eqn:Hi; [|done]. by eapply H.
Qed.

Lemma st_GetS k : (exec (k (sk w)) rs w = Done a rs' w' -> C) -> exec (Op GetS k) rs w = Done a rs' w' -> C.
Proof. intros H. by apply (st_pure GetS k (sk w) w). Qed.

Lemma st_Now k : (exec (k (clock w)) rs w = Done a rs' w' -> C) -> exec (Op Now k) rs w = Done a rs' w' -> C.
Proof. intros H. by apply (st_pure Now k (clock w) w). Qed.

Lemma st_SetS u k :
  (alive (upd_sk (apply_upd u) w) -> exec (k tt) rs (upd_sk (apply_upd u) w) = Done a rs' w' -> C) ->
  exec (Op (SetS u) k) rs w = Done a rs' w' -> C.
Proof. by apply st_pure. Qed.

Lemma st_Lock k :
  mu w = MFree ->
  (alive (set_mu MWrite w) -> exec (k tt) rs (set_mu MWrite w) = Done a rs' w' -> C) ->
  exec (Op Lock k) rs w = Done a rs' w' -> C.
Proof. intros Hm. apply st_pure; [done| |done]. cbn. by rewrite Hm. Qed.

Lemma st_Unlock k :
  mu w = MWrite ->
  (alive (set_mu MFree w) -> exec (k tt) rs (set_mu MFree w) = Done a rs' w' -> C) ->
  exec (Op Unlock k) rs w = Done a rs' w' -> C.
Proof. intros Hm. apply st_pure; [done| |done]. cbn. by rewrite Hm. Qed.

(** The section under the read lock leaves the world as it was. *)
Lemma st_read (f : socket -> prog A) :
  mu w = MFree -> (exec (f (sk w)) rs w = Done a rs' w' -> C) ->
  exec (do! do RLock in let! s := do GetS in do! do RUnlock in f s) rs w = Done a rs' w' -> C.
Proof.
  intros Hm H. cbn [bind do].
  rewrite exec_op by done. cbn [interp]. rewrite Hm, alive_run by exact Ha.
  rewrite exec_op by done. cbn [interp]. rewrite alive_run by exact Ha.
  rewrite exec_op by done. cbn [interp mu set_mu]. rewrite alive_run by exact Ha.
  replace (set_mu MFree (set_mu (MRead 1) w)) with w; [exact H|].
  destruct w. cbn in *. by subst.
Qed.

Lemma st_Push m ts v k :
  (alive (sampled m ts v w) -> exec (k tt) rs (sampled m ts v w) = Done a rs' w' -> C) ->
  exec (Op (Push m ts v) k) rs w = Done a rs' w' -> C.
Proof.
  apply st_pure; [done| |done]. cbn. destruct Ha as (_ & _ & Hv). by rewrite Hv.
Qed.

Lemma st_Go g k :
  (alive (start_go g w) ->
   exec (k tt) rs (start_go g w) = Done a rs' w' -> C) ->
  exec (Op (Go g) k) rs w = Done a rs' w' -> C.
Proof. by apply st_pure. Qed.

Lemma st_ConnClose c k :
  (alive (on_conn with_closed c w) -> exec (k tt) rs (on_conn with_closed c w) = Done a rs' w' -> C) ->
  exec (Op (ConnClose c) k) rs w = Done a rs' w' -> C.
Proof. by apply st_pure. Qed.

Lemma st_NewPromise k :
  (alive (set_next_promise (S (next_promise w)) w) ->
   exec (k (next_promise w)) rs (set_next_promise (S (next_promise w)) w) = Done a rs' w' -> C) ->
  exec (Op NewPromise k) rs w = Done a rs' w' -> C.
Proof. by apply st_pure. Qed.

Lemma st_Settle p v k :
  (alive (set_settled (settled w ++ [(p, v)]) w) ->
   exec (k tt) rs (set_settled (settled w ++ [(p, v)]) w) = Done a rs' w' -> C) ->
  exec (Op (Settle p v) k) rs w = Done a rs' w' -> C.
Proof. by apply st_pure. Qed.

Lemma st_BufWrite b data old k :
  bufs w !! b = Some old ->
  (alive (buf_write b old data w) ->
   exec (k tt) rs (buf_write b old data w) = Done a rs' w' -> C) ->
  exec (Op (BufWrite b data) k) rs w = Done a rs' w' -> C.
Proof. intros Hb. apply st_pure; [done| |done]. cbn. by rewrite Hb. Qed.

Lemma st_BufPut b k :
  (alive (set_pool (pool w ∪ {[b]}) w) ->
   exec (k tt) rs (set_pool (pool w ∪ {[b]}) w) = Done a rs' w' -> C) ->
  exec (Op (BufPut b) k) rs w = Done a rs' w' -> C.
Proof. by apply st_pure. Qed.

(** The operations that the environment answers. *)
Ltac by_reply :=
  intros H; apply st_reply; [done| |done];
  intros r rs1 x w1 -> Hi He; destruct r; cbn in Hi; try done; simplify_eq.

Lemma st_CurrentTags k :
  (forall ts rs1, exec (k ts) rs1 w = Done a rs' w' -> C) ->
  exec (Op CurrentTags k) rs w = Done a rs' w' -> C.
Proof. by_reply. rewrite alive_run in He by exact Ha. by eapply H. Qed.

Lemma st_GetTLSConfig k :
  (forall cfg rs1, exec (k cfg) rs1 w = Done a rs' w' -> C) ->
  exec (Op GetTLSConfig k) rs w = Done a rs' w' -> C.
Proof. by_reply. rewrite alive_run in He by exact Ha. by eapply H. Qed.

Lemma st_ConnLocalAddr c k :
  (forall la rs1, exec (k la) rs1 w = Done a rs' w' -> C) ->
  exec (Op (ConnLocalAddr c) k) rs w = Done a rs' w' -> C.
Proof. by_reply. rewrite alive_run in He by exact Ha. by eapply H. Qed.

Lemma st_ResolveAddr addr k :
  (forall res rs1, exec (k res) rs1 w = Done a rs' w' -> C) ->
  exec (Op (ResolveAddr addr) k) rs w = Done a rs' w' -> C.
Proof. by_reply. rewrite alive_run in He by exact Ha. by eapply H. Qed.

(** When nothing else runs, [tags] is [socket_tags] of the fields as they are. *)
Lemma st_tags (k : tagset -> prog A) :
  (forall cur so rs1, sock_opts (sk w) = Some so ->
     exec (k (socket_tags cur so (connect_opts (sk w)) (remoteIP (endpoints (sk w))))) rs1 w
       = Done a rs' w' -> C) ->
  exec (bind tags k) rs w = Done a rs' w' -> C.
Proof.
  intros H. unfold tags, currentTags, get_connectOpts. cbn [bind do].
  apply st_CurrentTags. intros cur rs1. rewrite exec_GetS by exact Ha.
  destruct (sock_opts (sk w)) as [so|]; [|done]. intros He. apply (H cur so rs1 eq_refl).
  revert He. unfold socket_tags. cbn [bind do]. rewrite exec_GetS by exact Ha.
  destruct (connect_opts (sk w)) as [co|] eqn:Hco; cbn [bind do];
    repeat (rewrite exec_GetS by exact Ha; rewrite ?Hco; cbn [bind do]);
    case_bool_decide; cbn [bind do]; rewrite ?exec_GetS by exact Ha; exact id.
Qed.

(** The world with one more connection, just dialed. *)
Definition dialed_conn : netconn :=
  {| nc_closed := false; nc_deadline := None; nc_tls := false; nc_sent := [] |}.

Definition with_new_conn : world :=
  set_next_conn (S (next_conn w)) (set_conns (<[next_conn w := dialed_conn]> (conns w)) w).

Lemma st_DialContext addr k :
  (forall e rs1, exec (k (Err e)) rs1 w = Done a rs' w' -> C) ->
  (forall rs1, alive with_new_conn -> exec (k (Ok (next_conn w))) rs1 with_new_conn = Done a rs' w' -> C) ->
  exec (Op (DialContext addr) k) rs w = Done a rs' w' -> C.
Proof.
  intros He1 Hok. apply st_reply; [done| |done].
  intros r rs1 x w1 -> Hi He. destruct r as [| |[e|]| | | | | | | |]; cbn in Hi; simplify_eq.
  - rewrite alive_run in He by exact Ha. by eapply He1.
  - rewrite alive_run in He by exact Ha. by eapply Hok.
Qed.

Lemma st_Handshake c cfg k :
  (forall e rs1, exec (k (Some e)) rs1 w = Done a rs' w' -> C) ->
  (forall rs1, alive (on_conn with_tls c w) ->
     exec (k None) rs1 (on_conn with_tls c w) = Done a rs' w' -> C) ->
  exec (Op (Handshake c cfg) k) rs w = Done a rs' w' -> C.
Proof.
  intros He1 Hok. apply st_reply; [done| |done].
  intros r rs1 x w1 -> Hi He. destruct r as [| | |[e|]| | | | | | |]; cbn in Hi; simplify_eq.
  - rewrite alive_run in He by exact Ha. by eapply He1.
  - rewrite alive_run in He by exact Ha. by eapply Hok.
Qed.

Lemma st_SetReadDeadline c d k :
  (forall e rs1, exec (k (Some e)) rs1 w = Done a rs' w' -> C) ->
  (forall rs1, alive (on_conn (with_deadline d) c w) ->
     exec (k None) rs1 (on_conn (with_deadline d) c w) = Done a rs' w' -> C) ->
  exec (Op (SetReadDeadline c d) k) rs w = Done a rs' w' -> C.
Proof.
  intros He1 Hok. apply st_reply; [done| |done].
  intros r rs1 x w1 -> Hi He. destruct r as [| | |[e|]| | | | | | |]; cbn in Hi; simplify_eq.
  - rewrite alive_run in He by exact Ha. by eapply He1.
  - rewrite alive_run in He by exact Ha. by eapply Hok.
Qed.

Lemma st_ConnRead c k :
  (forall data err nc rs1, conns w !! c = Some nc -> length data <= readBufSize ->
     alive (arrive data w) ->
     exec (k (length data, err)) rs1 (arrive data w) = Done a rs' w' -> C) ->
  exec (Op (ConnRead c) k) rs w = Done a rs' w' -> C.
Proof.
  intros H. apply st_reply; [done| |done].
  intros r rs1 x w1 -> Hi He. destruct r; cbn in Hi; try done.
  destruct (conns w !! c) as [nc|]; [|done]. unfold read_allowed in Hi. destruct (Nat.leb_spec (length data) readBufSize); simplify_eq.
  rewrite alive_run in He by exact Ha. by eapply H.
Qed.

(** The world in which the buffer [b] was taken from the pool and emptied. *)
Definition with_buffer (b : bufid) : world :=
  set_bufs (<[b := []]> (bufs w)) (set_pool (pool w ∖ {[b]}) w).

Lemma st_BufGet k :
  (forall b rs1, b ∈ pool w \/ bufs w !! b = None -> alive (with_buffer b) ->
     exec (k b) rs1 (with_buffer b) = Done a rs' w' -> C) ->
  exec (Op BufGet k) rs w = Done a rs' w' -> C.
Proof.
  intros H. apply st_reply; [done| |done].
  intros r rs1 x w1 -> Hi He. destruct r; cbn in Hi; try done.
  case_match eqn:Hb; simplify_eq. rewrite alive_run in He by exact Ha.
  eapply H; [|exact Ha|exact He]. apply orb_true_iff in Hb as [Hb|Hb]; apply bool_decide_eq_true in Hb; auto.
Qed.

(** A send is taken by the loop goroutine, which queues the call. *)
Lemma st_Send c k :
  (forall rs1, alive (queued [c] w) -> exec (k true) rs1 (queued [c] w) = Done a rs' w' -> C) ->
  exec (Op (Send c) k) rs w = Done a rs' w' -> C.
Proof.
  intros H. apply st_reply; [done| |done].
  intros r rs1 x w1 -> Hi He. destruct r as [| | | | | | | | |[]|]; cbn in Hi; try done.
  - destruct Ha as (Hl & _). rewrite Hl in Hi. simplify_eq. rewrite alive_got in He by exact Ha.
    by eapply H.
  - destruct Ha as (_ & _ & Hv). by rewrite Hv in Hi.
Qed.
End steps.
End rules.

(** ** Evaluating a run

    Whether a run returns [a] in a world that passes a test: what is left of a
    concrete run is a boolean. *)
Definition returns `{K : K6} {A} (eqb : A -> bool) (test : world -> bool) (o : outcome A) : bool :=
  match o with Done a _ w => eqb a && test w | Stuck _ => false end.

Lemma returns_Done `{K : K6} {A} (eqb : A -> bool) test (o : outcome A) :
  returns eqb test o = true ->
  exists a rs w, o = Done a rs w /\ eqb a = true /\ test w = true.
Proof.
  destruct o as [a rs w|]; [|done]. intros H. apply andb_true_iff in H as [? ?]. by exists a, rs, w.
Qed.

(** Runs the program of a goal [exec p rs w = Done a rs' w' -> C] to its end or
    to the first choice that is not a reply of the environment. *)
Ltac step_op :=
  lazymatch goal with
  | Ha : alive ?w |- exec (Op GetS _) _ ?w = _ -> _ => apply (st_GetS _ _ _ _ _ _ Ha)
  | Ha : alive ?w |- exec (Op Now _) _ ?w = _ -> _ => apply (st_Now _ _ _ _ _ _ Ha)
  | Ha : alive ?w |- exec (Op (SetS _) _) _ ?w = _ -> _ => apply (st_SetS _ _ _ _ _ _ Ha); clear Ha; intros Ha
  | Ha : alive ?w |- exec (Op (Push _ _ _) _) _ ?w = _ -> _ => apply (st_Push _ _ _ _ _ _ Ha); clear Ha; intros Ha
  | Ha : alive ?w |- exec (Op (Go _) _) _ ?w = _ -> _ => apply (st_Go _ _ _ _ _ _ Ha); clear Ha; intros Ha
  | Ha : alive ?w |- exec (Op (ConnClose _) _) _ ?w = _ -> _ => apply (st_ConnClose _ _ _ _ _ _ Ha); clear Ha; intros Ha
  | Ha : alive ?w |- exec (Op NewPromise _) _ ?w = _ -> _ => apply (st_NewPromise _ _ _ _ _ _ Ha); clear Ha; intros Ha
  | Ha : alive ?w |- exec (Op (Settle _ _) _) _ ?w = _ -> _ => apply (st_Settle _ _ _ _ _ _ Ha); clear Ha; intros Ha
  | Ha : alive ?w |- exec (Op (BufPut _) _) _ ?w = _ -> _ => apply (st_BufPut _ _ _ _ _ _ Ha); clear Ha; intros Ha
  | Ha : alive ?w |- exec (Op Lock _) _ ?w = _ -> _ => apply (st_Lock _ _ _ _ _ _ Ha); [done|]; clear Ha; intros Ha
  | Ha : alive ?w |- exec (Op Unlock _) _ ?w = _ -> _ => apply (st_Unlock _ _ _ _ _ _ Ha); [done|]; clear Ha; intros Ha
  | Ha : alive ?w |- exec (Op CurrentTags _) _ ?w = _ -> _ => apply (st_CurrentTags _ _ _ _ _ _ Ha); intros ? ?
  | |- exec (bind (bind tags _) _) _ _ = _ -> _ => rewrite exec_bind_assoc
  | Ha : alive ?w |- exec (bind tags _) _ ?w = _ -> _ =>
      apply (st_tags _ _ _ _ _ _ Ha); intros ? ? ? ?
  | Ha : alive ?w |- exec (Op GetTLSConfig _) _ ?w = _ -> _ => apply (st_GetTLSConfig _ _ _ _ _ _ Ha); intros ? ?
  | Ha : alive ?w |- exec (Op (ConnLocalAddr _) _) _ ?w = _ -> _ => apply (st_ConnLocalAddr _ _ _ _ _ _ Ha); intros ? ?
  | Ha : alive ?w |- exec (Op (ResolveAddr _) _) _ ?w = _ -> _ => apply (st_ResolveAddr _ _ _ _ _ _ Ha); intros ? ?
  | Ha : alive ?w |- exec (Op (DialContext _) _) _ ?w = _ -> _ =>
      apply (st_DialContext _ _ _ _ _ _ Ha); [intros ? ?|intros ?; clear Ha; intros Ha]
  | Ha : alive ?w |- exec (Op (Handshake _ _) _) _ ?w = _ -> _ =>
      apply (st_Handshake _ _ _ _ _ _ Ha); [intros ? ?|intros ?; clear Ha; intros Ha]
  | Ha : alive ?w |- exec (Op (SetReadDeadline _ _) _) _ ?w = _ -> _ =>
      apply (st_SetReadDeadline _ _ _ _ _ _ Ha); [intros ? ?|intros ?; clear Ha; intros Ha]
  | Ha : alive ?w |- exec (Op (Send _) _) _ ?w = _ -> _ =>
      apply (st_Send _ _ _ _ _ _ Ha); intros ?; clear Ha; intros Ha
  | |- exec (Op GoPanic _) _ _ = _ -> _ => discriminate
  | |- exec panic _ _ = _ -> _ => discriminate
  | |- exec (do ?o) ?rs ?w = _ -> _ => change (exec (do o) rs w) with (exec (Op o Ret) rs w)
  end.

Ltac step_ops :=
  repeat (cbn [bind do panic]; step_op); cbn [bind do panic];
  try match goal with
  | |- exec (Ret ?x) ?rs ?w = _ -> _ => change (exec (Ret x) rs w) with (Done x rs w)
  end.
