(* ===== verification/Trace.v ===== *)
(** * What a program asks of its environment

    The exchanges of a run: every operation that the environment answers, with
    its arguments, and the answer, in order. [ends p w Q] says that every run of
    [p] from [w] that returns ends as [Q] says of its exchanges, its result and its
    last world; a specification stated with it ties the outcome of a program to what
    it asked and to what it was told. *)
From S2P Require Import Prelude GoStd K6 Metrics Lang Socket Events Exec.

Section trace.
Context `{K : K6}.

Inductive exchange : Type :=
| Asked {X : Type} (o : op X) (r : reply).

(** An operation that needs no answer leaves no exchange. *)
Definition asks {X} (o : op X) (r : reply) : list exchange :=
  if takes_reply o then [Asked o r] else [].

(** The exchanges of the run that [exec] makes. *)
Fixpoint trace {A} (p : prog A) (rs : list reply) (w : world) : list exchange :=
  match p with
  | Ret _ => []
  | Op o k =>
      let '(r, rs') := if takes_reply o
                       then match rs with r :: rs' => (r, rs') | [] => (RNone, []) end
                       else (RNone, rs) in
      match interp o r w with
      | Some (x, w') => asks o r ++ trace (k x) rs' (loop_run w')
      | None => []
      end
  end.

Abbreviation post A := (list exchange -> A -> world -> Prop) (only parsing).

Fixpoint ends {A} (p : prog A) (w : world) (Q : post A) : Prop :=
  match p with
  | Ret a => Q [] a w
  | Op o k =>
      forall r x w', interp o r w = Some (x, w') ->
      ends (k x) (loop_run w') (fun t => Q (asks o r ++ t))
  end.

Lemma ends_mono {A} (p : prog A) w (Q Q' : post A) :
  (forall t a w', Q t a w' -> Q' t a w') -> ends p w Q -> ends p w Q'.
Proof.
  revert w Q Q'. induction p as [a|X o k IH]; intros w Q Q' HQ; cbn; [apply HQ|].
  intros H r x w' Hi. eapply IH; [|by apply H]. intros t a w2. apply HQ.
Qed.

Lemma ends_bind {A B} (p : prog A) (f : A -> prog B) w (Q : post B) :
  ends p w (fun t a w' => ends (f a) w' (fun t2 => Q (t ++ t2))) -> ends (bind p f) w Q.
Proof.
  revert w Q. induction p as [a|X o k IH]; intros w Q; cbn; [done|].
  intros H r x w' Hi. apply IH. eapply ends_mono; [|by apply H].
  intros t a w2. apply ends_mono. intros t2 b w3. by rewrite app_assoc.
Qed.

(** A run that returns ends as stated. *)
Lemma ends_exec {A} (p : prog A) w (Q : post A) rs a rs' w' :
  ends p w Q -> exec p rs w = Done a rs' w' -> Q (trace p rs w) a w'.
Proof.
  revert rs w Q. induction p as [b|X o k IH]; intros rs w Q; cbn.
  - by intros H [= <- <- <-].
  - intros H. destruct (if takes_reply o then _ else _) as [r rs1].
    destruct (interp o r w) as [[x w1]|] eqn:Hi; [|done].
    apply (IH _ _ _ (fun t => Q (asks o r ++ t))). by apply H.
Qed.

(** ** Rules, on a live socket *)
Section rules.
Context {A : Type} (w : world) (Q : post A) (Ha : alive w).

(** An operation without an answer. *)
Lemma en_pure {X} (o : op X) k x w1 :
  takes_reply o = false -> (forall r, interp o r w = Some (x, w1)) -> alive w1 ->
  (alive w1 -> ends (k x) w1 Q) -> ends (Op o k) w Q.
Proof.
  intros Ht Hi H1 H. cbn. intros r y w2. rewrite Hi. intros [= <- <-]. unfold asks.
  rewrite Ht, alive_run by done. by apply H.
Qed.

Lemma en_Lock k :
  mu w = MFree -> (alive (set_mu MWrite w) -> ends (k tt) (set_mu MWrite w) Q) ->
  ends (Op Lock k) w Q.
Proof. intros Hm. apply en_pure; [done| |exact Ha]. intros r. cbn. by rewrite Hm. Qed.

Lemma en_Unlock k :
  mu w = MWrite -> (alive (set_mu MFree w) -> ends (k tt) (set_mu MFree w) Q) ->
  ends (Op Unlock k) w Q.
Proof. intros Hm. apply en_pure; [done| |exact Ha]. intros r. cbn. by rewrite Hm. Qed.

(** A section under the read lock. *)
Lemma en_read (f : socket -> prog A) :
  mu w = MFree -> ends (f (sk w)) w Q ->
  ends (do! do RLock in let! s := do GetS in do! do RUnlock in f s) w Q.
Proof.
  intros Hm H. cbn [bind do].
  apply (en_pure RLock _ tt (set_mu (MRead 1) w)); [done|intros r; cbn; by rewrite Hm|exact Ha|].
  intros Ha1. cbn. intros r x w2 [= <- <-] r2 x2 w3. rewrite alive_run by exact Ha1. cbn.
  intros [= <- <-]. replace (set_mu MFree (set_mu (MRead 1) w)) with w; [by rewrite alive_run|].
  destruct w. cbn in *. by subst.
Qed.

Lemma en_Push m ts v k :
  (alive (sampled m ts v w) -> ends (k tt) (sampled m ts v w) Q) -> ends (Op (Push m ts v) k) w Q.
Proof.
  apply en_pure; [done| |exact Ha]. intros r. cbn. destruct Ha as (_ & _ & Hv). by rewrite Hv.
Qed.

Lemma en_BufWrite b data old k :
  bufs w !! b = Some old ->
  (alive (buf_write b old data w) -> ends (k tt) (buf_write b old data w) Q) ->
  ends (Op (BufWrite b data) k) w Q.
Proof. intros Hb. apply en_pure; [done| |exact Ha]. intros r. cbn. by rewrite Hb. Qed.

(** *** Operations that the environment answers *)
Ltac answered r := intros H; cbn; intros r ? ? Hi; destruct r; cbn in Hi; try done; simplify_eq.

Lemma en_CurrentTags k :
  (forall ts, ends (k ts) w (fun t => Q (Asked CurrentTags (RTags ts) :: t))) ->
  ends (Op CurrentTags k) w Q.
Proof. answered r. rewrite alive_run by exact Ha. apply H. Qed.

Lemma en_GetTLSConfig k :
  (forall cfg, ends (k cfg) w (fun t => Q (Asked GetTLSConfig (RTLS cfg) :: t))) ->
  ends (Op GetTLSConfig k) w Q.
Proof. answered r. rewrite alive_run by exact Ha. apply H. Qed.

Lemma en_ConnLocalAddr c k :
  (forall la, ends (k la) w (fun t => Q (Asked (ConnLocalAddr c) (RAddr la) :: t))) ->
  ends (Op (ConnLocalAddr c) k) w Q.
Proof. answered r. rewrite alive_run by exact Ha. apply H. Qed.

Lemma en_ResolveAddr addr k :
  (forall res, ends (k res) w (fun t => Q (Asked (ResolveAddr addr) (RResolve res) :: t))) ->
  ends (Op (ResolveAddr addr) k) w Q.
Proof. answered r. rewrite alive_run by exact Ha. apply H. Qed.

Lemma en_DialContext addr k :
  (forall e, ends (k (Err e)) w (fun t => Q (Asked (DialContext addr) (RDial (Some e)) :: t))) ->
  (alive (with_new_conn w) ->
   ends (k (Ok (next_conn w))) (with_new_conn w)
     (fun t => Q (Asked (DialContext addr) (RDial None) :: t))) ->
  ends (Op (DialContext addr) k) w Q.
Proof.
  intros He Hok. cbn. intros r x w1 Hi. destruct r as [| |[e|]| | | | | | | |]; cbn in Hi; simplify_eq;
    rewrite alive_run by exact Ha; [apply He|by apply Hok].
Qed.

(** An operation on a connection that may fail. *)
Lemma en_error (o : op (option goerr)) f c k :
  takes_reply o = true ->
  (forall r, interp o r w = match r with
     | RError None => Some (None, on_conn f c w)
     | RError (Some e) => Some (Some e, w)
     | _ => None
     end) ->
  (forall e, ends (k (Some e)) w (fun t => Q (Asked o (RError (Some e)) :: t))) ->
  (alive (on_conn f c w) ->
   ends (k None) (on_conn f c w) (fun t => Q (Asked o (RError None) :: t))) ->
  ends (Op o k) w Q.
Proof.
  intros Ht Hi He Hok. cbn. intros r x w1. rewrite Hi. unfold asks. rewrite Ht.
  destruct r as [| | |[e|]| | | | | | |]; try done; intros [= <- <-];
    rewrite alive_run by exact Ha; [apply He|by apply Hok].
Qed.

Lemma en_Handshake c cfg k :
  (forall e, ends (k (Some e)) w (fun t => Q (Asked (Handshake c cfg) (RError (Some e)) :: t))) ->
  (alive (on_conn with_tls c w) ->
   ends (k None) (on_conn with_tls c w) (fun t => Q (Asked (Handshake c cfg) (RError None) :: t))) ->
  ends (Op (Handshake c cfg) k) w Q.
Proof. by apply en_error. Qed.

Lemma en_SetReadDeadline c d k :
  (forall e, ends (k (Some e)) w (fun t => Q (Asked (SetReadDeadline c d) (RError (Some e)) :: t))) ->
  (alive (on_conn (with_deadline d) c w) ->
   ends (k None) (on_conn (with_deadline d) c w)
     (fun t => Q (Asked (SetReadDeadline c d) (RError None) :: t))) ->
  ends (Op (SetReadDeadline c d) k) w Q.
Proof. by apply en_error. Qed.

Lemma en_ConnRead c k :
  (forall data err, is_Some (conns w !! c) -> length data <= readBufSize -> alive (arrive data w) ->
     ends (k (length data, err)) (arrive data w)
       (fun t => Q (Asked (ConnRead c) (RRead data err) :: t))) ->
  ends (Op (ConnRead c) k) w Q.
Proof.
  intros H. cbn. intros r x w1 Hi. destruct r; try done.
  destruct (conns w !! c) as [nc|]; [|done].
  destruct (read_allowed data) eqn:Hr; simplify_eq. rewrite alive_run by exact Ha.
  apply H; [by eexists|by apply Nat.leb_le|exact Ha].
Qed.

Lemma en_BufGet k :
  (forall b, b ∈ pool w \/ bufs w !! b = None -> alive (with_buffer w b) ->
     ends (k b) (with_buffer w b) (fun t => Q (Asked BufGet (RBuf b) :: t))) ->
  ends (Op BufGet k) w Q.
Proof.
  intros H. cbn. intros r x w1 Hi. destruct r; try done.
  case_match eqn:Hb; simplify_eq. rewrite alive_run by exact Ha. apply H; [|exact Ha].
  apply orb_true_iff in Hb as [Hb|Hb]; apply bool_decide_eq_true in Hb; auto.
Qed.

(** The loop goroutine takes the call that is offered. *)
Lemma en_Send c k :
  (alive (queued [c] w) ->
   ends (k true) (queued [c] w) (fun t => Q (Asked (Send c) (RSelect true) :: t))) ->
  ends (Op (Send c) k) w Q.
Proof.
  intros H. cbn. intros r x w1 Hi. destruct Ha as (Hl & Hs & Hv).
  destruct r as [| | | | | | | | |[]|]; try done.
  - rewrite Hl in Hi. simplify_eq. rewrite alive_got by exact Ha. by apply H.
  - by rewrite Hv in Hi.
Qed.

(** When nothing else runs, [tags] is [socket_tags] of the fields as they are. *)
Lemma en_tags (k : tagset -> prog A) :
  (forall cur so, sock_opts (sk w) = Some so ->
     ends (k (socket_tags cur so (connect_opts (sk w)) (remoteIP (endpoints (sk w))))) w
       (fun t => Q (Asked CurrentTags (RTags cur) :: t))) ->
  ends (bind tags k) w Q.
Proof.
  intros H. unfold tags, currentTags, get_connectOpts. cbn [bind do].
  apply en_CurrentTags. intros cur. specialize (H cur). unfold socket_tags in H.
  assert (HG : forall B (k : socket -> prog B) (Q : post B), ends (k (sk w)) w Q -> ends (Op GetS k) w Q)
    by (intros B k' Q' H'; cbn; intros r x w1 [= <- <-]; by rewrite alive_run).
  apply HG. destruct (sock_opts (sk w)) as [so|]; [|done]. specialize (H so eq_refl).
  cbn [bind do]. apply HG.
  destruct (connect_opts (sk w)) as [co|] eqn:Hco; cbn [bind do];
    repeat (apply HG; rewrite ?Hco; cbn [bind do]);
    case_bool_decide; cbn [bind do]; try apply HG; exact H.
Qed.
End rules.
End trace.
Arguments trace : simpl never.

(** Steps a goal [ends p w Q] through its operations. *)
Ltac en_op :=
  cbn [bind do panic];
  lazymatch goal with
  | |- ends (Op GoPanic _) _ _ => intros _ []
  | |- ends panic _ _ => intros _ []
  | Ha : alive ?w |- ends (Op Lock _) ?w _ => apply (en_Lock _ _ Ha); [done|clear Ha; intros Ha]
  | Ha : alive ?w |- ends (Op Unlock _) ?w _ => apply (en_Unlock _ _ Ha); [done|clear Ha; intros Ha]
  | Ha : alive ?w |- ends (Op (Push _ _ _) _) ?w _ => apply (en_Push _ _ Ha); clear Ha; intros Ha
  | Ha : alive ?w |- ends (bind tags _) ?w _ => apply (en_tags _ _ Ha); intros ? ? ?
  | Ha : alive ?w |- ends (Op CurrentTags _) ?w _ => apply (en_CurrentTags _ _ Ha); intros ?
  | Ha : alive ?w |- ends (Op GetTLSConfig _) ?w _ => apply (en_GetTLSConfig _ _ Ha); intros ?
  | Ha : alive ?w |- ends (Op (ConnLocalAddr _) _) ?w _ => apply (en_ConnLocalAddr _ _ Ha); intros ?
  | Ha : alive ?w |- ends (Op (ResolveAddr _) _) ?w _ => apply (en_ResolveAddr _ _ Ha); intros ?
  | Ha : alive ?w |- ends (Op (DialContext _) _) ?w _ =>
      apply (en_DialContext _ _ Ha); [intros ?|clear Ha; intros Ha]
  | Ha : alive ?w |- ends (Op (Handshake _ _) _) ?w _ =>
      apply (en_Handshake _ _ Ha); [intros ?|clear Ha; intros Ha]
  | Ha : alive ?w |- ends (Op (SetReadDeadline _ _) _) ?w _ =>
      apply (en_SetReadDeadline _ _ Ha); [intros ?|clear Ha; intros Ha]
  | Ha : alive ?w |- ends (Op (Send _) _) ?w _ => apply (en_Send _ _ Ha); clear Ha; intros Ha
  | Ha : alive ?w |- ends (Op ?o _) ?w _ =>
      lazymatch o with
      | GetS => idtac | SetS _ => idtac | Now => idtac | Go _ => idtac
      | ConnClose _ => idtac | BufPut _ => idtac
      end;
      eapply en_pure; [reflexivity|intros ?; reflexivity|exact Ha|clear Ha; intros Ha]
  | |- ends (do ?o) ?w ?Q => change (ends (Op o Ret) w Q)
  end.
Ltac en_ops := repeat en_op; cbn [bind do panic].
