(* ===== verification/Connect.v ===== *)
(** * Connecting and destroying: tcp/socket_connect.go *)
From S2P Require Import Prelude GoStd K6 Metrics Lang Socket Events.

Definition defaultHost : string := "localhost".
Definition errNoTLSConfig : goerr := ErrNew "TLS requested but no TLS config available".

(** Method address of connectOptions. *)
Definition address (co : connectOptions) : string := JoinHostPort (Host co) (Itoa (Port co)).

Definition with_Host (h : string) (co : connectOptions) : connectOptions :=
  {| Port := Port co; Host := h; TLS := TLS co; co_Tags := co_Tags co |}.

Section connect.
Context `{K : K6}.

(** The options that [connectPrepare] computes from the arguments; [None] is
    a nil pointer dereference. A missing argument is a nil interface. *)
Definition prepare_options (portOrOptions hostOrEmpty : option Value)
    : option (result connectOptions goerr) :=
  let with_host (opts : connectOptions) (host : option Value) :=
    match host with
    | Some h => if negb (IsUndefined h) && negb (IsNull h)
                then with_Host (ValueString h) opts else opts
    | None => opts
    end in
  match portOrOptions with
  | None => None
  | Some v =>
      match ExportType v with
      | TInt64 | TString =>
          Some (Ok (with_host {| Port := ToInteger v; Host := defaultHost; TLS := false;
                                 co_Tags := ∅ |} hostOrEmpty))
      | TMap =>
          match ExportTo_connectOptions v with
          | Err e => Some (Err e)
          | Ok None => None
          | Ok (Some opts) =>
              let opts := if bool_decide (Host opts = "") then with_Host defaultHost opts
                          else opts in
              Some (Ok (with_host opts None))
          end
      | _ => Some (Err (ErrWrap "" errInvalidType ": expected integer or object"))
      end
  end.

(** connectPrepare *)
Definition connectPrepare (portOrOptions hostOrEmpty : option Value) : prog (option goerr) :=
  match prepare_options portOrOptions hostOrEmpty with
  | None => panic
  | Some (Err e) => Ret (Some e)
  | Some (Ok opts) => do! do (SetS (SetConnectOpts opts)) in Ret None
  end.

(** connect: returns the promise. *)
Definition connect (portOrOptions hostOrEmpty : option Value) : prog promise :=
  let! p := do NewPromise in
  let! err := connectPrepare portOrOptions hostOrEmpty in
  match err with
  | Some e =>
      let! ts := tags in
      do! rejectWithTCPError p e "connect" ts in
      Ret p
  | None => do! do (Go (GConnect p)) in Ret p
  end.

(** resolve *)
Definition resolve : prog (option goerr) :=
  let! co := get_connectOpts in
  let! r := do (ResolveAddr (address co)) in
  match r with
  | Err e => Ret (Some e)
  | Ok (ip, port) =>
      do! do (SetS (SetRemoteIP ip)) in
      do! do (SetS (SetRemotePort port)) in
      let! co := get_connectOpts in
      do! do (SetS (SetRemoteAddr (JoinHostPort ip (Itoa (Port co))))) in
      Ret None
  end.

(** wrapTLS *)
Definition wrapTLS (c : connid) : prog (result connid goerr) :=
  let! cfg := do GetTLSConfig in
  match cfg with
  | Some cfg =>
      let! co := get_connectOpts in
      let name := if bool_decide (ServerName cfg = "") then Host co else ServerName cfg in
      let! err := do (Handshake c {| ServerName := name; NextProtos := ["http/1.1"] |}) in
      match err with
      | Some e =>
          do! do (ConnClose c) in
          Ret (Err (ErrWrap "TLS handshake failed: " e ""))
      | None => Ret (Ok c)
      end
  | None =>
      do! do (ConnClose c) in
      Ret (Err errNoTLSConfig)
  end.

(** The part of [dial] after the connection is established and wrapped. *)
Definition dial_finish (c : connid) : prog (option goerr) :=
  let! la := do (ConnLocalAddr c) in
  do! match la with
      | Some (ip, port) => do! do (SetS (SetLocalIP ip)) in do (SetS (SetLocalPort port))
      | None => Ret tt
      end in
  do! do (SetS (SetState socketStateOpen)) in
  do! do (SetS (SetConn (Some c))) in
  let! now := do Now in
  do! do (SetS (SetConnectTime now)) in
  let! s := do GetS in
  if (0 <? timeout s)%Z
  then do (SetReadDeadline c (Some (connectTime s + timeout s)%Z))
  else Ret None.

(** dial *)
Definition dial : prog (option goerr) :=
  let! s := do GetS in
  let! r := do (DialContext (remoteAddr (endpoints s))) in
  match r with
  | Err e => Ret (Some e)
  | Ok c =>
      let! co := get_connectOpts in
      if TLS co then
        let! t := wrapTLS c in
        match t with
        | Err e => Ret (Some e)
        | Ok c => dial_finish c
        end
      else dial_finish c
  end.

(** connectExecute: its log line dereferences [s.connectOpts]. *)
Definition connectExecute : prog (option goerr) :=
  do! do Lock in
  do! get_connectOpts in
  let! ts := tags in
  do! do (SetS (SetState socketStateOpening)) in
  let! err := addDurationMetricsFor tcpResolving ts resolve in
  match err with
  | Some e =>
      do! do (SetS (SetState socketStateDisconnected)) in
      do! do Unlock in
      Ret (Some e)
  | None =>
      let! err := addDurationMetricsFor tcpConnecting ts dial in
      match err with
      | Some e =>
          do! do (SetS (SetState socketStateDisconnected)) in
          do! do Unlock in
          Ret (Some e)
      | None =>
          do! do Unlock in
          do! fire "connect" [] in
          do! do (Go GRead) in
          do! addCounterMetrics tcpSockets ts in
          Ret None
      end
  end.

(** The goroutine started by [connect]. *)
Definition connect_goroutine (p : promise) : prog unit :=
  let! err := connectExecute in
  match err with
  | Some e =>
      let! ts := tags in
      rejectWithTCPError p e "connect" ts
  | None => do (Settle p Resolved)
  end.

(** The function that [destroy] passes to [destroyOnce.Do]. *)
Definition destroy_body : prog unit :=
  do! do Lock in
  do! do (SetS (SetState socketStateDestroyed)) in
  let! s := do GetS in
  do! do (SetS (SetConn None)) in
  let! now := do Now in
  let duration := (now - connectTime s)%Z in
  let! ts := tags in
  do! do Unlock in
  do! match conn s with
      | Some c =>
          do! do (ConnClose c) in
          addDurationMetrics duration tcpDuration ts
      | None => Ret tt
      end in
  do! fire "close" [] in
  do Cancel.

(** destroy *)
Definition destroy : prog unit :=
  let! first := do OnceEnter in
  if first : bool then do! destroy_body in do OnceLeave
  else Ret tt.
End connect.
