(* ===== verification/ReadWrite.v ===== *)
(** * Reading, writing and the idle timeout

    tcp/socket_read.go, tcp/socket_write.go and tcp/socket_timeout.go. *)
From S2P Require Import Prelude GoStd Codec K6 Metrics Lang Socket Events Connect.

Definition errNoActiveConnection : goerr := ErrNew "no active connection".
Definition errWrite0Bytes : goerr := ErrNew "write returned 0 bytes written".

Section read.
Context `{K : K6}.

(** readLoopStep: does the read loop go on? *)
Definition readLoopStep (c : connid) (tmo : Z) : prog bool :=
  do! (if (0 <? tmo)%Z then
         let! now := do Now in
         do! do (SetReadDeadline c (Some (now + tmo)%Z)) in Ret tt
       else Ret tt) in
  let! (n, err) := do (ConnRead c) in
  do! (if (0 <? n)%nat then
         let! ts := currentTags in
         do! addCounterMetrics tcpReads ts in
         do! do (SetS (AddRead (Z.of_nat n))) in
         let! buf := do BufGet in
         let! s := do GetS in
         do! do (BufWrite buf (take n (readBuf s))) in
         do! fireAndCleanup (Some buf) "data" [ArgBytes buf] in
         Ret tt
       else Ret tt) in
  let! readable := isReadable in
  if negb readable then Ret false
  else match err with
  | None => Ret true
  | Some err =>
      if errors_Is err ErrEOF then Ret false
      else if is_net_timeout err then do! fire "timeout" [] in Ret true
      else
        let! ts := currentTags in
        do! handleError err "read" ts in
        Ret false
  end.

(** One round of the loop of [read]: [false] leaves the loop, and the
    deferred [destroy] runs. *)
Definition read_round : prog bool :=
  let! readable := isReadable in
  if negb readable then Ret false
  else
    do! do RLock in
    let! s := do GetS in
    do! do RUnlock in
    match conn s with
    | None => Ret false
    | Some c => readLoopStep c (timeout s)
    end.

(** [read], for at most [rounds] rounds. *)
Fixpoint read_upto (rounds : nat) : prog unit :=
  match rounds with
  | O => Ret tt
  | S n => let! again := read_round in
           if again : bool then read_upto n else destroy
  end.
End read.

Section write.
Context `{K : K6}.

(** stringOrArrayBuffer: a string is decoded to fresh bytes; the slice of a byte
    array or an ArrayBuffer shares its array with the script. *)
Definition stringOrArrayBuffer (input : Value) (encoding : string) : result goslice goerr :=
  match ExportType input with
  | TString => result_bind (ExportTo_string input) (fun str =>
      result_bind (decodeString str encoding) (fun bytes => Ok (Fresh bytes)))
  | TBytes => ExportTo_bytes input
  | TArrayBuffer => ExportTo_ArrayBuffer input
  | _ => Err (ErrWrap "" errInvalidType ": String or ArrayBuffer expected")
  end.

(** writePrepare: the options it returns are never nil. *)
Definition writePrepare (input : Value) (opts : option writeOptions)
    : result goslice goerr * writeOptions :=
  let opts := default {| Encoding := ""; wo_Tags := ∅ |} opts in
  (stringOrArrayBuffer input (Encoding opts), opts).

(** The fragment loop of writeExecute: the bytes written and the error.
    [fuel] bounds the rounds; every round but the last writes a byte. *)
Fixpoint write_loop (fuel : nat) (c : connid) (data : goslice) (total : nat)
    : prog (nat * option goerr) :=
  match fuel with
  | O => Ret (total, None)
  | S fuel =>
      if total <? slice_len data then
        let! (n, err) := do (ConnWrite c (slice_from total data)) in
        match err with
        | Some e =>
            Ret (total, Some (ErrWrap (String.append "failed to write data after "
                  (String.append (Itoa (Z.of_nat total)) " bytes: ")) e ""))
        | None =>
            if n =? 0 then
              Ret (total, Some (ErrWrap "" errWrite0Bytes (String.append ": after "
                    (String.append (Itoa (Z.of_nat total)) " bytes"))))
            else
              do! do (SetS (AddWritten (Z.of_nat n))) in
              write_loop fuel c data (total + n)
        end
      else Ret (total, None)
  end.

(** writeExecute *)
Definition writeExecute (data : goslice) (opts : writeOptions) : prog (option goerr) :=
  do! do RLock in
  let! s := do GetS in
  do! do RUnlock in
  match conn s with
  | None => Ret (Some errNoActiveConnection)
  | Some c =>
      let! (total, result) := write_loop (S (slice_len data)) c data 0 in
      do! match result with
          | Some _ =>
              if (0 <? total) && (total <? slice_len data) then
                let! cur := currentTags in
                addCounterMetrics tcpPartialWrites (addToTagSet cur (wo_Tags opts))
              else Ret tt
          | None => Ret tt
          end in
      let! cur := currentTags in
      do! addCounterMetrics tcpWrites (addToTagSet cur (wo_Tags opts)) in
      Ret result
  end.

(** The goroutine started by [write]. *)
Definition write_goroutine (p : promise) (data : goslice) (opts : writeOptions) : prog unit :=
  let! err := writeExecute data opts in
  match err with
  | Some e => do (Settle p (RejectedErr e))
  | None => do (Settle p Resolved)
  end.

(** write: a missing first argument is a nil interface. *)
Definition write (input : option Value) (opts : option writeOptions) : prog promise :=
  let! p := do NewPromise in
  match input with
  | None => panic
  | Some v =>
      match writePrepare v opts with
      | (Err e, opts) =>
          let! cur := currentTags in
          do! rejectWithTCPError p e "write" (addToTagSet cur (wo_Tags opts)) in
          Ret p
      | (Ok data, opts) => do! do (Go (GWrite p data opts)) in Ret p
      end
  end.
End write.

Section timeout.
Context `{K : K6}.

(** The duration stored for a timeout in milliseconds:
    [time.Duration(timeoutMs) * time.Millisecond] wraps as int64. *)
Definition timeout_duration (timeoutMs : Z) : Z :=
  if (timeoutMs <=? 0)%Z then 0 else int64 (timeoutMs * 1000000).

(** setTimeout: the error it returns beside [s.this]. *)
Definition setTimeout (timeoutMs : Z) : prog (option goerr) :=
  do! do Lock in
  do! do (SetS (SetTimeout (timeout_duration timeoutMs))) in
  let! s := do GetS in
  let! err := match conn s with
    | Some c =>
        if (0 <? timeout s)%Z then
          let! now := do Now in
          do (SetReadDeadline c (Some (now + timeout s)%Z))
        else do (SetReadDeadline c None)
    | None => Ret None
    end in
  do! do Unlock in
  Ret err.
End timeout.
