(* ===== verification/System.v ===== *)
(** * All goroutines of a socket, interleaved

    A configuration holds the VU's JS thread (thread 0), the goroutines the
    socket has started, and the world they share. The scheduler [cfg_step]
    lets any of them take one atomic step, lets the loop goroutine move, starts
    an API call or a queued callback on the idle JS thread, and lets time pass
    or the VU end. [reachable] closes the constructor's result under it. *)
From S2P Require Import Prelude GoStd K6 Metrics Lang Socket Events Connect ReadWrite.

(** What a script can do that matters to a socket object. *)
Inductive apicall `{K : K6} :=
| AConnect (portOrOptions hostOrEmpty : option Value)
| AWrite (input : option Value) (opts : option writeOptions)
| ADestroy
| ASetTimeout (ms : Z)
| AOn (event : string) (handler : nat)
| AReadyState
| AConnected
| ALocalIP | ALocalPort | ARemoteIP | ARemotePort
| ABytesRead | ABytesWritten
| AStore (m : nat) (bytes : list byte).   (** no call: it assigns to an ArrayBuffer of its own *)

Section system.
Context `{K : K6}.

Definition ignore {A} (p : prog A) : prog unit := let! _ := p in Ret tt.

Definition api_prog (a : apicall) : prog unit :=
  match a with
  | AConnect p h => ignore (connect p h)
  | AWrite v o => ignore (write v o)
  | ADestroy => destroy
  | ASetTimeout ms => ignore (setTimeout ms)
  | AOn ev h => on ev h
  | AReadyState => ignore readyState
  | AConnected => ignore isConnected
  | ALocalIP => ignore get_localIP
  | ALocalPort => ignore get_localPort
  | ARemoteIP => ignore get_remoteIP
  | ARemotePort => ignore get_remotePort
  | ABytesRead => ignore bytesRead
  | ABytesWritten => ignore bytesWritten
  | AStore m bytes => do (Store m bytes)
  end.

(** The calls a handler makes; every run of a script is such a sequence. *)
Fixpoint run_script (l : list apicall) : prog unit :=
  match l with
  | [] => Ret tt
  | a :: l => do! api_prog a in run_script l
  end.

(** A thread: a program, or the loop of [read] with the round it is in. *)
Inductive thread :=
| TProg (p : prog unit)
| TRead (p : prog bool).

Definition start (g : goroutine) : thread :=
  match g with
  | GConnect p => TProg (connect_goroutine p)
  | GWrite p data opts => TProg (write_goroutine p data opts)
  | GRead => TRead read_round
  end.

Definition idle : thread := TProg (Ret tt).

(** The operation a thread is about to take. *)
Definition at_op (th : thread) {X} (o : op X) : Prop :=
  (exists k, th = TProg (Op o k)) \/ (exists k, th = TRead (Op o k)).

Lemma thread_shape th :
  th = idle \/ (exists b, th = TRead (Ret b)) \/ exists X (o : op X), at_op th o.
Proof.
  destruct th as [[[]|X o k]|[b|X o k]]; [by left|..].
  - right. right. exists X, o. left. eauto.
  - right. left. eauto.
  - right. right. exists X, o. right. eauto.
Qed.

Definition thread_step (th : thread) (r : reply) (w : world) : option (thread * world) :=
  match th with
  | TProg (Ret _) => None
  | TProg (Op o k) =>
      match interp o r w with Some (x, w') => Some (TProg (k x), w') | None => None end
  | TRead (Ret true) => Some (TRead read_round, w)
  | TRead (Ret false) => Some (TProg destroy, w)
  | TRead (Op o k) =>
      match interp o r w with Some (x, w') => Some (TRead (k x), w') | None => None end
  end.

(** [ran]: the callbacks that have started, in order. *)
Record cfg := { threads : list thread; ran : list nat; cw : world }.

Definition with_cw (w : world) (c : cfg) : cfg :=
  {| threads := threads c; ran := ran c; cw := w |}.

Definition init_cfg (w : world) : cfg := {| threads := [idle]; ran := []; cw := w |}.

Inductive sched :=
| SThread (i : nat) (r : reply)       (** thread i takes a step *)
| SLoop                               (** the loop goroutine takes a step *)
| SCall (a : apicall)                 (** the idle JS thread calls the API *)
| SCallback (i : nat) (l : list apicall)
    (** the idle JS thread runs the i-th queued callback, whose handler
        makes the calls l *)
| STick (d : N)                      (** time passes *)
| SVuDone.                            (** the VU's context ends *)

Definition js_idle (c : cfg) : bool :=
  match threads c with TProg (Ret _) :: _ => true | _ => false end.

(** When every goroutine has returned and the JS thread is idle. *)
Definition finished (c : cfg) : Prop := Forall (fun th => th = idle) (threads c).

Definition set_js (p : prog unit) (c : cfg) : cfg :=
  {| threads := <[0 := TProg p]> (threads c); ran := ran c; cw := cw c |}.

Definition cfg_step (s : sched) (c : cfg) : option cfg :=
  match s with
  | SThread i r =>
      match threads c !! i with
      | Some th =>
          match thread_step th r (cw c) with
          | Some (th', w') =>
              let news := drop (length (spawned (cw c))) (spawned w') in
              Some {| threads := <[i := th']> (threads c) ++ map start news;
                      ran := ran c; cw := w' |}
          | None => None
          end
      | None => None
      end
  | SLoop => match loop_step (cw c) with Some w' => Some (with_cw w' c) | None => None end
  | SCall a => if js_idle c then Some (set_js (api_prog a) c) else None
  | SCallback i l =>
      match queue (cw c) !! i with
      | Some cl =>
          if js_idle c && negb (bool_decide (i ∈ ran c))
          then Some {| threads := <[0 := TProg (callback cl (run_script l))]> (threads c);
                       ran := ran c ++ [i]; cw := cw c |}
          else None
      | None => None
      end
  | STick d => Some (with_cw (set_clock (clock (cw c) + Z.of_N d)%Z (cw c)) c)
  | SVuDone => Some (with_cw (set_vu_done true (cw c)) c)
  end.

Fixpoint run (l : list sched) (c : cfg) : option cfg :=
  match l with
  | [] => Some c
  | s :: l => match cfg_step s c with Some c' => run l c' | None => None end
  end.

(** The calls the loop goroutine has received, in order. *)
Definition accepted (w : world) : list call :=
  queue w ++ match lp w with LoopGot c => [c] | _ => [] end.

(** [initial w]: some constructor call returned with world w. *)
Definition initial (w : world) : Prop := exists arg now, construct arg now = Ok w.

Lemma initial_world w : initial w -> exists s now,
  w = world_of s now /\ state s = socketStateDisconnected /\ conn s = None /\ handlers s = ∅.
Proof.
  intros (arg & now & H). unfold construct in H. repeat case_match; simplify_eq; eauto 10.
Qed.

Inductive steps : cfg -> cfg -> Prop :=
| steps_refl c : steps c c
| steps_step s c c' c'' : steps c c' -> cfg_step s c' = Some c'' -> steps c c''.

Definition reachable (c : cfg) : Prop := exists w, initial w /\ steps (init_cfg w) c.

Lemma steps_trans c1 c2 c3 : steps c1 c2 -> steps c2 c3 -> steps c1 c3.
Proof. intros H1 H2. induction H2; [done|]. by econstructor; [apply IHsteps|]. Qed.

Lemma reachable_steps c c' : reachable c -> steps c c' -> reachable c'.
Proof. intros (w & Hw & H) Hs. exists w. split; [done|]. by eapply steps_trans. Qed.

Lemma run_steps l c c' : run l c = Some c' -> steps c c'.
Proof.
  revert c. induction l as [|s l IH]; intros c; cbn.
  - intros [= ->]. constructor.
  - destruct (cfg_step s c) as [c1|] eqn:Hs; [|done]. intros H.
    eapply steps_trans; [|by apply IH]. econstructor; [constructor|done].
Qed.

Lemma run_reachable l w c : initial w -> run l (init_cfg w) = Some c -> reachable c.
Proof. intros Hi H. exists w. split; [done|]. by eapply run_steps. Qed.

(** ** Scenarios

    A scenario plays commands: one scheduler step, or thread [i] running with
    the replies [rs] until it is blocked, ends or needs a reply that is not
    there. Whatever it reaches is reached by steps. *)
Inductive cmd := Step (s : sched) | Run (i : nat) (rs : list reply).

Definition wants_reply (th : thread) : bool :=
  match th with
  | TProg (Op o _) | TRead (Op o _) => takes_reply o
  | _ => false
  end.

Fixpoint run_thread (fuel i : nat) (rs : list reply) (c : cfg) : cfg :=
  match fuel with
  | O => c
  | S fuel =>
      match threads c !! i with
      | None => c
      | Some th =>
          let '(r, rs') := if wants_reply th
                           then match rs with r :: rs' => (r, rs') | [] => (RNone, []) end
                           else (RNone, rs) in
          match cfg_step (SThread i r) c with
          | Some c' => run_thread fuel i rs' c'
          | None => c
          end
      end
  end.

(** Enough steps for any thread of the scenarios below. *)
Definition scenario_fuel : nat := 200.

Definition play_cmd (c : cfg) (k : cmd) : cfg :=
  match k with
  | Step s => default c (cfg_step s c)
  | Run i rs => run_thread scenario_fuel i rs c
  end.

Definition play (l : list cmd) (c : cfg) : cfg := fold_left play_cmd l c.

Lemma run_thread_steps fuel i rs c : steps c (run_thread fuel i rs c).
Proof.
  revert rs c. induction fuel as [|fuel IH]; intros rs c; cbn [run_thread]; [constructor|].
  destruct (threads c !! i); [|constructor].
  destruct (if wants_reply _ then _ else _) as [r rs'].
  destruct (cfg_step (SThread i r) c) as [c'|] eqn:Hs; [|constructor].
  eapply steps_trans; [|apply IH]. econstructor; [constructor|done].
Qed.

Lemma play_steps l c : steps c (play l c).
Proof.
  revert c. induction l as [|k l IH]; intros c; [constructor|].
  eapply steps_trans; [|apply IH]. destruct k as [s|i rs]; cbn [play_cmd].
  - destruct (cfg_step s c) as [c'|] eqn:Hs; cbn [default from_option]; [|constructor].
    econstructor; [constructor|done].
  - apply run_thread_steps.
Qed.

(** A socket constructed without arguments at time 0. *)
Definition fresh_cfg : cfg := init_cfg (world_of (with_sock_opts (Some {| so_Tags := ∅ |}) newSocket) 0).

Lemma play_reachable l : reachable (play l fresh_cfg).
Proof. eexists. split; [by exists None, 0%Z|]. apply play_steps. Qed.
End system.

(** ** Protocols

    A protocol abstracts a program to the phases it goes through: [delta]
    gives the phase after an operation, or forbids the operation. If every
    program of the socket conforms to the protocol, and each allowed operation
    preserves an invariant of the world and the phases of the threads, then
    the invariant holds in every reachable configuration. *)
Section conforms.
Context `{K : K6} {Q : Type} (delta : forall X, Q -> op X -> X -> option Q).

Fixpoint conforms {A} (q : Q) (p : prog A) (post : A -> Q -> Prop) : Prop :=
  match p with
  | Ret a => post a q
  | @Op _ _ X o k =>
      forall x, match delta X q o x with Some q' => conforms q' (k x) post | None => False end
  end.

Lemma conforms_mono {A} q (p : prog A) (P P' : A -> Q -> Prop) :
  (forall a q, P a q -> P' a q) -> conforms q p P -> conforms q p P'.
Proof.
  intros HP. revert q. induction p as [a|X o k IH]; intros q; cbn; [by auto|].
  intros H x. specialize (H x). destruct (delta X q o x); [|done]. by apply IH.
Qed.

Lemma conforms_bind {A B} q (p : prog A) (f : A -> prog B) post :
  conforms q p (fun a q' => conforms q' (f a) post) -> conforms q (bind p f) post.
Proof.
  revert q. induction p as [a|X o k IH]; intros q; cbn; [done|].
  intros H x. specialize (H x). destruct (delta X q o x); [|done]. by apply IH.
Qed.

(** A program all of whose operations leave the phase as it is. *)
Lemma conforms_same_bind {A B} q (p : prog A) (f : A -> prog B) post :
  conforms q p (fun _ q' => q' = q) -> (forall a, conforms q (f a) post) ->
  conforms q (bind p f) post.
Proof.
  intros Hp Hf. apply conforms_bind. eapply conforms_mono; [|exact Hp].
  by intros a q' ->.
Qed.

Lemma conforms_do {X} q (o : op X) (post : X -> Q -> Prop) :
  (forall x, match delta X q o x with Some q' => post x q' | None => False end) ->
  conforms q (do o) post.
Proof. intros H x. exact (H x). Qed.
End conforms.

(** Symbolic execution of a program against a protocol. *)
Ltac cfm_run :=
  repeat (cbn; intros; repeat case_match; simplify_eq; try done).

(** Programs that leave a thread in the phase they found it in: the recursive
    and composite ones, from their parts. *)
Section keeps.
Context `{K : K6} {Q : Type} (delta : forall X, Q -> op X -> X -> option Q) (q : Q).

Definition keeps {A} (p : prog A) : Prop := conforms delta q p (fun _ q' => q' = q).

Lemma keeps_bind {A B} (p : prog A) (f : A -> prog B) :
  keeps p -> (forall a, keeps (f a)) -> keeps (bind p f).
Proof. apply conforms_same_bind. Qed.

Lemma keeps_ret {A} (a : A) : keeps (Ret a).
Proof. done. Qed.

Lemma keeps_write_loop fuel c data total :
  (forall data, keeps (do (ConnWrite c data))) -> (forall n, keeps (do (SetS (AddWritten n)))) ->
  keeps (write_loop fuel c data total).
Proof.
  intros Hw Ha. revert total. induction fuel as [|fuel IH]; intros total; [done|].
  cbn [write_loop]. destruct (total <? slice_len data); [|done].
  apply keeps_bind; [done|]. intros [n [e|]]; [done|]. destruct (n =? 0); [done|].
  by apply keeps_bind.
Qed.

Lemma keeps_convert_args args :
  (forall b, keeps (do (BufRead b))) -> keeps (convert_args args).
Proof.
  intros Hb. induction args as [|[e|b] args IH]; cbn [convert_args]; [done|..].
  - by apply keeps_bind.
  - apply keeps_bind; [done|]. intros. by apply keeps_bind.
Qed.

Lemma keeps_run_script l : (forall a, keeps (api_prog a)) -> keeps (run_script l).
Proof. intros Ha. induction l; [done|]. by apply keeps_bind. Qed.

Lemma keeps_callback c l :
  (forall b, keeps (do (BufRead b))) -> (forall i, keeps (do (Invoke i))) ->
  (forall a, keeps (api_prog a)) -> (forall b, keeps (do (BufPut b))) ->
  keeps (callback c (run_script l)).
Proof.
  intros Hb Hi Ha Hp. apply keeps_bind; [by apply keeps_convert_args|]. intros vs.
  apply keeps_bind; [done|]. intros _.
  apply keeps_bind; [by apply keeps_run_script|]. intros _.
  unfold run_cleanup. by destruct (call_cleanup c).
Qed.

(** The section under the read lock that reads fields of the socket. *)
Lemma keeps_rlocked_bind {A} (f : socket -> prog A) :
  keeps (rlocked (fun s => s)) -> (forall s, keeps (f s)) ->
  keeps (do! do RLock in let! s := do GetS in do! do RUnlock in f s).
Proof.
  intros Hl Hf. cbn in Hl |- *. intros x. specialize (Hl x).
  destruct (delta _ q RLock x) as [q1|]; [|done]. intros s. specialize (Hl s).
  destruct (delta _ q1 GetS s) as [q2|]; [|done]. intros y. specialize (Hl y).
  destruct (delta _ q2 RUnlock y) as [q3|]; [|done]. subst q3. apply Hf.
Qed.

Lemma keeps_read_round :
  keeps isReadable -> keeps (rlocked (fun s => s)) -> (forall c t, keeps (readLoopStep c t)) ->
  keeps read_round.
Proof.
  intros Hr Hl Hs. apply keeps_bind; [done|]. intros [|]; [|done].
  apply keeps_rlocked_bind; [done|]. intros s. by destruct (conn s).
Qed.

Lemma keeps_writeExecute data opts :
  keeps (rlocked (fun s => s)) ->
  (forall c data, keeps (do (ConnWrite c data))) -> (forall n, keeps (do (SetS (AddWritten n)))) ->
  keeps currentTags -> (forall m ts, m = tcpPartialWrites \/ m = tcpWrites ->
                        keeps (addCounterMetrics m ts)) ->
  keeps (writeExecute data opts).
Proof.
  intros Hl Hw Ha Ht Hc.
  apply keeps_rlocked_bind; [done|]. intros s. destruct (conn s) as [c|]; [|done].
  apply keeps_bind; [by apply keeps_write_loop|]. intros [total result].
  apply keeps_bind.
  - destruct result; [|done]. destruct (_ && _); [|done]. apply keeps_bind; auto.
  - intros _. apply keeps_bind; [done|]. intros cur. apply keeps_bind; [auto|]. done.
Qed.

Lemma keeps_panic {A} : keeps (panic (A := A)).
Proof. by intros []. Qed.

Lemma keeps_connect v h :
  (forall o, keeps (do (SetS (SetConnectOpts o)))) -> keeps (do NewPromise) -> keeps tags ->
  (forall p e ts, keeps (rejectWithTCPError p e "connect" ts)) ->
  (forall p, keeps (do (Go (GConnect p)))) -> keeps (connect v h).
Proof.
  intros Ho Hp Ht Hr Hg. apply keeps_bind; [done|]. intros p. apply keeps_bind.
  - unfold connectPrepare. destruct (prepare_options v h) as [[o|e]|].
    + by apply keeps_bind.
    + done.
    + apply keeps_panic.
  - intros [e|]; [apply keeps_bind; [done|]; intros ts|]; by apply keeps_bind.
Qed.

Lemma keeps_write v o :
  keeps (do NewPromise) -> keeps currentTags ->
  (forall p e ts, keeps (rejectWithTCPError p e "write" ts)) ->
  (forall p data opts, keeps (do (Go (GWrite p data opts)))) -> keeps (write v o).
Proof.
  intros Hp Ht Hr Hg. apply keeps_bind; [done|]. intros p.
  destruct v as [v|]; [|apply keeps_panic]. destruct (writePrepare v o) as [[data|e] opts].
  - by apply keeps_bind.
  - apply keeps_bind; [done|]. intros ts. by apply keeps_bind.
Qed.

Lemma keeps_rlocked {A} (f : socket -> A) : keeps (rlocked (fun s => s)) -> keeps (rlocked f).
Proof. intros Hl. unfold rlocked. by apply keeps_rlocked_bind. Qed.

(** Every call of the API, from the operations that change something. *)
Lemma keeps_api a :
  (forall v h, keeps (connect v h)) -> (forall v o, keeps (write v o)) -> keeps destroy ->
  (forall ms, keeps (setTimeout ms)) -> (forall ev h, keeps (on ev h)) ->
  keeps (rlocked (fun s => s)) -> keeps (do GetS) -> (forall m bs, keeps (do (Store m bs))) ->
  keeps (api_prog a).
Proof.
  intros Hc Hw Hd Ht Ho Hr Hg Hs.
  destruct a; cbn [api_prog]; try done; apply keeps_bind; try done; try by apply keeps_rlocked.
  all: by apply keeps_bind.
Qed.
End keeps.

Ltac head_of p := match p with ?f _ => head_of f | _ => p end.

(** Programs that stay within a set of phases. *)
Section stays.
Context `{K : K6} {Q : Type} (delta : forall X, Q -> op X -> X -> option Q) (S : Q -> Prop).

Definition stays {A} (p : prog A) : Prop :=
  forall q, S q -> conforms delta q p (fun _ => S).

Lemma stays_bind {A B} (p : prog A) (f : A -> prog B) :
  stays p -> (forall a, stays (f a)) -> stays (bind p f).
Proof.
  intros Hp Hf q Hq. apply conforms_bind. eapply conforms_mono; [|by apply Hp].
  intros a q' Hq'. by apply Hf.
Qed.

Lemma stays_ret {A} (a : A) : stays (Ret a).
Proof. by intros q. Qed.

(** The rest of a program that leads from [S] into another set. *)
Lemma stays_then {A B} q (p : prog A) (f : A -> prog B) post :
  stays p -> S q -> (forall a q', S q' -> conforms delta q' (f a) post) ->
  conforms delta q (bind p f) post.
Proof.
  intros Hp Hq Hf. apply conforms_bind. eapply conforms_mono; [|by apply Hp].
  intros a q' Hq'. by apply Hf.
Qed.
End stays.

(** Follows a program down to its operations, which [leaf] solves. *)
Ltac stays_run leaf :=
  repeat first
    [ apply stays_ret
    | apply stays_bind; [|intros ?]
    | progress cbv beta iota zeta
    | match goal with
      | |- stays _ _ (match ?x with _ => _ end) => destruct x
      | |- stays _ _ (if ?x then _ else _) => destruct x
      | |- stays _ _ (do _) => leaf
      | |- stays _ _ panic => leaf
      | |- stays _ _ (let! _ := _ in _) => fail 1
      | |- stays _ _ ?p => let h := head_of p in unfold h
      end ].

(** The goroutine an operation starts. *)
Definition op_spawns `{K : K6} {X} (o : op X) : list goroutine :=
  match o with Go g => [g] | _ => [] end.

Lemma interp_spawned `{K : K6} {X} (o : op X) r w x w' :
  interp o r w = Some (x, w') -> spawned w' = spawned w ++ op_spawns o.
Proof.
  destruct o; cbn; intros H; repeat case_match; simplify_eq/=; by rewrite ?app_nil_r.
Qed.

(** A received call stays received: only a [Send] that is taken adds one. *)
Definition op_sends `{K : K6} {X} (o : op X) : X -> list call :=
  match o in op X return X -> list call with
  | Send c => fun sent => if sent : bool then [c] else []
  | _ => fun _ => []
  end.

Lemma interp_accepted `{K : K6} {X} (o : op X) r w x w' :
  interp o r w = Some (x, w') -> accepted w' = accepted w ++ op_sends o x.
Proof.
  unfold accepted.
  destruct o; cbn; intros H; repeat case_match; simplify_eq/=; rewrite ?app_nil_r; try done.
  all: congruence.
Qed.

Lemma loop_accepted `{K : K6} w w' : loop_step w = Some w' -> accepted w' = accepted w.
Proof.
  unfold loop_step, accepted. intros H. repeat case_match; simplify_eq/=; by rewrite ?app_nil_r.
Qed.

Class Protocol `{K : K6} (Q : Type) := {
  delta : forall X, Q -> op X -> X -> option Q;
  q_js : Q;                       (* the idle JS thread *)
  q_callback : call -> Q;         (* the JS thread that starts a callback *)
  q_call : call -> Prop;          (* the calls that are queued *)
  q_go : goroutine -> Q;          (* a fresh goroutine *)
  q_fin : Q -> Prop;              (* a goroutine that has returned *)
  Inv : list nat -> list Q -> world -> Prop
}.
Arguments delta {K Q _ X} q o x.

Definition cfm `{P : Protocol Q} {A} (q : Q) (p : prog A) (post : A -> Q -> Prop) : Prop :=
  conforms (fun X => @delta _ _ P X) q p post.

(** The end of a round of the read loop, and phases [R] in which the next one may
    start. *)
Definition round_ends `{P : Protocol Q} (R : Q -> Prop) (again : bool) (q : Q) : Prop :=
  if again then R q else cfm q destroy (fun _ => q_fin).
Definition rounds `{P : Protocol Q} (R : Q -> Prop) : Prop :=
  forall q, R q -> cfm q read_round (round_ends R).

Lemma rounds_same `{P : Protocol Q} (q0 : Q) :
  cfm q0 read_round (fun again q => if again : bool then q = q0 else cfm q destroy (fun _ => q_fin)) ->
  exists R : Q -> Prop, R q0 /\ rounds R.
Proof. intros H. exists (fun q => q = q0). split; [done|]. by intros q ->. Qed.

(** The laws of a protocol: the first group says that the programs conform,
    the second that the invariant is preserved. *)
Class ProtocolLaws `{P : Protocol Q} : Prop := {
  cfm_api a : cfm q_js (api_prog a) (fun _ q => q = q_js);
  cfm_callback c l : q_call c -> cfm (q_callback c) (callback c (run_script l)) (fun _ q => q = q_js);
  cfm_connect p : cfm (q_go (GConnect p)) (connect_goroutine p) (fun _ => q_fin);
  cfm_write p data opts :
    cfm (q_go (GWrite p data opts)) (write_goroutine p data opts) (fun _ => q_fin);
  cfm_read : exists R : Q -> Prop, R (q_go GRead) /\ rounds R;
  Inv_op ran qs w i q q' X (o : op X) r x w' :
    Inv ran qs w -> qs !! i = Some q -> length qs = S (length (spawned w)) ->
    interp o r w = Some (x, w') -> delta q o x = Some q' ->
    Inv ran (<[i := q']> qs ++ map q_go (op_spawns o)) w';
  Inv_loop ran qs w w' : Inv ran qs w -> loop_step w = Some w' -> Inv ran qs w';
  Inv_call ran qs w i c : Inv ran qs w -> queue w !! i = Some c -> q_call c;
  Inv_callback ran qs w i c :
    Inv ran (q_js :: qs) w -> queue w !! i = Some c -> i ∉ ran ->
    Inv (ran ++ [i]) (q_callback c :: qs) w;
  Inv_tick ran qs w d : Inv ran qs w -> Inv ran qs (set_clock (clock w + Z.of_N d)%Z w);
  Inv_vu_done ran qs w : Inv ran qs w -> Inv ran qs (set_vu_done true w)
}.

Section soundness.
Context `{L : ProtocolLaws Q}.

Definition js_ok (q : Q) (th : thread) : Prop :=
  match th with TProg p => cfm q p (fun _ q' => q' = q_js) | TRead _ => False end.

Definition go_ok (q : Q) (th : thread) : Prop :=
  match th with
  | TProg p => cfm q p (fun _ => q_fin)
  | TRead p => exists R, rounds R /\ cfm q p (round_ends R)
  end.

(** The invariant of configurations: some assignment of phases. *)
Definition cfg_inv (c : cfg) : Prop :=
  exists qj qs th ths,
    threads c = th :: ths /\ js_ok qj th /\ Forall2 go_ok qs ths /\
    length qs = length (spawned (cw c)) /\ Inv (ran c) (qj :: qs) (cw c).

Lemma start_ok g : go_ok (q_go g) (start g).
Proof.
  destruct g; cbn; [apply cfm_connect | apply cfm_write |].
  destruct cfm_read as (R & HR & Hr). exists R. split; [done|]. by apply Hr.
Qed.

Lemma starts_ok gs : Forall2 go_ok (map q_go gs) (map start gs).
Proof. induction gs; constructor; [apply start_ok | done]. Qed.

(** In the configuration [c], the phase of thread [i] is [q]. *)
Definition in_phase (c : cfg) (i : nat) (th : thread) (q : Q) : Prop :=
  (js_ok q th \/ go_ok q th) /\ exists qs, Inv (ran c) qs (cw c) /\ qs !! i = Some q.

Lemma cfg_inv_phase c i th :
  cfg_inv c -> threads c !! i = Some th -> exists q, in_phase c i th q.
Proof.
  intros (qj & qs & th0 & ths & Ht & Hj & Hgs & _ & HI) Hi. rewrite Ht in Hi.
  destruct i as [|i]; cbn in Hi.
  - simplify_eq. exists qj. split; [by left|]. by exists (qj :: qs).
  - destruct (Forall2_lookup_r _ _ _ _ _ Hgs Hi) as (q & Hq & Hok).
    exists q. split; [by right|]. by exists (qj :: qs).
Qed.

(** The next operation of a thread is one that its phase allows. *)
Lemma in_phase_allowed c i th q X (o : op X) :
  in_phase c i th q -> at_op th o -> forall x, is_Some (delta q o x).
Proof.
  intros [Hok _] [[k ->]|[k ->]] x; cbn in Hok.
  - destruct Hok as [Hok|Hok]; specialize (Hok x); by destruct (delta q o x).
  - destruct Hok as [Hok|(R & _ & Hok)]; [done|]. specialize (Hok x). by destruct (delta q o x).
Qed.

(** One step of a thread that conforms. *)
Lemma thread_step_inv ran qs w i q (th th' : thread) r w' (ok : Q -> thread -> Prop) :
  (ok = js_ok \/ ok = go_ok) ->
  Inv ran qs w -> qs !! i = Some q -> length qs = S (length (spawned w)) ->
  ok q th -> thread_step th r w = Some (th', w') ->
  exists q' gs, ok q' th' /\ spawned w' = spawned w ++ gs /\
    Inv ran (<[i := q']> qs ++ map q_go gs) w'.
Proof.
  intros Hok HI Hi Hlen Hth Hs.
  assert (Hnop : w' = w -> ok q th' -> exists q' gs, ok q' th' /\ spawned w' = spawned w ++ gs /\
    Inv ran (<[i := q']> qs ++ map q_go gs) w').
  { intros -> Hq. exists q, []. cbn. rewrite !app_nil_r, list_insert_id by done. done. }
  destruct th as [[a|X o k]|[[]|X o k]]; cbn in Hs; simplify_eq.
  - destruct (interp o r w) as [[x w1]|] eqn:Hint; simplify_eq.
    assert (Hd : exists q', delta q o x = Some q' /\ ok q' (TProg (k x))).
    { destruct Hok as [-> | ->]; cbn in Hth |- *; specialize (Hth x);
        destruct (delta q o x) as [q'|]; try done; by exists q'. }
    destruct Hd as (q' & Hd & Hk). exists q', (op_spawns o). split_and!; [done| |].
    + by eapply interp_spawned.
    + by eapply Inv_op.
  - apply Hnop; [done|]. destruct Hok as [-> | ->]; cbn in Hth; [done|].
    destruct Hth as (R & Hr & Hq). exists R. split; [done|]. by apply Hr.
  - apply Hnop; [done|]. destruct Hok as [-> | ->]; cbn in Hth; [done|]. by destruct Hth as (R & _ & Hq).
  - destruct (interp o r w) as [[x w1]|] eqn:Hint; simplify_eq.
    assert (Hd : exists q', delta q o x = Some q' /\ ok q' (TRead (k x))).
    { destruct Hok as [-> | ->]; cbn in Hth |- *; [done|]. destruct Hth as (R & Hr & Hth). specialize (Hth x).
      destruct (delta q o x) as [q'|]; try done. exists q'. eauto. }
    destruct Hd as (q' & Hd & Hk). exists q', (op_spawns o). split_and!; [done| |].
    + by eapply interp_spawned.
    + by eapply Inv_op.
Qed.

Lemma js_idle_q c qj th ths :
  js_idle c = true -> threads c = th :: ths -> js_ok qj th -> qj = q_js.
Proof.
  unfold js_idle. intros H Ht Hj. rewrite Ht in H.
  destruct th as [[|]|]; try done.
Qed.

Lemma cfg_inv_step s c c' : cfg_inv c -> cfg_step s c = Some c' -> cfg_inv c'.
Proof.
  intros (qj & qs & th & ths & Ht & Hj & Hgs & Hlen & HI) Hs.
  destruct s as [i r| |a|i l|d|]; cbn in Hs.
  - rewrite Ht in Hs. destruct i as [|i]; cbn in Hs.
    + destruct (thread_step th r (cw c)) as [[th' w']|] eqn:Hts; simplify_eq/=.
      destruct (thread_step_inv _ _ _ 0 qj _ _ _ _ js_ok (or_introl eq_refl) HI eq_refl
        ltac:(cbn; lia) Hj Hts) as (q' & gs & Hq & Hsp & HI').
      exists q', (qs ++ map q_go gs), th', (ths ++ map start gs).
      rewrite Hsp, drop_app_length. split_and!; try done.
      * by apply Forall2_app, starts_ok.
      * cbn. rewrite Hsp, !length_app, length_map. lia.
    + destruct (ths !! i) as [thi|] eqn:Hi; [|done].
      destruct (Forall2_lookup_r _ _ _ _ _ Hgs Hi) as (q & Hqi & Hq).
      destruct (thread_step thi r (cw c)) as [[th' w']|] eqn:Hts; simplify_eq/=.
      destruct (thread_step_inv _ _ _ (S i) q _ _ _ _ go_ok (or_intror eq_refl) HI Hqi
        ltac:(cbn; lia) Hq Hts) as (q' & gs & Hq' & Hsp & HI').
      exists qj, (<[i := q']> qs ++ map q_go gs), th, (<[i := th']> ths ++ map start gs).
      rewrite Hsp, drop_app_length. split_and!; try done.
      * apply Forall2_app, starts_ok. by apply Forall2_insert.
      * cbn. rewrite Hsp, !length_app, length_map, length_insert. lia.
  - destruct (loop_step (cw c)) as [w'|] eqn:Hl; simplify_eq.
    exists qj, qs, th, ths. split_and!; try done.
    + cbn. rewrite Hlen. revert Hl. unfold loop_step. repeat case_match; intros; by simplify_eq.
    + by eapply Inv_loop.
  - destruct (js_idle c) eqn:Hid; simplify_eq.
    pose proof (js_idle_q _ _ _ _ Hid Ht Hj) as ->.
    exists q_js, qs, (TProg (api_prog a)), ths. cbn. rewrite Ht.
    split_and!; try done. apply cfm_api.
  - destruct (queue (cw c) !! i) as [cl|] eqn:Hq; [|done].
    destruct (js_idle c) eqn:Hid; [|done].
    case_bool_decide; simplify_eq/=.
    pose proof (js_idle_q _ _ _ _ Hid Ht Hj) as ->.
    exists (q_callback cl), qs, (TProg (callback cl (run_script l))), ths. cbn. rewrite Ht.
    split_and!; try done; [by eapply cfm_callback, Inv_call|]. by apply Inv_callback.
  - simplify_eq. exists qj, qs, th, ths. split_and!; try done. by apply Inv_tick.
  - simplify_eq. exists qj, qs, th, ths. split_and!; try done. by apply Inv_vu_done.
Qed.

(** A step of a configuration leaves the socket alone, or is an operation of a
    thread that the protocol allows in the thread's phase. *)
Lemma conforming_op (th th' : thread) q r w w' (ok : Q -> thread -> Prop) :
  (ok = js_ok \/ ok = go_ok) -> ok q th -> thread_step th r w = Some (th', w') ->
  w' = w \/ exists X (o : op X) x q', interp o r w = Some (x, w') /\ delta q o x = Some q'.
Proof.
  intros Hok Hth Hs. destruct th as [[a|X o k]|[[]|X o k]]; cbn in Hs; simplify_eq; try by left.
  - right. destruct (interp o r w) as [[x w1]|] eqn:Hint; simplify_eq. exists X, o, x.
    destruct Hok as [-> | ->]; cbn in Hth; specialize (Hth x);
      destruct (delta q o x) as [q'|]; try done; by exists q'.
  - right. destruct (interp o r w) as [[x w1]|] eqn:Hint; simplify_eq. exists X, o, x.
    destruct Hok as [-> | ->]; cbn in Hth; [done|]. destruct Hth as (R & _ & Hth). specialize (Hth x).
    destruct (delta q o x) as [q'|]; try done; by exists q'.
Qed.

Lemma cfg_inv_op s c c' :
  cfg_inv c -> cfg_step s c = Some c' ->
  sk (cw c') = sk (cw c) \/
  exists qs (i : nat) q X (o : op X) r x q', Inv (ran c) qs (cw c) /\ qs !! i = Some q /\
    interp o r (cw c) = Some (x, cw c') /\ delta q o x = Some q'.
Proof.
  intros (qj & qs & th & ths & Ht & Hj & Hgs & Hlen & HI) Hs.
  destruct s as [i r| |a|i l|d|]; cbn in Hs;
    [|left; unfold loop_step in Hs; repeat case_match; by simplify_eq..].
  rewrite Ht in Hs.
  assert (Hi : forall thi th' w' q ok, (ok = js_ok \/ ok = go_ok) -> ok q thi ->
    (qj :: qs) !! i = Some q -> thread_step thi r (cw c) = Some (th', w') -> cw c' = w' ->
    sk (cw c') = sk (cw c) \/
    exists qs (i : nat) q X (o : op X) r x q', Inv (ran c) qs (cw c) /\ qs !! i = Some q /\
      interp o r (cw c) = Some (x, cw c') /\ delta q o x = Some q').
  { intros thi th' w' q ok Hok Hth Hq Hts ->.
    destruct (conforming_op _ _ _ _ _ _ _ Hok Hth Hts) as [-> |(X & o & x & q' & Ho & Hd)]; [by left|].
    right. by exists (qj :: qs), i, q, X, o, r, x, q'. }
  destruct i as [|i]; cbn in Hs.
  - destruct (thread_step th r (cw c)) as [[th' w']|] eqn:Hts; simplify_eq/=.
    eapply (Hi th); [by left|done..].
  - destruct (ths !! i) as [thi|] eqn:Hthi; [|done].
    destruct (Forall2_lookup_r _ _ _ _ _ Hgs Hthi) as (q & Hqi & Hq).
    destruct (thread_step thi r (cw c)) as [[th' w']|] eqn:Hts; simplify_eq/=.
    eapply (Hi thi); [by right|done..].
Qed.

(** A configuration in which the socket has started no goroutine. *)
Lemma cfg_inv_start c :
  threads c = [idle] -> spawned (cw c) = [] -> Inv (ran c) [q_js] (cw c) -> cfg_inv c.
Proof.
  intros Ht Hs HI. exists q_js, [], idle, []. split_and!; try done. by rewrite Hs.
Qed.

Lemma cfg_inv_finished c :
  cfg_inv c -> finished c -> exists qs, Forall q_fin qs /\ Inv (ran c) (q_js :: qs) (cw c).
Proof.
  intros (qj & qs & th & ths & Ht & Hj & Hgs & _ & HI) Hf. unfold finished in Hf.
  rewrite Ht in Hf. apply Forall_cons in Hf as [-> Hf]. cbn in Hj. subst qj.
  exists qs. split; [|done]. clear -Hgs Hf. induction Hgs; [done|].
  apply Forall_cons in Hf as [-> Hf]. constructor; [done|auto].
Qed.

Lemma cfg_inv_Inv c : cfg_inv c -> exists qs, Inv (ran c) qs (cw c).
Proof. intros (qj & qs & ? & ? & _ & _ & _ & _ & HI). by exists (qj :: qs). Qed.

Lemma cfg_inv_steps c c' : steps c c' -> cfg_inv c -> cfg_inv c'.
Proof. induction 1; [done|]. intros. eapply cfg_inv_step; [|done]. auto. Qed.

Lemma reachable_cfg_inv c :
  (forall w, initial w -> Inv [] [q_js] w) -> reachable c -> cfg_inv c.
Proof.
  intros Hinit (w & Hw & Hs). eapply cfg_inv_steps; [exact Hs|].
  apply cfg_inv_start; [done| |by apply Hinit].
  destruct Hw as (arg & now & H). unfold construct in H. by repeat case_match; simplify_eq/=.
Qed.

(** Soundness: an invariant that holds of a fresh socket holds in every
    reachable configuration. *)
Lemma reachable_Inv c :
  (forall w, initial w -> Inv [] [q_js] w) -> reachable c -> exists qs, Inv (ran c) qs (cw c).
Proof. intros. by apply cfg_inv_Inv, reachable_cfg_inv. Qed.

(** The same, from a configuration that has started no goroutine yet. *)
Lemma steps_Inv c c' :
  threads c = [idle] -> spawned (cw c) = [] -> Inv (ran c) [q_js] (cw c) ->
  steps c c' -> exists qs, Inv (ran c') qs (cw c').
Proof. intros. apply cfg_inv_Inv. eapply cfg_inv_steps; [done|]. by apply cfg_inv_start. Qed.
End soundness.
