(* ===== verification/Scenarios.v ===== *)
(** * Concrete runs of a socket

    Schedules against the reference host [K6Ref] that the examples of the
    other files evaluate: a script that registers handlers, connects to
    1.2.3.4:80, exchanges data and destroys its socket. *)
From S2P Require Import Prelude GoStd K6 Metrics Lang Socket Events Connect ReadWrite System.

#[local] Existing Instance K6Ref.

(** Thread 0, the JS thread, makes a call that needs the given replies. *)
Definition js (a : apicall) (rs : list reply) : list cmd := [Step (SCall a); Run 0 rs].

Definition no_tags : tagset := (∅ : gmap string string).

(** The script registers handler [n] for each of the events, in order. *)
Definition register (evs : list string) : list cmd :=
  concat (imap (fun n ev => js (AOn ev n) []) evs).

(** [connect(80, "1.2.3.4")]: the goroutine becomes thread [i]. *)
Definition call_connect : list cmd :=
  js (AConnect (Some (JSInt 80)) (Some (JSString "1.2.3.4" 0))) [].

Definition resolved : reply := RResolve (Ok ("1.2.3.4", 80%Z)).
Definition local_addr : reply := RAddr (Some ("5.6.7.8", 1234%Z)).

(** It resolves and dials: the socket is open and [connect] is to be sent. *)
Definition dialed : list reply := [RTags no_tags; resolved; RDial None; local_addr].

(** It also hands [connect] over, and the loop queues it. *)
Definition connected (i : nat) : list cmd :=
  [Run i dialed; Run i [RSelect true]; Step SLoop].

Definition all_events : list string := ["connect"; "data"; "close"; "error"; "timeout"].

(** An open socket with all handlers; thread 1 connected, thread 2 reads. *)
Definition open_cmds : list cmd := register all_events ++ call_connect ++ connected 1.
Definition open_cfg : cfg := play open_cmds fresh_cfg.

(** The reader (thread [i]) receives two bytes, and the loop queues them. *)
Definition two_bytes : list byte := [x68; x69].
Definition received (i b : nat) : list cmd :=
  [Run i [RRead two_bytes None; RTags no_tags; RBuf b; RSelect true]; Step SLoop].
Definition data_cfg : cfg := play (received 2 0) open_cfg.

(** Two more bytes arrive, then the callback of the first event starts, and
    another read happens before it reads its argument. *)
Definition data2_cfg : cfg := play (received 2 1) data_cfg.
Definition callback_cfg : cfg := play [Step (SCallback 1 [])] data2_cfg.
Definition data3_cfg : cfg := play (received 2 2) callback_cfg.

(** The script destroys the socket, and [close] is queued. *)
Definition destroyed : list cmd :=
  js ADestroy [RTags no_tags; RSelect true] ++ [Step SLoop; Step SLoop].
Definition destroyed_cfg : cfg := play destroyed data_cfg.

(** The reader finds the connection closed and ends: no goroutine is left. *)
Definition closed_conn : goerr := ErrNet "use of closed network connection" false.
Definition finished_cfg : cfg := play [Run 2 [RRead [] (Some closed_conn)]] destroyed_cfg.

(** On the destroyed socket, a script writes a value of the wrong type: the JS
    thread offers the [error] event to a loop that has ended. *)
Definition bad_write : list cmd := js (AWrite (Some JSOther) None) [RTags no_tags].
Definition hung_cfg : cfg := play bad_write finished_cfg.

Lemma play_app l1 l2 c : play (l1 ++ l2) c = play l2 (play l1 c).
Proof. apply fold_left_app. Qed.

(** A scheduler step that is possible is the one [play] takes. *)
Lemma play_step s c : isSome (cfg_step s c) = true -> cfg_step s c = Some (play [Step s] c).
Proof. cbn. by destruct (cfg_step s c). Qed.

Lemma open_reachable : reachable open_cfg.
Proof. apply play_reachable. Qed.

Lemma data_reachable : reachable data_cfg.
Proof. unfold data_cfg, open_cfg. rewrite <-play_app. apply play_reachable. Qed.

Lemma destroyed_reachable : reachable destroyed_cfg.
Proof. unfold destroyed_cfg, data_cfg, open_cfg. rewrite <-!play_app. apply play_reachable. Qed.

Lemma finished_reachable : reachable finished_cfg.
Proof.
  unfold finished_cfg, destroyed_cfg, data_cfg, open_cfg. rewrite <-!play_app.
  apply play_reachable.
Qed.

Lemma hung_reachable : reachable hung_cfg.
Proof.
  unfold hung_cfg, finished_cfg, destroyed_cfg, data_cfg, open_cfg. rewrite <-!play_app.
  apply play_reachable.
Qed.

(** A thread that has returned, or that sends while the loop does not receive
    and the VU goes on. *)
Definition blocked (w : world) (th : thread) : bool :=
  match th with
  | TProg (Ret _) => true
  | TProg (Op (Send _) _) =>
      negb (vu_done w) && match lp w with LoopSelect => false | _ => true end
  | _ => false
  end.

Lemma blocked_stuck w th r : blocked w th = true -> thread_step th r w = None.
Proof.
  destruct th as [[[]|X o k]|]; cbn; try done. destruct o; try done.
  rewrite andb_true_iff, negb_true_iff. intros [Hv Hl]. cbn.
  destruct r; try done. rewrite Hv. by destruct sent, (lp w).
Qed.

Lemma all_blocked_stuck c i r :
  forallb (blocked (cw c)) (threads c) = true -> cfg_step (SThread i r) c = None.
Proof.
  rewrite forallb_forall. intros H. unfold cfg_step.
  destruct (threads c !! i) as [th|] eqn:Hi; [|done].
  rewrite blocked_stuck; [done|]. apply H, list_elem_of_In. by eapply list_elem_of_lookup_2.
Qed.

(** No thread of the hung configuration can take a step. *)
Lemma hung_stuck i r : cfg_step (SThread i r) hung_cfg = None.
Proof. apply all_blocked_stuck. vm_compute. reflexivity. Qed.
