(* ===== verification/WriteSpec.v ===== *)
(** * What write does

    The write path on its own: the loop of [writeExecute] ends and reports
    exactly what happened to the bytes, and the promise of [write] follows. *)
From S2P Require Import Prelude GoStd Codec K6 Metrics Lang Socket Events Exec Connect ReadWrite System Scenarios.

Section write_spec.
Context `{K : K6}.

(** The counter after [n] more bytes. *)
Definition count_written (n : nat) (s : socket) : socket :=
  with_totalWritten (int64 (totalWritten s + Z.of_nat n)) s.

Lemma count_written_add n m s :
  count_written m (count_written n s) = count_written (n + m) s.
Proof.
  unfold count_written, with_totalWritten. cbn. f_equal. rewrite int64_add_l. f_equal. lia.
Qed.

Lemma with_sent_app d1 d2 nc : with_sent d2 (with_sent d1 nc) = with_sent (d1 ++ d2) nc.
Proof. unfold with_sent. cbn. by rewrite app_assoc. Qed.

(** The world after [sent] bytes of [data] reached the connection and
    [counted] of them were counted. *)
Definition written (c : connid) (data : list byte) (sent counted : nat) (w : world) : world :=
  upd_sk (count_written counted) (on_conn (with_sent (take sent data)) c w).

Lemma written_written c data n m k w :
  written c (drop n data) m k (written c data n n w) = written c data (n + m) (n + k) w.
Proof.
  unfold written, upd_sk, on_conn. destruct w. unfold set_sk, set_conns. cbn.
  rewrite count_written_add. f_equal. rewrite alter_alter_eq. apply alter_ext.
  intros nc _. cbn. by rewrite with_sent_app, take_take_drop.
Qed.

Lemma written_0 c data w :
  (int64_min <= totalWritten (sk w) <= int64_max)%Z -> written c data 0 0 w = w.
Proof.
  intros Hr. unfold written, upd_sk, on_conn, count_written. destruct w. cbn in *.
  unfold set_sk, set_conns. cbn. rewrite Z.add_0_r, int64_id by done. f_equal; [by destruct sk|].
  apply map_eq. intros i. destruct (decide (i = c)) as [->|]; [|by rewrite lookup_alter_ne].
  rewrite lookup_alter_eq. destruct (conns !! c) as [nc|]; [|done]. cbn.
  unfold with_sent. rewrite take_0, app_nil_r. by destruct nc.
Qed.

Lemma shown_written c data n m w s : shown (written c data n m w) s = shown w s.
Proof. done. Qed.

Lemma written_quiet c data n m w : quiet (written c data n m w) = quiet w.
Proof. done. Qed.

Lemma written_range c data n m w :
  (int64_min <= totalWritten (sk (written c data n m w)) <= int64_max)%Z.
Proof. apply int64_range. Qed.

(** What the loop does from [total] bytes on: it stops with all bytes sent
    and counted, or with an error after having counted all but the last, failed
    fragment. Its fuel is never used up. *)
Lemma write_loop_exec fuel c data total w rs t res rs' w' :
  quiet w = true -> (int64_min <= totalWritten (sk w) <= int64_max)%Z ->
  slice_len data - total < fuel -> total <= slice_len data ->
  exec (write_loop fuel c data total) rs w = Done (t, res) rs' w' ->
  exists sent counted,
    w' = written c (drop total (shown w data)) sent counted w /\ t = total + counted /\
    counted <= sent /\ total + sent <= slice_len data /\
    match res with
    | None => counted = sent /\ t = slice_len data
    | Some _ => t < slice_len data
    end.
Proof.
  revert total w rs. induction fuel as [|fuel IH]; intros total w rs Hq Hr Hf Ht; [lia|].
  cbn [write_loop]. destruct (Nat.ltb_spec total (slice_len data)) as [Hlt|Hge].
  2:{ cbn. intros [= <- <- <- <-]. exists 0, 0. rewrite written_0 by done. split_and!; try done; lia. }
  exec_quiet Hq. destruct rs as [|r rs]; [done|]. destruct r as [| | | | |n err| | | | |]; try done.
  destruct (Nat.leb_spec n (slice_len (slice_from total data))) as [Hn|]; [|done].
  rewrite slice_len_from in Hn. rewrite loop_run_quiet by exact Hq. rewrite shown_from.
  destruct err as [e|].
  - cbn. intros [= <- <- <- <-]. exists n, 0. split_and!; try lia.
    unfold written, count_written, upd_sk. cbn. rewrite Z.add_0_r, int64_id by done.
    unfold on_conn, set_sk, set_conns. cbn. f_equal. by destruct (sk w).
  - destruct (Nat.eqb_spec n 0) as [->|Hn0].
    + cbn. intros [= <- <- <- <-]. exists 0, 0. split_and!; try lia.
      unfold written, count_written, upd_sk. cbn. rewrite Z.add_0_r, int64_id by done.
      unfold on_conn, set_sk, set_conns. cbn. f_equal. by destruct (sk w).
    + exec_quiet Hq. intros He.
      change (upd_sk (apply_upd (AddWritten (Z.of_nat n))) (on_conn (with_sent (take n (drop total (shown w data)))) c w))
        with (written c (drop total (shown w data)) n n w) in He.
      apply IH in He; [|done|apply written_range|lia|lia].
      destruct He as (m & k & -> & -> & Hkm & Hm & Hres). exists (n + m), (n + k).
      rewrite shown_written, <-written_written, drop_drop. split_and!; try lia; [done|].
      destruct res; lia.
Qed.

(** More fuel than the remaining bytes changes nothing. *)
Lemma write_loop_more_fuel f1 f2 c data total rs w :
  slice_len data - total < f1 -> slice_len data - total < f2 ->
  exec (write_loop f1 c data total) rs w = exec (write_loop f2 c data total) rs w.
Proof.
  revert f2 total rs w. induction f1 as [|f1 IH]; intros [|f2] total rs w H1 H2; try lia.
  cbn [write_loop]. destruct (Nat.ltb_spec total (slice_len data)) as [Hlt|_]; [|done].
  cbn [exec bind do takes_reply]. destruct (match rs with [] => _ | r :: rs' => _ end) as [r rs1].
  destruct (interp (ConnWrite c (slice_from total data)) r w) as [[[n err] w1]|]; [|done].
  destruct err as [e|]; [done|]. destruct (Nat.eqb_spec n 0) as [|Hn]; [done|].
  cbn [exec bind do takes_reply interp]. apply IH; lia.
Qed.

(** C25: the fragment loop of [writeExecute] ends after at most one round per
    byte: with any larger bound on its rounds it does exactly the same, whatever
    the connection answers, so the bound [S (slice_len data)] is never what
    stops it, and the unbounded loop of the code is this one. *)
Theorem write_loop_terminates fuel c data rs w :
  slice_len data < fuel ->
  exec (write_loop fuel c data 0) rs w = exec (write_loop (S (slice_len data)) c data 0) rs w.
Proof. intros H. apply write_loop_more_fuel; lia. Qed.

(** The section under the read lock. *)
Lemma exec_read_conn {A} (f : socket -> prog A) rs w :
  quiet w = true -> mu w = MFree ->
  exec (do! do RLock in let! s := do GetS in do! do RUnlock in f s) rs w = exec (f (sk w)) rs w.
Proof.
  intros Hq Hm. exec_quiet Hq. rewrite Hm. exec_quiet Hq. cbn [mu set_mu].
  exec_quiet Hq. f_equal. destruct w. cbn in *. by subst.
Qed.

(** Pushing one sample, with the tags of the VU at that moment. *)
Lemma exec_push_current m tg {A} (k : prog A) rs w a rs' w' :
  quiet w = true ->
  exec (let! cur := currentTags in do! addCounterMetrics m (addToTagSet cur tg) in k) rs w
    = Done a rs' w' ->
  exists ts rs1, rs = RTags ts :: rs1 /\
  exec k rs1 (if vu_done w then w else set_samples (samples w ++
    [{| s_metric := m; s_tags := addToTagSet ts tg; s_time := clock w; s_value := 1 |}]) w)
    = Done a rs' w'.
Proof.
  intros Hq. unfold currentTags, addCounterMetrics. exec_quiet Hq.
  destruct rs as [|[] rs]; try done. exec_quiet Hq.
  rewrite (loop_run_quiet (if vu_done w then _ else _)) by (destruct (vu_done w); exact Hq).
  by exists ts, rs.
Qed.

(** The metrics of a write that counted [counted] of [len] bytes. *)
Definition write_metrics (counted len : nat) (failed : bool) : list metric :=
  (if failed && (0 <? counted) && (counted <? len) then [tcpPartialWrites] else []) ++ [tcpWrites].

(** The metrics part of writeExecute. *)
Lemma exec_write_metrics total len (result : option goerr) opts rs w res rs' w' :
  quiet w = true ->
  exec (do! match result with
            | Some _ =>
                if (0 <? total) && (total <? len) then
                  let! cur := currentTags in
                  addCounterMetrics tcpPartialWrites (addToTagSet cur (wo_Tags opts))
                else Ret tt
            | None => Ret tt
            end in
        let! cur := currentTags in
        do! addCounterMetrics tcpWrites (addToTagSet cur (wo_Tags opts)) in
        Ret result) rs w = Done res rs' w' ->
  exists l, w' = (if vu_done w then w else set_samples (samples w ++ l) w) /\
    map s_metric l = write_metrics total len (bool_decide (is_Some result)) /\ res = result.
Proof.
  intros Hq.
  assert (Hwm : write_metrics total len (bool_decide (is_Some result)) =
    match result with
    | Some _ => if (0 <? total) && (total <? len) then [tcpPartialWrites; tcpWrites] else [tcpWrites]
    | None => [tcpWrites] end)
    by (unfold write_metrics; destruct result; cbn [andb];
        [change (bool_decide _) with true; cbn [andb]; by destruct (_ && _)|done]).
  assert (Hone : forall w rs, quiet w = true ->
    exec (let! cur := currentTags in
          do! addCounterMetrics tcpWrites (addToTagSet cur (wo_Tags opts)) in
          Ret result) rs w = Done res rs' w' ->
    exists x, w' = (if vu_done w then w else set_samples (samples w ++ [x]) w) /\
      s_metric x = tcpWrites /\ res = result).
  { clear w rs Hq. intros w rs Hq He. apply exec_push_current in He as (ts & rs1 & -> & He); [|done].
    cbn in He. simplify_eq. by eexists. }
  destruct result as [e|]; [destruct ((0 <? total) && (total <? len)) eqn:Hp|].
  - intros He. apply (exec_push_current tcpPartialWrites (wo_Tags opts)
      (let! cur := currentTags in
       do! addCounterMetrics tcpWrites (addToTagSet cur (wo_Tags opts)) in Ret (Some e)))
      in He as (ts & rs1 & -> & He); [|done].
    apply Hone in He as (x & -> & Hx & ->); [|by destruct (vu_done w)].
    destruct (vu_done w) eqn:Hv; rewrite ?Hv; cbn [vu_done set_samples samples]; rewrite ?Hv.
    + exists [{| s_metric := tcpPartialWrites; s_tags := ts; s_time := 0; s_value := 1 |}; x].
      split; [done|]. by rewrite Hwm; cbn; rewrite Hx.
    + eexists (_ :: [x]). rewrite <-app_assoc. split; [done|]. by rewrite Hwm; cbn; rewrite Hx.
  - intros He. apply Hone in He as (x & -> & Hx & ->); [|done].
    exists [x]. by rewrite Hwm; cbn; rewrite Hx.
  - intros He. apply Hone in He as (x & -> & Hx & ->); [|done].
    exists [x]. by rewrite Hwm; cbn; rewrite Hx.
Qed.

(** C3: [writeExecute] reports exactly what happened. Without a connection it
    fails and does nothing. Otherwise a prefix of the data reached the
    connection, in order; [bytes_written] grew by the bytes of the fragments
    that did not fail; the result is nil if and only if that is all of the data;
    and one [tcp_writes] sample was pushed, after a [tcp_partial_writes] one if
    some but not all of the data was counted. *)
Theorem writeExecute_result data opts rs w res rs' w' :
  quiet w = true -> mu w = MFree ->
  (int64_min <= totalWritten (sk w) <= int64_max)%Z ->
  exec (writeExecute data opts) rs w = Done res rs' w' ->
  match conn (sk w) with
  | None => res = Some errNoActiveConnection /\ w' = w
  | Some c =>
      exists sent counted,
        counted <= sent <= slice_len data /\
        conns w' = alter (with_sent (take sent (shown w data))) c (conns w) /\
        totalWritten (sk w') = int64 (totalWritten (sk w) + Z.of_nat counted) /\
        (res = None <-> counted = slice_len data) /\
        map s_metric (samples w') = map s_metric (samples w) ++
          (if vu_done w then [] else
           write_metrics counted (slice_len data) (bool_decide (is_Some res)))
  end.
Proof.
  intros Hq Hm Hr. unfold writeExecute. rewrite exec_read_conn by done.
  destruct (conn (sk w)) as [c|]; [|by intros [= <- <- <-]].
  rewrite exec_bind.
  destruct (exec (write_loop _ _ _ _) rs w) as [[t res1] rs1 w1|] eqn:Hl; [|done].
  apply write_loop_exec in Hl as (sent & counted & -> & -> & Hcs & Hsl & Hres); [|done..|lia|lia].
  cbn [exec_bind_cont]. rewrite Nat.add_0_l in *. change (drop 0 ?l) with l.
  set (w1 := written c (shown w data) sent counted w).
  assert (Hq1 : quiet w1 = true) by exact Hq. assert (Hv1 : vu_done w1 = vu_done w) by done.
  intros He. apply exec_write_metrics in He as (l & -> & Hl & ->); [|exact Hq1].
  exists sent, counted. rewrite Hv1. split_and!; try lia.
  - by destruct (vu_done w).
  - by destruct (vu_done w).
  - destruct res1; split; intros; try done; lia.
  - destruct (vu_done w); cbn; [by rewrite app_nil_r|]. by rewrite map_app, Hl.
Qed.

(** With a connection that keeps the contract of [io.Writer] (a short write
    comes with an error), the fragment loop makes one call at most. *)
Definition full_writes (len : nat) (rs : list reply) : Prop :=
  Forall (fun r => match r with RWrite n None => len <= n | _ => True end) rs.

Lemma write_loop_full data c rs w t res rs' w' :
  quiet w = true -> full_writes (slice_len data) rs ->
  exec (write_loop (S (slice_len data)) c data 0) rs w = Done (t, res) rs' w' ->
  t = 0 \/ t = slice_len data.
Proof.
  intros Hq Hf. cbn [write_loop]. destruct (Nat.ltb_spec 0 (slice_len data)) as [Hlt|];
    [|intros [= <- _ _ _]; by left].
  exec_quiet Hq. destruct rs as [|r rs]; [done|].
  destruct r as [| | | | |n err| | | | |]; try done.
  destruct (Nat.leb_spec n (slice_len (slice_from 0 data))) as [Hn|]; [|done].
  apply Forall_cons in Hf as [Hn' _]. rewrite slice_from_0 in Hn.
  exec_quiet Hq. destruct err as [e|]; [intros [= <- _ _ _]; by left|].
  destruct (Nat.eqb_spec n 0); [intros [= <- _ _ _]; by left|].
  exec_quiet Hq. destruct (slice_len data) as [|len] eqn:Hlen; [lia|]. cbn [write_loop]. rewrite Hlen.
  replace (0 + n <? S len) with false by (symmetry; apply Nat.ltb_ge; lia).
  cbn. intros [= <- _ _ _]. right. lia.
Qed.

(** With such a connection no write ever counts as partial: the metric
    [tcp_partial_writes] stays at zero, whatever fails, although a failed write
    may have sent a part of the data. *)
Theorem partial_writes_unreachable data opts rs w res rs' w' :
  quiet w = true -> mu w = MFree -> full_writes (slice_len data) rs ->
  (int64_min <= totalWritten (sk w) <= int64_max)%Z ->
  exec (writeExecute data opts) rs w = Done res rs' w' ->
  forall s, s ∈ samples w' -> s_metric s = tcpPartialWrites -> s ∈ samples w.
Proof.
  intros Hq Hm Hf Hr. unfold writeExecute. rewrite exec_read_conn by done.
  destruct (conn (sk w)) as [c|]; [|by intros [= <- <- <-]].
  rewrite exec_bind.
  destruct (exec (write_loop _ _ _ _) rs w) as [[t res1] rs1 w1|] eqn:Hl; [|done].
  pose proof (write_loop_full _ _ _ _ _ _ _ _ Hq Hf Hl) as Ht.
  apply write_loop_exec in Hl as (sent & counted & -> & -> & _); [|done..|lia|lia].
  intros He. apply exec_write_metrics in He as (l & -> & Hl & ->); [|exact Hq].
  intros s Hs Hsm. change (vu_done (written _ _ _ _ w)) with (vu_done w) in Hs.
  destruct (vu_done w); [done|]. cbn in Hs. apply elem_of_app in Hs as [|Hs]; [done|].
  apply (list_elem_of_fmap_2 s_metric) in Hs. change (s_metric <$> l) with (map s_metric l) in Hs.
  rewrite Hl, Hsm in Hs. unfold write_metrics in Hs. cbn in Ht.
  assert (Hz : (0 <? 0 + counted) && (0 + counted <? slice_len data) = false).
  { apply andb_false_iff. rewrite !Nat.ltb_ge. lia. }
  rewrite <-andb_assoc, Hz, andb_false_r in Hs. by apply list_elem_of_singleton in Hs.
Qed.
End write_spec.

(** ** Witnesses *)
#[local] Existing Instance K6Ref.

Definition plain : writeOptions := {| Encoding := ""; wo_Tags := ∅ |}.

(** On the open socket, the connection takes one byte and then fails. *)
Lemma writeExecute_result_witness :
  exists e rs' w',
    exec (writeExecute (Fresh two_bytes) plain)
      [RWrite 1 None; RWrite 0 (Some (ErrNew "broken pipe")); RTags no_tags; RTags no_tags]
      (cw open_cfg) = Done (Some e) rs' w' /\
    Error e = "failed to write data after 1 bytes: broken pipe" /\
    match conn (sk (cw open_cfg)) with
    | None => Some e = Some errNoActiveConnection /\ w' = cw open_cfg
    | Some c =>
        exists sent counted,
          counted <= sent <= length two_bytes /\
          conns w' = alter (with_sent (take sent two_bytes)) c (conns (cw open_cfg)) /\
          totalWritten (sk w') = int64 (totalWritten (sk (cw open_cfg)) + Z.of_nat counted) /\
          (Some e = None <-> counted = length two_bytes) /\
          map s_metric (samples w') = map s_metric (samples (cw open_cfg)) ++
            (if vu_done (cw open_cfg) then [] else
             write_metrics counted (length two_bytes) (bool_decide (is_Some (Some e))))
    end.
Proof.
  destruct (returns_Done (K := K6Ref) (fun res => match res with
      | Some e => bool_decide (Error e = "failed to write data after 1 bytes: broken pipe")
      | None => false end) (fun _ => true)
    (exec (writeExecute (Fresh two_bytes) plain)
      [RWrite 1 None; RWrite 0 (Some (ErrNew "broken pipe")); RTags no_tags; RTags no_tags]
      (cw open_cfg))) as ([e|] & rs' & w' & He & Hm & _);
    [vm_compute; reflexivity| |discriminate Hm].
  apply bool_decide_eq_true in Hm. exists e, rs', w'. split; [exact He|]. split; [exact Hm|].
  apply (writeExecute_result (Fresh two_bytes) plain _ (cw open_cfg) (Some e) rs' w'
    ltac:(vm_compute; reflexivity) ltac:(vm_compute; reflexivity)
    ltac:(vm_compute; split; discriminate) He).
Defined.

Lemma partial_writes_unreachable_witness :
  exists res rs' w',
    exec (writeExecute (Fresh two_bytes) plain)
      [RWrite 1 (Some (ErrNew "broken pipe")); RTags no_tags] (cw open_cfg) = Done res rs' w' /\
    full_writes (length two_bytes) [RWrite 1 (Some (ErrNew "broken pipe")); RTags no_tags] /\
    forall s, s ∈ samples w' -> s_metric s = tcpPartialWrites -> s ∈ samples (cw open_cfg).
Proof.
  destruct (returns_Done (K := K6Ref) (fun _ => true) (fun _ => true)
    (exec (writeExecute (Fresh two_bytes) plain)
      [RWrite 1 (Some (ErrNew "broken pipe")); RTags no_tags] (cw open_cfg)))
    as (res & rs' & w' & He & _); [vm_compute; reflexivity|]. exists res, rs', w'. split; [exact He|].
  assert (Hf : full_writes (length two_bytes) [RWrite 1 (Some (ErrNew "broken pipe")); RTags no_tags])
    by (repeat constructor).
  split; [exact Hf|].
  apply (partial_writes_unreachable (Fresh two_bytes) plain _ (cw open_cfg) res rs' w'
    ltac:(vm_compute; reflexivity) ltac:(vm_compute; reflexivity) Hf
    ltac:(vm_compute; split; discriminate) He).
Defined.

Lemma write_loop_terminates_witness :
  length two_bytes < 3 + length two_bytes /\
  exec (write_loop (3 + length two_bytes) 0 (Fresh two_bytes) 0) [RWrite 1 None; RWrite 1 None] (cw open_cfg)
  = exec (write_loop (S (length two_bytes)) 0 (Fresh two_bytes) 0) [RWrite 1 None; RWrite 1 None] (cw open_cfg).
Proof.
  split; [apply Nat.lt_add_pos_l; lia|].
  apply (write_loop_terminates (3 + length two_bytes) 0 (Fresh two_bytes)).
  apply Nat.lt_add_pos_l. lia.
Defined.
