(* ===== verification/ConnectSpec.v ===== *)
(** * What connect and destroy do

    [connectExecute] and [destroy] on their own. What [connectExecute] asks of the
    resolver, the dialer, the connection and the TLS handshake, and the answers,
    determine its last world; [destroy] with its effects on the state, the
    connections, the events and the metrics. *)
From S2P Require Import Prelude GoStd K6 Metrics Lang Socket Events Exec Trace Codec Connect ReadWrite System Scenarios.

Section connect_spec.
Context `{K : K6}.

(** Does a script listen to the event? *)
Definition listener (ev : string) (s : socket) : option nat :=
  match handlers s !! ev with Some (AnyCallable fn) => Some fn | _ => None end.

Definition event_calls (ev : string) (args : list arg) (s : socket) : list call :=
  match listener ev s with
  | Some fn => [{| call_event := ev; call_fn := fn; call_args := args; call_cleanup := None |}]
  | None => []
  end.

Lemma queued_nil w : queued [] w = w.
Proof. unfold queued. rewrite app_nil_r. by destruct w. Qed.

(** Firing an event that carries no buffer. *)
Lemma fire_spec ev args rs w b rs' w' :
  alive w -> exec (fire ev args) rs w = Done b rs' w' ->
  w' = queued (event_calls ev args (sk w)) w /\ b = bool_decide (is_Some (listener ev (sk w))).
Proof.
  intros Ha. unfold fire, fireAndCleanup, event_calls, listener, run_cleanup. step_ops.
  destruct (handlers (sk w) !! ev) as [[fn|]|]; step_ops;
    intros [= <- _ <-]; by rewrite ?queued_nil.
Qed.

(** The calls that were offered to the loop, which took them. *)
Definition offers (cs : list call) : list exchange := map (fun c => Asked (Send c) (RSelect true)) cs.

Lemma en_fire {A} ev args w (k : bool -> prog A) Q :
  alive w ->
  (alive (queued (event_calls ev args (sk w)) w) ->
   ends (k (bool_decide (is_Some (listener ev (sk w))))) (queued (event_calls ev args (sk w)) w)
     (fun t => Q (offers (event_calls ev args (sk w)) ++ t))) ->
  ends (bind (fire ev args) k) w Q.
Proof.
  intros Ha H. specialize (H Ha). unfold fire, fireAndCleanup, event_calls, listener, run_cleanup in *.
  en_op. destruct (handlers (sk w) !! ev) as [[fn|]|]; rewrite ?queued_nil in H; [|exact H..].
  cbn [bind do]. by apply (en_Send _ _ Ha).
Qed.

(** ** connectExecute *)

(** The endpoints once the name is resolved: the address to dial has the port
    of the options. *)
Definition resolved (co : connectOptions) (ip : string) (port : Z) (s : socket) : socket :=
  with_endpoints {| remotePort := port; remoteIP := ip;
                    remoteAddr := JoinHostPort ip (Itoa (Port co));
                    localPort := localPort (endpoints s); localIP := localIP (endpoints s) |} s.

(** The socket once it is connected by [c], whose local address is [la]. *)
Definition opened (la : option (string * Z)) (c : connid) (now : Z) (s : socket) : socket :=
  let e := endpoints s in
  with_state socketStateOpen (with_conn (Some c) (with_connectTime now (with_endpoints
    match la with
    | Some (ip, port) =>
        {| remotePort := remotePort e; remoteIP := remoteIP e; remoteAddr := remoteAddr e;
           localPort := port; localIP := ip |}
    | None => e
    end s))).

(** The world with one more connection. *)
Definition with_connection (nc : netconn) (w : world) : world :=
  set_conns (<[next_conn w := nc]> (conns w)) (set_next_conn (S (next_conn w)) w).

(** The TLS configuration of the client: that of the VU, with the host as
    server name unless it has one, and HTTP/1.1 only. *)
Definition client_config (co : connectOptions) (cfg : tls_config) : tls_config :=
  {| ServerName := if bool_decide (ServerName cfg = "") then Host co else ServerName cfg;
     NextProtos := ["http/1.1"] |}.

(** Securing the new connection [c] when the options ask for it: what is
    asked, the connection then, and the error. *)
Inductive secured (co : connectOptions) (c : connid)
    : list exchange -> netconn -> option goerr -> Prop :=
| secured_plain : TLS co = false -> secured co c [] dialed_conn None
| secured_tls cfg : TLS co = true ->
    secured co c [Asked GetTLSConfig (RTLS (Some cfg));
                  Asked (Handshake c (client_config co cfg)) (RError None)]
      (with_tls dialed_conn) None
| secured_unconfigured : TLS co = true ->
    secured co c [Asked GetTLSConfig (RTLS None)] (with_closed dialed_conn) (Some errNoTLSConfig)
| secured_refused cfg e : TLS co = true ->
    secured co c [Asked GetTLSConfig (RTLS (Some cfg));
                  Asked (Handshake c (client_config co cfg)) (RError (Some e))]
      (with_closed dialed_conn) (Some (ErrWrap "TLS handshake failed: " e "")).

(** Arming the read deadline of [c], if there is a timeout. *)
Inductive deadlined (tmo now : Z) (c : connid) (nc : netconn)
    : list exchange -> netconn -> option goerr -> Prop :=
| deadline_none : (tmo <= 0)%Z -> deadlined tmo now c nc [] nc None
| deadline_armed : (0 < tmo)%Z ->
    deadlined tmo now c nc [Asked (SetReadDeadline c (Some (now + tmo)%Z)) (RError None)]
      (with_deadline (Some (now + tmo)%Z) nc) None
| deadline_refused e : (0 < tmo)%Z ->
    deadlined tmo now c nc [Asked (SetReadDeadline c (Some (now + tmo)%Z)) (RError (Some e))]
      nc (Some e).

(** Dialing from [w]: the dialer refuses; the new connection cannot be
    secured, and is closed; or the socket takes it, even when its deadline is
    refused. *)
Inductive dialing (co : connectOptions) (w : world) : list exchange -> option goerr -> world -> Prop :=
| dial_refused e :
    dialing co w [Asked (DialContext (remoteAddr (endpoints (sk w)))) (RDial (Some e))] (Some e) w
| dial_insecure t nc e :
    secured co (next_conn w) t nc (Some e) ->
    dialing co w (Asked (DialContext (remoteAddr (endpoints (sk w)))) (RDial None) :: t)
      (Some e) (with_connection nc w)
| dial_done t nc la t' nc' err :
    secured co (next_conn w) t nc None ->
    deadlined (timeout (sk w)) (clock w) (next_conn w) nc t' nc' err ->
    dialing co w (Asked (DialContext (remoteAddr (endpoints (sk w)))) (RDial None) ::
                  t ++ Asked (ConnLocalAddr (next_conn w)) (RAddr la) :: t')
      err (with_connection nc' (upd_sk (opened la (next_conn w) (clock w)) w)).

(** The world once the name is resolved. *)
Definition resolved_world (co : connectOptions) (ts : tagset) (ip : string) (port : Z) (w : world)
    : world :=
  sampled tcpResolving ts 0 (upd_sk (resolved co ip port) (upd_sk (with_state socketStateOpening) w)).

(** [connectExecute] after it took its tags [ts]. *)
Inductive connecting (co : connectOptions) (ts : tagset) (w : world)
    : list exchange -> option goerr -> world -> Prop :=
| not_resolved e :
    connecting co ts w [Asked (ResolveAddr (address co)) (RResolve (Err e))] (Some e)
      (sampled tcpResolving ts 0 (upd_sk (with_state socketStateDisconnected) w))
| not_dialed ip port t e w2 :
    dialing co (resolved_world co ts ip port w) t (Some e) w2 ->
    connecting co ts w (Asked (ResolveAddr (address co)) (RResolve (Ok (ip, port))) :: t) (Some e)
      (sampled tcpConnecting ts 0 (upd_sk (with_state socketStateDisconnected) w2))
| connected ip port t w2 :
    dialing co (resolved_world co ts ip port w) t None w2 ->
    connecting co ts w
      (Asked (ResolveAddr (address co)) (RResolve (Ok (ip, port))) ::
       t ++ offers (event_calls "connect" [] (sk w))) None
      (sampled tcpSockets ts 1 (start_go GRead
        (queued (event_calls "connect" [] (sk w)) (sampled tcpConnecting ts 0 w2)))).

(** *** The parts of a run *)

Lemma on_conn_at f c nc m w :
  on_conn f c (set_conns (<[c := nc]> m) w) = set_conns (<[c := f nc]> m) w.
Proof. unfold on_conn. cbn [conns set_conns]. by rewrite alter_insert_eq. Qed.

Lemma wrapTLS_ends co c m w :
  alive w -> connect_opts (sk w) = Some co -> TLS co = true ->
  ends (wrapTLS c) (set_conns (<[c := dialed_conn]> m) w)
    (fun t r w' => exists nc, w' = set_conns (<[c := nc]> m) w /\
       (r = Ok c /\ secured co c t nc None \/ exists e, r = Err e /\ secured co c t nc (Some e))).
Proof.
  intros Hw Hco Htls. set (w1 := set_conns _ w). assert (Ha : alive w1) by exact Hw.
  unfold wrapTLS, get_connectOpts. en_op. destruct cfg as [cfg|].
  - en_op. change (connect_opts (sk w1)) with (connect_opts (sk w)). rewrite Hco. en_ops; subst w1; rewrite on_conn_at.
    + exists (with_closed dialed_conn). split; [done|]. right. eexists. split; [done|]. by apply secured_refused.
    + exists (with_tls dialed_conn). split; [done|]. left. split; [done|]. by apply secured_tls.
  - en_ops. subst w1. rewrite on_conn_at. exists (with_closed dialed_conn). split; [done|]. right.
    eexists. split; [done|]. by apply secured_unconfigured.
Qed.

Lemma dial_finish_ends c nc m w :
  alive w ->
  ends (dial_finish c) (set_conns (<[c := nc]> m) w)
    (fun t err w' => exists la t' nc', t = Asked (ConnLocalAddr c) (RAddr la) :: t' /\
       deadlined (timeout (sk w)) (clock w) c nc t' nc' err /\
       w' = set_conns (<[c := nc']> m) (upd_sk (opened la c (clock w)) w)).
Proof.
  intros Hw. set (w1 := set_conns _ w). assert (Ha : alive w1) by exact Hw.
  unfold dial_finish. en_op.
  assert (Hend : forall w2, w2 = set_conns (<[c := nc]> m) (upd_sk (opened la c (clock w)) w) ->
    ends (let! s := do GetS in
          if (0 <? timeout s)%Z then do (SetReadDeadline c (Some (connectTime s + timeout s)%Z))
          else Ret None) w2
      (fun t err w' => exists t' nc', t = t' /\ deadlined (timeout (sk w)) (clock w) c nc t' nc' err /\
         w' = set_conns (<[c := nc']> m) (upd_sk (opened la c (clock w)) w))).
  { clear w1 Ha. intros w1 Hw1. assert (Ha : alive w1) by (by subst). en_op.
    assert (Ht : timeout (sk w1) = timeout (sk w)) by (by subst).
    assert (Hc : connectTime (sk w1) = clock w) by (by subst). rewrite Ht, Hc.
    destruct (Z.ltb_spec 0 (timeout (sk w))); en_ops.
    - eexists _, nc. split; [done|]. split; [by apply deadline_refused|exact Hw1].
    - rewrite Hw1, on_conn_at. eexists _, _. split; [done|]. split; [by apply deadline_armed|done].
    - eexists _, nc. split; [done|]. split; [by apply deadline_none|exact Hw1]. }
  destruct la as [[ip port]|]; [do 6 en_op|do 4 en_op].
  all: eapply ends_mono; [|apply Hend; reflexivity].
  all: intros t err w' (t' & nc' & -> & Hd & Hw'); by eexists _, _, nc'.
Qed.

Lemma dial_ends co w :
  alive w -> connect_opts (sk w) = Some co -> ends dial w (dialing co w).
Proof.
  intros Ha Hco. unfold dial, get_connectOpts. en_ops; [by apply dial_refused|].
  change (connect_opts (sk (with_new_conn w))) with (connect_opts (sk w)). rewrite Hco. cbn [bind].
  set (v := set_next_conn (S (next_conn w)) w).
  assert (Hv : alive v) by exact Ha. clear Ha.
  change (with_new_conn w) with (set_conns (<[next_conn w := dialed_conn]> (conns w)) v).
  destruct (TLS co) eqn:Htls.
  - apply ends_bind. eapply ends_mono; [|by apply (wrapTLS_ends co _ _ v)].
    intros t r w1 (nc & -> & [[-> Hs]|(e & -> & Hs)]); [|cbn [ends]; rewrite app_nil_r; by apply dial_insecure].
    eapply ends_mono; [|by apply dial_finish_ends].
    intros t2 err w2 (la & t' & nc' & -> & Hd & ->). by eapply dial_done.
  - eapply ends_mono; [|by apply dial_finish_ends].
    intros t2 err w2 (la & t' & nc' & -> & Hd & ->). eapply (dial_done co w []); [|exact Hd].
    by apply secured_plain.
Qed.

(** What dialing leaves alone. *)
Lemma dialing_frame co w t err w' :
  dialing co w t err w' ->
  mu w' = mu w /\ clock w' = clock w /\ handlers (sk w') = handlers (sk w) /\ (alive w -> alive w') /\
  dialing co (set_mu MFree w) t err (set_mu MFree w').
Proof.
  intros [e|t0 nc e Hs|t0 nc la t' nc' err0 Hs Hd]; (split; [done|]); (split; [done|]);
    (split; [done|]); (split; [done|]).
  - by apply (dial_refused co (set_mu MFree w)).
  - by apply (dial_insecure co (set_mu MFree w)).
  - by apply (dial_done co (set_mu MFree w) t0 nc).
Qed.

(** A step that is timed: its sample is taken when it ends. *)
Lemma timed_ends {A} m ts fn (k : option goerr -> prog A) w Q :
  alive w ->
  ends fn w (fun t err w1 => alive w1 /\ clock w1 = clock w /\
    (alive (sampled m ts 0 w1) -> ends (k err) (sampled m ts 0 w1) (fun t2 => Q (t ++ t2)))) ->
  ends (bind (addDurationMetricsFor m ts fn) k) w Q.
Proof.
  intros Ha Hf. unfold addDurationMetricsFor, addDurationMetrics. en_op.
  apply ends_bind, ends_bind. eapply ends_mono; [|exact Hf].
  clear Ha. intros t err w1 (Ha & Hc & Hk). en_op. cbn [bind do].
  apply (en_Push _ _ Ha). intros Ha1. rewrite Hc, Z.sub_diag. specialize (Hk Ha1). cbn [ends].
  eapply ends_mono; [|exact Hk]. intros t2 a w2. by rewrite app_nil_r.
Qed.

Lemma resolve_ends co w :
  alive w -> connect_opts (sk w) = Some co ->
  ends resolve w (fun t err w' => exists res, t = [Asked (ResolveAddr (address co)) (RResolve res)] /\
    match res with
    | Err e => err = Some e /\ w' = w
    | Ok (ip, port) => err = None /\ w' = upd_sk (resolved co ip port) w
    end).
Proof.
  intros Ha Hco. unfold resolve, get_connectOpts. en_op. rewrite Hco. en_op.
  destruct res as [[ip port]|e]; [|by exists (Err e)]. do 2 en_op. en_op.
  change (connect_opts (sk _)) with (connect_opts (sk w)). rewrite Hco. en_ops. by exists (Ok (ip, port)).
Qed.

(** C1: a run of [connectExecute] on a live socket, the mutex free and nothing
    else running, releases the mutex, and its result and the whole world it leaves
    are determined by what it asked and what it was told. It asks the resolver for
    the address of the options. If that fails it returns that error, the state
    [disconnected] and one sample. Otherwise it dials the resolved IP with the port of
    the options. A refusal ends the same way with a second sample; so does a
    connection that cannot be secured as the options ask, which is closed; when the
    read deadline is refused the socket keeps the connection though it is
    [disconnected]. On success the socket is open with the new connection, its
    deadline armed if there is a timeout; the connect event is queued, one reader
    started and the socket counted. All samples carry the tags taken at the start. *)
Theorem connectExecute_outcome rs w err rs' w' :
  alive w -> mu w = MFree -> exec connectExecute rs w = Done err rs' w' ->
  mu w' = MFree /\
  exists cur so co t,
    sock_opts (sk w) = Some so /\ connect_opts (sk w) = Some co /\
    trace connectExecute rs w = Asked CurrentTags (RTags cur) :: t /\
    connecting co (socket_tags cur so (Some co) (remoteIP (endpoints (sk w)))) w t err w'.
Proof.
  intros Ha Hm.
  assert (Hfree : set_mu MFree w = w) by (destruct w; cbn in Hm; by subst).
  set (outcome t err w' := mu w' = MFree /\ exists cur so co t2,
    sock_opts (sk w) = Some so /\ connect_opts (sk w) = Some co /\
    t = Asked CurrentTags (RTags cur) :: t2 /\
    connecting co (socket_tags cur so (Some co) (remoteIP (endpoints (sk w)))) w t2 err w').
  apply (ends_exec _ _ outcome). clear rs rs' err w'.
  unfold connectExecute. en_op. unfold get_connectOpts at 1. en_op.
  change (connect_opts (sk (set_mu MWrite w))) with (connect_opts (sk w)).
  destruct (connect_opts (sk w)) as [co|] eqn:Hco; en_ops.
  match goal with H : sock_opts _ = Some _ |- _ => rename H into Hso end.
  change (sock_opts (sk (set_mu MWrite w))) with (sock_opts (sk w)) in Hso.
  change (connect_opts (sk (set_mu MWrite w))) with (connect_opts (sk w)). rewrite Hco.
  change (endpoints (sk (set_mu MWrite w))) with (endpoints (sk w)).
  set (ts := socket_tags _ _ _ _).
  assert (Hout : forall t err w', mu w' = MFree -> connecting co ts (set_mu MFree w) t err w' ->
    outcome (Asked CurrentTags (RTags cur) :: t) err w').
  { intros t err w' Hw' Hc. rewrite Hfree in Hc. split; [done|]. by exists cur, so, co, t. }
  clearbody outcome. apply timed_ends; [exact Ha|]. eapply ends_mono; [|by apply resolve_ends].
  intros t1 err1 w1 (res & -> & Hres). destruct res as [[ip port]|e]; destruct Hres as [-> ->];
    (split; [exact Ha|]); (split; [done|]); clear Ha; intros Ha.
  - apply timed_ends; [exact Ha|]. eapply ends_mono; [|by apply (dial_ends co)].
    intros t2 err2 w2 Hd. apply dialing_frame in Hd as (Hm2 & Hc2 & Hh2 & Ha2 & Hd). specialize (Ha2 Ha).
    split; [exact Ha2|]. split; [exact Hc2|]. clear Ha. intros Ha.
    assert (Hev : event_calls "connect" [] (sk (set_mu MFree (sampled tcpConnecting ts 0 w2)))
                  = event_calls "connect" [] (sk w)).
    { unfold event_calls, listener. cbn [sk set_mu sampled set_samples]. by rewrite Hh2. }
    destruct err2 as [e|].
    + en_op. apply (en_Unlock _ _ Ha); [exact Hm2|]. clear Ha. intros Ha. cbn [ends].
      apply Hout; [done|]. rewrite app_nil_r. by apply (not_dialed co ts (set_mu MFree w)) in Hd.
    + cbn [bind do]. apply (en_Unlock _ _ Ha); [exact Hm2|]. clear Ha. intros Ha.
      apply en_fire; [exact Ha|]. rewrite Hev. clear Ha. intros Ha. unfold addCounterMetrics. en_ops.
      apply Hout; [done|]. rewrite app_nil_r. by apply (connected co ts (set_mu MFree w)) in Hd.
  - en_ops. apply Hout; [done|]. by apply (not_resolved co ts (set_mu MFree w)).
Qed.

(** ** destroy *)

(** The end of the body of the Once: the socket's context is cancelled, the
    loop goroutine exits, and the Once is done. *)
Lemma exec_cancel rs w a rs' w' :
  alive w -> exec (do! do Cancel in do OnceLeave) rs w = Done a rs' w' ->
  w' = set_once OnceDone (set_lp LoopExit (set_sctx_done true w)) /\ rs' = rs.
Proof.
  intros (Hl & Hs & Hv). cbn [bind do]. rewrite exec_op by done. cbn [interp].
  assert (Hr : loop_run (set_sctx_done true w) = set_lp LoopExit (set_sctx_done true w)).
  { unfold loop_run, loop_step, ctx_done. destruct w. cbn in *. by subst. }
  rewrite Hr. unfold do. rewrite exec_op by done. cbn [interp]. rewrite loop_run_quiet by done.
  cbn [exec]. by intros [= _ <- <-].
Qed.

Lemma exec_close rs w a rs' w' :
  alive w -> exec (do! do! fire "close" [] in do Cancel in do OnceLeave) rs w = Done a rs' w' ->
  w' = set_once OnceDone (set_lp LoopExit (set_sctx_done true
         (queued (event_calls "close" [] (sk w)) w))).
Proof.
  intros Ha. rewrite !exec_bind.
  destruct (exec (fire "close" []) rs w) as [b rs1 w1|] eqn:Hf; [|done].
  apply fire_spec in Hf as [-> _]; [|exact Ha]. cbn [exec_bind_cont]. rewrite <-exec_bind.
  intros He. by apply exec_cancel in He as [-> _].
Qed.

(** The effect of the first [destroy]. *)
Definition torn_down (w w' : world) : Prop :=
  state (sk w') = socketStateDestroyed /\ conn (sk w') = None /\
  conns w' = match conn (sk w) with Some c => alter with_closed c (conns w) | None => conns w end /\
  queue w' = queue w ++ event_calls "close" [] (sk w) /\
  map s_metric (samples w') =
    map s_metric (samples w) ++ (match conn (sk w) with Some _ => [tcpDuration] | None => [] end) /\
  mu w' = MFree /\ once w' = OnceDone /\ sctx_done w' = true /\ lp w' = LoopExit.

Lemma destroy_first rs w rs' w' :
  alive w -> mu w = MFree -> once w = OnceIdle ->
  exec destroy rs w = Done tt rs' w' -> torn_down w w'.
Proof.
  intros Ha Hm Ho. unfold destroy, destroy_body, addDurationMetrics.
  cbn [bind do]. apply (st_pure rs w tt rs' w' _ OnceEnter _ true (set_once OnceBusy w));
    [done| |done|].
  { cbn. by rewrite Ho. }
  clear Ha. intros Ha. step_ops.
  change (conn (sk (upd_sk ?f (set_mu MWrite (set_once OnceBusy w))))) with (conn (sk w)).
  destruct (conn (sk w)) as [c|] eqn:Hc; step_ops.
  all: intros He; apply exec_close in He as ->; [|exact Ha].
  all: unfold torn_down, event_calls, listener; rewrite Hc; cbn; rewrite ?app_nil_r, ?map_app.
  all: split_and!; try done.
Qed.


(** Offering an event to a loop that has exited. *)
Lemma fire_blocks ev args fn rs w :
  lp w = LoopExit -> vu_done w = false -> listener ev (sk w) = Some fn ->
  exec (fire ev args) rs w = Stuck w.
Proof.
  intros Hl Hv Hf. assert (Hr : loop_run w = w) by (apply loop_run_quiet; unfold quiet; by rewrite Hl).
  unfold fire, fireAndCleanup. cbn [bind do]. rewrite exec_op by done. cbn [interp]. rewrite Hr.
  unfold listener in Hf. destruct (handlers (sk w) !! ev) as [[fn'|]|]; try done.
  cbn [bind do exec takes_reply]. destruct rs as [|r rs]; [done|].
  destruct r as [| | | | | | | | |[]|]; cbn [interp]; rewrite ?Hl, ?Hv; done.
Qed.

(** After [destroy], while the VU runs, any event with a handler that is
    fired blocks its goroutine for good: nobody receives from the channel any
    more, and [fire] waits for the VU's context, not for the socket's. *)
Theorem fire_after_destroy_blocks rs w rs' w' ev fn args :
  alive w -> mu w = MFree -> once w = OnceIdle ->
  exec destroy rs w = Done tt rs' w' -> vu_done w' = false ->
  listener ev (sk w') = Some fn ->
  forall rs2, exec (fire ev args) rs2 w' = Stuck w'.
Proof.
  intros Ha Hm Ho He Hv Hf rs2.
  destruct (destroy_first _ _ _ _ Ha Hm Ho He) as (_ & _ & _ & _ & _ & _ & _ & _ & Hlp).
  by eapply fire_blocks.
Qed.

(** ** Rejections *)

Lemma reject_spec pr e m ts rs w a rs' w' :
  alive w -> exec (rejectWithTCPError pr e m ts) rs w = Done a rs' w' ->
  w' = set_settled (settled w ++ [(pr, RejectedTCP (newTCPError e m))])
         (queued (event_calls "error" [ArgErr (newTCPError e m)] (sk w)) (sampled tcpErrors ts 1 w)).
Proof.
  intros Ha. unfold rejectWithTCPError, handleError, addErrorMetrics. step_ops.
  rewrite !exec_bind. destruct (exec (fire "error" _) _ _) as [b rs1 w1|] eqn:Hf; [|done].
  apply fire_spec in Hf as [-> _]; [|exact Ha]. cbn [exec_bind_cont].
  assert (Ha1 : alive (queued (event_calls "error" [ArgErr (newTCPError e m)]
    (sk (sampled tcpErrors ts 1 w))) (sampled tcpErrors ts 1 w))) by exact Ha.
  destruct b; cbn [exec exec_bind_cont]; step_ops; by intros [= _ _ <-].
Qed.

(** The world after a call of [connect] or [write] whose arguments are wrong. *)
Definition rejected_call (e : goerr) (m : string) (ts : tagset) (w : world) : world :=
  set_settled (settled w ++ [(next_promise w, RejectedTCP (newTCPError e m))])
    (queued (event_calls "error" [ArgErr (newTCPError e m)] (sk w))
      (sampled tcpErrors ts 1 (set_next_promise (S (next_promise w)) w))).

(** C23: a call of [connect] with arguments that are not options starts
    nothing: the new promise is returned already rejected with a TCPError of
    method connect and the error's text, the error event is queued if a
    script listens, one [tcp_errors] sample is pushed, and nothing else
    changes. *)
Theorem connect_invalid v h e rs w pr rs' w' :
  alive w -> prepare_options v h = Some (Err e) ->
  exec (connect v h) rs w = Done pr rs' w' ->
  pr = next_promise w /\ exists ts, w' = rejected_call e "connect" ts w.
Proof.
  intros Ha Hp. unfold connect, connectPrepare. rewrite Hp. step_ops.
  rewrite exec_bind. destruct (exec (rejectWithTCPError _ _ _ _) _ _) as [a rs2 w2|] eqn:Hr; [|done].
  apply reject_spec in Hr; [|exact Ha]. cbn [exec_bind_cont exec].
  intros [= <- _ <-]. split; [done|]. eexists. exact Hr.
Qed.

End connect_spec.

(** ** Witnesses *)
#[local] Existing Instance K6Ref.

(** The script has called [connect]; its goroutine has not run yet. *)
Definition called_world : world := cw (play (register all_events ++ call_connect) fresh_cfg).
Definition open_world : world := cw open_cfg.

Lemma called_alive : alive called_world.
Proof. repeat split; vm_compute; reflexivity. Qed.
Lemma open_alive : alive open_world.
Proof. repeat split; vm_compute; reflexivity. Qed.

(** The dial succeeds, and the loop takes the connect event. *)
Lemma connectExecute_outcome_witness :
  let rs := dialed ++ [RSelect true] in
  exists rs' w', exec connectExecute rs called_world = Done None rs' w' /\
  state (sk w') = socketStateOpen /\
  mu w' = MFree /\
  exists cur so co t,
    sock_opts (sk called_world) = Some so /\ connect_opts (sk called_world) = Some co /\
    trace connectExecute rs called_world = Asked CurrentTags (RTags cur) :: t /\
    connecting co (socket_tags cur so (Some co) (remoteIP (endpoints (sk called_world))))
      called_world t None w'.
Proof.
  destruct (returns_Done (K := K6Ref) (fun e => match e with None => true | _ => false end)
    (fun w => bool_decide (state (sk w) = socketStateOpen))
    (exec connectExecute (dialed ++ [RSelect true]) called_world))
    as ([e|] & rs' & w' & He & Hn & Hs); [vm_compute; reflexivity|discriminate Hn|].
  exists rs', w'. split; [exact He|]. split; [by apply bool_decide_eq_true in Hs|].
  exact (connectExecute_outcome _ _ _ _ _ called_alive ltac:(vm_compute; reflexivity) He).
Defined.


Lemma fire_after_destroy_blocks_witness :
  exists rs' w', exec destroy [RTags no_tags; RSelect true] open_world = Done tt rs' w' /\
  forall rs2, exec (fire "error" [ArgErr (newTCPError errInvalidType "write")]) rs2 w' = Stuck w'.
Proof.
  destruct (returns_Done (K := K6Ref) (fun _ => true)
    (fun w => negb (vu_done w) && bool_decide (listener "error" (sk w) = Some 3))
    (exec destroy [RTags no_tags; RSelect true] open_world))
    as ([] & rs' & w' & He & _ & Ht); [vm_compute; reflexivity|].
  exists rs', w'. split; [exact He|]. apply andb_true_iff in Ht as [Hv Hf].
  apply negb_true_iff in Hv. apply bool_decide_eq_true in Hf.
  exact (fire_after_destroy_blocks _ _ _ _ "error" 3 _ open_alive ltac:(vm_compute; reflexivity)
    ltac:(vm_compute; reflexivity) He Hv Hf).
Defined.

Definition not_options : Value := JSOther.

Lemma connect_invalid_witness :
  exists pr rs' w',
    exec (connect (Some not_options) None) [RTags no_tags; RSelect true] open_world = Done pr rs' w' /\
    pr = next_promise open_world /\
    exists ts, w' = rejected_call (ErrWrap "" errInvalidType ": expected integer or object")
                      "connect" ts open_world.
Proof.
  destruct (returns_Done (K := K6Ref) (fun _ => true) (fun _ => true)
    (exec (connect (Some not_options) None) [RTags no_tags; RSelect true] open_world))
    as (pr & rs' & w' & He & _); [vm_compute; reflexivity|].
  exists pr, rs', w'. split; [exact He|].
  exact (connect_invalid (Some not_options) None _ _ _ _ _ _ open_alive eq_refl He).
Defined.


