(* ===== verification/ReadSpec.v ===== *)
(** * What one round of the read loop does

    [readLoopStep] on its own, in terms of what [conn.Read] answered: the bytes it
    returned are counted, copied to a fresh buffer and queued as a data event; then
    its error decides whether the loop goes on and which event is queued. *)
From S2P Require Import Prelude GoStd K6 Metrics Lang Socket Events Exec Trace Connect ReadWrite System Scenarios ConnectSpec.

Section read_spec.
Context `{K : K6}.



(** ** The three parts of a step *)

















(** ** The idle timeout *)

(** C27: setting a timeout, in milliseconds, from [int64]. Zero and negative
    values disable it; up to 9223372036854 ms (292 years) the stored duration is
    exact and positive; any larger value does not survive the multiplication,
    which wraps around. *)
Theorem timeout_duration_exact ms :
  (int64_min <= ms <= int64_max)%Z ->
  (int64_min <= timeout_duration ms <= int64_max)%Z /\
  ((ms <= 0)%Z -> timeout_duration ms = 0%Z) /\
  ((0 < ms <= 9223372036854)%Z <->
   (0 < timeout_duration ms)%Z /\ timeout_duration ms = (ms * 1000000)%Z).
Proof.
  intros Hr. pose proof (int64_range (ms * 1000000)) as Hi. unfold timeout_duration.
  destruct (Z.leb_spec ms 0) as [Hle|Hgt].
  - split; [unfold int64_min, int64_max; lia|]. split; [done|]. lia.
  - split; [exact Hi|]. split; [lia|]. split.
    + intros H. rewrite int64_id by (unfold int64_min, int64_max; lia). lia.
    + intros [_ He]. rewrite He in Hi. unfold int64_max in Hi. lia.
Qed.

(** The deadline [setTimeout] gives the connection. *)
Definition new_deadline (d now : Z) : option Z := if (0 <? d)%Z then Some (now + d)%Z else None.

(** C26: [setTimeout] stores the duration and, if the socket has a connection,
    moves its read deadline to one timeout from now, or clears it; it touches
    nothing else, and fails only if the connection refuses the deadline. *)
Theorem setTimeout_effect ms rs w err rs' w' :
  alive w -> mu w = MFree -> exec (setTimeout ms) rs w = Done err rs' w' ->
  let d := timeout_duration ms in
  let w1 := upd_sk (with_timeout d) w in
  w' = match conn (sk w), err with
       | Some c, None => on_conn (with_deadline (new_deadline d (clock w))) c w1
       | _, _ => w1
       end /\
  (conn (sk w) = None -> err = None).
Proof.
  intros Ha Hm. unfold setTimeout, new_deadline. step_ops.
  change (conn (sk _)) with (conn (sk w)). change (timeout (sk _)) with (timeout_duration ms).
  assert (Hmu : forall f c, set_mu MFree (on_conn f c (upd_sk (apply_upd (SetTimeout (timeout_duration ms)))
            (set_mu MWrite w))) = on_conn f c (upd_sk (with_timeout (timeout_duration ms)) w))
    by (intros f c; destruct w; cbn in *; by subst).
  assert (Hmu' : set_mu MFree (upd_sk (apply_upd (SetTimeout (timeout_duration ms)))
            (set_mu MWrite w)) = upd_sk (with_timeout (timeout_duration ms)) w)
    by (destruct w; cbn in *; by subst).
  destruct (conn (sk w)) as [c|].
  - destruct (0 <? timeout_duration ms)%Z; step_ops; intros [= <- _ <-];
      (split; [|done]); rewrite ?Hmu', ?Hmu; done.
  - step_ops. intros [= <- _ <-]. by rewrite Hmu'.
Qed.
End read_spec.

(** ** Witness *)
#[local] Existing Instance K6Ref.


Lemma timeout_duration_exact_witness :
  (int64_min <= 1500 <= int64_max)%Z /\
  ((int64_min <= timeout_duration 1500 <= int64_max)%Z /\
   ((1500 <= 0)%Z -> timeout_duration 1500 = 0%Z) /\
   ((0 < 1500 <= 9223372036854)%Z <->
    (0 < timeout_duration 1500)%Z /\ timeout_duration 1500 = (1500 * 1000000)%Z)).
Proof.
  assert (H : (int64_min <= 1500 <= int64_max)%Z) by (vm_compute; split; discriminate).
  split; [exact H|]. exact (timeout_duration_exact 1500 H).
Defined.

(** The first value that wraps: the timeout would be negative. *)
Example timeout_duration_wraps : timeout_duration 9223372036855 = (-9223372036854551616)%Z.
Proof. reflexivity. Qed.

Lemma setTimeout_effect_witness :
  exists err rs' w',
    exec (setTimeout 1000) [RError None] open_world = Done err rs' w' /\
    let d := timeout_duration 1000 in
    let w1 := upd_sk (with_timeout d) open_world in
    w' = match conn (sk open_world), err with
         | Some c, None => on_conn (with_deadline (new_deadline d (clock open_world))) c w1
         | _, _ => w1
         end /\
    (conn (sk open_world) = None -> err = None).
Proof.
  destruct (returns_Done (K := K6Ref) (fun _ => true) (fun _ => true)
    (exec (setTimeout 1000) [RError None] open_world)) as (err & rs' & w' & He & _);
    [vm_compute; reflexivity|].
  exists err, rs', w'. split; [exact He|].
  exact (setTimeout_effect 1000 _ open_world err rs' w' open_alive
    ltac:(vm_compute; reflexivity) He).
Defined.
