(* ===== verification/Progress.v ===== *)
(** * Calls return

    Total correctness of the programs run alone on a live socket: whatever the
    environment answers, the program is never blocked and reaches its end, a return
    or a panic, and which API calls panic. *)
From S2P Require Import Prelude GoStd Codec K6 Metrics Lang Socket Events Exec Connect ReadWrite System Scenarios ConnectSpec.

Section progress.
Context `{K : K6}.

(** The program goes on from [w] until it returns, with every reply the
    environment can give, and always ends as [Q] says. *)
Fixpoint returns_to {A} (p : prog A) (w : world) (Q : A -> world -> Prop) : Prop :=
  match p with
  | Ret a => Q a w
  | Op o k =>
      (exists r x w', interp o r w = Some (x, w')) /\
      forall r x w', interp o r w = Some (x, w') -> returns_to (k x) (loop_run w') Q
  end.

Lemma returns_to_mono {A} (p : prog A) w (Q Q' : A -> world -> Prop) :
  (forall a w', Q a w' -> Q' a w') -> returns_to p w Q -> returns_to p w Q'.
Proof.
  intros HQ. revert w. induction p as [a|X o k IH]; intros w; cbn; [apply HQ|].
  intros [He H]. split; [exact He|]. eauto.
Qed.

Lemma returns_to_bind {A B} (p : prog A) (f : A -> prog B) w Q :
  returns_to p w (fun a w' => returns_to (f a) w' Q) -> returns_to (bind p f) w Q.
Proof.
  revert w. induction p as [a|X o k IH]; intros w; cbn; [done|].
  intros [He H]. split; [exact He|]. eauto.
Qed.

(** Such a program has a run, and every run that ends does so as stated. *)
Lemma returns_to_exec {A} (p : prog A) w Q rs a rs' w' :
  returns_to p w Q -> exec p rs w = Done a rs' w' -> Q a w'.
Proof.
  revert rs w. induction p as [b|X o k IH]; intros rs w; cbn.
  - by intros H [= <- <- <-].
  - intros [_ H]. destruct (if takes_reply o then _ else _) as [r rs1].
    destruct (interp o r w) as [[x w1]|] eqn:Hi; [|done]. eauto.
Qed.

Lemma returns_to_runs {A} (p : prog A) w Q :
  returns_to p w Q -> exists rs a w', exec p rs w = Done a [] w'.
Proof.
  revert w. induction p as [b|X o k IH]; intros w; cbn.
  - intros _. by exists [], b, w.
  - intros [(r & x & w1 & Hi) H]. destruct (IH x _ (H _ _ _ Hi)) as (rs & a & w' & He).
    destruct (takes_reply o) eqn:Ht.
    + exists (r :: rs), a, w'. by rewrite Hi.
    + exists rs, a, w'. replace (interp o RNone w) with (interp o r w); [by rewrite Hi|].
      by destruct o.
Qed.

(** ** Rules *)
Section rules.
Context {A : Type} (w : world) (Q : A -> world -> Prop) (Ha : alive w).

Lemma rt_pure {X} (o : op X) k x w1 :
  (forall r, interp o r w = Some (x, w1)) -> alive w1 ->
  (alive w1 -> returns_to (k x) w1 Q) -> returns_to (Op o k) w Q.
Proof.
  intros Hi H1 H. split; [exists RNone; eauto|]. intros r y w2. rewrite Hi.
  intros [= <- <-]. rewrite alive_run by done. by apply H.
Qed.

(** The last operation of a program, which may wake the loop goroutine. *)
Lemma rt_last (o : op A) x w1 :
  (forall r, interp o r w = Some (x, w1)) -> Q x (loop_run w1) -> returns_to (do o) w Q.
Proof.
  intros Hi H. split; [exists RNone; eauto|]. intros r y w2. rewrite Hi. by intros [= <- <-].
Qed.

Lemma rt_reply {X} (o : op X) k (r0 : reply) x0 w0 :
  interp o r0 w = Some (x0, w0) ->
  (forall r x w1, interp o r w = Some (x, w1) -> returns_to (k x) (loop_run w1) Q) ->
  returns_to (Op o k) w Q.
Proof. intros Hi H. split; eauto. Qed.

Ltac answers r := eapply (rt_reply _ _ r); [reflexivity|]; let r' := fresh in
  intros r' ? ? Hi; destruct r'; cbn in Hi; simplify_eq.

Lemma rt_CurrentTags (ts0 : tagset) k :
  (forall ts, returns_to (k ts) w Q) -> returns_to (Op CurrentTags k) w Q.
Proof. intros H. answers (RTags ts0). rewrite alive_run by exact Ha. apply H. Qed.

Lemma rt_GetTLSConfig k :
  (forall cfg, returns_to (k cfg) w Q) -> returns_to (Op GetTLSConfig k) w Q.
Proof. intros H. answers (RTLS None). rewrite alive_run by exact Ha. apply H. Qed.

Lemma rt_ConnLocalAddr c k :
  (forall a, returns_to (k a) w Q) -> returns_to (Op (ConnLocalAddr c) k) w Q.
Proof. intros H. answers (RAddr None). rewrite alive_run by exact Ha. apply H. Qed.

Lemma rt_ResolveAddr addr k :
  (forall r, returns_to (k r) w Q) -> returns_to (Op (ResolveAddr addr) k) w Q.
Proof.
  intros H. answers (RResolve (Err ErrEOF)). rewrite alive_run by exact Ha. apply H.
Qed.

Lemma rt_DialContext addr k :
  (forall e, returns_to (k (Err e)) w Q) ->
  (alive (with_new_conn w) -> returns_to (k (Ok (next_conn w))) (with_new_conn w) Q) ->
  returns_to (Op (DialContext addr) k) w Q.
Proof.
  intros He Hok. eapply (rt_reply _ _ (RDial (Some ErrEOF))); [reflexivity|].
  intros r x w1 Hi. destruct r as [| |[e|]| | | | | | | |]; cbn in Hi; simplify_eq;
    rewrite alive_run by exact Ha; [apply He|by apply Hok].
Qed.

Lemma rt_Handshake c cfg k :
  (forall e, returns_to (k (Some e)) w Q) ->
  (alive (on_conn with_tls c w) -> returns_to (k None) (on_conn with_tls c w) Q) ->
  returns_to (Op (Handshake c cfg) k) w Q.
Proof.
  intros He Hok. eapply (rt_reply _ _ (RError None)); [reflexivity|].
  intros r x w1 Hi. destruct r as [| | |[e|]| | | | | | |]; cbn in Hi; simplify_eq;
    rewrite alive_run by exact Ha; [apply He|by apply Hok].
Qed.

Lemma rt_SetReadDeadline c d k :
  (forall e, returns_to (k (Some e)) w Q) ->
  (alive (on_conn (with_deadline d) c w) ->
   returns_to (k None) (on_conn (with_deadline d) c w) Q) ->
  returns_to (Op (SetReadDeadline c d) k) w Q.
Proof.
  intros He Hok. eapply (rt_reply _ _ (RError None)); [reflexivity|].
  intros r x w1 Hi. destruct r as [| | |[e|]| | | | | | |]; cbn in Hi; simplify_eq;
    rewrite alive_run by exact Ha; [apply He|by apply Hok].
Qed.

Lemma rt_Send c k :
  (alive (queued [c] w) -> returns_to (k true) (queued [c] w) Q) ->
  returns_to (Op (Send c) k) w Q.
Proof.
  intros H. destruct Ha as (Hl & Hs & Hv).
  eapply (rt_reply _ _ (RSelect true)); [cbn; by rewrite Hl|].
  intros r x w1 Hi. destruct r as [| | | | | | | | |[]|]; cbn in Hi; try done.
  - rewrite Hl in Hi. simplify_eq. rewrite alive_got by exact Ha. by apply H.
  - by rewrite Hv in Hi.
Qed.

End rules.

(** *** The mutex *)
Lemma rt_Lock {A} w (Q : A -> world -> Prop) k :
  alive w -> mu w = MFree ->
  (alive (set_mu MWrite w) -> returns_to (k tt) (set_mu MWrite w) Q) ->
  returns_to (Op Lock k) w Q.
Proof. intros Ha Hm. apply rt_pure; [|exact Ha]. intros r. cbn. by rewrite Hm. Qed.

Lemma rt_Unlock {A} w (Q : A -> world -> Prop) k :
  alive w -> mu w = MWrite ->
  (alive (set_mu MFree w) -> returns_to (k tt) (set_mu MFree w) Q) ->
  returns_to (Op Unlock k) w Q.
Proof. intros Ha Hm. apply rt_pure; [|exact Ha]. intros r. cbn. by rewrite Hm. Qed.

Lemma rt_read {A} w (Q : A -> world -> Prop) (f : socket -> prog A) :
  alive w -> mu w = MFree -> returns_to (f (sk w)) w Q ->
  returns_to (do! do RLock in let! s := do GetS in do! do RUnlock in f s) w Q.
Proof.
  intros Ha Hm H. cbn [bind do]. apply (rt_pure w Q _ _ tt (set_mu (MRead 1) w));
    [intros r; cbn; by rewrite Hm|exact Ha|intros _].
  apply (rt_pure _ Q _ _ (sk w) (set_mu (MRead 1) w)); [done|exact Ha|intros _].
  apply (rt_pure _ Q _ _ tt w); [|exact Ha|done].
  intros r. cbn. repeat f_equal. destruct w. cbn in *. by subst.
Qed.

Lemma rt_Push {A} w (Q : A -> world -> Prop) m ts v k :
  alive w -> (alive (sampled m ts v w) -> returns_to (k tt) (sampled m ts v w) Q) ->
  returns_to (Op (Push m ts v) k) w Q.
Proof.
  intros Ha. apply rt_pure; [|exact Ha]. intros r. cbn. destruct Ha as (_ & _ & Hv). by rewrite Hv.
Qed.

(** *** Tags *)
Lemma rt_tags {A} w (Q : A -> world -> Prop) (ts0 : tagset) k :
  alive w -> sock_opts (sk w) <> None -> (forall ts, returns_to (k ts) w Q) ->
  returns_to (bind tags k) w Q.
Proof.
  intros Ha Ho H. unfold tags, currentTags, get_connectOpts. cbn [bind do].
  apply (rt_CurrentTags _ _ Ha ts0). intros cur.
  assert (HG : forall B (k : socket -> prog B) (Q : B -> world -> Prop),
    returns_to (k (sk w)) w Q -> returns_to (Op GetS k) w Q)
    by (intros B k' Q' H'; by apply (rt_pure w Q' _ _ (sk w) w)).
  apply HG. destruct (sock_opts (sk w)) as [so|]; [|done]. cbn [bind do]. apply HG.
  destruct (connect_opts (sk w)) as [co|] eqn:Hco; cbn [bind do];
    repeat (apply HG; rewrite ?Hco; cbn [bind do]);
    case_bool_decide; cbn [bind do]; try apply HG; apply H.
Qed.



End progress.

(** Steps a goal [returns_to p w Q] through its operations. *)
Ltac rt_op ts :=
  cbn [bind do panic];
  lazymatch goal with
  | Ha : alive ?w |- returns_to (Op Lock _) ?w _ =>
      apply rt_Lock; [exact Ha|done|clear Ha; intros Ha]
  | Ha : alive ?w |- returns_to (Op Unlock _) ?w _ =>
      apply rt_Unlock; [exact Ha|done|clear Ha; intros Ha]
  | Ha : alive ?w |- returns_to (Op (Push _ _ _) _) ?w _ =>
      apply rt_Push; [exact Ha|clear Ha; intros Ha]
  | Ha : alive ?w |- returns_to (Op CurrentTags _) ?w _ =>
      apply (rt_CurrentTags _ _ Ha ts); intros ?
  | Ha : alive ?w |- returns_to (Op GetTLSConfig _) ?w _ =>
      apply (rt_GetTLSConfig _ _ Ha); intros ?
  | Ha : alive ?w |- returns_to (Op (ConnLocalAddr _) _) ?w _ =>
      apply (rt_ConnLocalAddr _ _ Ha); intros ?
  | Ha : alive ?w |- returns_to (Op (ResolveAddr _) _) ?w _ =>
      apply (rt_ResolveAddr _ _ Ha); intros ?
  | Ha : alive ?w |- returns_to (Op (DialContext _) _) ?w _ =>
      apply (rt_DialContext _ _ Ha); [intros ?|clear Ha; intros Ha]
  | Ha : alive ?w |- returns_to (Op (Handshake _ _) _) ?w _ =>
      apply (rt_Handshake _ _ Ha); [intros ?|clear Ha; intros Ha]
  | Ha : alive ?w |- returns_to (Op (SetReadDeadline _ _) _) ?w _ =>
      apply (rt_SetReadDeadline _ _ Ha); [intros ?|clear Ha; intros Ha]
  | Ha : alive ?w |- returns_to (Op (Send _) _) ?w _ =>
      apply (rt_Send _ _ Ha); clear Ha; intros Ha
  | Ha : alive ?w |- returns_to (Op ?o _) ?w _ =>
      lazymatch o with
      | GetS => idtac | SetS _ => idtac | Now => idtac | Go _ => idtac | NewPromise => idtac
      | Settle _ _ => idtac | ConnClose _ => idtac | BufPut _ => idtac
      end;
      eapply rt_pure; [intros ?; reflexivity|exact Ha|clear Ha; intros Ha]
  | |- returns_to (do ?o) ?w ?Q => change (returns_to (Op o Ret) w Q)
  end.
Ltac rt_ops ts := repeat rt_op ts; cbn [bind do panic].

(** The field [f] of the socket is still that of [w]. *)
Ltac same_field f w :=
  repeat match goal with
  | |- context [f (sk ?x)] => progress change (f (sk x)) with (f (sk w))
  end.

(** ** The calls of a script *)
(** [ts] stands for the tag set that the VU's state can give. *)
Section calls.
Context `{K : K6} (ts : tagset).

(** Nothing that [fire] needs is missing: it always returns on a live socket. *)
Lemma fire_returns ev args w (Q : bool -> world -> Prop) :
  alive w ->
  (forall b calls, alive (queued calls w) -> Q b (queued calls w)) -> returns_to (fire ev args) w Q.
Proof.
  intros Ha H. unfold fire, fireAndCleanup, run_cleanup. rt_op ts.
  destruct (handlers (sk w) !! ev) as [[fn|]|]; rt_ops ts; cbn.
  - by apply H.
  - pose proof (H false [] Ha) as H0. unfold queued in H0. rewrite app_nil_r in H0. by destruct w.
  - pose proof (H false [] Ha) as H0. unfold queued in H0. rewrite app_nil_r in H0. by destruct w.
Qed.

(** What the calls keep: the socket is live, its mutex as it was, and the
    options are there. *)
Definition steady (w w' : world) : Prop :=
  alive w' /\ mu w' = mu w /\ sock_opts (sk w') = sock_opts (sk w) /\
  connect_opts (sk w') = connect_opts (sk w).

Lemma reject_returns p e m tg w :
  alive w -> returns_to (rejectWithTCPError p e m tg) w (fun _ w' => steady w w').
Proof.
  intros Ha. unfold rejectWithTCPError, handleError, addErrorMetrics. rt_ops ts.
  apply returns_to_bind, returns_to_bind. apply fire_returns; [exact Ha|].
  intros b calls Ha1. destruct b; cbn [returns_to]; rt_ops ts; done.
Qed.

Lemma rlocked_returns {A} (f : socket -> A) w (Q : A -> world -> Prop) :
  alive w -> mu w = MFree -> Q (f (sk w)) w -> returns_to (rlocked f) w Q.
Proof. intros Ha Hm HQ. by apply (rt_read w Q (fun s => Ret (f s))). Qed.

Lemma destroy_body_returns w :
  alive w -> mu w = MFree -> sock_opts (sk w) <> None ->
  returns_to destroy_body w (fun _ w' => mu w' = MFree).
Proof.
  intros Ha Hm Ho. unfold destroy_body, addDurationMetrics. rt_ops ts.
  apply (rt_tags _ _ ts _ Ha Ho). intros ?. rt_ops ts.
  cbn [sk upd_sk set_sk apply_upd with_conn with_state conn set_mu].
  destruct (conn (sk w)) as [c|]; rt_ops ts; apply returns_to_bind;
    (apply fire_returns; [exact Ha|]); intros b calls Ha1;
    (eapply rt_last; [by intros r|]); by rewrite loop_run_mu.
Qed.

Lemma destroy_returns w :
  alive w -> mu w = MFree -> once w <> OnceBusy -> sock_opts (sk w) <> None ->
  returns_to destroy w (fun _ w' => mu w' = MFree).
Proof.
  intros Ha Hm Hon Ho. unfold destroy. cbn [bind do].
  destruct (once w) eqn:Hw; [|done|].
  - eapply rt_pure; [intros r; cbn; by rewrite Hw|exact Ha|clear Ha; intros Ha].
    apply returns_to_bind. eapply returns_to_mono; [|by apply destroy_body_returns].
    intros [] w1 H1. eapply rt_last; [by intros r|]. by rewrite loop_run_mu.
  - eapply rt_pure; [intros r; cbn; by rewrite Hw|exact Ha|done].
Qed.

(** A program that returns and keeps the socket steady, then another. *)
Lemma steady_bind {A B} (p : prog A) (f : A -> prog B) w Q :
  returns_to p w (fun _ w' => steady w w') ->
  (forall a w', steady w w' -> returns_to (f a) w' Q) -> returns_to (bind p f) w Q.
Proof.
  intros Hp Hf. apply returns_to_bind. eapply returns_to_mono; [|exact Hp]. exact Hf.
Qed.







Lemma setTimeout_returns ms w :
  alive w -> mu w = MFree -> returns_to (setTimeout ms) w (fun _ w' => steady w w').
Proof.
  intros Ha Hm. unfold setTimeout. rt_ops ts. same_field conn w.
  destruct (conn (sk w)) as [c|]; [destruct (0 <? timeout _)%Z|]; rt_ops ts;
    unfold steady; cbn; by rewrite Hm.
Qed.

Lemma on_returns ev fn w : alive w -> returns_to (on ev fn) w (fun _ w' => steady w w').
Proof. intros Ha. unfold on. case_bool_decide; rt_ops ts; done. Qed.

Lemma connect_returns p h w :
  alive w -> sock_opts (sk w) <> None -> prepare_options p h <> None ->
  returns_to (connect p h) w (fun _ w' => alive w' /\ mu w' = mu w).
Proof.
  intros Ha Ho Hp. unfold connect, connectPrepare. rt_ops ts.
  destruct (prepare_options p h) as [[o|e]|]; [| |done]; rt_ops ts; [done|].
  apply (rt_tags _ _ ts _ Ha Ho). intros ?.
  apply steady_bind; [by apply reject_returns|]. by intros [] w' (? & Hm & _).
Qed.

Lemma write_returns v o w :
  alive w -> returns_to (write (Some v) o) w (fun _ w' => alive w' /\ mu w' = mu w).
Proof.
  intros Ha. unfold write, currentTags. rt_ops ts.
  destruct (writePrepare v o) as [[data|e] opts]; rt_ops ts; [done|].
  apply steady_bind; [by apply reject_returns|]. by intros [] w' (? & Hm & _).
Qed.






(** ** Properties *)

(** The program ends in a run-time panic, whatever the environment answers. *)
Definition is_panic {X} (o : op X) : bool := match o with GoPanic => true | _ => false end.

Fixpoint panics {A} (p : prog A) (w : world) : Prop :=
  match p with
  | Ret _ => False
  | Op o k =>
      is_panic o = true \/
      (exists r x w', interp o r w = Some (x, w')) /\
      forall r x w', interp o r w = Some (x, w') -> panics (k x) (loop_run w')
  end.

Lemma panics_bind {A B} (p : prog A) (f : A -> prog B) w : panics p w -> panics (bind p f) w.
Proof.
  revert w. induction p as [a|X o k IH]; intros w; cbn; [done|].
  intros [Hp|[He H]]; [by left|right]. split; [exact He|]. eauto.
Qed.

Lemma returns_panics {A B} (p : prog A) (f : A -> prog B) w :
  returns_to p w (fun a w' => panics (f a) w') -> panics (bind p f) w.
Proof.
  revert w. induction p as [a|X o k IH]; intros w; cbn; [done|].
  intros [He H]. right. split; [exact He|]. eauto.
Qed.

Lemma pn_pure {A X} w (o : op X) (k : X -> prog A) x w1 :
  (forall r, interp o r w = Some (x, w1)) -> alive w1 -> panics (k x) w1 -> panics (Op o k) w.
Proof.
  intros Hi H1 H. right. split; [exists RNone; eauto|]. intros r y w2. rewrite Hi.
  intros [= <- <-]. by rewrite alive_run.
Qed.

(** [tags] dereferences the options. *)
Lemma tags_panics w : alive w -> sock_opts (sk w) = None -> panics tags w.
Proof.
  intros Ha Ho. unfold tags. apply returns_panics. unfold currentTags. rt_ops ts.
  apply (pn_pure _ _ _ (sk w) w); [done..|]. rewrite Ho. by left.
Qed.

(** The calls that panic: [connect] whose first argument is missing or is
    exported to a nil options pointer, [write] without an argument, and, on a socket
    whose own options were exported to nil, whatever builds the tags of a sample:
    [connect] with wrong arguments and the first [destroy]. *)
Definition panicking (a : apicall) (w : world) : Prop :=
  match a with
  | AConnect p h =>
      prepare_options p h = None \/
      sock_opts (sk w) = None /\ exists e, prepare_options p h = Some (Err e)
  | AWrite v _ => v = None
  | ADestroy => sock_opts (sk w) = None /\ once w = OnceIdle
  | _ => False
  end.

Lemma connect_panics p h w :
  alive w -> panicking (AConnect p h) w -> panics (connect p h) w.
Proof.
  intros Ha Hp. unfold connect. apply returns_panics. rt_ops ts. unfold connectPrepare.
  cbn [panicking] in Hp. destruct (prepare_options p h) as [[o|e]|].
  - exfalso. destruct Hp as [?|(_ & e & ?)]; done.
  - destruct Hp as [?|(Ho & _)]; [done|]. cbn [bind]. by apply panics_bind, tags_panics.
  - by left.
Qed.

Lemma destroy_panics w : alive w -> mu w = MFree -> panicking ADestroy w -> panics destroy w.
Proof.
  intros Ha Hm (Ho & Hon). unfold destroy, destroy_body. cbn [bind do].
  eapply pn_pure; [intros r; cbn; by rewrite Hon|exact Ha|].
  eapply pn_pure; [intros r; cbn; by rewrite Hm|exact Ha|].
  do 4 (eapply pn_pure; [by intros r|exact Ha|]). by apply panics_bind, panics_bind, tags_panics.
Qed.

(** The other calls return. *)
Lemma connect_returns_or p h w :
  alive w -> ~ panicking (AConnect p h) w ->
  returns_to (connect p h) w (fun _ w' => alive w' /\ mu w' = mu w).
Proof.
  intros Ha Hp. cbn [panicking] in Hp. destruct (sock_opts (sk w)) as [so|] eqn:Ho.
  { apply connect_returns; [done|by rewrite Ho|by intros H; apply Hp; left]. }
  unfold connect, connectPrepare. rt_ops ts.
  destruct (prepare_options p h) as [[o|e]|]; rt_ops ts; [done| |].
  - exfalso. apply Hp. right. eauto.
  - exfalso. apply Hp. by left.
Qed.

Lemma destroy_returns_or w :
  alive w -> mu w = MFree -> once w <> OnceBusy -> ~ panicking ADestroy w ->
  returns_to destroy w (fun _ w' => mu w' = MFree).
Proof.
  intros Ha Hm Hon Hp. destruct (sock_opts (sk w)) as [so|] eqn:Ho.
  { apply destroy_returns; [done..|by rewrite Ho]. }
  cbn [panicking] in Hp. unfold destroy. cbn [bind do].
  destruct (once w) eqn:Hw; [exfalso; by apply Hp|done|].
  eapply rt_pure; [intros r; cbn; by rewrite Hw|exact Ha|done].
Qed.

(** C9: a call of the API on a live socket whose mutex is free, no [destroy]
    being under way and nothing else running, never blocks: whatever the environment
    answers, it panics when it is one of the [panicking] calls, and otherwise it
    returns, leaves the mutex free and, unless it is [destroy], the socket live. *)
Theorem api_calls_return (a : apicall) (w : world) :
  alive w -> mu w = MFree -> once w <> OnceBusy ->
  (panicking a w -> panics (api_prog a) w) /\
  (~ panicking a w ->
     returns_to (api_prog a) w (fun _ w' => mu w' = MFree /\ (a <> ADestroy -> alive w'))).
Proof.
  intros Ha Hm Hon. split; intros Hp.
  { destruct a as [p h|v o| |ms|ev fn| | | | | | | | |m bs]; try done; cbn [api_prog].
    - by apply panics_bind, connect_panics.
    - cbn [panicking] in Hp. subst v. apply panics_bind. unfold write. apply returns_panics.
      rt_ops ts. by left.
    - by apply destroy_panics. }
  assert (Hign : forall B (p : prog B) Q, returns_to p w Q ->
            (forall b w', Q b w' -> alive w' /\ mu w' = mu w) ->
            returns_to (ignore p) w (fun _ w' => mu w' = MFree /\ (a <> ADestroy -> alive w'))).
  { intros B p Q Hr HQ. apply returns_to_bind. eapply returns_to_mono; [|exact Hr].
    intros b w' Hb. cbn. destruct (HQ b w' Hb) as [? ->]. done. }
  assert (Hst : forall w', steady w w' -> alive w' /\ mu w' = mu w) by (by intros w' (? & ? & _)).
  destruct a as [p h|[v|] o| |ms|ev fn| | | | | | | | |m bs]; cbn [api_prog] in *; try done;
    try (apply (Hign _ _ (fun _ w' => w' = w)); [by apply rlocked_returns|by intros _ ? ->]).
  - eapply Hign; [by apply connect_returns_or|]. done.
  - eapply Hign; [by apply write_returns|]. done.
  - eapply returns_to_mono; [|by apply destroy_returns_or]. done.
  - eapply Hign; [by apply setTimeout_returns|]. eauto.
  - eapply returns_to_mono; [|by apply on_returns]. intros _ w' [? [-> _]]. done.
  - apply (Hign _ _ (fun _ w' => w' = w)); [|by intros _ ? ->]. unfold bytesRead. rt_ops ts. done.
  - apply (Hign _ _ (fun _ w' => w' = w)); [|by intros _ ? ->]. unfold bytesWritten. rt_ops ts. done.
  - by apply (rt_pure w _ _ _ tt (write_array (AScript m) bs w)).
Qed.



End calls.

(** ** Witnesses *)
#[local] Existing Instance K6Ref.

Lemma api_calls_return_witness :
  alive open_world /\ mu open_world = MFree /\ once open_world <> OnceBusy /\
  ~ panicking ADestroy open_world /\
  returns_to (api_prog ADestroy) open_world
    (fun _ w' => mu w' = MFree /\ (ADestroy <> ADestroy -> alive w')) /\
  panics (api_prog (AConnect None None)) open_world.
Proof.
  assert (Hm : mu open_world = MFree) by (vm_compute; reflexivity).
  assert (Ho : once open_world <> OnceBusy) by (intros H; vm_compute in H; discriminate).
  assert (Hp : ~ panicking ADestroy open_world) by (intros [H _]; vm_compute in H; discriminate).
  split; [exact open_alive|]. split; [exact Hm|]. split; [exact Ho|]. split; [exact Hp|]. split.
  - exact (proj2 (api_calls_return no_tags ADestroy open_world open_alive Hm Ho) Hp).
  - exact (proj1 (api_calls_return no_tags (AConnect None None) open_world open_alive Hm Ho)
      (or_introl eq_refl)).
Defined.

