(* ===== verification/Anomalies.v ===== *)
(** * Runs that the documentation does not expect

    Concrete schedules, against the reference host, that end in states which
    the documentation of the socket excludes or does not mention. Each is
    evaluated and shown reachable. *)
From S2P Require Import Prelude GoStd K6 Metrics Lang Socket Events Exec Connect ReadWrite System Scenarios.

#[local] Existing Instance K6Ref.

(** The names of the events in the task queue. *)
Definition event_names (c : cfg) : list string := map call_event (queue (cw c)).

(** A connection that is still open. *)
Definition live (c : cfg) (cn : connid) : bool :=
  match conns (cw c) !! cn with Some nc => negb (nc_closed nc) | None => false end.

(** ** connect after destroy *)

(** The script destroys an open socket and connects it again. *)
Definition reconnect_cfg : cfg := play (call_connect ++ [Run 3 dialed]) finished_cfg.

(** ** destroy between dialing and the connect event *)

(** The connection is dialed; before its goroutine offers [connect], the
    script's [destroy] hands over [close], and the loop takes both. *)
Definition overtaken_cfg : cfg :=
  play (register all_events ++ call_connect ++ [Run 1 dialed] ++
        js ADestroy [RTags no_tags] ++
        [Step (SThread 0 (RSelect true)); Step SLoop;
         Run 1 [RSelect true]; Step SLoop]) fresh_cfg.

(** ** a read deadline that cannot be set *)

(** A script sets a timeout and connects; setting the deadline fails. *)
Definition deadline_cfg : cfg :=
  play (js (ASetTimeout 1000) [] ++ call_connect ++
        [Run 1 (dialed ++ [RError (Some (ErrNew "bad file descriptor")); RTags no_tags])]) fresh_cfg.

(** ** connecting twice *)

(** The script connects twice, then destroys the socket. *)
Definition twice_cfg : cfg :=
  play (register all_events ++ call_connect ++ connected 1 ++
        call_connect ++ [Run 3 dialed; Run 3 [RSelect true]; Step SLoop] ++
        destroyed) fresh_cfg.

(** The two readers of such a socket: the first receives [h], but before it
    copies its byte the second receives [i] into the same array. *)
Definition two_readers_cfg : cfg :=
  play (register all_events ++ call_connect ++ connected 1 ++
        call_connect ++ [Run 3 dialed; Run 3 [RSelect true]; Step SLoop] ++
        [Run 4 []; Run 2 [RRead [x68] None]; Run 4 [RRead [x69] None];
         Run 2 [RTags no_tags; RBuf 0; RSelect true]; Step SLoop;
         Run 4 [RTags no_tags; RBuf 1; RSelect true]; Step SLoop]) fresh_cfg.

(** ** setTimeout(0) while the reader arms its deadline *)

(** The reader has read a timeout of one second when the script disables it;
    the reader then sets its deadline, which passes and is never cleared: two
    reads in a row time out without waiting. *)
Definition expired : goerr := ErrNet "i/o timeout" true.
Definition stale_cmds : list cmd :=
  js (ASetTimeout 1000) [] ++ register all_events ++ call_connect ++
  [Run 1 (dialed ++ [RError None]); Run 1 [RSelect true]; Step SLoop] ++
  [Run 2 []] ++
  js (ASetTimeout 0) [RError None] ++
  [Run 2 [RError None]; Step (STick 2000000000%N)] ++
  [Run 2 [RRead [] (Some expired); RSelect true]; Step SLoop;
   Run 2 [RRead [] (Some expired); RSelect true]; Step SLoop].
Definition stale_cfg : cfg := play stale_cmds fresh_cfg.

(** ** data that shares its array *)

(** What the first connection was given. *)
Definition sent_first (c : cfg) : list byte :=
  match conns (cw c) !! 0 with Some nc => nc_sent nc | None => [] end.

(** A script that echoes: its data handler writes the bytes it was given, which
    are those of the pooled buffer 0. The handler returns, the buffer goes back to
    the pool, and the next read puts [yo] into it before the bytes [hi] are sent. *)
Definition given_bytes : Value := JSBytes (Window (APooled 0) 0 2).
Definition echoing_cfg : cfg :=
  play [Step (SCallback 1 [AWrite (Some given_bytes) None]); Run 0 [];
        Run 2 [RRead [x79; x6f] None; RTags no_tags; RBuf 0; RSelect true]; Step SLoop;
        Run 3 [RWrite 2 None; RTags no_tags]] data_cfg.

(** A script writes its ArrayBuffer and then assigns to it, before the goroutine
    of the write runs. *)
Definition refilled_cfg : cfg :=
  play (js (AStore 0 two_bytes) [] ++
        js (AWrite (Some (JSArrayBuffer (Window (AScript 0) 0 2))) None) [] ++
        js (AStore 0 [x79; x6f]) [] ++ [Run 3 [RWrite 2 None; RTags no_tags]]) open_cfg.

(** ** What these runs show *)

(** Splits a conjunction and evaluates the equations. *)
Ltac evaluate :=
  split_and!; lazymatch goal with |- _ = _ => vm_compute; reflexivity | |- _ => idtac end.

Lemma play_from_reachable l c : reachable c -> reachable (play l c).
Proof. intros Hr. eapply reachable_steps; [exact Hr|apply play_steps]. Qed.

(** Once the body of [destroyOnce] has returned, [destroy] does nothing. *)
Lemma destroy_spent (w : world) rs :
  once w = OnceDone -> exec destroy rs w = Done tt rs (loop_run w).
Proof.
  intros Ho. unfold destroy. cbn [bind do]. rewrite exec_op by done. cbn [interp].
  by rewrite Ho.
Qed.

(** [index.d.ts] calls [destroyed] terminal, but [connect] opens the socket
    again; since [destroyOnce] is used up, [destroy] then does nothing and the
    new connection stays open. *)
Theorem reconnect_never_closed :
  reachable reconnect_cfg /\ once (cw reconnect_cfg) = OnceDone /\
  state (sk (cw reconnect_cfg)) = socketStateOpen /\
  conn (sk (cw reconnect_cfg)) = Some 1 /\ live reconnect_cfg 1 = true /\
  forall rs, exec destroy rs (cw reconnect_cfg) = Done tt rs (loop_run (cw reconnect_cfg)).
Proof.
  assert (Ho : once (cw reconnect_cfg) = OnceDone) by (vm_compute; reflexivity).
  split; [apply play_from_reachable, finished_reachable|]. split; [exact Ho|].
  evaluate.
  intros rs. by apply destroy_spent.
Qed.

(** docs/architecture.md has [connect] queued before any other event of the
    connection; a [destroy] in between puts [close] first. *)
Theorem close_overtakes_connect :
  reachable overtaken_cfg /\ event_names overtaken_cfg = ["close"; "connect"].
Proof. split; [apply play_reachable|]. vm_compute. reflexivity. Qed.

(** When the read deadline of a new connection cannot be set, the promise is
    rejected and the state is [disconnected], but the connection stays open
    and stays the socket's connection. *)
Theorem failed_deadline_keeps_connection :
  reachable deadline_cfg /\ state (sk (cw deadline_cfg)) = socketStateDisconnected /\
  conn (sk (cw deadline_cfg)) = Some 0 /\ live deadline_cfg 0 = true /\
  exists e, settled (cw deadline_cfg) = [(0, RejectedTCP e)] /\
    Message e = "bad file descriptor"%string.
Proof.
  split; [apply play_reachable|]. evaluate.
  eexists. evaluate.
Qed.

(** A second [connect] replaces the connection without closing it: [destroy]
    closes the second one only. *)
Theorem second_connect_leaks_first :
  reachable twice_cfg /\ conn (sk (cw twice_cfg)) = None /\
  live twice_cfg 0 = true /\ live twice_cfg 1 = false.
Proof. split; [apply play_reachable|]. evaluate. Qed.

(** The two readers share [readBuf]: the bytes [h] that the first one received
    never reach the script. *)
Theorem two_readers_lose_data :
  reachable two_readers_cfg /\
  event_names two_readers_cfg = ["connect"; "connect"; "data"; "data"] /\
  bufs (cw two_readers_cfg) !! 0 = Some [x69] /\
  bufs (cw two_readers_cfg) !! 1 = Some [x69].
Proof. split; [apply play_reachable|]. evaluate. Qed.

(** The bytes of a data event are not the handler's to keep: the echo of [hi]
    sends [yo], and the promise of the write resolves. *)
Theorem echoed_data_overwritten :
  reachable echoing_cfg /\ arrived (cw echoing_cfg) = [two_bytes; [x79; x6f]] /\
  map inv_args (invoked (cw echoing_cfg)) = [[VBytes two_bytes]] /\
  sent_first echoing_cfg = [x79; x6f] /\ map snd (settled (cw echoing_cfg)) = [Resolved; Resolved].
Proof. split; [apply play_from_reachable, data_reachable|]. evaluate. Qed.

(** Nor may the script touch an ArrayBuffer before the promise of its write is
    settled: what it assigns in the meantime is sent. *)
Theorem changed_buffer_sent :
  reachable refilled_cfg /\ sent_first refilled_cfg = [x79; x6f] /\
  map snd (settled (cw refilled_cfg)) = [Resolved; Resolved].
Proof. split; [apply play_from_reachable, open_reachable|]. evaluate. Qed.

(** After [setTimeout(0)] the reader may still hold the old timeout: its
    deadline passes, and the reader reports [timeout] again and again. *)
Theorem disabled_timeout_still_fires :
  reachable stale_cfg /\ timeout (sk (cw stale_cfg)) = 0%Z /\
  event_names stale_cfg = ["connect"; "timeout"; "timeout"].
Proof. split; [apply play_reachable|]. evaluate. Qed.

(** On a destroyed socket a failing [write] blocks the VU's JS thread: no
    thread can go on until the VU ends. *)
Theorem error_after_destroy_hangs :
  reachable hung_cfg /\ js_idle hung_cfg = false /\ vu_done (cw hung_cfg) = false /\
  forall i r, cfg_step (SThread i r) hung_cfg = None.
Proof.
  split; [apply hung_reachable|]. evaluate.
  apply hung_stuck.
Qed.
