(* ===== verification/Contract.v ===== *)
(** * What a socket emits

    The contract of a socket with the script and with k6, as a predicate on
    every operation its goroutines perform: the handlers it stores, the shape of
    the events it queues, the samples it pushes and the values it settles
    promises with. It holds in every reachable configuration. *)
From S2P Require Import Prelude GoStd K6 Metrics Lang Socket Events Connect ReadWrite System Scenarios.

(** ** The contract *)

(** The error object that reaches the script: name and method. *)
Definition error_ok (methods : list string) (e : TCPError) : bool :=
  bool_decide (Name e = "TCPError") && bool_decide (Method e ∈ methods).

(** The arguments and the buffer that go with each event. *)
Definition call_ok (c : call) : bool :=
  match call_args c, call_cleanup c with
  | [], None => bool_decide (call_event c ∈ ["connect"; "close"; "timeout"])
  | [ArgBytes b], Some b' => bool_decide (call_event c = "data") && bool_decide (b = b')
  | [ArgErr e], None => bool_decide (call_event c = "error") &&
                        error_ok ["connect"; "write"; "read"] e
  | _, _ => false
  end.

Definition is_trend (m : metric) : bool :=
  bool_decide (m ∈ [tcpResolving; tcpConnecting; tcpDuration]).

(** Durations have any value, counters count one; no code counts timeouts. *)
Definition sample_ok (m : metric) (v : Z) : bool :=
  is_trend m || bool_decide (m <> tcpTimeouts) && (v =? 1)%Z.

Definition settle_ok (v : settlement) : bool :=
  match v with
  | RejectedTCP e => error_ok ["connect"; "write"] e
  | _ => true
  end.

Definition handler_ok (event : string) (h : anyval) : bool :=
  bool_decide (event ∈ events) && match h with AnyCallable _ => true | AnyOther => false end.

Section contract.
Context `{K : K6}.

Definition op_ok {X} (o : op X) : bool :=
  match o with
  | SetS (StoreHandler ev h) => handler_ok ev h
  | Send c => call_ok c
  | Push m _ v => sample_ok m v
  | Settle _ v => settle_ok v
  | _ => true
  end.

Record contract (w : world) : Prop := {
  ct_handlers : map_Forall (fun ev h => handler_ok ev h) (handlers (sk w));
  ct_calls : Forall (fun c => call_ok c) (accepted w);
  ct_samples : Forall (fun s => sample_ok (s_metric s) (s_value s)) (samples w);
  ct_settled : Forall (fun pv => settle_ok pv.2) (settled w)
}.

#[export] Instance contract_protocol : Protocol unit := {
  delta X _ o _ := if op_ok o then Some tt else None;
  q_js := tt;
  q_callback _ := tt;
  q_call _ := True;
  q_go _ := tt;
  q_fin _ := True;
  Inv _ _ := contract
}.

Abbreviation keeps_contract p :=
  (keeps (fun X (_ : unit) (o : op X) (_ : X) => if op_ok o then Some tt else None) tt p).

(** ** The programs honour the contract *)
Lemma contract_destroy : keeps_contract destroy.
Proof. cfm_run. Qed.

Lemma contract_connect_goroutine p : keeps_contract (connect_goroutine p).
Proof. apply keeps_bind; [unfold connectExecute|intros [e|]]; cfm_run. Qed.

Lemma contract_read_round : keeps_contract read_round.
Proof.
  apply keeps_read_round; [cfm_run | cfm_run |]. intros c t. unfold readLoopStep. cfm_run.
  all: match goal with H : _ && _ = false |- _ => by rewrite !bool_decide_true in H end.
Qed.

Lemma contract_write_goroutine p data opts : keeps_contract (write_goroutine p data opts).
Proof.
  apply keeps_bind; [apply keeps_writeExecute|intros [e|]]; try (intros ? ? [-> | ->]); cfm_run.
Qed.

Lemma contract_on ev h : keeps_contract (on ev h).
Proof.
  unfold on. case_bool_decide as H; [|done]. intros []. unfold op_ok, handler_ok.
  by rewrite bool_decide_true.
Qed.

Lemma contract_api a : keeps_contract (api_prog a).
Proof.
  apply keeps_api; [intros; apply keeps_connect; cfm_run|intros; apply keeps_write; cfm_run|apply contract_destroy|cfm_run|apply contract_on|cfm_run|done|cfm_run].
Qed.

Lemma contract_callback c l : keeps_contract (callback c (run_script l)).
Proof. apply keeps_callback; try apply contract_api; cfm_run. Qed.

(** ** The operations preserve it *)
Lemma contract_op w X (o : op X) r x w' :
  contract w -> interp o r w = Some (x, w') -> op_ok o = true -> contract w'.
Proof.
  intros [Hh Hc Hs Hp] Hint Ho%Is_true_true. pose proof (interp_accepted _ _ _ _ _ Hint) as Ha.
  split.
  - destruct o; cbn in Hint; repeat case_match; simplify_eq/=; try done.
    destruct u; try done. cbn. by apply map_Forall_insert_2.
  - rewrite Ha. apply Forall_app_2; [done|].
    destruct o; cbn in *; try done. destruct x; by repeat constructor.
  - destruct o; cbn in Hint; repeat case_match; simplify_eq/=; try done.
    apply Forall_app_2; by repeat constructor.
  - destruct o; cbn in Hint; repeat case_match; simplify_eq/=; try done.
    apply Forall_app_2; by repeat constructor.
Qed.

#[export] Instance contract_laws : ProtocolLaws (P := contract_protocol).
Proof.
  split.
  - intros a. apply contract_api.
  - intros c l _. apply contract_callback.
  - intros p. eapply conforms_mono; [|apply contract_connect_goroutine]. done.
  - intros p data opts. eapply conforms_mono; [|apply contract_write_goroutine]. done.
  - apply rounds_same. eapply conforms_mono; [|apply contract_read_round]. intros [] [] _; [done|].
    eapply conforms_mono; [|apply contract_destroy]. done.
  - intros ran qs w i q q' X o r x w' HI _ _ Hint Hd. cbn in Hd.
    destruct (op_ok o) eqn:Ho; [|done]. by eapply contract_op.
  - intros ran qs w w' [Hh Hc Hs Hp] Hl. pose proof (loop_accepted _ _ Hl) as Ha.
    unfold loop_step in Hl. split; rewrite ?Ha; repeat case_match; by simplify_eq.
  - done.
  - done.
  - intros ran qs w d [Hh Hc Hs Hp]. by split.
  - intros ran qs w [Hh Hc Hs Hp]. by split.
Qed.

Lemma contract_init w : initial w -> contract w.
Proof.
  intros Hw. apply initial_world in Hw as (s & now & -> & _ & _ & Hh). split; cbn; try done.
  rewrite Hh. apply map_Forall_empty.
Qed.

Lemma reachable_contract c : reachable c -> contract (cw c).
Proof.
  intros Hr. by destruct (reachable_Inv (P := contract_protocol) c contract_init Hr).
Qed.

(** ** Properties *)

(** Only the five documented events ever have a handler, and every stored
    value is a callable, so the type assertion in [fireAndCleanup] never fails. *)
Theorem handlers_well_formed (c : cfg) ev h :
  reachable c -> handlers (sk (cw c)) !! ev = Some h ->
  ev ∈ events /\ exists fn, h = AnyCallable fn.
Proof.
  intros Hr Hh. destruct (reachable_contract c Hr) as [H _ _ _].
  specialize (H ev h Hh). cbn in H. unfold handler_ok in H.
  apply andb_prop_elim in H as [He Hf]. apply bool_decide_unpack in He.
  split; [done|]. destruct h; [by eexists | done].
Qed.

(** C22: every event handed to the task queue has the documented shape: no
    argument for connect, close and timeout; the bytes of exactly the buffer its
    cleanup returns for data; one TCPError named after the failing method for
    error. *)
Theorem events_well_formed (c : cfg) cl :
  reachable c -> cl ∈ accepted (cw c) ->
  (call_event cl ∈ ["connect"; "close"; "timeout"] /\ call_args cl = [] /\ call_cleanup cl = None) \/
  (exists b, call_event cl = "data" /\ call_args cl = [ArgBytes b] /\ call_cleanup cl = Some b) \/
  (exists e, call_event cl = "error" /\ call_args cl = [ArgErr e] /\ call_cleanup cl = None /\
     Name e = "TCPError" /\ Method e ∈ ["connect"; "write"; "read"]).
Proof.
  intros Hr Hc. destruct (reachable_contract c Hr) as [_ H _ _].
  rewrite Forall_forall in H. specialize (H cl Hc). unfold call_ok, error_ok in H.
  destruct (call_args cl) as [|[e|b] [|]], (call_cleanup cl) as [b'|]; try done;
    rewrite ?Is_true_true, ?andb_true_iff, ?bool_decide_eq_true in H.
  - by left.
  - destruct H as (? & ? & ?). right. right. by exists e.
  - destruct H as (? & <-). right. left. by exists b.
Qed.

(** No sample is ever pushed for [tcp_timeouts], although the metric is
    registered, and every sample of a counter has value 1. *)
Theorem timeouts_never_counted (c : cfg) s :
  reachable c -> s ∈ samples (cw c) ->
  s_metric s <> tcpTimeouts /\ (is_trend (s_metric s) = false -> s_value s = 1%Z).
Proof.
  intros Hr Hs. destruct (reachable_contract c Hr) as [_ _ H _].
  rewrite Forall_forall in H. specialize (H s Hs). unfold sample_ok in H. split.
  - intros Ht. by rewrite Ht in H.
  - intros Ht. rewrite Ht in H. cbn in H. apply andb_prop_elim in H as [_ H].
    by apply Is_true_true, Z.eqb_eq in H.
Qed.
End contract.

(** ** Witnesses *)
#[local] Existing Instance K6Ref.

Lemma handlers_well_formed_witness :
  handlers (sk (cw open_cfg)) !! "data" = Some (AnyCallable 1) /\
  ("data" ∈ events /\ exists fn, AnyCallable 1 = AnyCallable fn).
Proof.
  assert (H : handlers (sk (cw open_cfg)) !! "data" = Some (AnyCallable 1)) by (vm_compute; reflexivity).
  split; [exact H|]. exact (handlers_well_formed open_cfg _ _ open_reachable H).
Defined.

Lemma events_well_formed_witness :
  let cl := {| call_event := "data"; call_fn := 1; call_args := [ArgBytes 0];
               call_cleanup := Some 0 |} in
  cl ∈ accepted (cw data_cfg) /\
  ((call_event cl ∈ ["connect"; "close"; "timeout"] /\ call_args cl = [] /\ call_cleanup cl = None) \/
   (exists b, call_event cl = "data" /\ call_args cl = [ArgBytes b] /\ call_cleanup cl = Some b) \/
   (exists e, call_event cl = "error" /\ call_args cl = [ArgErr e] /\ call_cleanup cl = None /\
      Name e = "TCPError" /\ Method e ∈ ["connect"; "write"; "read"])).
Proof.
  intros cl. assert (H : cl ∈ accepted (cw data_cfg))
    by (apply list_elem_of_lookup; exists 1; vm_compute; reflexivity).
  split; [exact H|]. exact (events_well_formed data_cfg cl data_reachable H).
Defined.

Lemma timeouts_never_counted_witness :
  exists s, s ∈ samples (cw data_cfg) /\ s_metric s = tcpReads /\
  s_metric s <> tcpTimeouts /\ (is_trend (s_metric s) = false -> s_value s = 1%Z).
Proof.
  assert (H : exists s, samples (cw data_cfg) !! 3 = Some s /\ s_metric s = tcpReads)
    by (eexists; split; vm_compute; reflexivity).
  destruct H as (s & Hs & Hm). apply list_elem_of_lookup_2 in Hs. exists s.
  split; [exact Hs|]. split; [exact Hm|].
  exact (timeouts_never_counted data_cfg s data_reachable Hs).
Defined.
