(* ===== verification/Ordering.v ===== *)
(** * The connect event comes before what the reader reports

    [connectExecute] hands [connect] to the loop before it starts the reader.
    The phases of this protocol say what a thread may send: nothing of the
    reader's (script, writers), [connect] and then the reader itself (the
    connecting goroutine), or the reader's events. *)
From S2P Require Import Prelude GoStd K6 Metrics Lang Socket Events Connect ReadWrite System Scenarios.

(** The events of the read loop: data, timeout and errors of [read]. *)
Definition reader_event (c : call) : bool :=
  bool_decide (call_event c = "data") || bool_decide (call_event c = "timeout") ||
  match call_args c with ArgErr e :: _ => bool_decide (Method e = "read") | _ => false end.

Definition is_connect (c : call) : bool := bool_decide (call_event c = "connect").

Inductive order_phase :=
| POther                       (** the script and the writers *)
| PConnect (announced : bool)  (** a connecting goroutine; has it offered [connect]? *)
| PReader
| PNoHandler.                  (** a connecting goroutine that saw no handler *)

(** Phases after which [connect] must have been accepted. *)
Definition past_connect (q : order_phase) : bool :=
  match q with PConnect true | PReader => true | _ => false end.

Definition has_handler (s : socket) : bool :=
  match handlers s !! "connect" with Some (AnyCallable _) => true | _ => false end.

(** Each of the reader's events has a [connect] before it. *)
Definition announced_first (l : list call) : Prop :=
  forall j cl, l !! j = Some cl -> reader_event cl = true ->
  exists i cl', i < j /\ l !! i = Some cl' /\ is_connect cl' = true.

Lemma announced_first_snoc l c :
  announced_first l -> (reader_event c = true -> exists i cl', l !! i = Some cl' /\ is_connect cl' = true) ->
  announced_first (l ++ [c]).
Proof.
  intros Hl Hc j cl Hj Hr. apply lookup_app_Some in Hj as [Hj|[Hge Hj]].
  - destruct (Hl j cl Hj Hr) as (i & cl' & Hi & Hli & Hcl').
    exists i, cl'. split; [done|]. split; [by apply lookup_app_l_Some|done].
  - destruct (j - length l) eqn:Hjl; cbn in Hj; simplify_eq.
    destruct (Hc Hr) as (i & cl' & Hli & Hcl'). exists i, cl'.
    pose proof (lookup_lt_Some _ _ _ Hli). split; [lia|].
    split; [by apply lookup_app_l_Some|done].
Qed.

Section ordering.
Context `{K : K6}.

Definition order_delta (X : Type) (q : order_phase) (o : op X) : X -> option order_phase :=
  match q with
  | PNoHandler => fun _ => Some PNoHandler
  | _ =>
  match o in op X return X -> option order_phase with
  | GetS => fun s =>
      match q with
      | PConnect false => Some (if has_handler s then q else PNoHandler)
      | _ => Some q
      end
  | SetS (StoreHandler _ AnyOther) => fun _ => None
  | Send c => fun _ =>
      match q with
      | PConnect false => if reader_event c then None
                          else Some (if is_connect c then PConnect true else q)
      | PReader => Some q
      | _ => if reader_event c then None else Some q
      end
  | Go GRead => fun _ => match q with PConnect true => Some q | _ => None end
  | _ => fun _ => Some q
  end
  end.

Definition order_inv (qs : list order_phase) (w : world) : Prop :=
  vu_done w = true \/
  has_handler (sk w) = true /\
  (forall (i : nat) q, qs !! i = Some q -> q <> PNoHandler /\
     (past_connect q = true -> exists j cl, accepted w !! j = Some cl /\ is_connect cl = true)) /\
  announced_first (accepted w).

#[export] Instance order_protocol : Protocol order_phase := {
  delta := order_delta;
  q_js := POther;
  q_callback _ := POther;
  q_call _ := True;
  q_go g := match g with
            | GConnect _ => PConnect false | GWrite _ _ _ => POther | GRead => PReader end;
  q_fin _ := True;
  Inv _ := order_inv
}.

Abbreviation keeps_order := (keeps (fun X => order_delta X)).
Abbreviation cfm_order := (conforms (fun X => order_delta X)).

(** ** The programs conform *)

Definition connecting (q : order_phase) : Prop :=
  match q with PConnect _ | PNoHandler => True | _ => False end.

Definition announced (q : order_phase) : Prop := q = PConnect true \/ q = PNoHandler.

Ltac order_leaf :=
  intros [|[]| |] H x; cbn in *; try done; repeat case_match; simplify_eq; done.

Lemma order_destroy q : q = POther \/ q = PReader -> keeps_order q destroy.
Proof. intros [-> | ->]; cfm_run. Qed.

Lemma order_fire_connect q :
  connecting q -> cfm_order q (fire "connect" []) (fun _ => announced).
Proof.
  unfold fire, fireAndCleanup, announced. destruct q as [|[]| |]; intros H; try done; cbn;
    intros s; unfold has_handler;
    repeat (cbn; intros; repeat case_match; simplify_eq; try done); auto.
Qed.

Lemma order_connectExecute :
  stays (fun X => order_delta X) connecting connectExecute.
Proof.
  unfold connectExecute.
  apply stays_bind; [order_leaf|intros _].
  apply stays_bind; [stays_run order_leaf|intros co].
  apply stays_bind; [stays_run order_leaf|intros ts].
  apply stays_bind; [order_leaf|intros _].
  apply stays_bind; [stays_run order_leaf|intros [e|]].
  { stays_run order_leaf. }
  apply stays_bind; [stays_run order_leaf|intros [e|]].
  { stays_run order_leaf. }
  apply stays_bind; [order_leaf|intros _]. intros q Hq.
  apply conforms_bind. eapply conforms_mono; [|by apply order_fire_connect].
  intros fired q' Hq'. destruct Hq' as [-> | ->]; cfm_run.
Qed.

Lemma order_connect_goroutine p :
  stays (fun X => order_delta X) connecting (connect_goroutine p).
Proof.
  apply stays_bind; [apply order_connectExecute|intros [e|]]; stays_run order_leaf.
Qed.

Lemma order_read_round : keeps_order PReader read_round.
Proof.
  apply keeps_read_round; [cfm_run | cfm_run |]. intros c t. unfold readLoopStep. cfm_run.
Qed.

Lemma order_write_goroutine p data opts : keeps_order POther (write_goroutine p data opts).
Proof. apply keeps_bind; [apply keeps_writeExecute|intros [e|]]; cfm_run. Qed.

Lemma order_api a : keeps_order POther (api_prog a).
Proof.
  apply keeps_api; [intros; apply keeps_connect; cfm_run|intros; apply keeps_write; cfm_run|apply order_destroy; auto|cfm_run|intros; unfold on; cfm_run|cfm_run|done|cfm_run].
Qed.

Lemma order_callback c l : keeps_order POther (callback c (run_script l)).
Proof. apply keeps_callback; try apply order_api; cfm_run. Qed.

(** ** The operations preserve the invariant *)
Lemma order_delta_handler (q q' : order_phase) X (o : op X) r w x w' :
  interp o r w = Some (x, w') -> order_delta X q o x = Some q' -> q <> PNoHandler ->
  has_handler (sk w) = true -> has_handler (sk w') = true.
Proof.
  intros Hint Hd Hq Hh. unfold has_handler in *.
  destruct o; cbn in Hint; try (repeat case_match; simplify_eq/=; done).
  destruct u; simplify_eq/=; try done. destruct h as [fn|].
  - destruct (decide (event = "connect")) as [-> | Hne].
    + by rewrite lookup_insert_eq.
    + by rewrite lookup_insert_ne.
  - by destruct q.
Qed.

(** How the phase changes: a connecting goroutine sees no handler, or has
    offered its event. *)
Lemma order_delta_cases (q q' : order_phase) X (o : op X) r w x w' :
  interp o r w = Some (x, w') -> order_delta X q o x = Some q' -> q <> PNoHandler ->
  q' = q \/ (q' = PNoHandler /\ has_handler (sk w) = false) \/
  (q' = PConnect true /\
   (vu_done w' = true \/ exists c, op_sends o x = [c] /\ is_connect c = true)).
Proof.
  intros Hint Hd Hq. destruct q as [|[]| |]; try done;
    destruct o; cbn in Hd; try (repeat case_match; simplify_eq; by left).
  - cbn in Hint. simplify_eq. destruct (has_handler _) eqn:Hh; simplify_eq; auto.
  - destruct (reader_event c); [done|]. destruct (is_connect c) eqn:Hc; simplify_eq; [|by left].
    right. right. split; [done|]. cbn in Hint |- *. repeat case_match; simplify_eq/=; eauto.
Qed.

(** A call accepted before is accepted after. *)
Lemma accepted_mono {X} (o : op X) r w x w' :
  interp o r w = Some (x, w') ->
  (exists (j : nat) cl, accepted w !! j = Some cl /\ is_connect cl = true) ->
  exists (j : nat) cl, accepted w' !! j = Some cl /\ is_connect cl = true.
Proof.
  intros Hint (j & cl & Hj & Hcl). exists j, cl. split; [|done].
  rewrite (interp_accepted _ _ _ _ _ Hint). by apply lookup_app_l_Some.
Qed.

Lemma order_inv_op (qs : list order_phase) w (i : nat) q q' X (o : op X) r x w' :
  order_inv qs w -> qs !! i = Some q -> interp o r w = Some (x, w') ->
  order_delta X q o x = Some q' ->
  order_inv (<[i := q']> qs ++ map (@q_go _ _ order_protocol) (op_spawns o)) w'.
Proof.
  intros [Hvu|(Hh & Hq & Ha)] Hi Hint Hd.
  { left. destruct o; cbn in Hint; repeat case_match; by simplify_eq/=. }
  destruct (vu_done w') eqn:Hvu; [by left|]. right.
  pose proof (Hq i q Hi) as [Hne Hpast]. pose proof (interp_accepted _ _ _ _ _ Hint) as Hacc.
  split_and!.
  - by eapply order_delta_handler.
  - intros j qj. rewrite lookup_app_Some. intros [Hj|[_ Hj]].
    + apply list_lookup_insert_Some in Hj as [(-> & <- & _)|[_ Hj]].
      * destruct (order_delta_cases _ _ _ _ _ _ _ _ Hint Hd Hne) as [->|[(-> & Hno)|(-> & [Hv|Hc])]].
        -- split; [done|]. eauto using accepted_mono.
        -- congruence.
        -- congruence.
        -- split; [done|]. intros _. destruct Hc as (c & Hsend & Hc). rewrite Hacc, Hsend.
           exists (length (accepted w)), c. by rewrite lookup_app_r, Nat.sub_diag by done.
      * destruct (Hq j qj Hj) as [? Hp]. split; [done|]. eauto using accepted_mono.
    + destruct o; try done. cbn in Hj. destruct (_ - _)%nat; [|done]. cbn in Hj. simplify_eq.
      destruct g; split; try done. intros _.
      destruct q as [|[]| |]; cbn in Hd; simplify_eq. eapply accepted_mono; [done|]. by apply Hpast.
  - rewrite Hacc. destruct o; cbn; try (by rewrite app_nil_r).
    destruct x; [|by rewrite app_nil_r].
    apply announced_first_snoc; [done|]. intros Hr.
    destruct q as [|[]| |]; cbn in Hd; rewrite ?Hr in Hd; simplify_eq; by apply Hpast.
Qed.

#[export] Instance order_laws : ProtocolLaws (P := order_protocol).
Proof.
  split; try done.
  - apply order_api.
  - intros. apply order_callback.
  - intros p. eapply conforms_mono; [|by apply order_connect_goroutine]. done.
  - intros. eapply conforms_mono; [|apply order_write_goroutine]. done.
  - apply rounds_same. eapply conforms_mono; [|apply order_read_round]. intros [] q ->; [done|].
    eapply conforms_mono; [|apply order_destroy; auto]. done.
  - intros ran qs w i q q' X o r x w' HI Hi _ Hint Hd. by eapply order_inv_op.
  - intros ran qs w w' [H|H] Hl.
    + left. unfold loop_step in Hl. repeat case_match; by simplify_eq.
    + right. rewrite (loop_accepted _ _ Hl).
      assert (Hs : sk w' = sk w) by (unfold loop_step in Hl; repeat case_match; by simplify_eq).
      by rewrite Hs.
  - intros ran qs w _. by left.
Qed.

(** ** Property *)

(** A socket on which nothing but handlers and options was set. *)
Definition unconnected (c : cfg) : Prop :=
  threads c = [idle] /\ spawned (cw c) = [] /\ accepted (cw c) = [].

(** C17: once a [connect] handler is registered, the script hears [connect]
    before anything the reader reports: in every interleaving from a socket that
    has not connected yet, as long as the VU runs, each data, timeout or read
    error event in the task queue has a [connect] before it. *)
Theorem connect_before_reader_events (c0 c : cfg) fn :
  unconnected c0 -> handlers (sk (cw c0)) !! "connect" = Some (AnyCallable fn) ->
  steps c0 c -> vu_done (cw c) = false ->
  forall j cl, accepted (cw c) !! j = Some cl -> reader_event cl = true ->
  exists i cl', i < j /\ accepted (cw c) !! i = Some cl' /\ call_event cl' = "connect".
Proof.
  intros (Ht & Hsp & Ha) Hh Hs Hvu j cl Hj Hr.
  assert (HI : order_inv [POther] (cw c0)).
  { right. rewrite Ha. unfold has_handler. rewrite Hh. split_and!; [done| |by intros ? ? ?].
    intros [|i] q Hi; cbn in Hi; by simplify_eq. }
  destruct (steps_Inv (P := order_protocol) c0 c Ht Hsp HI Hs) as (qs & [Hv|(_ & _ & Hf)]);
    [congruence|].
  destruct (Hf j cl Hj Hr) as (i & cl' & Hij & Hi & Hcl'). exists i, cl'.
  split_and!; [done|done|]. by apply bool_decide_eq_true in Hcl'.
Qed.
End ordering.

(** ** Witness *)
#[local] Existing Instance K6Ref.

(** The handlers are registered, the socket connects and receives. *)
Lemma connect_before_reader_events_witness :
  let c0 := play (register all_events) fresh_cfg in
  let cl := {| call_event := "data"; call_fn := 1; call_args := [ArgBytes 0];
               call_cleanup := Some 0 |} in
  steps c0 data_cfg /\ accepted (cw data_cfg) !! 1 = Some cl /\
  exists i cl', i < 1 /\ accepted (cw data_cfg) !! i = Some cl' /\ call_event cl' = "connect".
Proof.
  intros c0 cl.
  assert (Hs : steps c0 data_cfg)
    by (unfold data_cfg, open_cfg, open_cmds, c0; rewrite <-!play_app, <-app_assoc, play_app;
        apply play_steps).
  split; [exact Hs|]. assert (Hj : accepted (cw data_cfg) !! 1 = Some cl) by (vm_compute; reflexivity).
  split; [exact Hj|].
  assert (Hu : unconnected c0) by (split; [|split]; vm_compute; reflexivity).
  apply (connect_before_reader_events c0 data_cfg 0 Hu) with (j := 1) (cl := cl);
    [vm_compute; reflexivity | exact Hs | vm_compute; reflexivity | exact Hj | vm_compute; reflexivity].
Defined.
