(* ===== verification/Promises.v ===== *)
(** * Promises are settled exactly once

    [connect] and [write] create a promise and either settle it themselves or
    pass it to the goroutine they start, which settles it when it returns. In
    this protocol the phase of a thread is the unsettled promise it owns. *)
From S2P Require Import Prelude GoStd K6 Metrics Lang Socket Events Connect ReadWrite System Scenarios.

Section promises.
Context `{K : K6}.

Definition promise_delta (X : Type) (q : option promise) (o : op X) : X -> option (option promise) :=
  match o in op X return X -> option (option promise) with
  | NewPromise => fun p => match q with None => Some (Some p) | Some _ => None end
  | Settle p _ | Go (GConnect p | GWrite p _ _) => fun _ =>
      if bool_decide (q = Some p) then Some None else None
  | _ => fun _ => Some q
  end.

Definition promise_inv (qs : list (option promise)) (w : world) : Prop :=
  map fst (settled w) ++ owned qs ≡ₚ seq 0 (next_promise w).

#[export] Instance promise_protocol : Protocol (option promise) := {
  delta := promise_delta;
  q_js := None;
  q_callback _ := None;
  q_call _ := True;
  q_go g := match g with GConnect p | GWrite p _ _ => Some p | GRead => None end;
  q_fin q := q = None;
  Inv _ := promise_inv
}.

Abbreviation keeps_promise := (keeps (fun X => promise_delta X)).
Abbreviation cfm_promise := (conforms (fun X => promise_delta X)).

(** ** The programs conform *)
Lemma promise_destroy : keeps_promise None destroy.
Proof. cfm_run. Qed.

(** A rejection settles the promise the thread owns. *)
Lemma promise_reject p e m ts :
  cfm_promise (Some p) (rejectWithTCPError p e m ts) (fun _ q => q = None).
Proof.
  apply conforms_same_bind; [unfold handleError; cfm_run|]. intros r.
  cbn. by rewrite bool_decide_true.
Qed.

Lemma promise_settle p v : cfm_promise (Some p) (do (Settle p v)) (fun _ q => q = None).
Proof. cbn. by rewrite bool_decide_true. Qed.

Lemma promise_connect_goroutine p :
  cfm_promise (Some p) (connect_goroutine p) (fun _ q => q = None).
Proof.
  apply conforms_same_bind; [unfold connectExecute; cfm_run|]. intros [e|].
  - apply conforms_same_bind; [cfm_run|]. intros ts. apply promise_reject.
  - apply promise_settle.
Qed.

Lemma promise_write_goroutine p data opts :
  cfm_promise (Some p) (write_goroutine p data opts) (fun _ q => q = None).
Proof.
  apply conforms_same_bind; [apply keeps_writeExecute; cfm_run|].
  intros [e|]; apply promise_settle.
Qed.

Lemma promise_read_round : keeps_promise None read_round.
Proof.
  apply keeps_read_round; [cfm_run | cfm_run |]. intros c t. unfold readLoopStep. cfm_run.
Qed.

Lemma promise_connect v h : keeps_promise None (connect v h).
Proof.
  intros p. change (cfm_promise (Some p) (let! err := connectPrepare v h in
    match err with
    | Some e => let! ts := tags in do! rejectWithTCPError p e "connect" ts in Ret p
    | None => do! do (Go (GConnect p)) in Ret p
    end) (fun _ q => q = None)).
  apply conforms_same_bind.
  - unfold connectPrepare. destruct (prepare_options v h) as [[o|e]|]; [done|done|]. by intros [].
  - intros [e|].
    + apply conforms_same_bind; [cfm_run|]. intros ts. apply conforms_bind.
      eapply conforms_mono; [|apply promise_reject]. by intros _ q ->.
    + cbn. by rewrite bool_decide_true.
Qed.

Lemma promise_write v o : keeps_promise None (write v o).
Proof.
  intros p. destruct v as [v|]; [|by intros []]. cbn [promise_delta].
  change (cfm_promise (Some p) (match writePrepare v o with
    | (Err e, opts) => let! cur := currentTags in
        do! rejectWithTCPError p e "write" (addToTagSet cur (wo_Tags opts)) in Ret p
    | (Ok data, opts) => do! do (Go (GWrite p data opts)) in Ret p
    end) (fun _ q => q = None)).
  destruct (writePrepare v o) as [[data|e] opts].
  - cbn. by rewrite bool_decide_true.
  - apply conforms_same_bind; [done|]. intros ts. apply conforms_bind.
    eapply conforms_mono; [|apply promise_reject]. by intros _ q ->.
Qed.

Lemma promise_api a : keeps_promise None (api_prog a).
Proof.
  apply keeps_api; [intros; apply promise_connect|intros; apply promise_write|apply promise_destroy|cfm_run|intros; unfold on; cfm_run|cfm_run|done|cfm_run].
Qed.

Lemma promise_callback c l : keeps_promise None (callback c (run_script l)).
Proof. apply keeps_callback; try apply promise_api; cfm_run. Qed.

(** ** The operations preserve the invariant *)
Lemma promise_inv_op qs w (i : nat) q q' X (o : op X) r x w' :
  promise_inv qs w -> qs !! i = Some q -> interp o r w = Some (x, w') ->
  promise_delta X q o x = Some q' ->
  promise_inv (<[i := q']> qs ++ map (@q_go _ _ promise_protocol) (op_spawns o)) w'.
Proof.
  unfold promise_inv. intros HI Hi Hint Hd. rewrite owned_app.
  pose proof (owned_insert qs i q q' Hi) as Ho.
  assert (Hsame : settled w' = settled w -> next_promise w' = next_promise w -> q' = q ->
    op_spawns o = [] -> map fst (settled w') ++ owned (<[i:=q']> qs) ++
      owned (map (@q_go _ _ promise_protocol) (op_spawns o)) ≡ₚ seq 0 (next_promise w')).
  { intros -> -> -> ->. rewrite list_insert_id, app_nil_r by done. exact HI. }
  destruct o; cbn in Hint, Hd; try (repeat case_match; simplify_eq; by apply Hsame).
  - destruct q; simplify_eq. cbn -[seq] in Ho |- *. rewrite ?app_nil_r in *. rewrite seq_S.
    rewrite Ho, (assoc (++)), HI. done.
  - case_bool_decide; simplify_eq. cbn in Ho |- *. rewrite !app_nil_r in *.
    rewrite map_app, <-HI, <-Ho. cbn. solve_Permutation.
  - destruct g; [case_bool_decide; simplify_eq ..|];
      simplify_eq; cbn in Ho |- *; rewrite ?app_nil_r in *.
    + by rewrite <-HI, <-Ho.
    + by rewrite <-HI, <-Ho.
    + by rewrite list_insert_id.
Qed.

#[export] Instance promise_laws : ProtocolLaws (P := promise_protocol).
Proof.
  split; try done.
  - apply promise_api.
  - intros. apply promise_callback.
  - intros. apply promise_connect_goroutine.
  - intros. apply promise_write_goroutine.
  - apply rounds_same. eapply conforms_mono; [|apply promise_read_round]. intros [] q ->; [done|apply promise_destroy].
  - intros ran qs w i q q' X o r x w' HI Hi _ Hint Hd. by eapply promise_inv_op.
  - intros ran qs w w' HI Hl. unfold Inv, promise_protocol, promise_inv in *.
    unfold loop_step in Hl. repeat case_match; by simplify_eq.
Qed.

Lemma promise_init w : initial w -> promise_inv [None] w.
Proof. intros H. apply initial_world in H as (s & now & -> & _). unfold promise_inv. done. Qed.

Lemma owned_none qs : Forall (fun q => q = None) qs -> owned (A := promise) qs = [].
Proof. induction 1 as [|q qs -> _ IH]; [done|exact IH]. Qed.

(** ** Properties *)

(** C14: no promise is settled twice, and only promises that were created
    are settled, in every interleaving. *)
Theorem settled_at_most_once (c : cfg) :
  reachable c -> NoDup (map fst (settled (cw c))) /\
  forall p v, (p, v) ∈ settled (cw c) -> p < next_promise (cw c).
Proof.
  intros Hr. destruct (reachable_Inv (P := promise_protocol) c promise_init Hr) as (qs & HI).
  assert (Hn : NoDup (map fst (settled (cw c)) ++ owned qs)) by (rewrite HI; apply NoDup_seq).
  split; [by apply NoDup_app in Hn as [Hn _]|]. intros p v Hp.
  assert (Hs : p ∈ map fst (settled (cw c)) ++ owned qs)
    by (apply elem_of_app; left; apply (list_elem_of_fmap_2 fst _ _ Hp)).
  rewrite HI in Hs. apply elem_of_seq in Hs. lia.
Qed.

(** C15: once every goroutine has returned and the JS thread is idle, every
    promise that [connect] and [write] gave to the script has been settled
    exactly once: none is left pending. *)
Theorem finished_all_settled (c : cfg) :
  reachable c -> finished c ->
  map fst (settled (cw c)) ≡ₚ seq 0 (next_promise (cw c)).
Proof.
  intros Hr Hf. pose proof (reachable_cfg_inv (P := promise_protocol) c promise_init Hr) as HI.
  destruct (cfg_inv_finished c HI Hf) as (qs & Hq & Hi).
  change (map fst (settled (cw c)) ++ owned qs ≡ₚ seq 0 (next_promise (cw c))) in Hi.
  by rewrite owned_none, app_nil_r in Hi.
Qed.
End promises.

(** ** Witnesses *)
#[local] Existing Instance K6Ref.

Lemma settled_at_most_once_witness :
  (0, Resolved) ∈ settled (cw open_cfg) /\
  NoDup (map fst (settled (cw open_cfg))) /\
  forall p v, (p, v) ∈ settled (cw open_cfg) -> p < next_promise (cw open_cfg).
Proof.
  split; [apply list_elem_of_lookup; exists 0; vm_compute; reflexivity|].
  exact (settled_at_most_once open_cfg open_reachable).
Defined.

Lemma finished_all_settled_witness :
  finished finished_cfg /\ next_promise (cw finished_cfg) = 1 /\
  map fst (settled (cw finished_cfg)) ≡ₚ seq 0 (next_promise (cw finished_cfg)).
Proof.
  assert (Hf : finished finished_cfg).
  { unfold finished. assert (Ht : threads finished_cfg = [idle; idle; idle])
      by (vm_compute; reflexivity). rewrite Ht. repeat constructor. }
  split; [exact Hf|]. split; [vm_compute; reflexivity|].
  exact (finished_all_settled finished_cfg finished_reachable Hf).
Defined.
