(* ===== verification/Buffers.v ===== *)
(** * The pooled buffers of data events

    The reader copies what it received into a buffer from [s.bufferPool] and
    passes it to the queued closure, which returns it to the pool after the
    handler ran. In this protocol the phase of a thread is the buffer it owns;
    the calls that wait in the task queue own theirs. Ownership is exclusive,
    so the bytes an event was queued with are the bytes its handler gets,
    however many reads happen in between. *)
From S2P Require Import Prelude GoStd K6 Metrics Lang Socket Events Connect ReadWrite System Scenarios.

(** What a thread does with a buffer: nothing, the reader fills it, or the JS
    thread runs the callback that carries it. *)
Inductive buffer_phase := BNone | BFill (b : bufid) | BRun (b : bufid).

#[export] Instance buffer_phase_eq_dec : EqDecision buffer_phase.
Proof. solve_decision. Defined.

Definition buffer_of (q : buffer_phase) : option bufid :=
  match q with BNone => None | BFill b | BRun b => Some b end.

(** A call reads no buffer but the one it returns to the pool. *)
Definition call_wf (c : call) : bool :=
  forallb (fun a => match a with
                    | ArgBytes b => bool_decide (call_cleanup c = Some b)
                    | ArgErr _ => true end) (call_args c).

Section buffers.
Context `{K : K6}.

(** What the accepted calls own: nothing once their callback has started. *)
Definition waiting (ran : list nat) (l : list call) : list (option bufid) :=
  imap (fun i c => if bool_decide (i ∈ ran) then None else call_cleanup c) l.

Definition buffer_delta (X : Type) (q : buffer_phase) (o : op X) : X -> option buffer_phase :=
  match o in op X return X -> option buffer_phase with
  | BufGet => fun b => match q with BNone => Some (BFill b) | _ => None end
  | BufWrite b _ => fun _ => if bool_decide (q = BFill b) then Some q else None
  | BufRead b => fun _ => if bool_decide (q = BRun b) then Some q else None
  | BufPut b => fun _ => if bool_decide (buffer_of q = Some b) then Some BNone else None
  | Send c => fun sent =>
      if call_wf c then
        match call_cleanup c with
        | None => Some q
        | Some b => if bool_decide (q = BFill b)
                    then Some (if sent : bool then BNone else q) else None
        end
      else None
  | _ => fun _ => Some q
  end.

(** A watched call: the [w_index]-th accepted one, which owns [w_buf]. Before
    its callback starts, or while the callback runs (the set of started
    callbacks is then [R]), the buffer holds [w_data]. *)
Record watch := {
  w_index : nat;
  w_buf : bufid;
  w_data : list byte;
  w_run : option (list nat)
}.

Definition watch_ok (v : watch) (ran : list nat) (qs : list buffer_phase) (w : world) : Prop :=
  match w_run v with
  | None =>
      (w_index v ∉ ran) ->
      (exists c, accepted w !! w_index v = Some c /\ call_cleanup c = Some (w_buf v)) /\
      bufs w !! w_buf v = Some (w_data v)
  | Some R =>
      R ⊆ ran /\
      (ran = R -> forall b, qs !! 0 = Some (BRun b) ->
       b = w_buf v /\ bufs w !! b = Some (w_data v))
  end.

Definition all_owned (ran : list nat) (qs : list buffer_phase) (w : world) : list bufid :=
  owned (map buffer_of qs) ++ owned (waiting ran (accepted w)).

Record buffer_inv (v : option watch) (ran : list nat) (qs : list buffer_phase) (w : world) : Prop := {
  bi_ran : forall i, i ∈ ran -> i < length (queue w);
  bi_calls : Forall call_wf (accepted w);
  bi_nodup : NoDup (all_owned ran qs w);
  bi_out : forall b, b ∈ all_owned ran qs w -> (b ∉ pool w) /\ is_Some (bufs w !! b);
  bi_watch : forall x, v = Some x -> watch_ok x ran qs w
}.

Definition buffer_protocol (v : option watch) : Protocol buffer_phase := {|
  delta := buffer_delta;
  q_js := BNone;
  q_callback c := match call_cleanup c with Some b => BRun b | None => BNone end;
  q_call := call_wf;
  q_go _ := BNone;
  q_fin q := q = BNone;
  Inv := buffer_inv v
|}.

Abbreviation keeps_buffer := (keeps (fun X => buffer_delta X)).
Abbreviation cfm_buffer := (conforms (fun X => buffer_delta X)).

(** ** The programs conform *)
Lemma buffer_destroy q : keeps_buffer q destroy.
Proof. cfm_run. Qed.

Lemma buffer_connect_goroutine q p : keeps_buffer q (connect_goroutine p).
Proof. apply keeps_bind; [unfold connectExecute|intros [e|]]; cfm_run. Qed.

Lemma buffer_write_goroutine q p data opts : keeps_buffer q (write_goroutine p data opts).
Proof. apply keeps_bind; [apply keeps_writeExecute|intros [e|]]; cfm_run. Qed.

(** The reader gives the buffer away, to the loop or back to the pool. *)
Lemma buffer_data b :
  cfm_buffer (BFill b) (fireAndCleanup (Some b) "data" [ArgBytes b]) (fun _ q => q = BNone).
Proof.
  unfold fireAndCleanup. intros s. cbn. destruct (handlers s !! "data") as [[fn|]|]; cbn;
    rewrite ?bool_decide_true by done; try done.
  unfold call_wf. intros [|]; cbn; repeat (rewrite bool_decide_true by done; cbn); done.
Qed.

Lemma buffer_readLoopStep c t : keeps_buffer BNone (readLoopStep c t).
Proof.
  apply keeps_bind; [cfm_run|]. intros _. apply keeps_bind; [done|]. intros [n err].
  apply keeps_bind.
  - destruct (0 <? n)%nat; [|done].
    cbn -[fireAndCleanup]. intros ts _ _ buf s. rewrite bool_decide_true by done. intros _.
    apply conforms_bind. eapply conforms_mono; [|apply buffer_data]. by intros _ q ->.
  - intros _. cfm_run.
Qed.

Lemma buffer_read_round : keeps_buffer BNone read_round.
Proof. apply keeps_read_round; [cfm_run | cfm_run | apply buffer_readLoopStep]. Qed.

Lemma buffer_api q a : keeps_buffer q (api_prog a).
Proof.
  apply keeps_api; [intros; apply keeps_connect; cfm_run|intros; apply keeps_write; cfm_run|apply buffer_destroy|cfm_run|intros; unfold on; cfm_run|cfm_run|done|cfm_run].
Qed.

Lemma buffer_convert_args q args :
  (forall b, ArgBytes b ∈ args -> q = BRun b) -> keeps_buffer q (convert_args args).
Proof.
  induction args as [|[e|b] args IH]; intros Hq; cbn [convert_args]; [done|..].
  - apply keeps_bind; [|done]. apply IH. intros b Hb. apply Hq. by constructor.
  - apply keeps_bind; [cbn; intros _; rewrite bool_decide_true; [done|apply Hq; constructor]|].
    intros data. apply keeps_bind; [|done]. apply IH. intros b' Hb. apply Hq. by constructor.
Qed.

(** A callback keeps its buffer until its handler has returned. *)
Lemma buffer_callback c l :
  call_wf c ->
  cfm_buffer (match call_cleanup c with Some b => BRun b | None => BNone end)
    (callback c (run_script l)) (fun _ q => q = BNone).
Proof.
  intros Hwf. apply conforms_same_bind.
  - apply buffer_convert_args. intros b Hb. unfold call_wf in Hwf.
    rewrite Is_true_true, forallb_forall in Hwf. apply list_elem_of_In, Hwf in Hb.
    by apply bool_decide_eq_true in Hb as ->.
  - intros vs. apply conforms_same_bind; [cfm_run|]. intros _.
    apply conforms_same_bind; [apply keeps_run_script, buffer_api|]. intros _.
    unfold run_cleanup. destruct (call_cleanup c) as [b|]; cbn; [|done].
    by rewrite bool_decide_true.
Qed.

(** ** What the accepted calls own *)
Lemma waiting_snoc ran l c :
  (length l ∉ ran) -> waiting ran (l ++ [c]) = waiting ran l ++ [call_cleanup c].
Proof.
  intros H. unfold waiting. rewrite imap_app. cbn. rewrite Nat.add_0_r.
  by rewrite bool_decide_false.
Qed.

Lemma waiting_lookup ran l (i : nat) c :
  l !! i = Some c -> (i ∉ ran) -> waiting ran l !! i = Some (call_cleanup c).
Proof.
  intros Hi Hr. unfold waiting. rewrite list_lookup_imap, Hi. cbn. by rewrite bool_decide_false.
Qed.

(** Starting a callback takes its buffer from the queue. *)
Lemma waiting_run ran l (i : nat) c :
  l !! i = Some c -> waiting (ran ++ [i]) l = <[i := None]> (waiting ran l).
Proof.
  intros Hi. apply list_eq. intros j. unfold waiting. rewrite list_lookup_imap.
  destruct (decide (i = j)) as [<- | Hne].
  - rewrite Hi, list_lookup_insert_eq by (rewrite length_imap; by eapply lookup_lt_Some).
    cbn. rewrite bool_decide_true by set_solver. done.
  - rewrite list_lookup_insert_ne, list_lookup_imap by done.
    destruct (l !! j); [|done]. cbn. f_equal.
    destruct (decide (j ∈ ran)); [rewrite !bool_decide_true by set_solver
      | rewrite !bool_decide_false by set_solver]; done.
Qed.

Lemma accepted_queue w (i : nat) c : queue w !! i = Some c -> accepted w !! i = Some c.
Proof. intros H. unfold accepted. by apply lookup_app_l_Some. Qed.

Lemma queue_accepted_length w : length (queue w) <= length (accepted w).
Proof. unfold accepted. rewrite length_app. lia. Qed.

(** ** The operations preserve the invariant *)

Lemma map_insert (qs : list buffer_phase) (i : nat) q :
  map buffer_of (<[i := q]> qs) = <[i := buffer_of q]> (map buffer_of qs).
Proof. apply list_fmap_insert. Qed.

Lemma map_lookup (qs : list buffer_phase) (i : nat) q :
  qs !! i = Some q -> map buffer_of qs !! i = Some (buffer_of q).
Proof. intros Hi. by apply (list_lookup_fmap_Some_2 buffer_of). Qed.

(** A step of thread [i] that leaves the contents of all buffers owned by
    others alone. *)
Lemma buffer_frame v ran (qs : list buffer_phase) (i : nat) q q' w w' l :
  buffer_inv v ran qs w -> qs !! i = Some q ->
  (forall b, q' = BRun b -> q = BRun b) ->
  length (queue w) <= length (queue w') ->
  accepted w' = accepted w ++ l -> Forall call_wf l ->
  (forall b, b ∈ all_owned ran qs w -> q <> BFill b -> bufs w' !! b = bufs w !! b) ->
  NoDup (all_owned ran (<[i := q']> qs) w') ->
  (forall b, b ∈ all_owned ran (<[i := q']> qs) w' -> (b ∉ pool w') /\ is_Some (bufs w' !! b)) ->
  buffer_inv v ran (<[i := q']> qs) w'.
Proof.
  intros [Hr Hc Hn Ho Hv] Hi Hq' Hq Ha Hl Hb Hn' Ho'. split; try done.
  - intros j Hj. specialize (Hr j Hj). lia.
  - rewrite Ha. by apply Forall_app_2.
  - intros x Hx. specialize (Hv x Hx). unfold watch_ok in *. destruct (w_run x) as [R|].
    + destruct Hv as [HR Hv]. split; [done|]. intros -> b H0.
      assert (Hold : qs !! 0 = Some (BRun b)).
      { apply list_lookup_insert_Some in H0 as [(-> & -> & _)|[_ H0]]; [|done].
        rewrite Hi. f_equal. by apply Hq'. }
      destruct (Hv eq_refl b Hold) as [-> Hd]. split; [done|].
      assert (Hin : w_buf x ∈ owned (map buffer_of qs))
        by (apply (owned_lookup _ 0); by apply (map_lookup qs 0 (BRun _))).
      rewrite Hb; [done|unfold all_owned; set_solver|]. intros ->.
      destruct (decide (i = 0)) as [->|Hne]; [congruence|].
      clear -Hn Hi Hold Hne. unfold all_owned in Hn. apply NoDup_app in Hn as [Hn _].
      apply map_lookup in Hi, Hold. rewrite (owned_release _ _ _ Hi) in Hn.
      apply NoDup_cons in Hn as [Hn _]. apply Hn, (owned_lookup _ 0).
      by rewrite list_lookup_insert_ne.
    + intros Hnr. destruct (Hv Hnr) as [(c & Hcx & Hcl) Hd]. split.
      * exists c. rewrite Ha. split; [by apply lookup_app_l_Some|done].
      * assert (Hin : w_buf x ∈ owned (waiting ran (accepted w)))
          by (apply (owned_lookup _ (w_index x)); by rewrite (waiting_lookup _ _ _ c), Hcl).
        rewrite Hb; [done|unfold all_owned; set_solver|]. intros ->.
        clear -Hn Hi Hin. unfold all_owned in Hn. apply map_lookup in Hi.
        rewrite (owned_release _ _ _ Hi) in Hn. cbn in Hn. apply NoDup_cons in Hn as [Hn _].
        set_solver.
Qed.

(** The same, when nothing was sent. *)
Lemma buffer_frame0 v ran (qs : list buffer_phase) (i : nat) q q' w w' :
  buffer_inv v ran qs w -> qs !! i = Some q -> (forall b, q' = BRun b -> q = BRun b) ->
  queue w' = queue w -> accepted w' = accepted w ->
  (forall b, b ∈ all_owned ran qs w -> q <> BFill b -> bufs w' !! b = bufs w !! b) ->
  NoDup (all_owned ran (<[i := q']> qs) w) ->
  (forall b, b ∈ all_owned ran (<[i := q']> qs) w -> (b ∉ pool w') /\ is_Some (bufs w' !! b)) ->
  buffer_inv v ran (<[i := q']> qs) w'.
Proof.
  intros HI Hi Hq' Hq Ha Hb Hn Ho.
  apply (buffer_frame v ran qs i q q' w w' []); unfold all_owned in *; rewrite ?Ha, ?app_nil_r; try done.
  by rewrite Hq.
Qed.

Lemma buffer_inv_get v ran (qs : list buffer_phase) w (i : nat) r b w' :
  buffer_inv v ran qs w -> qs !! i = Some BNone -> interp BufGet r w = Some (b, w') ->
  buffer_inv v ran (<[i := BFill b]> qs) w'.
Proof.
  intros HI Hi Hint. cbn in Hint. destruct r; simplify_eq. case_match eqn:Hf; simplify_eq.
  pose proof HI as [_ _ Hn Ho _].
  assert (Hb : b ∉ all_owned ran qs w).
  { intros Hb. destruct (Ho b Hb) as [Hp [d Hd]]. rewrite Hd in Hf.
    by rewrite (bool_decide_false (b ∈ pool w)) in Hf. }
  assert (Hperm : all_owned ran (<[i := BFill b]> qs) w ≡ₚ b :: all_owned ran qs w).
  { unfold all_owned. rewrite map_insert. by rewrite (owned_acquire _ i b (map_lookup _ _ _ Hi)). }
  apply (buffer_frame0 v ran qs i BNone _ w); try done; cbn.
  - intros b' Hb' _. rewrite lookup_insert_ne; [done|]. by intros <-.
  - rewrite Hperm. by constructor.
  - intros b' Hb'. rewrite Hperm in Hb'. apply elem_of_cons in Hb' as [-> | Hb'].
    + rewrite lookup_insert_eq. split; [set_solver|by eexists].
    + destruct (Ho b' Hb') as [? ?]. split; [set_solver|].
      rewrite lookup_insert_ne; [done|]. by intros <-.
Qed.

Lemma buffer_inv_write v ran (qs : list buffer_phase) w (i : nat) r b d u w' :
  buffer_inv v ran qs w -> qs !! i = Some (BFill b) -> interp (BufWrite b d) r w = Some (u, w') ->
  buffer_inv v ran (<[i := BFill b]> qs) w'.
Proof.
  intros HI Hi Hint. cbn in Hint. destruct (bufs w !! b) as [old|] eqn:Hold; simplify_eq.
  pose proof HI as [_ _ Hn Ho _].
  apply (buffer_frame0 v ran qs i (BFill b) _ w); try done; cbn; rewrite ?list_insert_id by done.
  - intros b' Hb' Hne. rewrite lookup_insert_ne; [done|]. by intros <-.
  - done.
  - intros b' Hb'. destruct (Ho b' Hb') as [? ?]. split; [done|].
    destruct (decide (b = b')) as [<-|]; [by rewrite lookup_insert_eq | by rewrite lookup_insert_ne].
Qed.

Lemma buffer_inv_put v ran (qs : list buffer_phase) w (i : nat) q r b u w' :
  buffer_inv v ran qs w -> qs !! i = Some q -> buffer_of q = Some b ->
  interp (BufPut b) r w = Some (u, w') -> buffer_inv v ran (<[i := BNone]> qs) w'.
Proof.
  intros HI Hi Hq Hint. cbn in Hint. simplify_eq. pose proof HI as [_ _ Hn Ho _].
  pose proof (map_lookup _ _ _ Hi) as Hmi. rewrite Hq in Hmi.
  assert (Hperm : all_owned ran qs w ≡ₚ b :: all_owned ran (<[i := BNone]> qs) w).
  { unfold all_owned. rewrite map_insert. by rewrite (owned_release _ i b Hmi). }
  rewrite Hperm in Hn. apply NoDup_cons in Hn as [Hb Hn].
  apply (buffer_frame0 v ran qs i q _ w); try done; cbn.
  intros b' Hb'. destruct (Ho b') as [? ?]; [|split; [set_solver|done]].
  rewrite Hperm. by apply elem_of_cons; right.
Qed.

Lemma buffer_inv_send v ran (qs : list buffer_phase) w (i : nat) q q' c r sent w' :
  buffer_inv v ran qs w -> qs !! i = Some q -> interp (Send c) r w = Some (sent, w') ->
  buffer_delta bool q (Send c) sent = Some q' -> buffer_inv v ran (<[i := q']> qs) w'.
Proof.
  intros HI Hi Hint Hd. pose proof (interp_accepted _ _ _ _ _ Hint) as Ha.
  pose proof HI as [Hr _ Hn Ho _]. cbn in Hint, Ha, Hd.
  destruct (call_wf c) eqn:Hwf; [|done]. destruct r; try done. destruct sent0.
  - destruct (lp w) eqn:Hlp; simplify_eq.
    assert (Hlen : length (accepted w) ∉ ran).
    { intros Hl. specialize (Hr _ Hl). pose proof (queue_accepted_length w). lia. }
    assert (Hperm : owned (map buffer_of (<[i:=q']> qs)) ++ owned (waiting ran (accepted w ++ [c]))
                    ≡ₚ all_owned ran qs w).
    { unfold all_owned. rewrite map_insert, waiting_snoc, owned_app by done.
      pose proof (map_lookup _ _ _ Hi) as Hmi. destruct (call_cleanup c) as [b|].
      - case_bool_decide; simplify_eq. rewrite (owned_release _ i b Hmi). cbn. solve_Permutation.
      - simplify_eq. rewrite list_insert_id by done. cbn. by rewrite app_nil_r. }
    apply (buffer_frame v ran qs i q _ w _ [c]); try done.
    + intros b ->. destruct (call_cleanup c); [case_bool_decide|]; by simplify_eq.
    + constructor; [by rewrite Hwf|done].
    + unfold all_owned at 1. by rewrite Ha, Hperm.
    + intros b. unfold all_owned at 1. rewrite Ha, Hperm. apply Ho.
  - destruct (vu_done w); simplify_eq.
    replace (<[i:=q']> qs) with qs; [done|].
    destruct (call_cleanup c); [case_bool_decide|]; simplify_eq; by rewrite list_insert_id.
Qed.

Lemma buffer_inv_op v ran (qs : list buffer_phase) w (i : nat) q q' X (o : op X) r x w' :
  buffer_inv v ran qs w -> qs !! i = Some q -> interp o r w = Some (x, w') ->
  buffer_delta X q o x = Some q' -> buffer_inv v ran (<[i := q']> qs) w'.
Proof.
  intros HI Hi Hint Hd.
  assert (Hsame : queue w' = queue w -> lp w' = lp w -> bufs w' = bufs w -> pool w' = pool w ->
    q' = q -> buffer_inv v ran (<[i:=q']> qs) w').
  { intros Hq Hl Hb Hp ->. pose proof HI as [_ _ Hn Ho _].
    apply (buffer_frame0 v ran qs i q q w); rewrite ?Hb, ?Hp, ?list_insert_id by done; try done.
    unfold accepted. by rewrite Hq, Hl. }
  destruct o; try (cbn in Hint, Hd; repeat case_match; simplify_eq; apply Hsame; done).
  - by eapply buffer_inv_send.
  - cbn in Hd. destruct q; simplify_eq. by eapply buffer_inv_get.
  - cbn in Hd. case_bool_decide; simplify_eq. by eapply buffer_inv_write.
  - cbn in Hd. case_bool_decide; simplify_eq. by eapply buffer_inv_put.
Qed.

(** Starting a callback hands its buffer to the JS thread. *)
Lemma buffer_inv_callback v ran qs w (i : nat) c :
  buffer_inv v ran (BNone :: qs) w -> queue w !! i = Some c -> (i ∉ ran) ->
  buffer_inv v (ran ++ [i])
    (match call_cleanup c with Some b => BRun b | None => BNone end :: qs) w.
Proof.
  intros [Hr Hc Hn Ho Hv] Hi Hnr. pose proof (accepted_queue _ _ _ Hi) as Hai.
  assert (Hperm : all_owned (ran ++ [i])
      (match call_cleanup c with Some b => BRun b | None => BNone end :: qs) w ≡ₚ
      all_owned ran (BNone :: qs) w).
  { unfold all_owned. rewrite (waiting_run _ _ _ _ Hai).
    pose proof (waiting_lookup _ _ _ _ Hai Hnr) as Hw. destruct (call_cleanup c) as [b|].
    - rewrite (owned_release _ _ _ Hw). cbn. solve_Permutation.
    - by rewrite list_insert_id. }
  split; try done.
  - intros j Hj. apply elem_of_app in Hj as [Hj|Hj]; [by apply Hr|].
    apply list_elem_of_singleton in Hj as ->. by eapply lookup_lt_Some.
  - by rewrite Hperm.
  - intros b. rewrite Hperm. apply Ho.
  - intros x Hx. specialize (Hv x Hx). unfold watch_ok in *. destruct (w_run x) as [R|].
    + destruct Hv as [HR _]. split; [set_solver|]. intros <-. set_solver.
    + intros Hnx. apply Hv. set_solver.
Qed.

(** A fresh goroutine owns nothing. *)
Lemma buffer_inv_spawn v ran qs gs w :
  buffer_inv v ran qs w -> buffer_inv v ran (qs ++ map (fun _ : goroutine => BNone) gs) w.
Proof.
  intros [Hr Hc Hn Ho Hv].
  assert (Hp : all_owned ran (qs ++ map (fun _ : goroutine => BNone) gs) w = all_owned ran qs w).
  { unfold all_owned. rewrite map_app, owned_app, map_map. cbn.
    by rewrite (owned_nones gs), app_nil_r. }
  split; rewrite ?Hp; try done. intros x Hx. specialize (Hv x Hx). unfold watch_ok in *.
  destruct (w_run x) as [R|]; [|done]. destruct Hv as [HR Hv]. split; [done|].
  intros HrR b Hb. apply Hv; [done|]. apply lookup_app_Some in Hb as [Hb|[_ Hb]]; [done|].
  by apply list_lookup_fmap_Some in Hb as (? & ? & _).
Qed.

Lemma buffer_inv_loop v ran qs w w' :
  buffer_inv v ran qs w -> loop_step w = Some w' -> buffer_inv v ran qs w'.
Proof.
  intros [Hr Hc Hn Ho Hv] Hl. pose proof (loop_accepted _ _ Hl) as Ha.
  assert (Hbp : bufs w' = bufs w /\ pool w' = pool w /\ length (queue w) <= length (queue w')).
  { unfold loop_step in Hl. repeat case_match; simplify_eq/=; rewrite ?length_app; auto with lia. }
  destruct Hbp as (Hb & Hp & Hq).
  split; unfold all_owned, watch_ok in *; rewrite ?Ha, ?Hb, ?Hp; try done.
  intros i Hi. specialize (Hr i Hi). lia.
Qed.

Lemma buffer_laws v : ProtocolLaws (P := buffer_protocol v).
Proof.
  split; try done.
  - apply buffer_api.
  - intros. by apply buffer_callback.
  - intros. apply buffer_connect_goroutine.
  - intros. apply buffer_write_goroutine.
  - apply rounds_same. eapply conforms_mono; [|apply buffer_read_round]. intros [] q ->; [done|apply buffer_destroy].
  - intros ran qs w i q q' X o r x w' HI Hi _ Hint Hd. apply buffer_inv_spawn.
    exact (buffer_inv_op v ran qs w i q q' X o r x w' HI Hi Hint Hd).
  - intros. by eapply buffer_inv_loop.
  - intros ran qs w i c [_ Hc _ _ _] Hi.
    eapply (Forall_lookup_1 _ _ _ _ Hc). by apply accepted_queue.
  - intros. by apply buffer_inv_callback.
  - intros ran qs w d [Hr Hc Hn Ho Hv]. by split.
  - intros ran qs w [Hr Hc Hn Ho Hv]. by split.
Qed.

Lemma buffer_init w : initial w -> buffer_inv None [] [BNone] w.
Proof.
  intros H. apply initial_world in H as (s & now & -> & _). split; cbn; try done;
    try set_solver; constructor.
Qed.

(** ** Soundness with a watch *)

Definition buffers_ok (v : option watch) (c : cfg) : Prop := cfg_inv (P := buffer_protocol v) c.

Lemma reachable_buffers c : reachable c -> buffers_ok None c.
Proof. exact (reachable_cfg_inv (L := buffer_laws None) c buffer_init). Qed.

Lemma steps_buffers v c c' : steps c c' -> buffers_ok v c -> buffers_ok v c'.
Proof. exact (cfg_inv_steps (L := buffer_laws v) c c'). Qed.

Lemma buffers_ok_Inv v c : buffers_ok v c -> exists qs, buffer_inv v (ran c) qs (cw c).
Proof. exact (cfg_inv_Inv (P := buffer_protocol v) c). Qed.

(** A watch is started on a configuration where it holds for all phases. *)
Lemma start_watch x c :
  buffers_ok None c ->
  (forall qs, buffer_inv None (ran c) qs (cw c) -> watch_ok x (ran c) qs (cw c)) ->
  buffers_ok (Some x) c.
Proof.
  intros (qj & qs & th & ths & Ht & Hj & Hgs & Hlen & HI) Hx.
  exists qj, qs, th, ths. split_and!; [exact Ht|exact Hj|exact Hgs|exact Hlen|].
  specialize (Hx _ HI). destruct HI as [Hr Hc Hn Ho _]. split; try done. by intros ? [= <-].
Qed.

(** The n-th accepted call, of index [n], waits with buffer [b]. *)
Definition waits_with (c : cfg) (n : nat) (b : bufid) : Prop :=
  (n ∉ ran c) /\ exists cl, accepted (cw c) !! n = Some cl /\ call_cleanup cl = Some b.

Lemma waiting_stable c c' n b data :
  reachable c -> waits_with c n b -> bufs (cw c) !! b = Some data ->
  steps c c' -> (n ∉ ran c') ->
  waits_with c' n b /\ bufs (cw c') !! b = Some data.
Proof.
  intros Hr [Hn Hcl] Hd Hs Hn'.
  assert (HI : buffers_ok (Some (Build_watch n b data None)) c').
  { eapply steps_buffers; [exact Hs|]. apply start_watch; [by apply reachable_buffers|].
    intros qs _ _. cbn. done. }
  apply buffers_ok_Inv in HI as (qs & [_ _ _ _ Hv]).
  destruct (Hv _ eq_refl Hn') as [Hc' Hd']. done.
Qed.

(** While the JS thread is about to read a buffer, the callback it runs owns it. *)
Lemma reading_owned v c b k :
  buffers_ok v c -> threads c !! 0 = Some (TProg (Op (BufRead b) k)) ->
  exists qs, buffer_inv v (ran c) qs (cw c) /\ qs !! 0 = Some (BRun b).
Proof.
  intros (qj & qs & th & ths & Ht & Hj & _ & _ & HI) H0. rewrite Ht in H0. cbn in H0. simplify_eq.
  exists (qj :: qs). split; [exact HI|]. cbn in Hj. specialize (Hj []).
  by case_bool_decide; subst.
Qed.

(** The callback of a waiting call starts: the watch goes on while it runs. *)
Lemma start_callback c c' n b data l :
  buffers_ok None c -> waits_with c n b -> bufs (cw c) !! b = Some data ->
  cfg_step (SCallback n l) c = Some c' ->
  buffers_ok (Some (Build_watch n b data (Some (ran c')))) c'.
Proof.
  intros (qj & qs & th & ths & Ht & Hj & Hgs & Hlen & HI) [Hnr (cl & Hcl & Hb)] Hd Hs.
  cbn in Hs. destruct (queue (cw c) !! n) as [cl'|] eqn:Hq; [|done].
  destruct (js_idle c) eqn:Hid; [|done]. case_bool_decide; [done|]. simplify_eq/=.
  pose proof (js_idle_q (P := buffer_protocol None) _ _ _ _ Hid Ht Hj) as ->.
  pose proof (accepted_queue _ _ _ Hq) as Hq'. simplify_eq.
  pose proof (buffer_inv_callback None _ _ _ _ _ HI Hq Hnr) as [Hr Hc Hn Ho _].
  rewrite Hb in Hn, Ho.
  exists (BRun b), qs, (TProg (callback cl (run_script l))), ths. cbn. rewrite Ht.
  split_and!; [done| |exact Hgs|exact Hlen|].
  - pose proof (buffer_callback cl l) as Hcb. rewrite Hb in Hcb. apply Hcb.
    destruct HI as [_ Hwf _ _ _]. by apply (Forall_lookup_1 _ _ _ _ Hwf Hcl).
  - split; try done. intros x [= <-]. split; [done|]. intros _ b0 [= <-]. done.
Qed.

(** ** Properties *)

(** Buffers are never shared: two events that wait in the task queue
    have different buffers, and neither is in the pool, so no read can get it. *)
Theorem waiting_exclusive (c : cfg) n1 n2 b1 b2 :
  reachable c -> waits_with c n1 b1 -> waits_with c n2 b2 -> n1 <> n2 ->
  b1 <> b2 /\ (b1 ∉ pool (cw c)) /\ (b2 ∉ pool (cw c)).
Proof.
  intros Hr [Hr1 (c1 & H1 & Hc1)] [Hr2 (c2 & H2 & Hc2)] Hne.
  destruct (buffers_ok_Inv None c (reachable_buffers c Hr)) as (qs & [_ _ Hn Ho _]).
  pose proof (waiting_lookup _ _ _ _ H1 Hr1) as Hw1. pose proof (waiting_lookup _ _ _ _ H2 Hr2) as Hw2.
  rewrite Hc1 in Hw1. rewrite Hc2 in Hw2. unfold all_owned in *.
  apply owned_lookup in Hw2 as Hin2. apply owned_lookup in Hw1 as Hin1.
  split_and!; [|apply Ho; set_solver|apply Ho; set_solver].
  intros <-. apply NoDup_app in Hn as (_ & _ & Hn). rewrite (owned_release _ _ _ Hw1) in Hn.
  apply NoDup_cons in Hn as [Hn _]. apply Hn, (owned_lookup _ n2).
  by rewrite list_lookup_insert_ne.
Qed.

(** C12: the handler of a data event gets the bytes the event was queued
    with. From the moment the event with buffer [b] is accepted (configuration
    [c]), through any steps of all threads, its callback starts, and whatever
    the other threads do until the JS thread reads its argument, that argument
    is [b] and still holds the same bytes: no later read recycles it early. *)
Theorem data_delivered_intact (c c1 c2 c3 : cfg) n b data l b' k :
  reachable c -> waits_with c n b -> bufs (cw c) !! b = Some data ->
  steps c c1 -> (n ∉ ran c1) -> cfg_step (SCallback n l) c1 = Some c2 ->
  steps c2 c3 -> ran c3 = ran c2 ->
  threads c3 !! 0 = Some (TProg (Op (BufRead b') k)) ->
  b' = b /\ bufs (cw c3) !! b' = Some data.
Proof.
  intros Hr Hw Hd Hs1 Hn1 Hcb Hs2 Hran H0.
  destruct (waiting_stable _ _ _ _ _ Hr Hw Hd Hs1 Hn1) as [Hw1 Hd1].
  assert (Hr1 : reachable c1) by (destruct Hr as (w & ? & ?); exists w; eauto using steps_trans).
  assert (HI : buffers_ok (Some (Build_watch n b data (Some (ran c2)))) c3).
  { eapply steps_buffers; [exact Hs2|]. eapply start_callback; [by apply reachable_buffers| |done..].
    exact Hw1. }
  destruct (reading_owned _ _ _ _ HI H0) as (qs & [_ _ _ _ Hv] & Hq0).
  destruct (Hv _ eq_refl) as [_ Hv']. cbn in Hv'. by apply Hv'.
Qed.
End buffers.

(** ** Witnesses *)
#[local] Existing Instance K6Ref.

Lemma waiting_exclusive_witness :
  waits_with data2_cfg 1 0 /\ waits_with data2_cfg 2 1 /\
  (0 <> 1 /\ (0 ∉ pool (cw data2_cfg)) /\ (1 ∉ pool (cw data2_cfg))).
Proof.
  assert (Hr : reachable data2_cfg)
    by (unfold data2_cfg, data_cfg, open_cfg; rewrite <-!play_app; apply play_reachable).
  assert (H1 : waits_with data2_cfg 1 0).
  { split; [apply (bool_decide_unpack _); vm_compute; exact I|].
    eexists. split; vm_compute; reflexivity. }
  assert (H2 : waits_with data2_cfg 2 1).
  { split; [apply (bool_decide_unpack _); vm_compute; exact I|].
    eexists. split; vm_compute; reflexivity. }
  split; [exact H1|]. split; [exact H2|].
  exact (waiting_exclusive data2_cfg 1 2 0 1 Hr H1 H2 ltac:(discriminate)).
Defined.

Lemma data_delivered_intact_witness :
  bufs (cw data_cfg) !! 0 = Some two_bytes /\
  exists b' k, threads data3_cfg !! 0 = Some (TProg (Op (BufRead b') k)) /\
  b' = 0 /\ bufs (cw data3_cfg) !! b' = Some two_bytes.
Proof.
  assert (Hd : bufs (cw data_cfg) !! 0 = Some two_bytes) by (vm_compute; reflexivity).
  split; [exact Hd|].
  assert (H0 : exists k, threads data3_cfg !! 0 = Some (TProg (Op (BufRead 0) k)))
    by (eexists; vm_compute; reflexivity).
  destruct H0 as (k & H0). exists 0, k. split; [exact H0|].
  apply (data_delivered_intact data_cfg data2_cfg callback_cfg data3_cfg 1 0 two_bytes [] 0 k
    data_reachable).
  - split; [apply (bool_decide_unpack _); vm_compute; exact I|].
    eexists. split; vm_compute; reflexivity.
  - exact Hd.
  - apply play_steps.
  - apply (bool_decide_unpack _). vm_compute. exact I.
  - apply play_step. vm_compute. reflexivity.
  - apply play_steps.
  - vm_compute. reflexivity.
  - exact H0.
Defined.
