(* ===== verification/Product.v ===== *)
(** * Two protocols at once

    A protocol that needs what another one guarantees runs beside it: the
    phases are pairs, an operation must be allowed by both, and the invariant
    of the second is preserved under the invariant of the first. The first is
    a protocol with its laws; of the second only the conformance of the
    programs and the preservation of the joint invariant remain to be shown. *)
From S2P Require Import Prelude GoStd K6 Metrics Lang Socket Events Connect ReadWrite System.

(** An operation that both protocols allow. *)
Definition both `{K : K6} {Q1 Q2 : Type}
    (d1 : forall X, Q1 -> op X -> X -> option Q1) (d2 : forall X, Q2 -> op X -> X -> option Q2)
    (X : Type) (q : Q1 * Q2) (o : op X) (x : X) : option (Q1 * Q2) :=
  match d1 X q.1 o x, d2 X q.2 o x with
  | Some a, Some b => Some (a, b)
  | _, _ => None
  end.

Lemma conforms_both `{K : K6} {Q1 Q2 A : Type}
    (d1 : forall X, Q1 -> op X -> X -> option Q1) (d2 : forall X, Q2 -> op X -> X -> option Q2)
    q1 q2 (p : prog A) post1 post2 :
  conforms d1 q1 p post1 -> conforms d2 q2 p post2 ->
  conforms (both d1 d2) (q1, q2) p (fun a q => post1 a q.1 /\ post2 a q.2).
Proof.
  revert q1 q2. induction p as [a|X o k IH]; intros q1 q2 H1 H2; [done|].
  intros x. specialize (H1 x). specialize (H2 x). unfold both. cbn.
  destruct (d1 X q1 o x); [|done]. destruct (d2 X q2 o x); [|done]. by apply IH.
Qed.

(** The second protocol: phases, and the invariant over pairs of phases. *)
Record companion `{K : K6} (Q1 Q2 : Type) := {
  co_delta : forall X, Q2 -> op X -> X -> option Q2;
  co_js : Q2;
  co_callback : call -> Q2;
  co_call : call -> Prop;
  co_go : goroutine -> Q2;
  co_fin : Q2 -> Prop;
  co_inv : list nat -> list (Q1 * Q2) -> world -> Prop
}.
Arguments co_delta {K Q1 Q2} _ X q o x.
Arguments co_js {K Q1 Q2} _.
Arguments co_callback {K Q1 Q2} _ c.
Arguments co_call {K Q1 Q2} _ c.
Arguments co_go {K Q1 Q2} _ g.
Arguments co_fin {K Q1 Q2} _ q.
Arguments co_inv {K Q1 Q2} _ ran qs w.

Section product.
Context `{K : K6} {Q1 Q2 : Type} (P : Protocol Q1) (R : companion Q1 Q2).

Definition product : Protocol (Q1 * Q2) := {|
  delta := both (fun X => @delta _ _ P X) (co_delta R);
  q_js := (q_js, co_js R);
  q_callback c := (q_callback c, co_callback R c);
  q_call c := q_call c /\ co_call R c;
  q_go g := (q_go g, co_go R g);
  q_fin q := q_fin q.1 /\ co_fin R q.2;
  Inv ran qs w := Inv ran (map fst qs) w /\ co_inv R ran qs w
|}.

Abbreviation conforms2 := (conforms (co_delta R)).

(** What the second protocol must satisfy. *)
Class CompanionLaws : Prop := {
  co_api a : conforms2 (co_js R) (api_prog a) (fun _ q => q = co_js R);
  co_cb c l : co_call R c ->
    conforms2 (co_callback R c) (callback c (run_script l)) (fun _ q => q = co_js R);
  co_connect p : conforms2 (co_go R (GConnect p)) (connect_goroutine p) (fun _ => co_fin R);
  co_write p data opts :
    conforms2 (co_go R (GWrite p data opts)) (write_goroutine p data opts) (fun _ => co_fin R);
  co_read : exists S : Q2 -> Prop, S (co_go R GRead) /\ forall q, S q ->
    conforms2 q read_round (fun again q' =>
      if again : bool then S q' else conforms2 q' destroy (fun _ => co_fin R));
  co_op ran qs w i q q' X (o : op X) r x w' :
    Inv ran (map fst qs) w -> co_inv R ran qs w -> qs !! i = Some q ->
    length qs = S (length (spawned w)) -> interp o r w = Some (x, w') -> delta (Protocol := product) q o x = Some q' ->
    co_inv R ran (<[i := q']> qs ++ map (q_go (Protocol := product)) (op_spawns o)) w';
  co_loop ran qs w w' : co_inv R ran qs w -> loop_step w = Some w' -> co_inv R ran qs w';
  co_calls ran qs w i c :
    co_inv R ran qs w -> queue w !! i = Some c -> co_call R c;
  co_start ran qs w i c :
    Inv ran (map fst (q_js (Protocol := product) :: qs)) w ->
    co_inv R ran (q_js (Protocol := product) :: qs) w -> queue w !! i = Some c -> i ∉ ran ->
    co_inv R (ran ++ [i]) (q_callback (Protocol := product) c :: qs) w;
  co_tick ran qs w d : co_inv R ran qs w -> co_inv R ran qs (set_clock (clock w + Z.of_N d)%Z w);
  co_vu_done ran qs w : co_inv R ran qs w -> co_inv R ran qs (set_vu_done true w)
}.

Lemma co_rounds_same q0 :
  conforms2 q0 read_round (fun again q =>
    if again : bool then q = q0 else conforms2 q destroy (fun _ => co_fin R)) ->
  exists S : Q2 -> Prop, S q0 /\ forall q, S q ->
    conforms2 q read_round (fun again q' =>
      if again : bool then S q' else conforms2 q' destroy (fun _ => co_fin R)).
Proof. intros H. exists (fun q => q = q0). split; [done|]. by intros q ->. Qed.

Context (L1 : ProtocolLaws (P := P)) (L2 : CompanionLaws).

Lemma conforms_product {A} q1 q2 (p : prog A) post1 post2 post :
  cfm (P := P) q1 p post1 -> conforms2 q2 p post2 ->
  (forall a a1 a2, post1 a a1 -> post2 a a2 -> post a (a1, a2)) ->
  cfm (P := product) (q1, q2) p post.
Proof.
  intros H1 H2 Hp. eapply conforms_mono; [|by apply conforms_both; [apply H1|apply H2]].
  intros a [a1 a2] [? ?]. by apply Hp.
Qed.

Lemma product_laws : ProtocolLaws (P := product).
Proof.
  split.
  - intros a. eapply conforms_product; [apply cfm_api|apply co_api|]. by intros _ ? ? -> ->.
  - intros c l [H1 H2]. eapply conforms_product; [by apply cfm_callback|by apply co_cb|].
    by intros _ ? ? -> ->.
  - intros p. eapply conforms_product; [apply cfm_connect|apply co_connect|]. done.
  - intros p data opts. eapply conforms_product; [apply cfm_write|apply co_write|]. done.
  - destruct (cfm_read (P := P)) as (R1 & H1 & Hr1). destruct co_read as (R2 & H2 & Hr2).
    exists (fun q => R1 q.1 /\ R2 q.2). split; [done|]. intros [q1 q2] [Hq1 Hq2].
    eapply conforms_product; [by apply Hr1|by apply Hr2|].
    intros [] a1 a2 Ha1 Ha2; [done|]. by eapply conforms_product; [apply Ha1|apply Ha2|].
  - intros ran qs w i q q' X o r x w' [HI HJ] Hi Hlen Hint Hd. split; [|by eapply co_op].
    cbn in Hd. unfold both in Hd.
    destruct (@delta _ _ P X q.1 o x) as [a|] eqn:Ha; [|done].
    destruct (co_delta R X q.2 o x) as [b|]; [|done]. simplify_eq.
    rewrite map_app, map_map. cbn.
    replace (map fst (<[i:=(a, b)]> qs)) with (<[i:=a]> (map fst qs))
      by (symmetry; apply (list_fmap_insert fst)).
    eapply Inv_op; [exact HI| |by rewrite length_map|exact Hint|exact Ha].
    by apply (list_lookup_fmap_Some_2 fst).
  - intros ran qs w w' [HI HJ] Hl. split; [by eapply Inv_loop|by eapply co_loop].
  - intros ran qs w i c [HI HJ] Hc. split; [by eapply Inv_call|by eapply co_calls].
  - intros ran qs w i c [HI HJ] Hc Hn. split; [by apply Inv_callback|by apply co_start].
  - intros ran qs w d [HI HJ]. split; [by apply Inv_tick|by apply co_tick].
  - intros ran qs w [HI HJ]. split; [by apply Inv_vu_done|by apply co_vu_done].
Qed.
End product.
