(* ===== verification/Stream.v ===== *)
(** * The script receives the stream

    What [conn.Read] returned, chunk by chunk, reaches the script's data
    handler in the same order, each chunk once and complete. The phases follow
    a chunk through the reader (counted, copied to a pooled buffer, sent), the
    task queue and the callback; the protocol of the buffers runs beside them,
    because a chunk in the queue is safe only while its buffer is not shared.
    This file has the phases and the conformance of the programs; the file
    StreamSpec shows that the invariant is preserved, and what follows. *)
From S2P Require Import Prelude GoStd K6 Metrics Lang Socket Events Connect ReadWrite System Scenarios Ordering Buffers Product.

(** Where a thread is with a chunk of the stream. *)
Inductive stream_phase :=
| SOther                          (** the script, a connecting or a writing goroutine *)
| SRun (b : bufid)                (** the callback of a data event, before it reads its argument *)
| SHold (d : list byte)           (** it has read the argument and is to call the handler *)
| SIdle                           (** the reader, with nothing in hand *)
| SGot (n : nat) (counted : bool) (** it received [n] bytes into [s.readBuf] *)
| SBuf (b : bufid) (n : nat)      (** and has a buffer for them *)
| SSnap (b : bufid) (d : list byte)  (** and is to copy them *)
| SFull (b : bufid) (d : list byte)  (** the buffer holds the chunk *)
| SSend (b : bufid) (d : list byte). (** and there is a handler to send it to *)

Definition aside (q : stream_phase) : Prop := q = SOther \/ q = SIdle.

Definition is_reader (q : stream_phase) : bool :=
  match q with SIdle | SGot _ _ | SBuf _ _ | SSnap _ _ | SFull _ _ | SSend _ _ => true | _ => false end.

(** The buffer a call carries to its handler. *)
Definition carried (c : call) : option bufid :=
  match call_args c with [ArgBytes b] => Some b | _ => None end.

Definition is_err (a : arg) : bool := match a with ArgErr _ => true | _ => false end.

(** A data event carries one buffer, which its cleanup returns; no other event
    carries any. *)
Definition stream_call (c : call) : bool :=
  match carried c with
  | Some b => bool_decide (call_event c = "data") && bool_decide (call_cleanup c = Some b)
  | None => negb (bool_decide (call_event c = "data")) && forallb is_err (call_args c)
  end.

(** The bytes given to data handlers, in order. *)
Definition handed_to (i : invocation) : option (list byte) :=
  if bool_decide (inv_event i = "data")
  then match inv_args i with [VBytes d] => Some d | _ => None end
  else None.

Definition hears_data (s : socket) : bool :=
  match handlers s !! "data" with Some (AnyCallable _) => true | _ => false end.

Section stream.
Context `{K : K6}.

Definition handed (w : world) : list (list byte) := omap handed_to (invoked w).

(** The bytes in buffer [b]. *)
Definition payload (w : world) (b : bufid) : list byte := default [] (bufs w !! b).

(** The chunks of the data events whose callbacks have not started, when the
    first [m] have. *)
Definition queued_chunks (m : nat) (w : world) : list (list byte) :=
  map (payload w) (omap carried (drop m (accepted w))).

(** How many readers the socket started, and how many threads are readers. *)
Definition readers (gs : list goroutine) : nat :=
  length (List.filter (fun g => match g with GRead => true | _ => false end) gs).

Definition reading (qs : list (buffer_phase * stream_phase)) : nat :=
  length (List.filter (fun q => is_reader q.2) qs).

(** What a thread does outside the phases of a chunk: it registers callables
    only, sends no data event, and calls no data handler. *)
Definition aside_delta (X : Type) (q : stream_phase) (o : op X) : X -> option stream_phase :=
  match o in op X return X -> option stream_phase with
  | SetS (StoreHandler _ AnyOther) => fun _ => None
  | SetS (AddRead _) | ConnRead _ | BufGet | BufWrite _ _ | BufRead _ => fun _ => None
  | Send c => fun _ => if stream_call c then match carried c with None => Some q | _ => None end else None
  | Invoke i => fun _ => if bool_decide (inv_event i = "data") then None else Some q
  | _ => fun _ => Some q
  end.

Definition stream_delta (X : Type) (q : stream_phase) (o : op X) : X -> option stream_phase :=
  match q with
  | SOther => aside_delta X q o
  | SIdle =>
      match o in op X return X -> option stream_phase with
      | ConnRead _ => fun r => Some (if (0 <? r.1)%nat then SGot r.1 false else SIdle)
      | o => aside_delta _ q o
      end
  | SRun b =>
      match o in op X return X -> option stream_phase with
      | BufRead b' => fun d => if bool_decide (b = b') then Some (SHold d) else None
      | _ => fun _ => None
      end
  | SHold d =>
      match o in op X return X -> option stream_phase with
      | Invoke i => fun _ => if bool_decide (handed_to i = Some d) then Some SOther else None
      | _ => fun _ => None
      end
  | SGot n counted =>
      match o in op X return X -> option stream_phase with
      | CurrentTags | Push _ _ _ => fun _ => Some q
      | SetS (AddRead m) => fun _ =>
          if negb counted && bool_decide (m = Z.of_nat n) then Some (SGot n true) else None
      | BufGet => fun b => if counted then Some (SBuf b n) else None
      | _ => fun _ => None
      end
  | SBuf b n =>
      match o in op X return X -> option stream_phase with
      | GetS => fun s => Some (SSnap b (take n (readBuf s)))
      | _ => fun _ => None
      end
  | SSnap b d =>
      match o in op X return X -> option stream_phase with
      | BufWrite b' d' => fun _ => if bool_decide (b' = b /\ d' = d) then Some (SFull b d) else None
      | _ => fun _ => None
      end
  | SFull b d =>
      match o in op X return X -> option stream_phase with
      | GetS => fun s => Some (if hears_data s then SSend b d else SIdle)
      | _ => fun _ => None
      end
  | SSend b d =>
      match o in op X return X -> option stream_phase with
      | Send c => fun _ =>
          if stream_call c && bool_decide (carried c = Some b)
          then Some SIdle else None
      | _ => fun _ => None
      end
  end.

(** The chunk a phase holds: in a running callback, and in a reader. *)
Definition in_hand (w : world) (q : buffer_phase * stream_phase) : list (list byte) :=
  match q.2 with SRun b => [payload w b] | SHold d => [d] | _ => [] end.

Definition in_reader (w : world) (q : buffer_phase * stream_phase) : list (list byte) :=
  match q.2 with
  | SGot n _ | SBuf _ n => [take n (readBuf (sk w))]
  | SSnap _ d | SFull _ d | SSend _ d => [d]
  | _ => []
  end.

(** The bytes it has not counted yet. *)
Definition uncounted (q : buffer_phase * stream_phase) : Z :=
  match q.2 with SGot n false => Z.of_nat n | _ => 0 end.

(** The buffer of a chunk is the one the thread owns, and it holds the chunk
    once it was copied. *)
Definition phase_ok (w : world) (i : nat) (q : buffer_phase * stream_phase) : Prop :=
  match q.2 with
  | SOther | SIdle | SGot _ _ => True
  | SRun b => i = 0 /\ q.1 = BRun b
  | SHold _ => i = 0
  | SBuf b _ | SSnap b _ => q.1 = BFill b /\ bufs w !! b = Some []
  | SFull b d | SSend b d => q.1 = BFill b /\ bufs w !! b = Some d
  end.

Definition total (l : list (list byte)) : Z := Z.of_nat (length (List.concat l)).

Record stream_ok (ran : list nat) (qs : list (buffer_phase * stream_phase)) (w : world) : Prop := {
  so_order : ran = seq 0 (length ran);
  so_hears : hears_data (sk w) = true;
  so_calls : Forall stream_call (accepted w);
  so_phases : forall i q, qs !! i = Some q -> phase_ok w i q;
  so_readers : reading qs = readers (spawned w);
  so_stream : arrived w = handed w ++ flat_map (in_hand w) qs ++
    queued_chunks (length ran) w ++ flat_map (in_reader w) qs;
  so_count : totalRead (sk w) =
    int64 (total (arrived w) - foldr Z.add 0%Z (map uncounted qs))
}.

(** Of the order nothing is promised once the VU has ended, when there are two readers (on
    one [s.readBuf]), or when the task queue does not keep the order. *)
Definition stream_inv (ran : list nat) (qs : list (buffer_phase * stream_phase)) (w : world) : Prop :=
  Forall stream_call (accepted w) /\
  (vu_done w = true \/ 2 <= readers (spawned w) \/ ran <> seq 0 (length ran) \/ stream_ok ran qs w).

Definition stream_companion : companion buffer_phase stream_phase := {|
  co_delta := stream_delta;
  co_js := SOther;
  co_callback c := match carried c with Some b => SRun b | None => SOther end;
  co_call := stream_call;
  co_go g := match g with GRead => SIdle | _ => SOther end;
  co_fin q := aside q;
  co_inv := stream_inv
|}.

Abbreviation keeps_stream := (keeps (fun X => stream_delta X)).
Abbreviation cfm_stream := (conforms (fun X => stream_delta X)).

(** ** The programs conform *)
Lemma stream_destroy q : aside q -> keeps_stream q destroy.
Proof. intros [-> | ->]; cfm_run. Qed.

Lemma stream_connect_goroutine p : keeps_stream SOther (connect_goroutine p).
Proof. apply keeps_bind; [unfold connectExecute|intros [e|]]; cfm_run. Qed.

Lemma stream_write_goroutine p data opts : keeps_stream SOther (write_goroutine p data opts).
Proof. apply keeps_bind; [apply keeps_writeExecute|intros [e|]]; cfm_run. Qed.

Lemma stream_api a : keeps_stream SOther (api_prog a).
Proof.
  apply keeps_api; [intros; apply keeps_connect; cfm_run|intros; apply keeps_write; cfm_run|apply stream_destroy; by left|cfm_run|intros; unfold on; cfm_run|cfm_run|done|cfm_run].
Qed.

Lemma stream_data b d :
  cfm_stream (SFull b d) (fireAndCleanup (Some b) "data" [ArgBytes b]) (fun _ q => q = SIdle).
Proof.
  unfold fireAndCleanup. intros s. cbn. unfold hears_data.
  destruct (handlers s !! "data") as [[fn|]|]; cbn; try done.
  unfold stream_call, carried. cbn. rewrite !bool_decide_true by done. by intros [|].
Qed.

(** A round takes a chunk from the connection and sends it. *)
Lemma stream_readLoopStep c t : keeps_stream SIdle (readLoopStep c t).
Proof.
  apply keeps_bind; [cfm_run|]. intros _. apply conforms_bind. intros [n err].
  cbn -[fireAndCleanup fire handleError isReadable].
  apply conforms_bind. apply (conforms_mono _ _ _ (fun _ q => q = SIdle)).
  - intros _ q ->. cfm_run.
  - destruct n as [|n]; [done|].
    cbn -[fireAndCleanup]. intros ts _. rewrite bool_decide_true by done. intros _ buf s. cbn -[fireAndCleanup].
    rewrite bool_decide_true by done. intros _. apply conforms_bind.
    eapply conforms_mono; [|apply stream_data]. by intros _ q ->.
Qed.

Lemma stream_read_round : keeps_stream SIdle read_round.
Proof. apply keeps_read_round; [cfm_run | cfm_run | apply stream_readLoopStep]. Qed.

Lemma stream_errors args : forallb is_err args -> keeps_stream SOther (convert_args args).
Proof.
  induction args as [|[e|b] args IH]; cbn; [done| |done]. intros H.
  apply keeps_bind; [by apply IH|done].
Qed.

(** The callback of a data event calls the handler with what it read. *)
Lemma stream_callback c l :
  stream_call c ->
  cfm_stream (match carried c with Some b => SRun b | None => SOther end)
    (callback c (run_script l)) (fun _ q => q = SOther).
Proof.
  intros Hc. unfold stream_call in Hc. unfold callback.
  assert (Hrest : keeps_stream SOther (do! run_script l in run_cleanup (call_cleanup c))).
  { apply keeps_bind; [apply keeps_run_script, stream_api|]. intros _. unfold run_cleanup.
    by destruct (call_cleanup c). }
  destruct (carried c) as [b|] eqn:Hb.
  - unfold carried in Hb. destruct (call_args c) as [|[e|b'] [|]]; simplify_eq.
    apply andb_prop_elim in Hc as [He _]. apply bool_decide_unpack in He.
    cbn -[run_script]. intros d. rewrite bool_decide_true by done. cbn -[run_script].
    unfold handed_to. cbn -[run_script]. rewrite He. cbn -[run_script].
    rewrite bool_decide_true by done. intros _. exact Hrest.
  - apply andb_prop_elim in Hc as [He Hargs]. apply negb_prop_elim in He; rewrite bool_decide_spec in He.
    apply keeps_bind; [by apply stream_errors|]. intros vs.
    apply keeps_bind; [|intros _; exact Hrest]. cbn. by rewrite bool_decide_false.
Qed.
End stream.
