(* ===== verification/StreamSpec.v ===== *)
(** * The script receives the stream: the invariant and the properties

    How each step of a chunk's way preserves the invariant of the file Stream,
    and what it says of the bytes that the script's handler gets. *)
From S2P Require Import Prelude GoStd K6 Metrics Lang Socket Events Connect ReadWrite System Scenarios Ordering Buffers Product Stream.

Section stream.
Context `{K : K6}.

(** ** What a step changes *)

Abbreviation phases := (list (buffer_phase * stream_phase)).

(** The phases of the goroutines that a step starts. *)
Definition fresh_phase (g : goroutine) : buffer_phase * stream_phase :=
  (BNone, match g with GRead => SIdle | _ => SOther end).

Lemma phase_parts (qs : phases) (i : nat) q :
  qs !! i = Some q -> exists l1 l2, qs = l1 ++ q :: l2 /\ length l1 = i /\
    forall q', <[i := q']> qs = l1 ++ q' :: l2.
Proof.
  intros Hi. exists (take i qs), (drop (S i) qs). pose proof (lookup_lt_Some _ _ _ Hi).
  split_and!; [by rewrite take_drop_middle|rewrite length_take; lia|].
  intros q'. by apply insert_take_drop.
Qed.

Lemma reading_app l1 l2 : reading (l1 ++ l2) = reading l1 + reading l2.
Proof. unfold reading. by rewrite List.filter_app, length_app. Qed.

Lemma reading_cons q l : reading (q :: l) = (if is_reader q.2 then 1 else 0) + reading l.
Proof. unfold reading. cbn. by destruct (is_reader q.2). Qed.

Lemma readers_app l1 l2 : readers (l1 ++ l2) = readers l1 + readers l2.
Proof. unfold readers. by rewrite List.filter_app, length_app. Qed.

Lemma reading_fresh gs : reading (map fresh_phase gs) = readers gs.
Proof. induction gs as [|[] gs IH]; [done|..]; cbn [map]; rewrite reading_cons, IH; done. Qed.

(** Threads that are no readers hold nothing of the reader's. *)
Lemma reading_none (l : phases) :
  reading l = 0 -> (forall w, flat_map (in_reader w) l = []) /\ foldr Z.add 0%Z (map uncounted l) = 0%Z /\
  Forall (fun q => is_reader q.2 = false) l.
Proof.
  induction l as [|[b q] l IH]; [done|]. rewrite reading_cons. cbn [snd].
  destruct (is_reader q) eqn:Hq; [done|]. intros Hl. destruct (IH Hl) as (H1 & H2 & H3).
  split_and!; [|destruct q; cbn in *; try done|by constructor].
  intros w. cbn [flat_map]. rewrite H1. by destruct q.
Qed.

Lemma fresh_nothing gs :
  (forall w, flat_map (in_hand w) (map fresh_phase gs) = []) /\
  (forall w, flat_map (in_reader w) (map fresh_phase gs) = []) /\
  foldr Z.add 0%Z (map uncounted (map fresh_phase gs)) = 0%Z.
Proof.
  induction gs as [|[] gs (H1 & H2 & H3)]; [done|..]; cbn;
    (split_and!; [intros w; apply H1|intros w; apply H2|]); cbn in H3; rewrite H3; done.
Qed.

(** No other thread is a reader. *)
Lemma sole_reader ran l1 q l2 w :
  stream_ok ran (l1 ++ q :: l2) w -> readers (spawned w) < 2 -> is_reader q.2 = true ->
  reading l1 = 0 /\ reading l2 = 0.
Proof.
  intros HI Hr Hq. pose proof (so_readers _ _ _ HI) as H.
  rewrite reading_app, reading_cons, Hq in H. lia.
Qed.

(** The invariant after thread [length l1] took a step. *)
Lemma stream_step ran l1 q q' l2 gs w w' :
  stream_ok ran (l1 ++ q :: l2) w ->
  hears_data (sk w') = true -> Forall stream_call (accepted w') ->
  is_reader q'.2 = is_reader q.2 -> spawned w' = spawned w ++ gs ->
  phase_ok w' (length l1) q' ->
  (forall i qi, i <> length l1 -> phase_ok w i qi -> (l1 ++ q :: l2) !! i = Some qi -> phase_ok w' i qi) ->
  arrived w' = handed w' ++ flat_map (in_hand w') (l1 ++ q' :: l2) ++
    queued_chunks (length ran) w' ++ flat_map (in_reader w') (l1 ++ q' :: l2) ->
  totalRead (sk w') = int64 (total (arrived w') - foldr Z.add 0%Z (map uncounted (l1 ++ q' :: l2))) ->
  stream_ok ran (<[length l1 := q']> (l1 ++ q :: l2) ++ map fresh_phase gs) w'.
Proof.
  intros [Hord _ _ Hph Hrd _ _] Hh Hc Hq Hsp Hok Hoth Hs Hn.
  destruct (fresh_nothing gs) as (F1 & F2 & F3).
  rewrite insert_app_r_alt, Nat.sub_diag by lia. cbn [insert list_insert].
  split; try done.
  - intros i qi Hi. apply lookup_app_Some in Hi as [Hi|[_ Hi]].
    + destruct (decide (i = length l1)) as [->|Hne].
      * rewrite lookup_app_r, Nat.sub_diag in Hi by lia. cbn in Hi. by simplify_eq.
      * assert (Hi' : (l1 ++ q :: l2) !! i = Some qi).
        { apply lookup_app_Some in Hi as [Hi|[Hle Hi]]; [by apply lookup_app_l_Some|].
          rewrite lookup_app_r by done. destruct (i - length l1) eqn:Hd; [lia|done]. }
        apply Hoth; auto.
    + apply list_lookup_fmap_Some in Hi as (g & -> & _). by destruct g.
  - rewrite reading_app, reading_fresh, Hsp, readers_app, <-Hrd, !reading_app, !reading_cons, Hq. done.
  - by rewrite !flat_map_app, F1, F2, !app_nil_r, <-!flat_map_app.
  - by rewrite map_app, sum_app, F3, Z.add_0_r.
Qed.

Lemma in_hand_ext w w' q : bufs w' = bufs w -> in_hand w' q = in_hand w q.
Proof. intros Hb. unfold in_hand, payload. by rewrite Hb. Qed.

Lemma in_reader_ext w w' q : readBuf (sk w') = readBuf (sk w) -> in_reader w' q = in_reader w q.
Proof. intros Hb. unfold in_reader. by rewrite Hb. Qed.

Lemma phase_ok_ext w w' i q : bufs w' = bufs w -> phase_ok w i q -> phase_ok w' i q.
Proof. intros Hb. unfold phase_ok. by rewrite Hb. Qed.

Lemma queued_chunks_app m w w' cs :
  bufs w' = bufs w -> m <= length (accepted w) -> accepted w' = accepted w ++ cs ->
  queued_chunks m w' = queued_chunks m w ++ map (payload w) (omap carried cs).
Proof.
  intros Hb Hm Ha. unfold queued_chunks, payload. rewrite Ha, Hb, drop_app_le by done.
  by rewrite omap_app, map_app.
Qed.

(** A step that moves no chunk. *)
Lemma stream_same ran l1 q q' l2 gs cs w w' :
  stream_ok ran (l1 ++ q :: l2) w -> length ran <= length (accepted w) ->
  bufs w' = bufs w -> readBuf (sk w') = readBuf (sk w) -> hears_data (sk w') = true ->
  accepted w' = accepted w ++ cs -> Forall (fun c => stream_call c /\ carried c = None) cs ->
  is_reader q'.2 = is_reader q.2 -> spawned w' = spawned w ++ gs ->
  phase_ok w (length l1) q' -> arrived w' = arrived w -> handed w' = handed w ->
  in_hand w q' = in_hand w q -> in_reader w q' = in_reader w q ->
  totalRead (sk w') = int64 (totalRead (sk w) + (uncounted q - uncounted q')) ->
  stream_ok ran (<[length l1 := q']> (l1 ++ q :: l2) ++ map fresh_phase gs) w'.
Proof.
  intros HI Hm Hb Hrb Hh Ha Hcs Hq Hsp Hok Har Hha Hih Hir Ht.
  apply (stream_step ran l1 q q' l2 gs w w'); try done.
  - rewrite Ha. apply Forall_app_2; [apply HI|]. eapply Forall_impl; [exact Hcs|]. by intros c [? _].
  - by eapply phase_ok_ext.
  - intros i qi _ H _. by eapply phase_ok_ext.
  - rewrite Har, Hha, (so_stream _ _ _ HI), (queued_chunks_app _ w w' cs) by done.
    assert (Hnone : omap carried cs = []).
    { clear -Hcs. induction Hcs as [|c cs [_ Hc] _ IH]; [done|]. cbn. by rewrite Hc. }
    rewrite Hnone, app_nil_r.
    rewrite (flat_map_ext (in_hand w') (in_hand w)) by (intros; by apply in_hand_ext).
    rewrite (flat_map_ext (in_reader w') (in_reader w)) by (intros; by apply in_reader_ext).
    rewrite !flat_map_app. cbn [flat_map]. by rewrite Hih, Hir.
  - rewrite Ht, (so_count _ _ _ HI), Har, int64_add_l, !map_app, !sum_app. cbn. f_equal. lia.
Qed.

(** What the operations of the aside phases leave alone. *)
Lemma aside_same X (o : op X) q q' r w x w' :
  interp o r w = Some (x, w') -> aside_delta X q o x = Some q' ->
  q' = q /\ bufs w' = bufs w /\ readBuf (sk w') = readBuf (sk w) /\
  (hears_data (sk w) = true -> hears_data (sk w') = true) /\
  Forall (fun c => stream_call c /\ carried c = None) (op_sends o x) /\
  arrived w' = arrived w /\ handed w' = handed w /\ totalRead (sk w') = totalRead (sk w).
Proof.
  intros Hint Hd. destruct o; cbn in Hint, Hd; try (repeat case_match; simplify_eq/=; by auto 10).
  - destruct u; simplify_eq/=; try by auto 10. destruct h; simplify_eq. split_and!; try done.
    unfold hears_data. cbn. destruct (decide (event = "data")) as [->|Hne];
      [by rewrite lookup_insert_eq | by rewrite lookup_insert_ne].
  - case_bool_decide as He; simplify_eq. split_and!; try done. unfold handed. cbn.
    rewrite omap_app. cbn. unfold handed_to. by rewrite bool_decide_false, app_nil_r.
Qed.

(** ** The buffers of others *)

(** A waiting data event owns the buffer it carries. *)
Lemma carried_owned ran (bs : list buffer_phase) w b :
  ran = seq 0 (length ran) -> Forall stream_call (accepted w) ->
  b ∈ omap carried (drop (length ran) (accepted w)) -> b ∈ all_owned ran bs w.
Proof.
  intros Hr Hc Hb. apply list_elem_of_omap in Hb as (c & Hin & Hcb).
  apply list_elem_of_lookup in Hin as [k Hk]. rewrite lookup_drop in Hk.
  assert (Hnr : length ran + k ∉ ran) by (rewrite Hr, length_seq, elem_of_seq; lia).
  apply elem_of_app. right. apply (owned_lookup _ (length ran + k)).
  rewrite (waiting_lookup _ _ _ c Hk Hnr). f_equal.
  apply (Forall_lookup_1 _ _ _ _ Hc) in Hk. unfold stream_call in Hk. rewrite Hcb in Hk.
  apply andb_prop_elim in Hk as [_ Hk]. by apply bool_decide_unpack in Hk.
Qed.

(** A step of the reader that changes only a buffer nobody else owns. *)
Lemma stream_buffer ran l1 q q' l2 w w' b d :
  stream_ok ran (l1 ++ q :: l2) w -> readers (spawned w) < 2 ->
  is_reader q.2 = true -> is_reader q'.2 = true ->
  (b ∉ all_owned ran (map fst (l1 ++ (BNone, SIdle) :: l2)) w) ->
  bufs w' = <[b := d]> (bufs w) -> sk w' = sk w -> accepted w' = accepted w ->
  spawned w' = spawned w -> arrived w' = arrived w -> invoked w' = invoked w ->
  phase_ok w' (length l1) q' -> in_reader w q' = in_reader w q -> uncounted q' = uncounted q ->
  stream_ok ran (<[length l1 := q']> (l1 ++ q :: l2) ++ map fresh_phase []) w'.
Proof.
  intros HI Hr Hq Hq' Hb Hbf Hsk Hac Hsp Har Hinv Hok Hir Hun.
  destruct (sole_reader _ _ _ _ _ HI Hr Hq) as [Hl1 Hl2].
  destruct (reading_none _ Hl1) as (_ & _ & HF1). destruct (reading_none _ Hl2) as (_ & _ & HF2).
  assert (Hpay : forall b', b' ∈ all_owned ran (map fst (l1 ++ (BNone, SIdle) :: l2)) w ->
                 payload w' b' = payload w b').
  { intros b' Hin. unfold payload. rewrite Hbf, lookup_insert_ne; [done|]. by intros <-. }
  assert (Hhand : forall l, (l = l1 ++ q' :: l2) -> flat_map (in_hand w') l = flat_map (in_hand w) l).
  { intros l ->. apply flat_map_lookup_ext. intros j qj Hj. unfold in_hand.
    destruct (qj.2) eqn:Hqj; try done. f_equal.
    assert (Hne : j <> length l1).
    { intros ->. rewrite lookup_app_r, Nat.sub_diag in Hj by done. cbn in Hj. simplify_eq.
      by rewrite Hqj in Hq'. }
    assert (Hj2 : forall p, (l1 ++ p :: l2) !! j = Some qj).
    { intros p. apply lookup_app_Some in Hj as [Hj|[Hle Hj]]; [by apply lookup_app_l_Some|].
      rewrite lookup_app_r by done. destruct (j - length l1) eqn:Hd; [lia|done]. }
    pose proof (so_phases _ _ _ HI _ _ (Hj2 q)) as Hp. unfold phase_ok in Hp. rewrite Hqj in Hp.
    destruct Hp as [-> Hp]. apply Hpay, elem_of_app. left.
    apply (owned_lookup _ 0). specialize (Hj2 (BNone, SIdle)).
    rewrite map_map, list_lookup_fmap, Hj2. cbn. by rewrite Hp. }
  apply (stream_step ran l1 q q' l2 [] w w'); try done; rewrite ?Hsk, ?Hac, ?Har, ?app_nil_r; try done.
  - apply HI.
  - apply HI.
  - by rewrite Hq, Hq'.
  - intros j qj Hne Hp Hj. unfold phase_ok in *.
    assert (Hn : is_reader qj.2 = false).
    { apply lookup_app_Some in Hj as [Hj|[Hle Hj]]; [by apply (Forall_lookup_1 _ _ _ _ HF1 Hj)|].
      destruct (j - length l1) eqn:Hd; [lia|]. by apply (Forall_lookup_1 _ _ _ _ HF2 Hj). }
    by destruct (qj.2).
  - rewrite (so_stream _ _ _ HI). unfold handed. rewrite Hinv, Hhand by done. f_equal.
    rewrite (flat_map_ext (in_reader w') (in_reader w)) by (intros; apply in_reader_ext; by rewrite Hsk).
    rewrite !flat_map_app. cbn [flat_map]. unfold queued_chunks. rewrite Hac.
    rewrite Hir. assert (Hnh : forall q, is_reader q.2 = true -> in_hand w q = [])
      by (intros [? []]; done). rewrite (Hnh q Hq), (Hnh q' Hq'). do 2 f_equal.
    apply map_ext_in. intros b' Hb'%list_elem_of_In. symmetry. apply Hpay, carried_owned; [apply HI..|done].
  - by rewrite (so_count _ _ _ HI), !map_app, !sum_app; cbn; rewrite Hun.
Qed.

Lemma all_owned_split ran (l1 l2 : phases) bq sq w :
  all_owned ran (map fst (l1 ++ (bq, sq) :: l2)) w ≡ₚ
  option_list (buffer_of bq) ++ all_owned ran (map fst (l1 ++ (BNone, SIdle) :: l2)) w.
Proof.
  unfold all_owned. rewrite !map_app. cbn. rewrite !owned_app. cbn.
  destruct (buffer_of bq); cbn; solve_Permutation.
Qed.

(** ** The steps of a chunk *)

(** It arrives. *)
Lemma stream_arrive ran l1 bq l2 data w :
  stream_ok ran (l1 ++ (bq, SIdle) :: l2) w -> readers (spawned w) < 2 -> data <> [] ->
  stream_ok ran (<[length l1 := (bq, SGot (length data) false)]> (l1 ++ (bq, SIdle) :: l2) ++
    map fresh_phase []) (arrive data w).
Proof.
  intros HI Hr Hd. destruct (sole_reader _ _ _ _ _ HI Hr eq_refl) as [Hl1 Hl2].
  destruct (reading_none _ Hl1) as (R1 & U1 & _). destruct (reading_none _ Hl2) as (R2 & U2 & _).
  assert (Har : arrived (arrive data w) = arrived w ++ [data]) by (cbn; by destruct data).
  apply (stream_step ran l1 (bq, SIdle) _ l2 [] w); try done.
  - apply HI.
  - apply HI.
  - cbn. by rewrite app_nil_r.
  - rewrite Har, (so_stream _ _ _ HI).
    change (in_hand (arrive data w)) with (in_hand w).
    rewrite !flat_map_app. cbn [flat_map]. rewrite !R1, !R2. unfold in_reader at 1 2. cbn.
    rewrite take_app_length. by rewrite !app_nil_r, <-!app_assoc.
  - rewrite Har. cbn [arrive set_arrived upd_sk set_sk sk with_readBuf totalRead].
    rewrite (so_count _ _ _ HI), !map_app, !sum_app. cbn. rewrite U1, U2. unfold total.
    rewrite concat_app, length_app. cbn. rewrite app_nil_r. f_equal. lia.
Qed.

(** Its event is accepted. *)
Lemma stream_accept ran l1 bq bq' l2 b d c w w' :
  stream_ok ran (l1 ++ (bq, SSend b d) :: l2) w -> readers (spawned w) < 2 ->
  length ran <= length (accepted w) -> stream_call c -> carried c = Some b ->
  w' = set_lp (lp w') w -> accepted w' = accepted w ++ [c] ->
  stream_ok ran (<[length l1 := (bq', SIdle)]> (l1 ++ (bq, SSend b d) :: l2) ++ map fresh_phase []) w'.
Proof.
  intros HI Hr Hm Hc Hb Hw Ha. destruct (sole_reader _ _ _ _ _ HI Hr eq_refl) as [Hl1 Hl2].
  destruct (reading_none _ Hl1) as (R1 & _ & _). destruct (reading_none _ Hl2) as (R2 & _ & _).
  assert (Hbd : payload w b = d).
  { pose proof (so_phases _ _ _ HI (length l1) (bq, SSend b d)) as Hp.
    rewrite lookup_app_r, Nat.sub_diag in Hp by done. destruct (Hp eq_refl) as [_ Hp'].
    unfold payload. by rewrite Hp'. }
  assert (Hbf : bufs w' = bufs w) by (by rewrite Hw).
  apply (stream_step ran l1 (bq, SSend b d) _ l2 [] w); try done.
  - rewrite Hw. apply HI.
  - rewrite Ha. apply Forall_app_2; [apply HI|by constructor].
  - by rewrite Hw, app_nil_r.
  - intros i qi _ Hp _. by eapply phase_ok_ext.
  - rewrite (queued_chunks_app _ w w' [c]) by done. cbn [omap list_omap]. rewrite Hb. cbn [map].
    rewrite Hbd. transitivity (arrived w); [by rewrite Hw|]. rewrite (so_stream _ _ _ HI).
    rewrite (flat_map_ext (in_hand w') (in_hand w)) by (intros; by apply in_hand_ext).
    rewrite !flat_map_app. cbn [flat_map]. rewrite !R1, !R2. cbn.
    replace (handed w') with (handed w) by (by rewrite Hw). by rewrite <-!app_assoc.
  - transitivity (totalRead (sk w)); [by rewrite Hw|]. rewrite (so_count _ _ _ HI), !map_app, !sum_app.
    cbn. by replace (arrived w') with (arrived w) by (by rewrite Hw).
Qed.

(** It is handed to the handler. *)
Lemma stream_hand ran bq bq' l2 d i w :
  stream_ok ran ((bq, SHold d) :: l2) w -> handed_to i = Some d ->
  stream_ok ran (<[0 := (bq', SOther)]> ((bq, SHold d) :: l2) ++ map fresh_phase [])
    (set_invoked (invoked w ++ [i]) w).
Proof.
  intros HI Hi. apply (stream_step ran [] (bq, SHold d) _ l2 [] w); try done; try apply HI.
  - cbn. by rewrite app_nil_r.
  - cbn [arrived set_invoked]. rewrite (so_stream _ _ _ HI). unfold handed. cbn.
    rewrite omap_app. cbn. rewrite Hi. by rewrite <-!app_assoc.
Qed.

(** Only the JS thread runs callbacks. *)
Lemma hands_js ran q (l : phases) w : stream_ok ran (q :: l) w -> flat_map (in_hand w) l = [].
Proof.
  intros HI. assert (H : forall i p, l !! i = Some p -> in_hand w p = []).
  { intros i p Hi. pose proof (so_phases _ _ _ HI (S i) p Hi) as Hp.
    unfold phase_ok, in_hand in *. destruct (p.2); try done. by destruct Hp. }
  clear HI. induction l as [|p l IH]; [done|]. cbn. rewrite (H 0 p eq_refl), IH; [done|].
  intros i. apply (H (S i)).
Qed.

(** A callback starts: its chunk leaves the queue. *)
Lemma stream_start ran qs w i c :
  stream_ok ran ((BNone, SOther) :: qs) w -> queue w !! i = Some c -> ran ++ [i] = seq 0 (S (length ran)) ->
  stream_ok (ran ++ [i]) ((match call_cleanup c with Some b => BRun b | None => BNone end,
    match carried c with Some b => SRun b | None => SOther end) :: qs) w.
Proof.
  intros HI Hq Hran. rewrite seq_S in Hran. apply app_inj_tail in Hran as [Hran ->]. cbn in Hq.
  pose proof (accepted_queue _ _ _ Hq) as Ha.
  pose proof (Forall_lookup_1 _ _ _ _ (so_calls _ _ _ HI) Ha) as Hc.
  assert (Hdrop : drop (length ran) (accepted w) = c :: drop (length ran + 1) (accepted w))
    by (rewrite (drop_S _ c) by done; by rewrite Nat.add_1_r).
  split; try apply HI.
  - rewrite length_app. cbn. rewrite Nat.add_1_r, seq_S, <-Hran. done.
  - intros [|j] q Hj.
    + cbn in Hj. simplify_eq. unfold phase_ok. cbn. destruct (carried c) as [b|] eqn:Hb; [|done].
      unfold stream_call in Hc. rewrite Hb in Hc. apply andb_prop_elim in Hc as [_ Hc].
      apply bool_decide_unpack in Hc. by rewrite Hc.
    + apply (so_phases _ _ _ HI (S j)). done.
  - rewrite <-(so_readers _ _ _ HI), !reading_cons. by destruct (carried c).
  - rewrite (so_stream _ _ _ HI). unfold queued_chunks. rewrite Hdrop, length_app. cbn.
    rewrite (hands_js _ _ _ _ HI). unfold in_hand, in_reader at 1 3. cbn.
    by destruct (carried c).
  - rewrite (so_count _ _ _ HI). cbn. by destruct (carried c).
Qed.

(** ** The invariant is preserved *)

Lemma interp_vu_done {X} (o : op X) r w x w' : interp o r w = Some (x, w') -> vu_done w' = vu_done w.
Proof. destruct o; cbn; intros H; repeat case_match; by simplify_eq/=. Qed.

(** The number of callbacks that have started. *)
Lemma started_accepted v ran bs w :
  buffer_inv v ran bs w -> ran = seq 0 (length ran) -> length ran <= length (accepted w).
Proof.
  intros HI Hr. pose proof (queue_accepted_length w). destruct ran as [|i ran]; cbn; [lia|].
  assert (Hin : length ran ∈ i :: ran) by (rewrite Hr; apply elem_of_seq; cbn; lia).
  apply (bi_ran _ _ _ _ HI) in Hin. lia.
Qed.

(** The reader gets a buffer, and fills it. *)
Lemma stream_get v ran l1 l2 n r b w w' :
  buffer_inv v ran (map fst (l1 ++ (BNone, SGot n true) :: l2)) w ->
  stream_ok ran (l1 ++ (BNone, SGot n true) :: l2) w -> readers (spawned w) < 2 ->
  interp BufGet r w = Some (b, w') ->
  stream_ok ran (<[length l1 := (BFill b, SBuf b n)]> (l1 ++ (BNone, SGot n true) :: l2) ++
    map fresh_phase []) w'.
Proof.
  intros HB HI Hr Hint. cbn in Hint. destruct r; simplify_eq. case_match eqn:Hf; simplify_eq.
  apply (stream_buffer _ _ _ _ _ w _ b []); try done.
  - assert (Hp := all_owned_split ran l1 l2 BNone (SGot n true) w). cbn in Hp. rewrite <-Hp.
    intros Hb. destruct (bi_out _ _ _ _ HB b Hb) as [Hnp [d Hd]]. rewrite Hd in Hf.
    by rewrite bool_decide_false in Hf.
  - unfold phase_ok. cbn. by rewrite lookup_insert_eq.
Qed.

Lemma stream_fill v ran l1 l2 b d r u w w' :
  buffer_inv v ran (map fst (l1 ++ (BFill b, SSnap b d) :: l2)) w ->
  stream_ok ran (l1 ++ (BFill b, SSnap b d) :: l2) w -> readers (spawned w) < 2 ->
  interp (BufWrite b d) r w = Some (u, w') ->
  stream_ok ran (<[length l1 := (BFill b, SFull b d)]> (l1 ++ (BFill b, SSnap b d) :: l2) ++
    map fresh_phase []) w'.
Proof.
  intros HB HI Hr Hint. cbn in Hint. destruct (bufs w !! b) as [old|] eqn:Hold; simplify_eq.
  assert (old = []) as ->.
  { pose proof (so_phases _ _ _ HI (length l1) (BFill b, SSnap b d)) as Hp.
    rewrite lookup_app_r, Nat.sub_diag in Hp by done. destruct (Hp eq_refl) as [_ Hp'].
    cbn in Hp'. congruence. }
  apply (stream_buffer _ _ _ _ _ w _ b d); try done.
  - pose proof (bi_nodup _ _ _ _ HB) as Hn. rewrite all_owned_split in Hn. cbn in Hn.
    by apply NoDup_cons in Hn as [? _].
  - unfold phase_ok. cbn. by rewrite lookup_insert_eq.
Qed.

Definition stream_after (ran : list nat) (l1 l2 : phases) (q q' : buffer_phase * stream_phase)
    (gs : list goroutine) (w' : world) : Prop :=
  stream_ok ran (<[length l1 := q']> (l1 ++ q :: l2) ++ map fresh_phase gs) w'.

Section step.
Context (v : option watch) (ran : list nat) (l1 l2 : phases) (bq bq' : buffer_phase).
Context (sq sq' : stream_phase) (X : Type) (o : op X) (r : reply) (x : X) (w w' : world).
Context (HB : buffer_inv v ran (map fst (l1 ++ (bq, sq) :: l2)) w).
Context (HI : stream_ok ran (l1 ++ (bq, sq) :: l2) w).
Context (Hint : interp o r w = Some (x, w')).

Let result : Prop := stream_after ran l1 l2 (bq, sq) (bq', sq') (op_spawns o) w'.

Lemma stream_aside : aside sq -> aside_delta X sq o x = Some sq' -> result.
Proof.
  intros Has Hd. destruct (aside_same _ _ _ _ _ _ _ _ Hint Hd) as (-> & Hb & Hrb & Hh & Hcs & Har & Hha & Ht).
  pose proof (started_accepted _ _ _ _ HB (so_order _ _ _ HI)) as Hm.
  apply (stream_same ran l1 (bq, sq) _ l2 _ (op_sends o x) w); try done.
  - apply Hh, HI.
  - by eapply interp_accepted.
  - by eapply interp_spawned.
  - unfold phase_ok. by destruct Has as [-> | ->].
  - rewrite Ht, (so_count _ _ _ HI), int64_add_l. f_equal.
    unfold uncounted. cbn. destruct sq as [| | | |? []| | | |]; lia.
Qed.

(** An operation that leaves the socket and the buffers alone. *)
Lemma stream_quiet l :
  w' = set_samples l w ->
  is_reader sq' = is_reader sq -> phase_ok w (length l1) (bq', sq') ->
  in_hand w (bq', sq') = in_hand w (bq, sq) -> in_reader w (bq', sq') = in_reader w (bq, sq) ->
  uncounted (bq', sq') = uncounted (bq, sq) ->
  stream_after ran l1 l2 (bq, sq) (bq', sq') [] w'.
Proof.
  intros Hw Hr Hok Hh Hrd Hu.
  pose proof (started_accepted _ _ _ _ HB (so_order _ _ _ HI)) as Hm.
  apply (stream_same ran l1 (bq, sq) _ l2 [] [] w); rewrite ?Hw, ?app_nil_r; try done.
  - apply HI.
  - cbn [sk set_samples]. by rewrite Hu, Z.sub_diag, Z.add_0_r, (so_count _ _ _ HI), int64_idemp.
Qed.

Lemma stream_here : phase_ok w (length l1) (bq, sq).
Proof. apply (so_phases _ _ _ HI). by rewrite lookup_app_r, Nat.sub_diag. Qed.

End step.

Lemma set_samples_id w : w = set_samples (samples w) w.
Proof. by destruct w. Qed.

Lemma arrive_nil w : arrive [] w = w.
Proof. destruct w as [[] ? ? ? ? ? ? ? ? ? ? ? ? ? ? ? ? ?]. unfold arrive. cbn. by rewrite app_nil_r. Qed.

(** The reader counts its chunk. *)
Lemma stream_counted ran l1 bq n l2 w :
  stream_ok ran (l1 ++ (bq, SGot n false) :: l2) w -> length ran <= length (accepted w) ->
  stream_after ran l1 l2 (bq, SGot n false) (bq, SGot n true) []
    (upd_sk (apply_upd (AddRead (Z.of_nat n))) w).
Proof.
  intros HI Hm. apply (stream_same ran l1 (bq, SGot n false) _ l2 [] [] w); try done.
  - apply HI.
  - cbn. by rewrite app_nil_r.
  - cbn. by rewrite app_nil_r.
  - cbn. by rewrite Z.sub_0_r.
Qed.

Lemma stream_op_ok v ran l1 l2 bq bq' sq sq' X (o : op X) r x w w' :
  buffer_inv v ran (map fst (l1 ++ (bq, sq) :: l2)) w -> stream_ok ran (l1 ++ (bq, sq) :: l2) w ->
  interp o r w = Some (x, w') -> readers (spawned w) < 2 -> vu_done w' = false ->
  buffer_delta X bq o x = Some bq' -> stream_delta X sq o x = Some sq' ->
  stream_after ran l1 l2 (bq, sq) (bq', sq') (op_spawns o) w'.
Proof.
  intros HB HI Hint Hr Hvu Hb Hd. pose proof (stream_here _ _ _ _ _ _ HI) as Hok.
  pose proof (started_accepted _ _ _ _ HB (so_order _ _ _ HI)) as Hm.
  destruct sq as [|b|d| |n counted|b n|b d|b d|b d].
  - eapply stream_aside; [done..|by left|done].
  - destruct o; simplify_eq/=. repeat case_bool_decide; simplify_eq. destruct Hok as [H0 Hown].
    case_match eqn:Hbb; simplify_eq.
    eapply stream_quiet; try first [done|apply set_samples_id].
    unfold in_hand, payload. cbn. by rewrite Hbb.
  - destruct o; simplify_eq/=. case_bool_decide; simplify_eq. unfold phase_ok in Hok. cbn in Hok.
    destruct l1; [|done]. by apply stream_hand.
  - destruct o; try (eapply stream_aside; [done..|by right|done]).
    cbn in Hint, Hb, Hd. destruct r; try done. destruct (conns w !! c); [|done].
    destruct (read_allowed _); simplify_eq. destruct data as [|y data]; cbn.
    + rewrite arrive_nil. by eapply stream_quiet; first [done|apply set_samples_id].
    + by apply (stream_arrive ran l1 bq' l2 (y :: data)).
  - destruct o; simplify_eq/=.
    + destruct u; simplify_eq. case_match eqn:Hc; simplify_eq.
      apply andb_prop in Hc as [Hc Hn]. destruct counted; [done|].
      apply bool_decide_eq_true in Hn as ->. by apply stream_counted.
    + destruct (vu_done w) eqn:Hv; [congruence|].
      by eapply stream_quiet; first [done|apply set_samples_id].
    + destruct r; simplify_eq. by eapply stream_quiet; first [done|apply set_samples_id].
    + destruct counted, bq; simplify_eq. by eapply stream_get.
  - destruct o; simplify_eq/=. by eapply stream_quiet; first [done|apply set_samples_id].
  - destruct o; simplify_eq/=. repeat case_bool_decide; simplify_eq. destruct_and?; subst.
    by eapply (stream_fill _ _ _ _ _ _ r).
  - destruct o; simplify_eq/=. rewrite (so_hears _ _ _ HI).
    by eapply stream_quiet; first [done|apply set_samples_id].
  - destruct o; simplify_eq/=. case_match eqn:Hc; simplify_eq.
    apply andb_prop in Hc as [Hc Hcar]. apply bool_decide_eq_true in Hcar.
    destruct r; simplify_eq. destruct sent; [|destruct (vu_done w) eqn:?; simplify_eq; congruence].
    destruct (lp w) eqn:Hlp; simplify_eq.
    eapply stream_accept; try done; [by rewrite Hc|]. unfold accepted. cbn. by rewrite Hlp, app_nil_r.
Qed.

Lemma stream_sends X (q q' : stream_phase) (o : op X) x :
  stream_delta X q o x = Some q' -> Forall stream_call (op_sends o x).
Proof.
  intros Hd. destruct o; try by constructor. destruct x; [|by constructor].
  constructor; [|done]. destruct q; cbn in Hd; try done; destruct (stream_call c); done.
Qed.

Lemma stream_inv_op v ran (qs : phases) w i q q' X (o : op X) r x w' :
  buffer_inv v ran (map fst qs) w -> stream_inv ran qs w -> qs !! i = Some q ->
  interp o r w = Some (x, w') ->
  buffer_delta X q.1 o x = Some q'.1 -> stream_delta X q.2 o x = Some q'.2 ->
  stream_inv ran (<[i := q']> qs ++ map fresh_phase (op_spawns o)) w'.
Proof.
  intros HB [Hc HI] Hi Hint Hb Hd. pose proof (interp_spawned _ _ _ _ _ Hint) as Hsp.
  split.
  { rewrite (interp_accepted _ _ _ _ _ Hint). apply Forall_app_2; [done|by eapply stream_sends]. }
  destruct (vu_done w') eqn:Hvu; [by left|]. right.
  destruct (decide (2 <= readers (spawned w))) as [H2|H2].
  { left. rewrite Hsp, readers_app. lia. }
  right. destruct HI as [HI|[HI|[HI|HI]]]; [|done|by left|right].
  { rewrite (interp_vu_done _ _ _ _ _ Hint) in Hvu. congruence. }
  destruct (phase_parts _ _ _ Hi) as (l1 & l2 & -> & <- & _). destruct q as [bq sq], q' as [bq' sq'].
  eapply (stream_op_ok v); [done..|lia|done|done|done].
Qed.

Lemma stream_ok_world ran qs w w' :
  stream_ok ran qs w -> sk w' = sk w -> accepted w' = accepted w -> bufs w' = bufs w ->
  spawned w' = spawned w -> arrived w' = arrived w -> invoked w' = invoked w -> stream_ok ran qs w'.
Proof.
  intros [Ho Hh Hc Hp Hr Hs Hn] Hsk Ha Hb Hsp Har Hi.
  split; rewrite ?Hsk, ?Ha, ?Hsp, ?Har; try done.
  - intros i q Hq. by eapply phase_ok_ext, Hp.
  - rewrite Hs. unfold handed, queued_chunks, payload. rewrite Hi, Ha, Hb.
    by rewrite (flat_map_ext (in_hand w') (in_hand w)), (flat_map_ext (in_reader w') (in_reader w))
      by (intros; by first [apply in_hand_ext | apply in_reader_ext; rewrite Hsk]).
Qed.

#[export] Instance stream_laws v : CompanionLaws (buffer_protocol v) stream_companion.
Proof.
  split.
  - apply stream_api.
  - intros. by apply stream_callback.
  - intros p. eapply conforms_mono; [|apply stream_connect_goroutine]. intros _ q ->. by left.
  - intros. eapply conforms_mono; [|apply stream_write_goroutine]. intros _ q ->. by left.
  - apply co_rounds_same. eapply conforms_mono; [|apply stream_read_round]. intros [] q ->; [done|].
    eapply conforms_mono; [|apply stream_destroy; by right]. intros _ q ->. by right.
  - intros ran qs w i q q' X o r x w' HB HI Hi _ Hint Hd. cbn in Hd. unfold both in Hd.
    destruct (buffer_delta X q.1 o x) as [bq|] eqn:Hb; [|done].
    destruct (stream_delta X q.2 o x) as [sq|] eqn:Hs; simplify_eq.
    by eapply (stream_inv_op v).
  - intros ran qs w w' [Hc HI] Hl. pose proof (loop_accepted _ _ Hl) as Ha.
    assert (Hw : w' = set_lp (lp w') (set_queue (queue w') w))
      by (unfold loop_step in Hl; repeat case_match; simplify_eq; by destruct w).
    split; [by rewrite Ha|]. destruct HI as [HI|[HI|[HI|HI]]]; [left|right; left|by right; right; left|].
    + by rewrite Hw.
    + by rewrite Hw.
    + do 3 right. apply (stream_ok_world _ _ w); try done; by rewrite Hw.
  - intros ran qs w i c [Hc _] Hi. eapply (Forall_lookup_1 _ _ _ _ Hc). by apply accepted_queue.
  - intros ran qs w i c _ [Hc HI] Hi _. split; [done|].
    destruct HI as [HI|[HI|[HI|HI]]]; [by left|by right; left| |].
    + right. right. left. rewrite length_app, Nat.add_1_r, seq_S. by intros [? _]%app_inj_tail.
    + destruct (decide (ran ++ [i] = seq 0 (S (length ran)))) as [Hr|Hr].
      * do 3 right. by apply stream_start.
      * right. right. left. by rewrite length_app, Nat.add_1_r.
  - intros ran qs w d [Hc HI]. split; [done|].
    destruct HI as [HI|[HI|[HI|HI]]]; [by left|by right; left|by right; right; left|].
    do 3 right. by apply (stream_ok_world _ _ w).
  - intros ran qs w [Hc _]. split; [done|by left].
Qed.

(** ** Properties *)

Definition stream_protocol : Protocol (buffer_phase * stream_phase) :=
  product (buffer_protocol None) stream_companion.

Lemma stream_protocol_laws : ProtocolLaws (P := stream_protocol).
Proof. exact (product_laws _ _ (buffer_laws None) (stream_laws None)). Qed.

(** A constructed socket on which only handlers were registered, a data
    handler among them. *)
Record listening (c : cfg) : Prop := {
  li_unconnected : unconnected c;
  li_ran : ran c = [];
  li_arrived : arrived (cw c) = [];
  li_invoked : invoked (cw c) = [];
  li_count : totalRead (sk (cw c)) = 0%Z;
  li_hears : hears_data (sk (cw c)) = true
}.

Lemma listening_inv c : listening c -> cfg_inv (P := stream_protocol) c.
Proof.
  intros [(Ht & Hsp & Ha) Hr Har Hinv Hc Hh].
  apply (cfg_inv_start (P := stream_protocol)); [done..|]. rewrite Hr. split.
  - cbn. split; unfold all_owned; rewrite ?Ha; cbn; try done; try constructor; set_solver.
  - split; [by rewrite Ha|]. do 3 right.
    split; unfold handed, queued_chunks; rewrite ?Ha, ?Har, ?Hinv, ?Hc, ?Hsp; try done.
    intros [|i] q Hi; cbn in Hi; by simplify_eq.
Qed.

Lemma stream_reached c0 c :
  listening c0 -> steps c0 c -> vu_done (cw c) = false -> readers (spawned (cw c)) <= 1 ->
  ran c = seq 0 (length (ran c)) ->
  exists qj qs th ths, threads c = th :: ths /\ js_ok (P := stream_protocol) qj th /\
    Forall2 (go_ok (P := stream_protocol)) qs ths /\ stream_ok (ran c) (qj :: qs) (cw c).
Proof.
  intros Hl Hs Hvu Hr Hran.
  destruct (cfg_inv_steps (L := stream_protocol_laws) _ _ Hs (listening_inv _ Hl))
    as (qj & qs & th & ths & Ht & Hj & Hgs & _ & [_ [_ HI]]).
  exists qj, qs, th, ths. split_and!; [done..|].
  destruct HI as [HI|[HI|[HI|HI]]]; [congruence|lia|done|done].
Qed.

(** What the script got is the beginning of what arrived. *)
Lemma handed_first c0 c :
  listening c0 -> steps c0 c -> vu_done (cw c) = false -> readers (spawned (cw c)) <= 1 ->
  ran c = seq 0 (length (ran c)) -> handed (cw c) `prefix_of` arrived (cw c).
Proof.
  intros Hl Hs Hvu Hr Hran.
  destruct (stream_reached _ _ Hl Hs Hvu Hr Hran) as (qj & qs & _ & _ & _ & _ & _ & HI).
  rewrite (so_stream _ _ _ HI). by eexists.
Qed.

(** A reader holds at most one chunk, and has counted what it does not hold. *)
Lemma pending_length (qs : phases) w : length (flat_map (in_reader w) qs) <= reading qs.
Proof.
  induction qs as [|[b q] qs IH]; [done|]. rewrite reading_cons. cbn [flat_map snd].
  rewrite length_app. destruct q; cbn; lia.
Qed.

Lemma pending_none (qs : phases) w :
  flat_map (in_reader w) qs = [] -> foldr Z.add 0%Z (map uncounted qs) = 0%Z.
Proof.
  induction qs as [|[b q] qs IH]; [done|]. cbn [flat_map]. intros [Hq Hqs]%app_eq_nil.
  cbn [map foldr]. rewrite (IH Hqs). by destruct q.
Qed.

(** C5: nothing of the stream is lost, doubled, reordered or cut. Take a
    socket on which handlers were registered, a data handler among them, and any
    interleaving of its goroutines while the VU runs, with one reader and a task
    queue that starts the callbacks in the order they were queued. The chunks
    that [conn.Read] returned are, in order: those the data handler was called
    with, one that a running callback is about to hand over, those of the events
    that wait, and one that the reader has not sent yet. What the reader does not
    hold is counted in [bytes_read]. *)
Theorem stream_in_order (c0 c : cfg) :
  listening c0 -> steps c0 c -> vu_done (cw c) = false -> readers (spawned (cw c)) <= 1 ->
  ran c = seq 0 (length (ran c)) ->
  exists running pending,
    arrived (cw c) = handed (cw c) ++ running ++ queued_chunks (length (ran c)) (cw c) ++ pending /\
    length running <= 1 /\ length pending <= 1 /\ (js_idle c = true -> running = []) /\
    (pending = [] -> totalRead (sk (cw c)) = int64 (total (arrived (cw c)))).
Proof.
  intros Hl Hs Hvu Hr Hran.
  destruct (stream_reached _ _ Hl Hs Hvu Hr Hran) as (qj & qs & th & ths & Ht & Hj & _ & HI).
  exists (in_hand (cw c) qj), (flat_map (in_reader (cw c)) (qj :: qs)).
  pose proof (so_stream _ _ _ HI) as Hst. cbn [flat_map] in Hst.
  rewrite (hands_js _ _ _ _ HI), app_nil_r in Hst. split_and!; [done| | | |].
  - destruct qj as [? []]; cbn; lia.
  - etransitivity; [apply pending_length|]. by rewrite (so_readers _ _ _ HI).
  - intros Hid. by rewrite (js_idle_q (P := stream_protocol) c qj th ths Hid Ht Hj).
  - intros Hp. by rewrite (so_count _ _ _ HI), (pending_none _ _ Hp), Z.sub_0_r.
Qed.

(** Every goroutine has returned or is a reader that waits in [conn.Read]. *)
Definition resting (th : thread) : bool :=
  match th with
  | TProg (Ret _) => true
  | TRead (Op (ConnRead _) _) => true
  | _ => false
  end.

Definition at_rest (c : cfg) : bool := forallb resting (threads c).

Lemma at_rest_holds_nothing qs ths w :
  Forall2 (go_ok (P := stream_protocol)) qs ths -> forallb resting ths = true ->
  flat_map (in_reader w) qs = [].
Proof.
  induction 1 as [|[b q] th qs ths Hg _ IH]; intros Hf; [done|].
  apply andb_prop in Hf as [Hth Hf]. cbn [flat_map]. rewrite (IH Hf).
  destruct th as [[a|]|[|X o k]]; try done.
  - destruct Hg as [_ [Hg|Hg]]; cbn in Hg; by rewrite Hg.
  - destruct o; try done. destruct Hg as (R & _ & Hg). specialize (Hg (0, None)). cbn in Hg. unfold both in Hg. cbn in Hg.
    by destruct q.
Qed.

(** What holds when the JS thread and the readers have nothing in hand. *)
Lemma stream_at_rest (c0 c : cfg) :
  listening c0 -> steps c0 c -> vu_done (cw c) = false -> readers (spawned (cw c)) <= 1 ->
  at_rest c = true -> ran c = seq 0 (length (accepted (cw c))) ->
  handed (cw c) = arrived (cw c) /\ totalRead (sk (cw c)) = int64 (total (arrived (cw c))).
Proof.
  intros Hl Hs Hvu Hr Hf Hran.
  assert (Hlen : length (ran c) = length (accepted (cw c))) by (by rewrite Hran, length_seq).
  destruct (stream_reached _ _ Hl Hs Hvu Hr) as (qj & qs & th & ths & Ht & Hj & Hgs & HI);
    [by rewrite Hlen|].
  unfold at_rest in Hf. rewrite Ht in Hf. apply andb_prop in Hf as [Hth Hf].
  destruct th as [[[]|]|]; try done. cbn in Hj. subst qj.
  pose proof (at_rest_holds_nothing _ _ (cw c) Hgs Hf) as Hp.
  assert (Hp' : flat_map (in_reader (cw c)) ((BNone, SOther) :: qs) = []) by done.
  pose proof (so_stream _ _ _ HI) as Hst. rewrite Hp' in Hst. cbn [flat_map] in Hst.
  rewrite (hands_js _ _ _ _ HI) in Hst. unfold queued_chunks in Hst.
  rewrite Hlen, drop_all in Hst. cbn in Hst. rewrite app_nil_r in Hst. split; [done|].
  by rewrite (so_count _ _ _ HI), (pending_none _ _ Hp'), Z.sub_0_r.
Qed.

(** C16: at rest nothing is missing: when every goroutine has returned or waits
    for more data, and all callbacks have run, the data handler was called with
    exactly the chunks that arrived, and [bytes_read] is the number of their bytes
    (as int64). *)
Theorem stream_complete (c0 c : cfg) :
  listening c0 -> steps c0 c -> vu_done (cw c) = false -> readers (spawned (cw c)) <= 1 ->
  at_rest c = true -> ran c = seq 0 (length (accepted (cw c))) ->
  handed (cw c) = arrived (cw c) /\ totalRead (sk (cw c)) = int64 (total (arrived (cw c))).
Proof. apply stream_at_rest. Qed.
End stream.

(** ** Witnesses *)
#[local] Existing Instance K6Ref.

(** The callbacks [i] to [i + n - 1] run, in order. *)
Definition callbacks (i n : nat) : list cmd :=
  List.concat (map (fun j => [Step (SCallback j []); Run 0 []]) (seq i n)).

Definition listening_cfg : cfg := play (register all_events) fresh_cfg.

(** Two chunks arrive; [connect] and the first of them are delivered, and the
    callback of the second starts while a third arrives. *)
Definition flowing_cmds : list cmd :=
  call_connect ++ connected 1 ++ received 2 0 ++ received 2 1 ++ callbacks 0 2 ++
  [Step (SCallback 2 [])] ++ received 2 2.
Definition flowing_cfg : cfg := play flowing_cmds listening_cfg.

(** All are delivered, and the reader waits for more. *)
Definition drained_cmds : list cmd := [Run 0 []] ++ callbacks 3 1 ++ [Run 2 []].
Definition drained_cfg : cfg := play drained_cmds flowing_cfg.

Lemma listening_listening : listening listening_cfg.
Proof. split; [split; [|split]|..]; vm_compute; reflexivity. Qed.

Lemma stream_in_order_witness :
  listening listening_cfg /\ steps listening_cfg flowing_cfg /\
  (arrived (cw flowing_cfg) = [two_bytes; two_bytes; two_bytes] /\
   handed (cw flowing_cfg) = [two_bytes]) /\
  exists running pending,
    arrived (cw flowing_cfg) = handed (cw flowing_cfg) ++ running ++
      queued_chunks (length (ran flowing_cfg)) (cw flowing_cfg) ++ pending /\
    length running <= 1 /\ length pending <= 1 /\ (js_idle flowing_cfg = true -> running = []) /\
    (pending = [] -> totalRead (sk (cw flowing_cfg)) = int64 (total (arrived (cw flowing_cfg)))).
Proof.
  split; [exact listening_listening|]. split; [apply play_steps|].
  split; [split; vm_compute; reflexivity|].
  apply (stream_in_order listening_cfg flowing_cfg listening_listening).
  - apply play_steps.
  - vm_compute. reflexivity.
  - apply (bool_decide_unpack _). vm_compute. exact I.
  - vm_compute. reflexivity.
Defined.

Lemma stream_complete_witness :
  listening listening_cfg /\ steps listening_cfg drained_cfg /\
  (handed (cw drained_cfg) = arrived (cw drained_cfg) /\
   totalRead (sk (cw drained_cfg)) = int64 (total (arrived (cw drained_cfg)))).
Proof.
  assert (Hs : steps listening_cfg drained_cfg)
    by (unfold drained_cfg, flowing_cfg; rewrite <-play_app; apply play_steps).
  split; [exact listening_listening|]. split; [exact Hs|].
  apply (stream_complete listening_cfg drained_cfg listening_listening Hs).
  - vm_compute. reflexivity.
  - apply (bool_decide_unpack _). vm_compute. exact I.
  - vm_compute. reflexivity.
  - vm_compute. reflexivity.
Defined.
