(* ===== verification/Sent.v ===== *)
(** * The writing goroutines

    The phases of a goroutine that writes: the connection it picked and how much
    of its data it has sent, and the conformance of all programs to them. The data
    of a write is a slice: when it shares its array, what is sent is what the array
    holds at the time; a slice is [stable] when it has shown the same bytes since
    the write was called. The invariant and the theorem are in SentSpec. *)
From S2P Require Import Prelude GoStd K6 Metrics Lang Socket Events Connect ReadWrite System Scenarios Promises Product.

Inductive write_phase :=
| WOther                                     (** writes nothing *)
| WDialed (c : connid)                       (** a connecting goroutine with its connection *)
| WStart (p : promise) (data : goslice)      (** a writing goroutine *)
| WOn (p : promise) (data : goslice) (c : connid) (sent : nat).
    (** it has sent that many bytes on its connection *)

(** ** What an array held during a write

    The contents of the array when the [j]-th goroutine was started, and every
    content it was given since. *)
Definition seen (l : list store) (j : nat) (a : array) : list (list byte) :=
  contents (filter (fun s => st_after s <= j) l) a ::
  map st_bytes (filter (fun s => st_array s = a /\ j < st_after s) l).

(** The slice [s] has shown [data] ever since the [j]-th goroutine was started. *)
Definition stable (l : list store) (j : nat) (s : goslice) (data : list byte) : Prop :=
  match s with
  | Fresh bytes => bytes = data
  | Window a off len => Forall (fun bytes => window off len bytes = data) (seen l j a)
  end.

Lemma contents_snoc l x a :
  contents (l ++ [x]) a = if decide (st_array x = a) then st_bytes x else contents l a.
Proof.
  unfold contents. rewrite filter_app, filter_cons, filter_nil.
  destruct (decide (st_array x = a)); [by rewrite last_snoc|by rewrite app_nil_r].
Qed.

(** The array holds one of these contents. *)
Lemma contents_seen l j a : contents l a ∈ seen l j a.
Proof.
  induction l as [|x l IH] using rev_ind; [constructor|]. unfold seen in *.
  rewrite contents_snoc, !filter_app, !filter_cons, !filter_nil, map_app.
  destruct (decide (st_array x = a)) as [<-|Hne].
  - destruct (decide (st_after x <= j)).
    + rewrite contents_snoc, decide_True by done. constructor.
    + rewrite decide_True by (split; [done|lia]). apply list_elem_of_further, elem_of_app. right. constructor.
  - rewrite (decide_False (P := _ /\ _)) by (by intros [? _]). rewrite app_nil_r.
    destruct (decide (st_after x <= j)); [by rewrite contents_snoc, decide_False|by rewrite app_nil_r].
Qed.

Lemma stable_shown `{K : K6} w j s data : stable (stores w) j s data -> shown w s = data.
Proof.
  destruct s as [bytes|a off len]; [done|]. cbn. rewrite Forall_forall. intros H.
  apply H, contents_seen.
Qed.

Lemma stable_len `{K : K6} w j s data : stable (stores w) j s data -> length data = slice_len s.
Proof. intros H. rewrite <-(stable_shown w j s data H). apply length_shown. Qed.

(** What was stable is stable for those who looked before the last write. *)
Lemma stable_before l x j s data : j < st_after x -> stable (l ++ [x]) j s data -> stable l j s data.
Proof.
  intros Hj. destruct s as [bytes|a off len]; [done|]. cbn. unfold seen.
  rewrite !filter_app, !filter_cons, !filter_nil, map_app.
  rewrite (decide_False (P := st_after x <= j)) by lia. rewrite app_nil_r.
  rewrite !Forall_cons, Forall_app. tauto.
Qed.

Section sent.
Context `{K : K6}.

Definition write_delta (X : Type) (q : write_phase) (o : op X) : X -> option write_phase :=
  match q with
  | WOther =>
      match o in op X return X -> option write_phase with
      | ConnWrite _ _ | SetS (SetConn (Some _)) => fun _ => None
      | DialContext _ => fun r => Some (match r with Ok c => WDialed c | Err _ => WOther end)
      | _ => fun _ => Some q
      end
  | WDialed c =>
      match o in op X return X -> option write_phase with
      | ConnWrite _ _ | DialContext _ => fun _ => None
      | SetS (SetConn (Some c')) => fun _ => if bool_decide (c' = c) then Some q else None
      | _ => fun _ => Some q
      end
  | WStart p data =>
      match o in op X return X -> option write_phase with
      | GetS => fun s => Some (match conn s with Some c => WOn p data c 0 | None => q end)
      | RLock | RUnlock => fun _ => Some q
      | Settle _ v => fun _ => match v with Resolved => None | _ => Some WOther end
      | _ => fun _ => None
      end
  | WOn p data c sent =>
      match o in op X return X -> option write_phase with
      | ConnWrite c' d => fun r =>
          if bool_decide (c' = c /\ d = slice_from sent data) then Some (WOn p data c (sent + r.1)) else None
      | Settle _ v => fun _ =>
          match v with
          | Resolved => if slice_len data <=? sent then Some WOther else None
          | _ => Some WOther
          end
      | RUnlock | SetS (AddWritten _) | CurrentTags | Push _ _ _ => fun _ => Some q
      | _ => fun _ => None
      end
  end.

Abbreviation keeps_sent := (keeps (fun X => write_delta X)).
Abbreviation cfm_sent := (conforms (fun X => write_delta X)).

(** ** The programs conform *)
Lemma sent_destroy : keeps_sent WOther destroy.
Proof. cfm_run. Qed.

Lemma sent_read_round : keeps_sent WOther read_round.
Proof.
  apply keeps_read_round; [cfm_run | cfm_run |]. intros c t. unfold readLoopStep. cfm_run.
Qed.

Lemma sent_api a : keeps_sent WOther (api_prog a).
Proof.
  apply keeps_api; [intros; apply keeps_connect; cfm_run|intros; apply keeps_write; cfm_run|apply sent_destroy|cfm_run|intros; unfold on; cfm_run|cfm_run|done|cfm_run].
Qed.

Lemma sent_callback c l : keeps_sent WOther (callback c (run_script l)).
Proof. apply keeps_callback; try apply sent_api; cfm_run. Qed.

(** The connection that is stored is the one that was dialed. *)
Lemma sent_connect_goroutine p : cfm_sent WOther (connect_goroutine p) (fun _ _ => True).
Proof.
  unfold connect_goroutine, connectExecute, addDurationMetricsFor, dial, wrapTLS, dial_finish.
  cfm_run; match goal with H : bool_decide (?a = ?a) = false |- _ => by apply bool_decide_eq_false in H end.
Qed.

(** The loop of [writeExecute] sends the data from where it is. *)
Lemma sent_write_loop fuel p c data total (post : nat * option goerr -> write_phase -> Prop) :
  slice_len data - total < fuel ->
  (forall r sent, (r.2 = None -> slice_len data <= sent) -> post r (WOn p data c sent)) ->
  cfm_sent (WOn p data c total) (write_loop fuel c data total) post.
Proof.
  intros Hf Hp. revert total Hf. induction fuel as [|fuel IH]; intros total Hf; [lia|].
  cbn [write_loop]. destruct (Nat.ltb_spec total (slice_len data)); [|by apply Hp].
  intros [n err]. cbn -[Nat.eqb write_loop]. rewrite bool_decide_true by done.
  destruct err as [e|]; [by apply Hp|]. destruct (Nat.eqb_spec n 0); [by apply Hp|].
  intros ?. cbn. apply IH. lia.
Qed.

(** Without an error all of the data has been sent. *)
Definition executed (p : promise) (data : goslice) (res : option goerr) (q : write_phase) : Prop :=
  (q = WStart p data /\ res <> None) \/
  exists c sent, q = WOn p data c sent /\ (res = None -> slice_len data <= sent).

Lemma sent_writeExecute p data opts :
  cfm_sent (WStart p data) (writeExecute data opts) (executed p data).
Proof.
  unfold writeExecute. intros ? s. cbn -[write_loop]. destruct (conn s) as [c|]; cbn -[write_loop]; intros _; [|by left].
  apply conforms_bind. apply sent_write_loop; [lia|]. intros [total res] sent Hs. cbn in Hs.
  apply conforms_same_bind; [cfm_run|]. intros _. cbn. intros. right. by exists c, sent.
Qed.

Lemma sent_write_goroutine p data opts :
  cfm_sent (WStart p data) (write_goroutine p data opts) (fun _ _ => True).
Proof.
  apply conforms_bind. eapply conforms_mono; [|apply sent_writeExecute].
  intros [e|] q [[-> Hr]|(c & sent & -> & Hr)]; try done. cbn. intros _.
  by rewrite (proj2 (Nat.leb_le _ _)) by auto.
Qed.
End sent.
