(* ===== verification/SentSpec.v ===== *)
(** * What goes over the wire

    The bytes that a connection was given are those of the script's writes and
    no others: they are the fragments that the writing goroutines sent, each
    write's own in order and on one connection, and the promise of a write resolves
    only when all of its bytes are among them, whatever other writers, the reader
    and [destroy] do meanwhile. The protocol of the promises runs beside the phases
    of Sent, so that nobody else settles the promise of a write. *)
From S2P Require Import Prelude GoStd K6 Metrics Lang Socket Events Connect ReadWrite System Scenarios Promises Product Sent.

(** What one call of [Write] sent: for which goroutine, on which connection. *)
Record fragment := { fr_write : nat; fr_conn : connid; fr_bytes : list byte }.

Definition fragments_of (log : list fragment) (j : nat) : list fragment :=
  filter (fun f => fr_write f = j) log.
Definition bytes_of (log : list fragment) : list byte := List.concat (map fr_bytes log).

(** The bytes of the fragments on connection [c]. *)
Definition on_wire (log : list fragment) (c : connid) : list byte :=
  bytes_of (filter (fun f => fr_conn f = c) log).

Lemma bytes_of_app l1 l2 : bytes_of (l1 ++ l2) = bytes_of l1 ++ bytes_of l2.
Proof. unfold bytes_of. by rewrite map_app, concat_app. Qed.

Lemma on_wire_app l1 l2 c : on_wire (l1 ++ l2) c = on_wire l1 c ++ on_wire l2 c.
Proof. unfold on_wire. by rewrite filter_app, bytes_of_app. Qed.

Lemma fragments_of_app l1 l2 j : fragments_of (l1 ++ l2) j = fragments_of l1 j ++ fragments_of l2 j.
Proof. apply filter_app. Qed.

Lemma fragments_of_one f j : fragments_of [f] j = if decide (fr_write f = j) then [f] else [].
Proof. reflexivity. Qed.

Section spec.
Context `{K : K6}.

(** ** The invariant *)

(** The [j]-th goroutine, which writes [s], has sent its first [n] bytes. *)
Definition accounted (log : list fragment) (w : world) (j : nat) (s : goslice) (n : nat) : Prop :=
  forall data, stable (stores w) j s data -> bytes_of (fragments_of log j) = take n data.

(** All its fragments are on the connection [c]. *)
Definition all_on (log : list fragment) (j : nat) (c : connid) : Prop :=
  Forall (fun f => fr_conn f = c) (fragments_of log j).

Definition is_write (w : world) (j : nat) (p : promise) (s : goslice) : Prop :=
  exists opts, spawned w !! j = Some (GWrite p s opts).

(** The script awaits its writes: when a write was called, the promises of all
    earlier ones had been settled. *)
Definition awaited (w : world) : Prop :=
  forall j j' p s p' s', j < j' -> is_write w j p s -> is_write w j' p' s' ->
  exists m, marks w !! j' = Some m /\ p ∈ map fst (take m (settled w)).

(** The phase [q] of thread [i]. *)
Definition write_ok (log : list fragment) (w : world) (i : nat) (q : option promise * write_phase) : Prop :=
  match q.2 with
  | WOther => True
  | WDialed c => is_Some (conns w !! c)
  | WStart p s =>
      exists j, i = S j /\ q.1 = Some p /\ is_write w j p s /\ fragments_of log j = []
  | WOn p s c sent => is_Some (conns w !! c) /\
      exists j, i = S j /\ q.1 = Some p /\ is_write w j p s /\ accounted log w j s sent /\ all_on log j c
  end.

(** A write that is over: all of it was sent, if its promise resolved. *)
Definition settled_sent (log : list fragment) (w : world) (j : nat) (p : promise) (s : goslice) : Prop :=
  p ∈ map fst (settled w) /\ exists c n, all_on log j c /\ accounted log w j s n /\
  ((p, Resolved) ∈ settled w -> slice_len s <= n /\ is_Some (conns w !! c)).

Definition writes (q : option promise * write_phase) (p : promise) (s : goslice) : Prop :=
  q.1 = Some p /\ (q.2 = WStart p s \/ exists c sent, q.2 = WOn p s c sent).

Record sent_inv (log : list fragment) (qs : list (option promise * write_phase)) (w : world) : Prop := {
  se_fresh : forall c, is_Some (conns w !! c) -> c < next_conn w;
  se_conn : forall c, conn (sk w) = Some c -> is_Some (conns w !! c);
  se_wire : forall c nc, conns w !! c = Some nc -> nc_sent nc = on_wire log c;
  se_log : Forall (fun f => fr_conn f < next_conn w /\ exists p s, is_write w (fr_write f) p s) log;
  se_marks : length (marks w) = length (spawned w) /\ Forall (fun m => m <= length (settled w)) (marks w);
  se_sorted : awaited w -> StronglySorted le (map fr_write log);
  se_phases : forall (i : nat) q, qs !! i = Some q -> write_ok log w i q;
  se_writes : forall (j : nat) p s, is_write w j p s ->
    (exists q, qs !! S j = Some q /\ writes q p s) \/ settled_sent log w j p s
}.

Definition sent_companion : companion (option promise) write_phase := {|
  co_delta := write_delta;
  co_js := WOther;
  co_callback _ := WOther;
  co_call _ := True;
  co_go g := match g with GWrite p data _ => WStart p data | _ => WOther end;
  co_fin _ := True;
  co_inv _ qs w := exists log, sent_inv log qs w
|}.

(** ** What the operations do *)

Lemma interp_fresh X (o : op X) r w x w' :
  (forall c, is_Some (conns w !! c) -> c < next_conn w) -> interp o r w = Some (x, w') ->
  forall c, is_Some (conns w' !! c) -> c < next_conn w'.
Proof.
  intros Hf Hint c. destruct o; cbn in Hint;
    try (repeat case_match; simplify_eq/=; rewrite ?lookup_alter_is_Some; by apply Hf).
  repeat case_match; simplify_eq/=; [apply Hf|].
  rewrite lookup_insert_is_Some. intros [<-|[_ Hc]]; [lia|]. apply Hf in Hc. lia.
Qed.

(** Connections stay. *)
Lemma interp_known X (o : op X) r w x w' c :
  interp o r w = Some (x, w') -> is_Some (conns w !! c) -> is_Some (conns w' !! c).
Proof.
  intros Hint Hc. destruct o; cbn in Hint;
    try (repeat case_match; simplify_eq/=; by rewrite ?lookup_alter_is_Some).
  repeat case_match; simplify_eq/=; [done|]. rewrite lookup_insert_is_Some. destruct (decide (next_conn w = c)); auto.
Qed.

(** The fragment that an operation of thread [i] sends. *)
Definition sends (w : world) (i : nat) {X} (o : op X) : X -> list fragment :=
  match o in op X return X -> list fragment with
  | ConnWrite c s => fun res =>
      [{| fr_write := pred i; fr_conn := c; fr_bytes := take res.1 (shown w s) |}]
  | _ => fun _ => []
  end.

(** Connections get these bytes and no others. *)
Lemma interp_wire X (o : op X) r w x w' i c nc' :
  interp o r w = Some (x, w') -> conns w' !! c = Some nc' ->
  (exists nc, conns w !! c = Some nc /\ nc_sent nc' = nc_sent nc ++ on_wire (sends w i o x) c) \/
  c = next_conn w /\ nc_sent nc' = [] /\ sends w i o x = [].
Proof.
  intros Hint Hc.
  assert (Halter : forall f c', (forall nc, nc_sent (f nc) = nc_sent nc) ->
    sends w i o x = [] -> conns w' = alter f c' (conns w) ->
    exists nc, conns w !! c = Some nc /\ nc_sent nc' = nc_sent nc ++ on_wire (sends w i o x) c).
  { intros f c' Hf -> Hw. rewrite Hw in Hc. apply lookup_alter_Some in Hc as [(-> & nc & Hn & ->)|[_ Hn]].
    - exists nc. by rewrite Hf, app_nil_r.
    - exists nc'. by rewrite app_nil_r. }
  destruct o; cbn in Hint; try (repeat case_match; simplify_eq/=; left;
    first [by exists nc'; rewrite app_nil_r | eapply Halter; [|done|done]; done]).
  - repeat case_match; simplify_eq/=; [left; by exists nc'; rewrite app_nil_r|].
    apply lookup_insert_Some in Hc as [[<- <-]|[_ Hc]]; [by right|].
    left. exists nc'. by rewrite app_nil_r.
  - repeat case_match; simplify_eq/=. left. unfold on_wire. cbn [sends]. rewrite filter_cons, filter_nil. cbn [fr_conn].
    apply lookup_alter_Some in Hc as [(-> & nc & Hn & ->)|[Hne Hn]].
    + exists nc. rewrite decide_True by done. cbn. by rewrite app_nil_r.
    + exists nc'. by rewrite decide_False, app_nil_r by done.
Qed.

(** Arrays are written to, and nobody rewrites the past. *)
Lemma interp_stores X (o : op X) r w x w' :
  interp o r w = Some (x, w') ->
  stores w' = stores w \/ exists s, stores w' = stores w ++ [s] /\ st_after s = length (spawned w).
Proof. destruct o; cbn; intros H; repeat case_match; simplify_eq/=; eauto. Qed.

Lemma interp_stable X (o : op X) r w x w' j s data :
  interp o r w = Some (x, w') -> j < length (spawned w) ->
  stable (stores w') j s data -> stable (stores w) j s data.
Proof.
  intros Hint Hj. destruct (interp_stores _ _ _ _ _ _ Hint) as [->|(st & -> & Hst)]; [done|].
  apply stable_before. lia.
Qed.

Definition op_settles {X} (o : op X) : list (promise * settlement) :=
  match o with Settle p v => [(p, v)] | _ => [] end.

Lemma interp_settled X (o : op X) r w x w' :
  interp o r w = Some (x, w') -> settled w' = settled w ++ op_settles o.
Proof. destruct o; cbn; intros H; repeat case_match; simplify_eq/=; by rewrite ?app_nil_r. Qed.

Lemma interp_marks X (o : op X) r w x w' :
  interp o r w = Some (x, w') -> marks w' = marks w ++ map (fun _ => length (settled w)) (op_spawns o).
Proof. destruct o; cbn; intros H; repeat case_match; simplify_eq/=; by rewrite ?app_nil_r. Qed.

(** ** The operations preserve the invariant *)
Section step.
Context (log : list fragment) (qs : list (option promise * write_phase)) (w w' : world) (i : nat).
Context (bq bq' : option promise) (sq sq' : write_phase) (X : Type) (o : op X) (r : reply) (x : X).
Context (HP : promise_inv (map fst qs) w) (HI : sent_inv log qs w) (Hi : qs !! i = Some (bq, sq)).
Context (Hint : interp o r w = Some (x, w')).
Context (Hb : promise_delta X bq o x = Some bq') (Hd : write_delta X sq o x = Some sq').

Definition log' : list fragment := log ++ sends w i o x.

Lemma is_write_kept j p s : is_write w j p s -> is_write w' j p s.
Proof.
  intros [opts Hj]. exists opts. rewrite (interp_spawned _ _ _ _ _ Hint). by apply lookup_app_l_Some.
Qed.

Lemma is_write_lt j p s : is_write w j p s -> j < length (spawned w).
Proof. intros [opts Hj]. by eapply lookup_lt_Some. Qed.

Lemma is_write_fun j p p2 s s2 : is_write w j p s -> is_write w j p2 s2 -> p = p2 /\ s = s2.
Proof. intros [? H1] [? H2]. rewrite H1 in H2. by injection H2. Qed.

(** Only a writing goroutine sends. *)
Lemma sends_cases :
  sends w i o x = [] \/
  exists p s c sent n j, sq = WOn p s c sent /\ sq' = WOn p s c (sent + n) /\ bq' = bq /\
    op_settles o = [] /\ i = S j /\ bq = Some p /\ is_write w j p s /\
    sends w i o x = [{| fr_write := j; fr_conn := c; fr_bytes := take n (drop sent (shown w s)) |}].
Proof.
  pose proof (se_phases _ _ _ HI _ _ Hi) as Hok. unfold write_ok in Hok. cbn [fst snd] in Hok.
  destruct o; try (by left). right. destruct sq as [| | |p s c' sent]; cbn in Hd; try done.
  case_bool_decide as Hcd; [|done]. destruct Hcd as [-> ->]. simplify_eq. cbn in Hb. simplify_eq.
  destruct Hok as (_ & j & -> & Hbq & Hw & _). exists p, s, c', sent, x.1, j.
  split_and!; try done. cbn. by rewrite shown_from.
Qed.

(** The fragments of the other writes are as they were. *)
Lemma others_kept j : S j <> i -> fragments_of log' j = fragments_of log j.
Proof.
  intros Hj. unfold log'. rewrite fragments_of_app.
  destruct sends_cases as [-> |(p & s & c & sent & n & j0 & _ & _ & _ & _ & -> & _ & _ & ->)].
  - apply app_nil_r.
  - rewrite fragments_of_one, decide_False by (cbn; congruence). apply app_nil_r.
Qed.

Lemma accounted_kept j s n :
  fragments_of log' j = fragments_of log j -> j < length (spawned w) ->
  accounted log w j s n -> accounted log' w' j s n.
Proof.
  intros Hf Hj Ha data Hst. rewrite Hf. apply Ha. by eapply interp_stable.
Qed.

Lemma write_ok_kept n q : n <> i -> write_ok log w n q -> write_ok log' w' n q.
Proof.
  intros Hn. unfold write_ok. destruct q.2 as [|c|p s|p s c sent]; try done.
  - by apply (interp_known X o r w x w').
  - intros (j & -> & Hq & Hw & Hf). exists j. rewrite others_kept by done. eauto using is_write_kept.
  - intros (Hc & j & -> & Hq & Hw & Ha & Hf). split; [by eapply interp_known|].
    exists j. unfold all_on. rewrite others_kept by done. split_and!; eauto using is_write_kept.
    apply accounted_kept; [by apply others_kept|by eapply is_write_lt|done].
Qed.

(** The stored connection is a dialed one. *)
Lemma stored_known c : conn (sk w') = Some c -> is_Some (conns w' !! c).
Proof.
  intros Hc. apply (interp_known X o r w x w' c Hint).
  destruct o; cbn in Hint; try (repeat case_match; simplify_eq/=; by apply HI).
  simplify_eq. destruct u as [|[c'|]| | | | | | | | | | |]; try (by apply HI); cbn in Hc; simplify_eq.
  pose proof (se_phases _ _ _ HI _ _ Hi) as Hok. unfold write_ok in Hok. cbn [fst snd] in Hok.
  destruct sq; cbn in Hd; try done. case_bool_decide; by subst.
Qed.

(** A writer that goes on keeps its promise. *)
Lemma promise_kept p :
  bq = Some p -> (exists s, sq = WStart p s \/ exists c sent, sq = WOn p s c sent) ->
  op_settles o = [] -> bq' = Some p.
Proof.
  intros -> (s & Hs) Ho. destruct o; cbn in Hb, Ho; simplify_eq; try done.
  by destruct Hs as [->|(c & sent & ->)].
Qed.

(** Without a fragment the log is as it was. *)
Lemma log_same : sends w i o x = [] -> log' = log.
Proof. intros Hs. unfold log'. rewrite Hs. apply app_nil_r. Qed.

(** The phase after the operation accounts for what was sent. *)
Lemma next_write_ok : write_ok log' w' i (bq', sq').
Proof.
  pose proof (se_phases _ _ _ HI _ _ Hi) as Hok. pose proof promise_kept as Hkept.
  pose proof is_write_kept as Hwk. pose proof accounted_kept as Hak.
  destruct sends_cases as [Hs|(p & s & c & sent & n & j & Hsq & -> & -> & _ & Hij & -> & Hw & Hs)].
  - rewrite (log_same Hs) in Hak |- *.
    destruct sq as [|c|p s|p s c sent]; unfold write_ok in Hok |- *; cbn [fst snd] in Hok |- *.
    + destruct o; cbn in Hd; simplify_eq; try done; repeat case_match; simplify_eq; try done.
      cbn in Hint. repeat case_match; simplify_eq. cbn. by rewrite lookup_insert_eq.
    + apply (interp_known X o r w x w' c Hint) in Hok.
      destruct o; cbn in Hd; simplify_eq; try done; repeat case_match; simplify_eq; done.
    + destruct Hok as (j & Hij & Hbq & Hw & Hf). specialize (Hkept p Hbq).
      destruct o; cbn in Hd; simplify_eq; try done; repeat case_match; simplify_eq; try done.
      all: try (exists j; split_and!; eauto; done).
      cbn in Hint. simplify_eq. split; [by apply HI|]. exists j. split_and!; eauto.
      * intros bytes _. by rewrite Hf.
      * unfold all_on. by rewrite Hf.
    + destruct Hok as (Hc & j & Hij & Hbq & Hw & Ha & Hf).
      assert (Hsame : op_settles o = [] -> bq' = Some p) by (apply Hkept; eauto 10). clear Hkept.
      apply (interp_known X o r w x w' c Hint) in Hc. apply Hak in Ha; [|done|by eapply is_write_lt].
      destruct o; cbn in Hd, Hs; simplify_eq; try done; repeat case_match; simplify_eq; try done.
      all: split; [done|]; exists j; split_and!; eauto.
  - unfold write_ok in Hok. cbn [fst snd] in Hok. rewrite Hsq in Hok.
    destruct Hok as (Hc & j' & Hij' & _ & _ & Ha & Hf).
    assert (j' = j) as -> by congruence. unfold write_ok. cbn [fst snd]. split; [by apply (interp_known X o r w x w' c Hint)|].
    assert (Hfr : fragments_of log' j = fragments_of log j ++ sends w i o x).
    { unfold log'. by rewrite fragments_of_app, Hs, fragments_of_one, decide_True. }
    rewrite Hs in Hfr. exists j. split_and!; [done|done|by apply Hwk| |]; [|unfold all_on; rewrite Hfr].
    + intros bytes Hst. rewrite Hfr, bytes_of_app.
      assert (Hst' : stable (stores w) j s bytes)
        by (eapply interp_stable; [exact Hint|by eapply is_write_lt|exact Hst]).
      rewrite (Ha bytes Hst'), (stable_shown w j s bytes Hst'). cbn. by rewrite app_nil_r, take_take_drop.
    + apply Forall_app. split; [done|by constructor].
Qed.

(** What was given to the connections is what was logged. *)
Lemma wire_kept c nc : conns w' !! c = Some nc -> nc_sent nc = on_wire log' c.
Proof.
  intros Hc. unfold log'. rewrite on_wire_app.
  destruct (interp_wire X o r w x w' i c nc Hint Hc) as [(nc0 & H0 & ->)|(-> & -> & ->)].
  - by rewrite (se_wire _ _ _ HI c nc0 H0).
  - pose proof (se_log _ _ _ HI) as Hl. unfold on_wire at 1 2.
    replace (filter (fun f => fr_conn f = next_conn w) log) with ([] : list fragment); [done|].
    symmetry. apply filter_none. eapply Forall_impl; [exact Hl|]. intros f [Hf _]. lia.
Qed.

(** Who awaits all writes has awaited them so far. *)
Lemma awaited_before : awaited w' -> awaited w.
Proof.
  intros Ha j j' p s p' s' Hj Hw Hw'.
  destruct (Ha j j' p s p' s' Hj (is_write_kept _ _ _ Hw) (is_write_kept _ _ _ Hw')) as (m & Hm & Hp).
  pose proof (se_marks _ _ _ HI) as [Hlen Hle]. pose proof (is_write_lt _ _ _ Hw') as Hlt.
  rewrite (interp_marks _ _ _ _ _ _ Hint), lookup_app_l in Hm by lia. exists m. split; [done|].
  pose proof (Forall_lookup_1 _ _ _ _ Hle Hm) as Hmn. cbn in Hmn.
  by rewrite (interp_settled _ _ _ _ _ _ Hint), take_app_le in Hp.
Qed.

Lemma marks_kept :
  length (marks w') = length (spawned w') /\ Forall (fun m => m <= length (settled w')) (marks w').
Proof.
  pose proof (se_marks _ _ _ HI) as [Hlen Hle].
  rewrite (interp_marks _ _ _ _ _ _ Hint), (interp_spawned _ _ _ _ _ Hint), (interp_settled _ _ _ _ _ _ Hint).
  rewrite !length_app, length_map. split; [lia|]. apply Forall_app. split.
  - eapply Forall_impl; [exact Hle|]. intros m Hm. cbn in Hm |- *. lia.
  - apply Forall_fmap, Forall_true. intros g. cbn. lia.
Qed.

Lemma interp_next_conn : next_conn w <= next_conn w'.
Proof. clear -Hint. destruct o; cbn in Hint; repeat case_match; simplify_eq/=; lia. Qed.

Lemma logged_kept :
  Forall (fun f => fr_conn f < next_conn w' /\ exists p s, is_write w' (fr_write f) p s) log'.
Proof.
  pose proof interp_next_conn as Hn. apply Forall_app. split.
  - eapply Forall_impl; [exact (se_log _ _ _ HI)|]. intros f (Hf & p & s & Hw).
    split; [lia|]. exists p, s. by apply is_write_kept.
  - destruct sends_cases as [-> |(p & s & c & sent & n & j & Hsq & _ & _ & _ & Hij & _ & Hw & ->)]; [done|].
    pose proof (se_phases _ _ _ HI _ _ Hi) as Hok. unfold write_ok in Hok. cbn [fst snd] in Hok.
    rewrite Hsq in Hok. destruct Hok as [Hc _]. apply HI in Hc. constructor; [|done]. cbn.
    split; [lia|]. exists p, s. by apply is_write_kept.
Qed.

Lemma owned_here p (j : nat) q : qs !! j = Some q -> q.1 = Some p -> p ∈ owned (map fst qs).
Proof.
  intros Hj Hp. apply (owned_lookup _ j). change (Some p) with (@id (option promise) (Some p)).
  rewrite list_lookup_fmap, Hj. cbn. by rewrite Hp.
Qed.

(** No promise that a thread owns is settled, and no two threads own it. *)
Lemma owned_apart :
  NoDup (map fst (settled w) ++ owned (map fst qs)).
Proof. unfold promise_inv in HP. rewrite HP. apply NoDup_seq. Qed.

Lemma owned_once p (j : nat) q :
  bq = Some p -> qs !! j = Some q -> q.1 = Some p -> j = i.
Proof.
  intros -> Hj Hq. destruct (decide (j = i)) as [|Hne]; [done|exfalso].
  pose proof owned_apart as Hn. apply NoDup_app in Hn as (_ & _ & Hn).
  assert (Hmi : map fst qs !! i = Some (Some p)) by (rewrite list_lookup_fmap, Hi; done).
  rewrite (owned_release _ _ _ Hmi) in Hn. apply NoDup_cons in Hn as [Hn _]. apply Hn.
  apply (owned_lookup _ j). rewrite list_lookup_insert_ne, list_lookup_fmap, Hj by done.
  cbn. by rewrite Hq.
Qed.

Lemma settled_not_owned p (j : nat) q :
  p ∈ map fst (settled w) -> qs !! j = Some q -> q.1 <> Some p.
Proof.
  intros Hp Hj Hq. pose proof owned_apart as Hn. apply NoDup_app in Hn as (_ & Hn & _).
  apply (Hn p Hp). by apply (owned_here p j q).
Qed.

(** What is settled stays settled the way it was. *)
Lemma settled_sent_kept j p s :
  is_write w j p s -> settled_sent log w j p s -> settled_sent log' w' j p s.
Proof.
  intros Hw (Hin & c & n & Hc & Ha & Hres). pose proof (interp_settled _ _ _ _ _ _ Hint) as Hset.
  assert (Hsame : fragments_of log' j = fragments_of log j).
  { destruct sends_cases as [Hs|(p0 & s0 & c0 & sent & m & j0 & _ & _ & _ & _ & Hij & Hbq & Hw0 & _)];
      [by rewrite (log_same Hs)|]. apply others_kept. intros Hj. assert (j0 = j) as -> by congruence.
    destruct (is_write_fun _ _ _ _ _ Hw Hw0) as [-> ->]. by apply (settled_not_owned p0 i (bq, sq) Hin Hi). }
  split; [|exists c, n; split; [unfold all_on; by rewrite Hsame|split]].
  - rewrite Hset, map_app. by apply elem_of_app; left.
  - apply accounted_kept; [done|by eapply is_write_lt|done].
  - rewrite Hset. intros [H|H]%elem_of_app.
    { destruct (Hres H). split; [done|]. by eapply interp_known. }
    exfalso. clear Hsame.
    destruct o; cbn in H; try by apply not_elem_of_nil in H.
    apply list_elem_of_singleton in H as [= <- <-]. cbn in Hb. case_bool_decide as Hbq; [|done].
    by apply (settled_not_owned p i (bq, sq) Hin Hi).
Qed.

(** The fragments of awaited writes are sent in the order of the writes. *)
Lemma sorted_kept : awaited w' -> StronglySorted le (map fr_write log').
Proof.
  intros Ha. apply awaited_before in Ha. pose proof (se_sorted _ _ _ HI Ha) as Hs.
  destruct sends_cases as [Hn|(p & s & c & sent & n & j & _ & _ & _ & _ & _ & Hbq & Hw & Hn)];
    [by rewrite (log_same Hn)|].
  unfold log'. rewrite Hn, map_app. apply StronglySorted_snoc; [done|]. apply Forall_fmap.
  eapply Forall_impl; [exact (se_log _ _ _ HI)|]. intros f (_ & p' & s' & Hw'). cbn.
  destruct (decide (fr_write f <= j)) as [|Hlt]; [done|]. exfalso.
  destruct (Ha j (fr_write f) p s p' s' ltac:(lia) Hw Hw') as (m & _ & Hp).
  apply (settled_not_owned p i (bq, sq)); [|done|done].
  apply list_elem_of_fmap in Hp as (e & -> & He). apply list_elem_of_fmap. exists e. split; [done|].
  apply elem_of_take in He as (k & He & _). by eapply list_elem_of_lookup_2.
Qed.

(** A writer goes on, or settles its promise. *)
Lemma writer_next j p s :
  i = S j -> is_write w j p s -> writes (bq, sq) p s ->
  writes (bq', sq') p s \/ settled_sent log' w' j p s.
Proof.
  pose proof promise_kept as Hkept. pose proof accounted_kept as Hak.
  intros Hij Hw [Hbq Hsq]. cbn in Hbq, Hsq.
  destruct (op_settles o) as [|[p' v] l] eqn:Ho.
  - left. split; cbn; [apply Hkept; [done| |done]; destruct Hsq; eauto|].
    clear Hak. destruct Hsq as [->|(c & sent & ->)]; destruct o; cbn in Hd; repeat case_match; simplify_eq; eauto.
  - right. assert (Hlog : log' = log) by (apply log_same; clear Hak; by destruct o).
    rewrite Hlog in Hak |- *. clear Hlog. pose proof (se_phases _ _ _ HI _ _ Hi) as Hok.
    unfold write_ok in Hok. cbn [fst snd] in Hok.
    pose proof (interp_settled _ _ _ _ _ _ Hint) as Hset.
    assert (Hnot : (p, Resolved) ∉ settled w).
    { intros H. by apply (settled_not_owned p i (bq, sq) (list_elem_of_fmap_2 fst _ _ H) Hi). }
    destruct o; cbn in Ho; simplify_eq. cbn in Hb. case_bool_decide as Hp; [|done]. simplify_eq.
    split; [rewrite Hset, map_app; apply elem_of_app; right; constructor|].
    destruct Hsq as [->|(c & sent & ->)]; cbn in Hd.
    + destruct Hok as (j' & [= <-] & _ & _ & Hf). exists 0, 0. unfold all_on. rewrite Hf. split; [done|].
      split; [intros bytes _; by rewrite Hf|]. rewrite Hset. intros [H|H]%elem_of_app; [done|].
      by apply list_elem_of_singleton in H as [= <-].
    + destruct Hok as (Hc & j' & [= <-] & _ & _ & Ha & Hf). exists c, sent. split; [done|].
      split; [apply Hak; [done|by eapply is_write_lt|done]|]. rewrite Hset.
      intros [H|H]%elem_of_app; [done|]. apply list_elem_of_singleton in H as [= <-].
      case_match eqn:Hl; [|done]. split; [by apply Nat.leb_le|by eapply interp_known].
Qed.

(** A goroutine that was just started has sent nothing. *)
Lemma spawned_write_ok n g :
  op_spawns o !! n = Some g ->
  write_ok log' w' (S (length (spawned w) + n)) (q_go (Protocol := product promise_protocol sent_companion) g).
Proof.
  intros Hg. rewrite log_same by (clear -Hg; by destruct o).
  destruct g as [p|p s opts|]; try done. exists (length (spawned w) + n). split_and!; [done|done| |].
  - exists opts. rewrite (interp_spawned _ _ _ _ _ Hint), lookup_app_r by lia. by rewrite Nat.add_sub_swap, Nat.sub_diag.
  - apply filter_none. eapply Forall_impl; [exact (se_log _ _ _ HI)|]. intros f (_ & p' & s' & Hw).
    apply is_write_lt in Hw. lia.
Qed.
End step.

(** The invariant after a step. *)
Lemma sent_inv_op log (qs : list (option promise * write_phase)) w w' (i : nat) bq bq' sq sq' X (o : op X) r x :
  promise_inv (map fst qs) w -> sent_inv log qs w -> qs !! i = Some (bq, sq) ->
  length qs = S (length (spawned w)) -> interp o r w = Some (x, w') ->
  promise_delta X bq o x = Some bq' -> write_delta X sq o x = Some sq' ->
  sent_inv (log ++ sends w i o x)
    (<[i := (bq', sq')]> qs ++ map (q_go (Protocol := product promise_protocol sent_companion)) (op_spawns o)) w'.
Proof.
  intros HP HI Hi Hlen Hint Hb Hd.
  pose proof (interp_spawned _ _ _ _ _ Hint) as Hsp. split.
  - eapply interp_fresh; [apply HI|done].
  - by eapply stored_known.
  - by eapply wire_kept.
  - by eapply logged_kept.
  - by eapply marks_kept.
  - by eapply sorted_kept.
  - intros j q Hj. apply lookup_app_Some in Hj as [Hj|[Hle Hj]].
    + apply list_lookup_insert_Some in Hj as [(-> & <- & _)|[Hne Hj]]; [by eapply next_write_ok|].
      eapply write_ok_kept; [done..|by apply (se_phases _ _ _ HI)].
    + apply list_lookup_fmap_Some in Hj as (g & -> & Hg). rewrite length_insert in Hle, Hg.
      replace j with (S (length (spawned w) + (j - length qs))) by lia. by eapply spawned_write_ok.
  - intros j p s [opts Hj]. rewrite Hsp in Hj. apply lookup_app_Some in Hj as [Hj|[Hle Hj]].
    + assert (Hw : is_write w j p s) by by exists opts.
      destruct (se_writes _ _ _ HI j p s Hw) as [([bq0 sq0] & Hq & Hwr)|Hs]; [|right; by eapply settled_sent_kept].
      destruct (decide (S j = i)) as [Hij|Hne].
      * rewrite Hij, Hi in Hq. injection Hq as <- <-.
        destruct (writer_next log qs w w' i bq bq' sq sq' X o r x HP HI Hi Hint Hb Hd j p s (eq_sym Hij) Hw Hwr)
          as [Hw'|]; [left|by right].
        exists (bq', sq'). split; [|done]. apply lookup_app_l_Some. rewrite Hij.
        apply list_lookup_insert_eq. by eapply lookup_lt_Some.
      * left. exists (bq0, sq0). split; [|done]. apply lookup_app_l_Some.
        by rewrite list_lookup_insert_ne.
    + left. exists (Some p, WStart p s). split; [|by split; [|left]].
      rewrite lookup_app_r by (rewrite length_insert; lia).
      rewrite length_insert, Hlen. replace (S j - S (length (spawned w))) with (j - length (spawned w)) by lia.
      by rewrite list_lookup_fmap, Hj.
Qed.

#[export] Instance sent_laws : CompanionLaws promise_protocol sent_companion.
Proof.
  split.
  - apply sent_api.
  - intros. apply sent_callback.
  - apply sent_connect_goroutine.
  - apply sent_write_goroutine.
  - apply co_rounds_same. eapply conforms_mono; [|apply sent_read_round]. intros [] q ->; [done|].
    eapply conforms_mono; [|apply sent_destroy]. done.
  - intros ran qs w i [bq sq] q' X o r x w' HP [log HI] Hi Hlen Hint Hd. cbn in Hd. unfold both in Hd. cbn in Hd.
    destruct (promise_delta X bq o x) as [bq'|] eqn:Hb; [|done].
    destruct (write_delta X sq o x) as [sq'|] eqn:Hs; simplify_eq.
    exists (log ++ sends w i o x). exact (sent_inv_op log qs w w' i bq bq' sq sq' X o r x HP HI Hi Hlen Hint Hb Hs).
  - intros ran qs w w' [log [Hf Hc Hw Hg Hm Ho Hp Hs]] Hl. exists log.
    assert (Hsame : w' = set_lp (lp w') (set_queue (queue w') w))
      by (unfold loop_step in Hl; repeat case_match; simplify_eq; by destruct w).
    rewrite Hsame. by split.
  - done.
  - intros ran qs w i c _ [log [Hf Hc Hw Hg Hm Ho Hp Hs]] _ _. exists log. by split.
  - intros ran qs w d [log [Hf Hc Hw Hg Hm Ho Hp Hs]]. exists log. by split.
  - intros ran qs w [log [Hf Hc Hw Hg Hm Ho Hp Hs]]. exists log. by split.
Qed.

Definition sent_protocol : Protocol (option promise * write_phase) :=
  product promise_protocol sent_companion.

Lemma sent_protocol_laws : ProtocolLaws (P := sent_protocol).
Proof. exact (product_laws _ _ promise_laws sent_laws). Qed.

Lemma sent_init w : initial w -> Inv (Protocol := sent_protocol) [] [q_js (Protocol := sent_protocol)] w.
Proof.
  intros Hw. split; [by apply promise_init|]. apply initial_world in Hw as (s & now & -> & _ & Hc & _).
  exists []. split; cbn.
  - intros c [? H]. by rewrite lookup_empty in H.
  - intros c H. congruence.
  - intros c nc H. by rewrite lookup_empty in H.
  - constructor.
  - done.
  - intros _. constructor.
  - intros [|j] q Hj; cbn in Hj; by simplify_eq.
  - by intros j p sl [opts H].
Qed.

(** ** Properties *)

(** The fragments [log] explain what the connections were given. *)
Record wire_log (log : list fragment) (w : world) : Prop := {
  wl_wire : forall c nc, conns w !! c = Some nc -> nc_sent nc = on_wire log c;
  wl_writes : forall f, f ∈ log -> fr_conn f < next_conn w /\ exists p s, is_write w (fr_write f) p s;
  wl_sorted : awaited w -> StronglySorted le (map fr_write log);
  wl_one : forall j p s, is_write w j p s -> exists c, all_on log j c /\
    ((p, Resolved) ∈ settled w -> is_Some (conns w !! c));
  wl_order : forall j p s data, is_write w j p s -> stable (stores w) j s data ->
    bytes_of (fragments_of log j) `prefix_of` data /\
    ((p, Resolved) ∈ settled w -> bytes_of (fragments_of log j) = data)
}.

(** A write that goes on has sent a part of its data, and its promise is open. *)
Lemma pending_write log qs w (i : nat) q p s j :
  promise_inv (map fst qs) w -> sent_inv log qs w -> i = S j -> qs !! i = Some q -> writes q p s ->
  (exists c, all_on log j c) /\ (exists n, accounted log w j s n) /\ (forall v, (p, v) ∉ settled w).
Proof.
  intros HP HI -> Hi [Hp Hq]. pose proof (se_phases _ _ _ HI _ _ Hi) as Hok. unfold write_ok in Hok.
  split; [|split].
  - destruct Hq as [Hq|(c & sent & Hq)]; rewrite Hq in Hok.
    + destruct Hok as (j' & [= <-] & _ & _ & Hf). exists 0. unfold all_on. by rewrite Hf.
    + destruct Hok as (_ & j' & [= <-] & _ & _ & _ & Hf). by exists c.
  - destruct Hq as [Hq|(c & sent & Hq)]; rewrite Hq in Hok.
    + destruct Hok as (j' & [= <-] & _ & _ & Hf). exists 0. intros data _. by rewrite Hf.
    + destruct Hok as (_ & j' & [= <-] & _ & _ & Ha & _). by exists sent.
  - intros v Hv. by apply (settled_not_owned qs w HP p (S j) q (list_elem_of_fmap_2 fst _ _ Hv) Hi).
Qed.

Lemma reachable_wire c :
  reachable c -> exists log, wire_log log (cw c) /\
    (forall i, conn (sk (cw c)) = Some i -> is_Some (conns (cw c) !! i)).
Proof.
  intros Hr. destruct (reachable_Inv (L := sent_protocol_laws) c sent_init Hr) as (qs & HP & log & HI).
  exists log. split; [|apply HI]. split.
  - apply HI.
  - intros f Hf. pose proof (se_log _ _ _ HI) as Hl. rewrite Forall_forall in Hl. by apply Hl.
  - apply HI.
  - intros j p s Hw. destruct (se_writes _ _ _ HI j p s Hw) as [(q & Hq & Hwr)|(_ & i & n & Ho & _ & Hn)].
    + destruct (pending_write log qs (cw c) (S j) q p s j HP HI eq_refl Hq Hwr) as ([i Ho] & _ & Hno).
      exists i. split; [done|]. intros H. by destruct (Hno Resolved).
    + exists i. split; [done|]. intros H. by destruct (Hn H).
  - intros j p s data Hw Hst. destruct (se_writes _ _ _ HI j p s Hw) as [(q & Hq & Hwr)|(_ & i & n & _ & Ha & Hn)].
    + destruct (pending_write log qs (cw c) (S j) q p s j HP HI eq_refl Hq Hwr) as (_ & (n & Ha) & Hno).
      rewrite (Ha data Hst). split; [apply prefix_take|]. intros H. by destruct (Hno Resolved).
    + rewrite (Ha data Hst). split; [apply prefix_take|]. intros H. apply take_ge.
      rewrite (stable_len _ _ _ _ Hst). by destruct (Hn H).
Qed.

(** C6: the bytes on the wire are those of the writes. In every reachable
    configuration there is a list of fragments, in the order in which they were
    sent, such that: what each connection was given is exactly its fragments; each
    fragment belongs to a [write] of the script; the fragments of one write are all
    on the same connection; and as long as nobody assigned to its data, they are a
    prefix of the data, in order, and all of it once its promise is resolved. So
    nothing is sent twice, and nothing that was not written. A script that awaits
    its writes has them sent in the order of the calls. A string cannot be assigned
    to; an ArrayBuffer must be left alone by the script. *)
Theorem wire_accounts_for_writes (c : cfg) :
  reachable c -> exists log, wire_log log (cw c).
Proof. intros Hr. destruct (reachable_wire c Hr) as (log & Hl & _). by exists log. Qed.

(** *** A script that awaits its writes *)

(** Sorted fragments are those of the writes before the [n]-th, then its own. *)
Lemma sorted_split log n :
  StronglySorted le (map fr_write log) -> Forall (fun f => fr_write f < S n) log ->
  log = filter (fun f => fr_write f < n) log ++ fragments_of log n.
Proof.
  unfold fragments_of. induction log as [|f log IH]; [done|]. cbn [map]. intros [Hs Hf]%StronglySorted_inv.
  change (map fr_write log) with (fr_write <$> log) in Hf. rewrite Forall_fmap in Hf.
  intros [Hn Hl]%Forall_cons. rewrite !filter_cons. destruct (decide (fr_write f < n)) as [Hlt|Hge].
  - rewrite (decide_False (P := fr_write f = n)) by lia. cbn. f_equal. by apply IH.
  - rewrite (decide_True (P := fr_write f = n)) by lia. rewrite filter_none.
    + cbn. f_equal. symmetry. apply filter_all.
      apply Forall_forall. intros g Hg. pose proof (proj1 (Forall_forall _ _) Hf g Hg) as H1.
      pose proof (proj1 (Forall_forall _ _) Hl g Hg) as H2. cbn in H1, H2. lia.
    + eapply Forall_impl; [exact Hf|]. cbn. lia.
Qed.

Lemma sorted_bytes log n :
  StronglySorted le (map fr_write log) -> Forall (fun f => fr_write f < n) log ->
  bytes_of log = List.concat (map (fun j => bytes_of (fragments_of log j)) (seq 0 n)).
Proof.
  revert log. induction n as [|n IH]; intros log Hs Hl.
  - destruct log as [|f log]; [done|]. apply Forall_cons in Hl as [Hl _]. lia.
  - rewrite seq_S, map_app, concat_app. cbn. rewrite app_nil_r.
    rewrite (sorted_split log n Hs Hl) at 1. rewrite bytes_of_app. f_equal.
    set (log1 := filter (fun f => fr_write f < n) log). rewrite (IH log1).
    + f_equal. apply map_ext_in. intros j Hj. apply in_seq in Hj. f_equal. unfold fragments_of, log1.
      apply list_filter_filter_l. intros f. lia.
    + rewrite (sorted_split log n Hs Hl), map_app in Hs. by apply StronglySorted_app_1_l in Hs.
    + apply Forall_forall. intros f Hf. by apply list_elem_of_filter in Hf as [Hf _].
Qed.

(** What the script wrote, the data of its [j]-th goroutine being [d j]. *)
Definition text (d : nat -> list byte) (w : world) : list byte :=
  List.concat (map (fun j => match spawned w !! j with Some (GWrite _ _ _) => d j | _ => [] end)
                   (seq 0 (length (spawned w)))).

(** If it dialed once and awaited all its writes, this is what was sent. *)
Lemma awaited_wire log w (d : nat -> list byte) :
  wire_log log w -> next_conn w = 1 -> awaited w ->
  (forall j p s, is_write w j p s -> (p, Resolved) ∈ settled w /\ stable (stores w) j s (d j)) ->
  on_wire log 0 = text d w.
Proof.
  intros Hl Hn Ha Hd. unfold on_wire, text. rewrite filter_all.
  2:{ apply Forall_forall. intros f Hf. destruct (wl_writes _ _ Hl f Hf) as [Hc _]. lia. }
  rewrite (sorted_bytes log (length (spawned w))).
  - f_equal. apply map_ext_in. intros j Hj.
    destruct (spawned w !! j) as [[p|p s opts|]|] eqn:Hg.
    2:{ assert (Hw : is_write w j p s) by by exists opts.
        destruct (Hd j p s Hw) as [Hr Hst]. by apply (wl_order _ _ Hl j p s (d j) Hw Hst). }
    all: unfold fragments_of; rewrite filter_none; [done|]; apply Forall_forall; intros f Hf <-;
      destruct (wl_writes _ _ Hl f Hf) as (_ & p' & s' & opts & Hw); congruence.
  - by apply (wl_sorted _ _ Hl).
  - apply Forall_forall. intros f Hf. destruct (wl_writes _ _ Hl f Hf) as (_ & p & s & Hw).
    by eapply is_write_lt.
Qed.

Lemma bytes_of_filter (P : fragment -> Prop) `{forall f, Decision (P f)} log :
  bytes_of (filter P log) `sublist_of` bytes_of log.
Proof.
  induction log as [|f log IH]; [done|]. rewrite filter_cons. unfold bytes_of in *. cbn.
  destruct (decide (P f)); cbn; [by apply sublist_app|by apply sublist_inserts_l].
Qed.

Lemma fragments_on log j c :
  all_on log j c -> fragments_of (filter (fun f => fr_conn f = c) log) j = fragments_of log j.
Proof.
  unfold all_on, fragments_of. induction log as [|f log IH]; [done|]. rewrite !filter_cons.
  destruct (decide (fr_write f = j)) as [Hj|Hj].
  - intros [Hc Hf]%Forall_cons. rewrite !decide_True by done. rewrite filter_cons, decide_True by done.
    by rewrite IH.
  - intros Hf. destruct (decide (fr_conn f = c)); [|by apply IH].
    rewrite filter_cons, decide_False by done. by apply IH.
Qed.

(** In particular, a write whose promise was resolved was sent: some connection
    of the socket accepted its bytes, all of them and in this order, bytes of other
    writes possibly between them. And the connection that the socket stores is
    always one it has dialed. *)
Theorem write_resolved_sent (c : cfg) (j : nat) p s opts data :
  reachable c -> spawned (cw c) !! j = Some (GWrite p s opts) -> (p, Resolved) ∈ settled (cw c) ->
  stable (stores (cw c)) j s data ->
  (exists i nc, conns (cw c) !! i = Some nc /\ data `sublist_of` nc_sent nc) /\
  (forall i, conn (sk (cw c)) = Some i -> is_Some (conns (cw c) !! i)).
Proof.
  intros Hr Hj Hp Hst. destruct (reachable_wire c Hr) as (log & Hl & Hk). split; [|done].
  assert (Hw : is_write (cw c) j p s) by by exists opts.
  destruct (wl_one _ _ Hl j p s Hw) as (i & Hon & Hi). destruct (Hi Hp) as [nc Hnc].
  exists i, nc. split; [done|]. rewrite (wl_wire _ _ Hl i nc Hnc).
  destruct (wl_order _ _ Hl j p s data Hw Hst) as [_ <-]; [|done]. unfold on_wire.
  replace (fragments_of log j) with (fragments_of (filter (fun f => fr_conn f = i) log) j).
  - apply bytes_of_filter.
  - by apply fragments_on.
Qed.
End spec.

(** ** Witnesses *)
#[local] Existing Instance K6Ref.

(** The script fills an ArrayBuffer with two bytes and writes it on the open
    socket: they go out one by one. *)
Definition hi_buffer : goslice := Window (AScript 0) 0 2.
Definition wrote_cfg : cfg :=
  play (js (AStore 0 two_bytes) [] ++ js (AWrite (Some (JSArrayBuffer hi_buffer)) None) [] ++
        [Run 3 [RWrite 1 None; RWrite 1 None; RTags no_tags]]) open_cfg.

Lemma write_resolved_sent_witness :
  let opts := {| Encoding := ""; wo_Tags := ∅ |} in
  reachable wrote_cfg /\ spawned (cw wrote_cfg) !! 2 = Some (GWrite 1 hi_buffer opts) /\
  (1, Resolved) ∈ settled (cw wrote_cfg) /\
  stable (stores (cw wrote_cfg)) 2 hi_buffer two_bytes /\
  ((exists i nc, conns (cw wrote_cfg) !! i = Some nc /\ two_bytes `sublist_of` nc_sent nc) /\
   (forall i, conn (sk (cw wrote_cfg)) = Some i -> is_Some (conns (cw wrote_cfg) !! i))).
Proof.
  intros opts.
  assert (Hr : reachable wrote_cfg)
    by (unfold wrote_cfg, open_cfg; rewrite <-play_app; apply play_reachable).
  assert (Hg : spawned (cw wrote_cfg) !! 2 = Some (GWrite 1 hi_buffer opts)) by (vm_compute; reflexivity).
  assert (Hp : (1, Resolved) ∈ settled (cw wrote_cfg))
    by (apply list_elem_of_lookup; exists 1; vm_compute; reflexivity).
  assert (Hst : stable (stores (cw wrote_cfg)) 2 hi_buffer two_bytes)
    by (assert (Hs : seen (stores (cw wrote_cfg)) 2 (AScript 0) = [two_bytes]) by (vm_compute; reflexivity);
        cbn [stable hi_buffer]; rewrite Hs; repeat constructor).
  split; [exact Hr|]. split; [exact Hg|]. split; [exact Hp|]. split; [exact Hst|].
  exact (write_resolved_sent wrote_cfg 2 1 hi_buffer opts two_bytes Hr Hg Hp Hst).
Defined.

Lemma wire_accounts_for_writes_witness :
  reachable wrote_cfg /\ (exists nc, conns (cw wrote_cfg) !! 0 = Some nc /\ nc_sent nc = two_bytes) /\
  exists log, wire_log log (cw wrote_cfg).
Proof.
  assert (Hr : reachable wrote_cfg)
    by (unfold wrote_cfg, open_cfg; rewrite <-play_app; apply play_reachable).
  split; [exact Hr|]. split.
  - eexists. split; [vm_compute; reflexivity|reflexivity].
  - exact (wire_accounts_for_writes wrote_cfg Hr).
Defined.
