(* ===== verification/Locking.v ===== *)
(** * Lock discipline of socket.mu

    The protocol followed by every thread with respect to the mutex: which
    fields are written under the write lock, that no thread blocks on the
    connection, the channel or the Once while holding it, and what must be true
    of state and connection when the write lock is released. Its invariant
    gives mutual exclusion and the consistency of [state] and [conn] in every
    reachable configuration. *)
From S2P Require Import Prelude GoStd K6 Metrics Lang Socket Events Exec Connect ReadWrite System Scenarios.

(** What a thread holds; under the write lock, the state and the presence of
    the connection it has assigned since it took the lock. *)
Inductive held :=
| HNone
| HRead
| HWrite (st : option socketState) (cn : option bool).

(** May the write lock be released after these assignments? *)
Definition releasable (st : option socketState) (cn : option bool) : bool :=
  match st, cn with
  | None, _ => true
  | Some socketStateOpen, Some true => true
  | Some socketStateDestroyed, _ => true
  | Some socketStateDisconnected, _ => true
  | _, _ => false
  end.

(** May the state [s] be assigned, the last state assigned in the critical
    section being [st]? *)
Definition assignable (st : option socketState) (s : socketState) : bool :=
  match st, s with
  | None, (socketStateOpening | socketStateDestroyed) => true
  | Some socketStateOpening, (socketStateOpen | socketStateDisconnected) => true
  | Some socketStateOpen, socketStateDisconnected => true
  | _, _ => false
  end.

Definition is_read (h : held) : bool := match h with HRead => true | _ => false end.
Definition is_write (h : held) : bool := match h with HWrite _ _ => true | _ => false end.

(** Consistency of state and connection, outside the critical sections that
    write them. *)
Definition consistent (st : socketState) (c : option connid) : Prop :=
  st <> socketStateOpening /\ (st = socketStateOpen -> is_Some c).

Definition view (h : held) (st : socketState) (c : option connid) : Prop :=
  match h with
  | HWrite ost ocn =>
      (ost = None -> consistent st c) /\
      (forall s, ost = Some s -> st = s) /\
      (forall b, ocn = Some b -> bool_decide (is_Some c) = b)
  | _ => True
  end.

Definition mutex_ok (qs : list held) (m : rwmutex) : Prop :=
  match m with
  | MFree => countb is_read qs = 0 /\ countb is_write qs = 0
  | MRead n => countb is_read qs = n /\ 0 < n /\ countb is_write qs = 0
  | MWrite => countb is_read qs = 0 /\ countb is_write qs = 1
  end.

Definition lock_inv (qs : list held) (m : rwmutex) (st : socketState) (c : option connid) : Prop :=
  mutex_ok qs m /\
  (m <> MWrite -> consistent st c) /\
  (forall (i : nat) h, qs !! i = Some h -> view h st c).

Section locking.
Context `{K : K6}.

Definition lock_delta (X : Type) (q : held) (o : op X) (x : X) : option held :=
  match o, q with
  | Lock, HNone => Some (HWrite None None)
  | Lock, _ => None
  | Unlock, HWrite st cn => if releasable st cn then Some HNone else None
  | Unlock, _ => None
  | RLock, HNone => Some HRead
  | RLock, _ => None
  | RUnlock, HRead => Some HNone
  | RUnlock, _ => None
  | SetS (SetState s), HWrite st cn =>
      if assignable st s then Some (HWrite (Some s) cn) else None
  | SetS (SetState _), _ => None
  | SetS (SetConn c), HWrite (Some st) _ => Some (HWrite (Some st) (Some (bool_decide (is_Some c))))
  | SetS (SetConn _), _ => None
  | SetS (SetRemoteIP _ | SetRemotePort _ | SetRemoteAddr _ | SetLocalIP _ | SetLocalPort _
         | SetConnectTime _ | SetTimeout _), HWrite _ _ => Some q
  | SetS (SetRemoteIP _ | SetRemotePort _ | SetRemoteAddr _ | SetLocalIP _ | SetLocalPort _
         | SetConnectTime _ | SetTimeout _), _ => None
  | (ConnRead _ | ConnWrite _ _ | Send _ | OnceEnter | OnceLeave | Cancel | BufGet | BufWrite _ _
    | BufRead _ | BufPut _ | Settle _ _ | Go _ | Invoke _), HNone => Some HNone
  | (ConnRead _ | ConnWrite _ _ | Send _ | OnceEnter | OnceLeave | Cancel | BufGet | BufWrite _ _
    | BufRead _ | BufPut _ | Settle _ _ | Go _ | Invoke _), _ => None
  | _, _ => Some q
  end.

#[export] Instance lock_protocol : Protocol held := {
  delta := lock_delta;
  q_js := HNone;
  q_callback _ := HNone;
  q_call _ := True;
  q_go _ := HNone;
  q_fin q := q = HNone;
  Inv _ qs w := lock_inv qs (mu w) (state (sk w)) (conn (sk w))
}.

(** ** The programs conform *)

Abbreviation keeps_lock p := (keeps (fun X => lock_delta X) HNone p).

Lemma lock_destroy : keeps_lock destroy.
Proof. cfm_run. Qed.

Lemma lock_connectExecute : keeps_lock connectExecute.
Proof. unfold connectExecute. cfm_run. Qed.

Lemma lock_connect_goroutine p : keeps_lock (connect_goroutine p).
Proof.
  apply keeps_bind; [apply lock_connectExecute|]. intros [e|]; cfm_run.
Qed.

Lemma lock_readLoopStep c t : keeps_lock (readLoopStep c t).
Proof. unfold readLoopStep. cfm_run. Qed.

Lemma lock_read_round : keeps_lock read_round.
Proof. apply keeps_read_round; [cfm_run | cfm_run | apply lock_readLoopStep]. Qed.

Lemma lock_write_goroutine p data opts : keeps_lock (write_goroutine p data opts).
Proof.
  apply keeps_bind; [apply keeps_writeExecute|intros [e|]]; cfm_run.
Qed.

Lemma lock_api a : keeps_lock (api_prog a).
Proof.
  apply keeps_api; [intros; apply keeps_connect; cfm_run|intros; apply keeps_write; cfm_run|apply lock_destroy|cfm_run|intros; unfold on; cfm_run|cfm_run|done|cfm_run].
Qed.

Lemma lock_callback c l : keeps_lock (callback c (run_script l)).
Proof. apply keeps_callback; try apply lock_api; cfm_run. Qed.

(** ** The operations preserve the invariant *)

Lemma lock_inv_spawn qs gs m st c :
  lock_inv qs m st c -> lock_inv (qs ++ map (fun _ : goroutine => HNone) gs) m st c.
Proof.
  intros (Hm & Hc & Hv).
  assert (Hz : forall p, p HNone = false -> countb p (map (fun _ : goroutine => HNone) gs) = 0).
  { intros p Hp. apply countb_none. intros h Hh. apply list_elem_of_fmap in Hh as (? & -> & _). done. }
  split_and!; [|done|].
  - destruct m; cbn in *; rewrite !countb_app, !Hz by done; lia.
  - intros i h. rewrite lookup_app_Some. intros [H|[_ H]]; [by eapply Hv|].
    apply list_lookup_fmap_Some in H as (? & -> & _). done.
Qed.

Lemma view_upd (qs : list held) (i : nat) q q' st c :
  (forall (j : nat) h, qs !! j = Some h -> view h st c) -> view q' st c ->
  qs !! i = Some q -> forall (j : nat) h, <[i := q']> qs !! j = Some h -> view h st c.
Proof.
  intros Hv Hq Hi j h Hj. apply list_lookup_insert_Some in Hj as [(-> & <- & _)|[_ Hj]]; [done|].
  by eapply Hv.
Qed.

(** Only one thread is in a write section; the views of the others say
    nothing. *)
Lemma view_writer (qs : list held) (i : nat) st cn st' c' q' :
  mutex_ok qs MWrite -> qs !! i = Some (HWrite st cn) -> view q' st' c' ->
  forall (j : nat) h, <[i := q']> qs !! j = Some h -> view h st' c'.
Proof.
  intros [_ Hw] Hi Hq j h Hj.
  apply list_lookup_insert_Some in Hj as [(-> & <- & _)|[Hne Hj]]; [done|].
  destruct h as [| |st2 cn2]; try done.
  pose proof (countb_lookup2 is_write qs i j _ _ Hi Hj Hne) as H. cbn in H. lia.
Qed.

Lemma mutex_writer (qs : list held) m (i : nat) st cn :
  mutex_ok qs m -> qs !! i = Some (HWrite st cn) -> m = MWrite.
Proof.
  intros Hm Hi. pose proof (countb_lookup is_write qs i _ Hi) as H. cbn in H.
  destruct m; cbn in Hm; [lia | lia | done].
Qed.

Lemma releasable_consistent ost ocn st c :
  releasable ost ocn = true -> view (HWrite ost ocn) st c -> consistent st c.
Proof.
  intros Hr (Hn & Hs & Hc).
  destruct ost as [[]|], ocn as [[]|]; try done; try (by apply Hn);
    rewrite (Hs _ eq_refl); split; try done.
  intros _. specialize (Hc _ eq_refl). by apply bool_decide_eq_true in Hc.
Qed.

Ltac counts i :=
  match goal with
  | H : ?qs !! i = Some ?q |- context [<[i := ?q']> ?qs] =>
      pose proof (countb_insert is_read qs i q q' H);
      pose proof (countb_insert is_write qs i q q' H); cbn in *
  end.

Lemma lock_inv_op (qs : list held) w (i : nat) q q' X (o : op X) r x w' :
  lock_inv qs (mu w) (state (sk w)) (conn (sk w)) -> qs !! i = Some q ->
  interp o r w = Some (x, w') -> lock_delta X q o x = Some q' ->
  lock_inv (<[i := q']> qs) (mu w') (state (sk w')) (conn (sk w')).
Proof.
  intros HI Hi Hint Hd. pose proof HI as (Hm & Hc & Hv).
  assert (Hsame : mu w' = mu w -> state (sk w') = state (sk w) -> conn (sk w') = conn (sk w) ->
    q' = q -> lock_inv (<[i := q']> qs) (mu w') (state (sk w')) (conn (sk w'))).
  { intros -> -> -> ->. by rewrite list_insert_id. }
  destruct o; cbn in Hint, Hd; try (repeat case_match; simplify_eq; by apply Hsame).
  - destruct (mu w) eqn:Hmu, q; simplify_eq/=. split_and!; cbn.
    + counts i. lia.
    + done.
    + apply (view_upd _ _ HNone); [done| |done]. split_and!; try done. intros _. by apply Hc.
  - destruct q as [| |st cn]; try done. destruct (releasable st cn) eqn:Hr; simplify_eq.
    pose proof (mutex_writer _ _ _ _ _ Hm Hi) as Hmw. rewrite Hmw in Hint, Hm. simplify_eq/=.
    split_and!; cbn.
    + counts i. lia.
    + intros _. eapply releasable_consistent; [done|]. by eapply Hv.
    + by eapply view_writer.
  - destruct q; simplify_eq.
    assert (Hw' : sk w' = sk w) by (repeat case_match; by simplify_eq).
    rewrite Hw'. split_and!.
    + destruct (mu w); simplify_eq/=; counts i; lia.
    + intros _. apply Hc. by destruct (mu w).
    + by apply (view_upd _ _ HNone).
  - destruct q; simplify_eq.
    assert (Hw' : sk w' = sk w) by (repeat case_match; by simplify_eq).
    rewrite Hw'. pose proof (countb_lookup is_read qs i _ Hi) as Hpos. cbn in Hpos.
    split_and!.
    + destruct (mu w) as [|[|[|n]]|]; simplify_eq/=; counts i; lia.
    + intros _. apply Hc. by destruct (mu w).
    + by apply (view_upd _ _ HRead).
  - destruct u; cbn in Hd; simplify_eq; try (repeat case_match; simplify_eq; by apply Hsame);
      destruct q as [| |st' cn]; simplify_eq; try (case_match; simplify_eq);
      pose proof (mutex_writer _ _ _ _ _ Hm Hi) as Hmw; rewrite Hmw in Hm.
    + cbn. rewrite Hmw. split_and!; try done.
      * cbn. counts i. lia.
      * eapply view_writer; [done..|]. split_and!; try done; [by intros ? [= ->]|].
        intros b Hb. specialize (Hv _ _ Hi) as (_ & _ & Hv). by apply Hv.
    + cbn. rewrite Hmw. split_and!; try done.
      * cbn. counts i. lia.
      * eapply view_writer; [done..|]. split_and!; try done; [|by intros ? [= ->]].
        specialize (Hv _ _ Hi) as (_ & Hv & _). done.
Qed.

#[export] Instance lock_laws : ProtocolLaws (P := lock_protocol).
Proof.
  split; try done.
  - apply lock_api.
  - intros. apply lock_callback.
  - intros. eapply conforms_mono; [|apply lock_connect_goroutine]. done.
  - intros. eapply conforms_mono; [|apply lock_write_goroutine]. done.
  - apply rounds_same. eapply conforms_mono; [|apply lock_read_round]. intros [] q ->; [done|].
    eapply conforms_mono; [|apply lock_destroy]. done.
  - intros ran qs w i q q' X o r x w' HI Hi _ Hint Hd. apply lock_inv_spawn.
    exact (lock_inv_op qs w i q q' X o r x w' HI Hi Hint Hd).
  - intros ran qs w w' H Hl. unfold loop_step in Hl. repeat case_match; simplify_eq; exact H.
Qed.

Lemma lock_init w : initial w -> Inv [] [q_js] w.
Proof.
  intros H. apply initial_world in H as (s & now & -> & Hs & Hc & _). cbn. rewrite Hs, Hc.
  split_and!; try done. intros [|] h [= <-]; done.
Qed.
End locking.

(** ** Properties *)
Section properties.
Context `{K : K6}.

Lemma reachable_lock c :
  reachable c -> exists qs, lock_inv qs (mu (cw c)) (state (sk (cw c))) (conn (sk (cw c))).
Proof. intros H. exact (reachable_Inv (P := lock_protocol) c lock_init H). Qed.

Lemma reachable_consistent c :
  reachable c -> mu (cw c) <> MWrite -> consistent (state (sk (cw c))) (conn (sk (cw c))).
Proof. intros H Hm. destruct (reachable_lock _ H) as (qs & _ & Hc & _). by apply Hc. Qed.

(** C18: in every reachable configuration, unless some thread is inside a
    write-locked section, the state is not [opening] and an open socket has
    a connection. *)
Theorem unlocked_consistent (c : cfg) :
  reachable c -> mu (cw c) <> MWrite ->
  state (sk (cw c)) <> socketStateOpening /\
  (state (sk (cw c)) = socketStateOpen -> is_Some (conn (sk (cw c)))).
Proof. apply reachable_consistent. Qed.

(** A script never reads ["opening"] from [ready_state]: [connectExecute]
    holds the write lock for as long as the state is [opening], and the
    accessor waits for the read lock. *)
Theorem readyState_never_opening (c : cfg) s rs w' :
  reachable c -> exec readyState [] (cw c) = Done s rs w' -> s <> "opening".
Proof.
  intros Hr He.
  apply exec_rlocked in He as (Hm & -> & _).
  destruct (reachable_consistent c Hr Hm) as [Hst _].
  by destruct (state (sk (cw c))).
Qed.

(** The life cycle of a socket, as a state machine: connecting starts from any
    settled state and ends open or disconnected, an open socket that cannot arm
    its deadline is given up, and a socket that is not connecting is destroyed. *)
Inductive life : socketState -> socketState -> Prop :=
| life_begin s : s <> socketStateOpening -> life s socketStateOpening
| life_opened : life socketStateOpening socketStateOpen
| life_failed : life socketStateOpening socketStateDisconnected
| life_given_up : life socketStateOpen socketStateDisconnected
| life_destroyed s : s <> socketStateOpening -> life s socketStateDestroyed.

Lemma lock_state_op q X (o : op X) r w x w' q' :
  interp o r w = Some (x, w') -> lock_delta X q o x = Some q' ->
  state (sk w') = state (sk w) \/
  exists ost ocn, q = HWrite ost ocn /\ assignable ost (state (sk w')) = true.
Proof.
  intros Hint Hd. destruct o; cbn in Hint; try (left; repeat case_match; by simplify_eq).
  simplify_eq. destruct u as [st| | | | | | | | | | | |]; try by left.
  destruct q as [| |ost ocn]; cbn in Hd; try done.
  destruct (assignable ost st) eqn:Ha; [|done]. right. by exists ost, ocn.
Qed.

(** C11: the socket refines that state machine: in every interleaving, a step of
    any thread leaves the state as it is or is one of its transitions, made
    inside a write-locked section. So an open socket was connecting before, and
    [destroy] never meets a socket that is connecting. *)
Theorem state_refines_life s (c c' : cfg) :
  reachable c -> cfg_step s c = Some c' ->
  state (sk (cw c')) = state (sk (cw c)) \/
  life (state (sk (cw c))) (state (sk (cw c'))) /\ mu (cw c) = MWrite.
Proof.
  intros Hr Hs. pose proof (reachable_cfg_inv (P := lock_protocol) c lock_init Hr) as HI.
  destruct (cfg_inv_op (P := lock_protocol) s c c' HI Hs)
    as [-> |(qs & i & q & X & o & r & x & q' & (Hm & Hc & Hv) & Hi & Hint & Hd)]; [by left|].
  destruct (lock_state_op _ _ _ _ _ _ _ _ Hint Hd) as [?|(ost & ocn & -> & Ha)]; [by left|].
  right. split; [|by eapply mutex_writer]. destruct (Hv _ _ Hi) as (Hn & Hst & _).
  revert Ha. generalize (state (sk (cw c'))). intros st Ha. destruct ost as [ost|].
  - rewrite (Hst ost eq_refl). destruct ost, st; try done; constructor.
  - destruct (Hn eq_refl) as [Hno _]. destruct st; try done; by constructor.
Qed.
End properties.

(** ** The mutex is never the cause of a deadlock *)
Section progress.
Context `{K : K6}.

Definition panicking {A} (p : prog A) : bool :=
  match p with Op GoPanic _ => true | _ => false end.

Definition panicked (th : thread) : bool :=
  match th with TProg p => panicking p | TRead p => panicking p end.

(** The next operation of a thread that holds the mutex can be taken. *)
Lemma held_enabled (ts : tagset) (qs : list held) w (i : nat) q {A X} (o : op X) (k : X -> prog A) post :
  lock_inv qs (mu w) (state (sk w)) (conn (sk w)) -> qs !! i = Some q -> q <> HNone ->
  conforms (fun X => lock_delta X) q (Op o k) post -> panicking (Op o k) = false ->
  exists r x w', interp o r w = Some (x, w').
Proof.
  intros (Hm & _) Hi Hq Hc Hp.
  pose proof (countb_lookup is_read qs i q Hi) as Hr.
  pose proof (countb_lookup is_write qs i q Hi) as Hw.
  destruct q as [| |st cn]; [done|..]; destruct o; try done; cbn in Hc;
    try (by specialize (Hc tt)); try (by specialize (Hc ts)); try (by specialize (Hc 0));
    try (by specialize (Hc [])); try (by specialize (Hc false)); try (by specialize (Hc (0, None)));
    try (by eexists RNone, _, _);
    try (by eexists (RTags ts), _, _); try (by eexists (RTLS None), _, _);
    try (by eexists (RResolve (Err ErrEOF)), _, _); try (by eexists (RDial None), _, _);
    try (by eexists (RError None), _, _); try (by eexists (RAddr None), _, _).
  all: destruct (mu w) as [|[|[]]|] eqn:Hmu; cbn in Hm, Hr, Hw; try lia;
    eexists RNone, _, _; cbn; rewrite Hmu; done.
Qed.

Lemma lock_holder_steps (ts : tagset) (c : cfg) :
  reachable c -> mu (cw c) <> MFree -> Forall (fun th => panicked th = false) (threads c) ->
  exists i r c', cfg_step (SThread i r) c = Some c'.
Proof.
  intros Hr Hm Hp.
  destruct (reachable_cfg_inv (P := lock_protocol) c lock_init Hr)
    as (qj & qs & th & ths & Ht & Hj & Hgs & _ & HI).
  assert (Hh : exists (i : nat) q, (qj :: qs) !! i = Some q /\ q <> HNone).
  { destruct HI as [Hok _]. destruct (mu (cw c)) eqn:Hmu; [done|..]; cbn [mutex_ok] in Hok.
    - destruct (countb_ex is_read (qj :: qs)) as (i & q & Hi & Hq); [lia|].
      exists i, q. split; [done|]. by intros ->.
    - destruct (countb_ex is_write (qj :: qs)) as (i & q & Hi & Hq); [lia|].
      exists i, q. split; [done|]. by intros ->. }
  destruct Hh as (i & q & Hi & Hq).
  assert (Hthi : exists thi, threads c !! i = Some thi /\
    (js_ok (P := lock_protocol) q thi \/ go_ok (P := lock_protocol) q thi)).
  { rewrite Ht. destruct i as [|i]; cbn in Hi |- *; [simplify_eq; eauto|].
    destruct (Forall2_lookup_l _ _ _ _ _ Hgs Hi) as (thi & ? & ?). eauto. }
  destruct Hthi as (thi & Hthi & Hok).
  pose proof (Forall_lookup_1 _ _ _ _ Hp Hthi) as Hnp.
  assert (Hs : exists r th' w', thread_step thi r (cw c) = Some (th', w')).
  { destruct thi as [[a|X o k]|[a|X o k]]; cbn in Hok, Hnp |- *.
    - by destruct Hok.
    - edestruct (held_enabled ts (qj :: qs) (cw c) i q o k) as (r & x & w' & He);
        [exact HI|exact Hi|done|by destruct Hok as [Hok|Hok]; exact Hok|done|].
      exists r. rewrite He. by eexists _, _.
    - exists RNone. destruct a; by eexists _, _.
    - destruct Hok as [Hok|Hok]; [done|]. destruct Hok as (R & _ & Hok).
      edestruct (held_enabled ts (qj :: qs) (cw c) i q o k) as (r & x & w' & He);
        [exact HI|exact Hi|done|exact Hok|done|].
      exists r. rewrite He. by eexists _, _. }
  destruct Hs as (r & th' & w' & Hs). exists i, r. cbn. rewrite Hthi, Hs. by eexists.
Qed.

End progress.

(** ** Witnesses *)
#[local] Existing Instance K6Ref.

Lemma unlocked_consistent_witness :
  mu (cw open_cfg) = MFree /\ state (sk (cw open_cfg)) = socketStateOpen /\
  state (sk (cw open_cfg)) <> socketStateOpening /\
  (state (sk (cw open_cfg)) = socketStateOpen -> is_Some (conn (sk (cw open_cfg)))).
Proof.
  assert (Hm : mu (cw open_cfg) = MFree) by (vm_compute; reflexivity).
  split; [exact Hm|]. split; [vm_compute; reflexivity|].
  apply (unlocked_consistent open_cfg open_reachable). rewrite Hm. discriminate.
Defined.

Lemma readyState_never_opening_witness :
  exists s rs w', exec readyState [] (cw open_cfg) = Done s rs w' /\ s = "open" /\ s <> "opening".
Proof.
  destruct (returns_Done (K := K6Ref) (String.eqb "open") (fun _ => true) (exec readyState [] (cw open_cfg)))
    as (s & rs & w' & H & Hs & _); [vm_compute; reflexivity|].
  apply String.eqb_eq in Hs as <-. exists "open", rs, w'. split; [exact H|]. split; [reflexivity|].
  exact (readyState_never_opening open_cfg "open" rs w' open_reachable H).
Defined.

(** In the script's [destroy] of an open socket: the step that sets the state. *)
Definition destroying_cmds : list cmd :=
  open_cmds ++ [Step (SCall ADestroy); Step (SThread 0 RNone); Step (SThread 0 RNone)].

Lemma state_refines_life_witness :
  let c := play destroying_cmds fresh_cfg in
  let c' := play [Step (SThread 0 RNone)] c in
  cfg_step (SThread 0 RNone) c = Some c' /\
  state (sk (cw c)) = socketStateOpen /\ state (sk (cw c')) = socketStateDestroyed /\
  (state (sk (cw c')) = state (sk (cw c)) \/
   life (state (sk (cw c))) (state (sk (cw c'))) /\ mu (cw c) = MWrite).
Proof.
  intros c c'.
  assert (Hs : cfg_step (SThread 0 RNone) c = Some c') by (apply play_step; vm_compute; reflexivity).
  split; [exact Hs|]. split; [vm_compute; reflexivity|]. split; [vm_compute; reflexivity|].
  exact (state_refines_life _ c c' (play_reachable destroying_cmds) Hs).
Defined.
