(* ===== verification/Lifecycle.v ===== *)
(** * Teardown happens once

    The protocol of [destroyOnce]: only the thread that runs the Once's body
    fires [close], records the socket's duration and cancels the socket's
    context, and does each at most once. *)
From S2P Require Import Prelude GoStd K6 Metrics Lang Socket Events Connect ReadWrite System Scenarios.

(** Outside the body of the Once, or inside it: has the duration been pushed,
    was [close] attempted, was the context cancelled? *)
Inductive once_phase :=
| OOut
| OBody (pushed fired cancelled : bool).

Definition in_body (q : once_phase) : bool := match q with OBody _ _ _ => true | OOut => false end.

Section lifecycle.
Context `{K : K6}.

Definition is_close (c : call) : bool := bool_decide (call_event c = "close").

Definition is_duration (s : sample) : bool := bool_decide (s_metric s = tcpDuration).

Definition closes (w : world) : nat := countb is_close (accepted w).
Definition durations (w : world) : nat := countb is_duration (samples w).

Definition once_delta (X : Type) (q : once_phase) (o : op X) : X -> option once_phase :=
  match o in op X return X -> option once_phase with
  | OnceEnter => fun first =>
      match q with
      | OOut => Some (if first : bool then OBody false false false else OOut)
      | OBody _ _ _ => None
      end
  | OnceLeave => fun _ => match q with OBody _ _ true => Some OOut | _ => None end
  | Send c => fun _ =>
      if is_close c
      then match q with OBody p false false => Some (OBody p true false) | _ => None end
      else match q with OBody _ _ _ => None | OOut => Some OOut end
  | Push m _ _ => fun _ =>
      if bool_decide (m = tcpDuration)
      then match q with OBody false f c => Some (OBody true f c) | _ => None end
      else Some q
  | Cancel => fun _ => match q with OBody p f false => Some (OBody p f true) | _ => None end
  | _ => fun _ => Some q
  end.

Definition once_inv (qs : list once_phase) (w : world) : Prop :=
  (lp w = LoopExit -> ctx_done w = true) /\
  match once w with
  | OnceIdle => countb in_body qs = 0 /\ closes w = 0 /\ durations w = 0 /\ sctx_done w = false
  | OnceBusy =>
      countb in_body qs = 1 /\
      forall (i : nat) p f c, qs !! i = Some (OBody p f c) ->
        closes w <= Nat.b2n f /\ durations w <= Nat.b2n p /\ sctx_done w = c
  | OnceDone => countb in_body qs = 0 /\ closes w <= 1 /\ durations w <= 1 /\ sctx_done w = true
  end.

#[export] Instance once_protocol : Protocol once_phase := {
  delta X q o := once_delta X q o;
  q_js := OOut;
  q_callback _ := OOut;
  q_call _ := True;
  q_go _ := OOut;
  q_fin q := q = OOut;
  Inv _ := once_inv
}.

(** ** The programs conform *)
Abbreviation keeps_out p := (keeps (fun X => once_delta X) OOut p).

Lemma once_destroy : keeps_out destroy.
Proof. cfm_run. Qed.

Lemma once_connectExecute : keeps_out connectExecute.
Proof. unfold connectExecute. cfm_run. Qed.

Lemma once_connect_goroutine p : keeps_out (connect_goroutine p).
Proof.
  apply keeps_bind; [apply once_connectExecute|]. intros [e|]; cfm_run.
Qed.

Lemma once_readLoopStep c t : keeps_out (readLoopStep c t).
Proof. unfold readLoopStep. cfm_run. Qed.

Lemma once_read_round : keeps_out read_round.
Proof. apply keeps_read_round; [cfm_run | cfm_run | apply once_readLoopStep]. Qed.

Lemma once_write_goroutine p data opts : keeps_out (write_goroutine p data opts).
Proof.
  apply keeps_bind; [apply keeps_writeExecute|intros [e|]]; try (intros ? ? [-> | ->]); cfm_run.
Qed.

Lemma once_api a : keeps_out (api_prog a).
Proof.
  apply keeps_api; [intros; apply keeps_connect; cfm_run|intros; apply keeps_write; cfm_run|apply once_destroy|cfm_run|intros; unfold on; cfm_run|cfm_run|done|cfm_run].
Qed.

Lemma once_callback c l : keeps_out (callback c (run_script l)).
Proof. apply keeps_callback; try apply once_api; cfm_run. Qed.

(** ** The operations preserve the invariant *)

Lemma once_inv_spawn qs gs w :
  once_inv qs w -> once_inv (qs ++ map (fun _ : goroutine => OOut) gs) w.
Proof.
  assert (Hz : countb in_body (map (fun _ : goroutine => OOut) gs) = 0).
  { apply countb_none. intros q Hq. by apply list_elem_of_fmap in Hq as (? & -> & _). }
  intros [Hl H]. split; [done|].
  destruct (once w); rewrite countb_app, Hz, Nat.add_0_r; [done| |done].
  destruct H as [Hc Hv]. split; [done|]. intros i p f c.
  rewrite lookup_app_Some. intros [Hi|[_ Hi]]; [by eapply Hv|].
  by apply list_lookup_fmap_Some in Hi as (? & ? & _).
Qed.

(** What the invariant reads of the world. *)
Definition once_same (w w' : world) : Prop :=
  once w' = once w /\ lp w' = lp w /\ queue w' = queue w /\ samples w' = samples w /\
  sctx_done w' = sctx_done w /\ vu_done w' = vu_done w.

Lemma once_inv_same qs w w' : once_inv qs w -> once_same w w' -> once_inv qs w'.
Proof.
  unfold once_inv, closes, durations, accepted, ctx_done.
  by intros H (-> & -> & -> & -> & -> & ->).
Qed.

Lemma in_body_busy qs w (i : nat) p f c :
  once_inv qs w -> qs !! i = Some (OBody p f c) -> once w = OnceBusy.
Proof.
  intros [_ H] Hi. pose proof (countb_lookup in_body qs i _ Hi) as Hc. cbn in Hc.
  destruct (once w); [lia | done | lia].
Qed.

Lemma body_bounds qs w (i : nat) p f c :
  once_inv qs w -> qs !! i = Some (OBody p f c) ->
  closes w <= Nat.b2n f /\ durations w <= Nat.b2n p /\ sctx_done w = c.
Proof.
  intros HI Hi. pose proof (in_body_busy _ _ _ _ _ _ HI Hi) as Hb. destruct HI as [_ HI].
  rewrite Hb in HI. destruct HI as [_ Hv]. exact (Hv i _ _ _ Hi).
Qed.

(** The thread in the body is the only one. *)
Lemma body_unique (qs : list once_phase) (i j : nat) p f c q :
  countb in_body qs = 1 -> qs !! i = Some (OBody p f c) -> qs !! j = Some q -> i <> j ->
  q = OOut.
Proof.
  intros H1 Hi Hj Hne. pose proof (countb_lookup2 in_body qs i j _ _ Hi Hj Hne) as H.
  cbn in H. destruct q; cbn in H; [done|lia].
Qed.

(** A step of the thread in the body. *)
Lemma once_inv_body qs w w' (i : nat) p f c p' f' c' :
  once_inv qs w -> qs !! i = Some (OBody p f c) -> once w' = once w ->
  (lp w' = LoopExit -> ctx_done w' = true) ->
  closes w' <= Nat.b2n f' -> durations w' <= Nat.b2n p' -> sctx_done w' = c' ->
  once_inv (<[i := OBody p' f' c']> qs) w'.
Proof.
  intros HI Hi Ho Hl Hc Hd Hs. pose proof (in_body_busy _ _ _ _ _ _ HI Hi) as Hb.
  destruct HI as [_ HI]. split; [done|]. rewrite Ho, Hb in *.
  destruct HI as [H1 Hv]. split.
  - pose proof (countb_insert in_body qs i _ (OBody p' f' c') Hi) as H. cbn in H. lia.
  - intros j pj fj cj Hj. apply list_lookup_insert_Some in Hj as [(-> & [= -> -> ->] & _)|[Hne Hj]].
    + done.
    + by pose proof (body_unique _ _ _ _ _ _ _ H1 Hi Hj Hne).
Qed.

(** A push of any metric but the duration. *)
Lemma durations_push w m ts v w' u :
  interp (Push m ts v) RNone w = Some (u, w') ->
  durations w' <= durations w + Nat.b2n (bool_decide (m = tcpDuration)) /\
  once w' = once w /\ lp w' = lp w /\ queue w' = queue w /\
  sctx_done w' = sctx_done w /\ vu_done w' = vu_done w.
Proof.
  cbn. intros H. simplify_eq. destruct (vu_done w) eqn:Hv; cbn; rewrite ?Hv; [split_and!; try done; lia|].
  split_and!; try done. unfold durations. cbn. rewrite countb_app. cbn. unfold is_duration. cbn. lia.
Qed.

Lemma once_inv_enter qs w (i : nat) first w' r :
  once_inv qs w -> qs !! i = Some OOut -> interp OnceEnter r w = Some (first, w') ->
  once_inv (<[i := if first : bool then OBody false false false else OOut]> qs) w'.
Proof.
  intros [Hl H] Hi Hint. cbn in Hint. destruct (once w) eqn:Ho; simplify_eq.
  - destruct H as (Hn & Hc & Hd & Hs). split; [done|]. cbn.
    pose proof (countb_insert in_body qs i _ (OBody false false false) Hi) as Hci. cbn in Hci.
    split; [lia|]. intros j p f c Hj.
    apply list_lookup_insert_Some in Hj as [(-> & [= <- <- <-] & _)|[Hne Hj]].
    + unfold closes, durations, accepted in *. cbn in *. split_and!; [lia|lia|done].
    + pose proof (countb_lookup in_body qs j _ Hj) as Hp. cbn in Hp. lia.
  - rewrite list_insert_id by done. split; [done|]. by rewrite Ho.
Qed.

Lemma once_inv_leave qs w (i : nat) p f w' r u :
  once_inv qs w -> qs !! i = Some (OBody p f true) -> interp OnceLeave r w = Some (u, w') ->
  once_inv (<[i := OOut]> qs) w'.
Proof.
  intros HI Hi Hint. cbn in Hint. simplify_eq.
  pose proof (in_body_busy _ _ _ _ _ _ HI Hi) as Hb. destruct HI as [Hl H]. split; [done|]. cbn.
  rewrite Hb in H. destruct H as [H1 Hv]. destruct (Hv i _ _ _ Hi) as (Hc & Hd & Hs).
  pose proof (countb_insert in_body qs i _ OOut Hi) as Hci. cbn in Hci.
  unfold closes, durations, accepted in *. cbn in *.
  destruct f, p; cbn in *; split_and!; try lia; done.
Qed.

Lemma closes_send c w w' :
  lp w = LoopSelect -> w' = set_lp (LoopGot c) w ->
  closes w' = closes w + Nat.b2n (is_close c).
Proof.
  intros Hl ->. unfold closes, accepted. cbn. rewrite Hl, app_nil_r, countb_app. cbn. lia.
Qed.

(** A world whose counters did not grow, for the threads outside. *)
Lemma once_inv_keep qs w w' (i : nat) q :
  once_inv qs w -> qs !! i = Some q -> once w' = once w -> sctx_done w' = sctx_done w ->
  (lp w' = LoopExit -> ctx_done w' = true) ->
  closes w' = closes w -> durations w' <= durations w -> once_inv (<[i := q]> qs) w'.
Proof.
  intros [_ H] Hi Ho Hs Hl Hc Hd. rewrite list_insert_id by done. split; [done|].
  rewrite Ho, Hs. destruct (once w).
  - destruct H as (? & ? & ? & ?). split_and!; [done|lia|lia|done].
  - destruct H as [? Hv]. split; [done|]. intros j p f c Hj.
    destruct (Hv j p f c Hj) as (? & ? & ?). split_and!; [lia|lia|done].
  - destruct H as (? & ? & ? & ?). split_and!; [done|lia|lia|done].
Qed.

Lemma once_inv_op qs w (i : nat) q q' X (o : op X) r x w' :
  once_inv qs w -> qs !! i = Some q -> interp o r w = Some (x, w') ->
  once_delta X q o x = Some q' -> once_inv (<[i := q']> qs) w'.
Proof.
  intros HI Hi Hint Hd. pose proof HI as [Hl _].
  assert (Hsame : once_same w w' -> q' = q -> once_inv (<[i := q']> qs) w').
  { intros Hs ->. rewrite list_insert_id by done. by eapply once_inv_same. }
  destruct o; cbn in Hd;
    try (cbn in Hint; repeat case_match; simplify_eq; apply Hsame; done).
  - destruct q; simplify_eq. by eapply once_inv_enter.
  - destruct q as [|p f []]; simplify_eq. by eapply once_inv_leave.
  - cbn in Hint. destruct r; simplify_eq. destruct sent.
    + destruct (lp w) eqn:Hlp; simplify_eq.
      pose proof (closes_send c w _ Hlp eq_refl) as Hc.
      destruct (is_close c) eqn:Hic; cbn in Hc.
      * destruct q as [|p [] []]; simplify_eq.
        pose proof (body_bounds _ _ _ _ _ _ HI Hi) as Hb. cbn in Hb.
        eapply once_inv_body; [exact HI|exact Hi|..]; cbn; try done; [lia|apply Hb|apply Hb].
      * destruct q; simplify_eq. eapply once_inv_keep; [exact HI|exact Hi|..]; cbn; try done.
        lia.
    + destruct (vu_done w) eqn:Hvu; simplify_eq. destruct (is_close c) eqn:Hic.
      * destruct q as [|p [] []]; simplify_eq.
        pose proof (body_bounds _ _ _ _ _ _ HI Hi) as Hb. cbn in Hb.
        eapply once_inv_body; [exact HI|exact Hi|..]; try done; [cbn; lia|apply Hb|apply Hb].
      * destruct q; simplify_eq. by rewrite list_insert_id.
  - destruct q as [|p f []]; simplify_eq. cbn in Hint. simplify_eq.
    pose proof (body_bounds _ _ _ _ _ _ HI Hi) as Hb. cbn in Hb.
    eapply once_inv_body; [exact HI|exact Hi|..]; try done; apply Hb.
  - assert (Hint' : interp (Push m ts v) RNone w = Some (x, w')) by exact Hint.
    apply durations_push in Hint' as (Hdu & Ho & Hlp & Hq & Hs & Hvu).
    assert (Hcl : closes w' = closes w) by (unfold closes, accepted; by rewrite Hlp, Hq).
    assert (Hl' : lp w' = LoopExit -> ctx_done w' = true)
      by (unfold ctx_done; rewrite Hlp, Hs, Hvu; exact Hl).
    case_bool_decide as Hm.
    + destruct q as [|[] f c]; simplify_eq.
      pose proof (body_bounds _ _ _ _ _ _ HI Hi) as Hb. cbn in Hb.
      eapply once_inv_body; [exact HI|exact Hi|..]; try done; [lia|cbn in *; lia|].
      rewrite Hs. apply Hb.
    + simplify_eq. eapply once_inv_keep; [exact HI|exact Hi|..]; try done. cbn in Hdu. lia.
Qed.

#[export] Instance once_laws : ProtocolLaws (P := once_protocol).
Proof.
  split; try done.
  - apply once_api.
  - intros. apply once_callback.
  - intros. eapply conforms_mono; [|apply once_connect_goroutine]. done.
  - intros. eapply conforms_mono; [|apply once_write_goroutine]. done.
  - apply rounds_same. eapply conforms_mono; [|apply once_read_round]. intros [] q ->; [done|].
    eapply conforms_mono; [|apply once_destroy]. done.
  - intros ran qs w i q q' X o r x w' HI Hi _ Hint Hd. apply once_inv_spawn.
    exact (once_inv_op qs w i q q' X o r x w' HI Hi Hint Hd).
  - intros ran qs w w' [Hl H] Hs. unfold loop_step in Hs.
    unfold Inv, once_protocol, once_inv, closes, durations, accepted in *.
    destruct (lp w) eqn:Hlp; [|simplify_eq|done].
    + destruct (ctx_done w) eqn:Hc; simplify_eq. cbn. by rewrite app_nil_r in *.
    + cbn. by rewrite app_nil_r.
  - intros ran qs w [Hl H]. split; [|exact H]. intros _. unfold ctx_done. cbn.
    by rewrite orb_true_r.
Qed.

Lemma once_init w : initial w -> Inv [] [q_js] w.
Proof. intros H. by apply initial_world in H as (s & now & -> & _). Qed.

(** ** Properties *)

Lemma reachable_once c : reachable c -> exists qs, once_inv qs (cw c).
Proof. intros H. exact (reachable_Inv (P := once_protocol) c once_init H). Qed.

(** C13: however many threads call [destroy], and whenever the read loop ends,
    the teardown happens at most once: the task queue receives at most one
    [close] event and at most one duration sample is pushed. *)
Theorem teardown_at_most_once (c : cfg) :
  reachable c -> closes (cw c) <= 1 /\ durations (cw c) <= 1.
Proof.
  intros H. destruct (reachable_once _ H) as (qs & _ & HI).
  destruct (once (cw c)); [lia| |lia]. destruct HI as [H1 Hv].
  destruct (countb_ex in_body qs ltac:(lia)) as (i & [|p f ca] & Hi & Hb); [done|].
  destruct (Hv i p f ca Hi) as (Hc & Hd & _).
  destruct f, p; cbn in *; lia.
Qed.

(** The loop goroutine stops only after [destroy] has cancelled the
    socket's context (once its [close] event was handed over) or the VU has
    ended; until then events are still received. *)
Theorem loop_exit_cause (c : cfg) :
  reachable c -> lp (cw c) = LoopExit ->
  vu_done (cw c) = true \/ (sctx_done (cw c) = true /\ once (cw c) <> OnceIdle).
Proof.
  intros H Hl. destruct (reachable_once _ H) as (qs & Hx & HI). specialize (Hx Hl).
  unfold ctx_done in Hx. destruct (vu_done (cw c)); [by left|]. right.
  rewrite orb_false_r in Hx. split; [done|]. intros Ho. rewrite Ho in HI.
  destruct HI as (_ & _ & _ & HI). congruence.
Qed.
End lifecycle.

(** ** Witnesses *)
#[local] Existing Instance K6Ref.

Lemma teardown_at_most_once_witness :
  closes (cw destroyed_cfg) = 1 /\ durations (cw destroyed_cfg) = 1 /\
  (closes (cw destroyed_cfg) <= 1 /\ durations (cw destroyed_cfg) <= 1).
Proof.
  split; [vm_compute; reflexivity|]. split; [vm_compute; reflexivity|].
  exact (teardown_at_most_once destroyed_cfg destroyed_reachable).
Defined.

Lemma loop_exit_cause_witness :
  lp (cw destroyed_cfg) = LoopExit /\ vu_done (cw destroyed_cfg) = false /\
  (vu_done (cw destroyed_cfg) = true \/
   (sctx_done (cw destroyed_cfg) = true /\ once (cw destroyed_cfg) <> OnceIdle)).
Proof.
  assert (H : lp (cw destroyed_cfg) = LoopExit) by (vm_compute; reflexivity).
  split; [exact H|]. split; [vm_compute; reflexivity|].
  exact (loop_exit_cause destroyed_cfg destroyed_reachable H).
Defined.
