(* ===== verification/Deadlock.v ===== *)
(** * What a deadlock waits for

    The goroutines of a socket can only wait for each other in one way: an event
    is offered to a dispatch loop that has ended, or a [destroy] waits for one
    that offers [close]. Nothing blocks on the mutex, on a buffer, or on a
    connection that does not exist, and once the VU has ended nothing blocks at
    all. The reader's connection is followed by one more protocol, beside that of
    SentSpec, which knows that stored connections were dialed. *)
From S2P Require Import Prelude GoStd K6 Metrics Lang Socket Events Connect ReadWrite System Scenarios Buffers Product Sent SentSpec Locking Lifecycle.

(** ** The reader's connection *)
Inductive knows := KOther | KReader (c : option connid).

Section known.
Context `{K : K6}.

(** The reader reads only the connection it last found in the socket. *)
Definition known_delta (X : Type) (q : knows) (o : op X) : X -> option knows :=
  match o in op X return X -> option knows with
  | GetS => fun s => Some (match q with KReader _ => KReader (conn s) | KOther => KOther end)
  | ConnRead c => fun _ =>
      match q with KReader (Some c') => if bool_decide (c' = c) then Some q else None | _ => None end
  | _ => fun _ => Some q
  end.

Definition known_phases (qs : list (option promise * write_phase * knows)) (w : world) : Prop :=
  forall (i : nat) q c, qs !! i = Some q -> q.2 = KReader (Some c) -> is_Some (conns w !! c).

Definition known_companion : companion (option promise * write_phase) knows := {|
  co_delta := known_delta;
  co_js := KOther;
  co_callback _ := KOther;
  co_call _ := True;
  co_go g := match g with GRead => KReader None | _ => KOther end;
  co_fin _ := True;
  co_inv _ := known_phases
|}.

Abbreviation keeps_known := (keeps (fun X => known_delta X) KOther).

Lemma known_destroy q : conforms (fun X => known_delta X) q destroy (fun _ _ => True).
Proof. destruct q; cfm_run. Qed.

Lemma known_destroy_other : keeps_known destroy.
Proof. cfm_run. Qed.

Lemma known_api a : keeps_known (api_prog a).
Proof.
  apply keeps_api; [intros; apply keeps_connect; cfm_run|intros; apply keeps_write; cfm_run|apply known_destroy_other|cfm_run|intros; unfold on; cfm_run|cfm_run|done|cfm_run].
Qed.

Lemma known_callback c l : keeps_known (callback c (run_script l)).
Proof. apply keeps_callback; try apply known_api; cfm_run. Qed.

Lemma known_connect_goroutine p : keeps_known (connect_goroutine p).
Proof. apply keeps_bind; [unfold connectExecute; cfm_run|]. intros [e|]; cfm_run. Qed.

Lemma known_write_goroutine p data opts : keeps_known (write_goroutine p data opts).
Proof.
  apply keeps_bind; [apply keeps_writeExecute|intros [e|]]; try (intros ? ? [-> | ->]); cfm_run.
Qed.

Definition reading (q : knows) : Prop := exists c, q = KReader c.

Lemma known_read_round q :
  reading q -> conforms (fun X => known_delta X) q read_round (fun _ => reading).
Proof.
  intros [k ->]. unfold read_round, readLoopStep.
  cfm_run; try by eexists.
  all: match goal with H : bool_decide (?a = ?a) = false |- _ => by apply bool_decide_eq_false in H end.
Qed.

(** ** The operations preserve the invariant *)
#[export] Instance known_laws : CompanionLaws sent_protocol known_companion.
Proof.
  split.
  - apply known_api.
  - intros. apply known_callback.
  - intros. eapply conforms_mono; [|apply known_connect_goroutine]. done.
  - intros. eapply conforms_mono; [|apply known_write_goroutine]. done.
  - exists reading. split; [by eexists|]. intros q Hq.
    eapply conforms_mono; [|by apply known_read_round]. intros [] q' Hq'; [done|]. apply known_destroy.
  - intros ran qs w i [sq kq] q' X o r x w' [_ [log HI]] HJ Hi _ Hint Hd.
    cbn in Hd. unfold both in Hd. cbn in Hd.
    assert (Hq' : exists sq' kq', known_delta X kq o x = Some kq' /\ q' = (sq', kq'))
      by (repeat case_match; simplify_eq; eauto).
    clear Hd. destruct Hq' as (sq' & kq' & Hk & ->).
    intros j q c Hj Hq. apply (interp_known X o r w x w' c Hint).
    apply lookup_app_Some in Hj as [Hj|[_ Hj]].
    + apply list_lookup_insert_Some in Hj as [(-> & <- & _)|[_ Hj]]; [|by eapply HJ]. cbn in Hq. subst kq'.
      destruct o; cbn in Hk; repeat case_match; simplify_eq; try by eapply HJ.
      cbn in Hint. simplify_eq. by apply (se_conn _ _ _ HI).
    + apply list_lookup_fmap_Some in Hj as ([] & -> & _); done.
  - intros ran qs w w' HJ Hl.
    assert (Hsame : conns w' = conns w) by (unfold loop_step in Hl; by repeat case_match; simplify_eq).
    intros i q c. rewrite Hsame. apply HJ.
  - done.
  - intros ran qs w i c _ HJ _ _ [|j] q c' Hj; [by injection Hj as <-|]. exact (HJ (S j) q c' Hj).
  - done.
  - done.
Qed.

Definition known_protocol : Protocol (option promise * write_phase * knows) :=
  product sent_protocol known_companion.

Lemma known_protocol_laws : ProtocolLaws (P := known_protocol).
Proof. exact (product_laws _ _ sent_protocol_laws known_laws). Qed.

Lemma known_init w : initial w -> Inv (Protocol := known_protocol) [] [q_js (Protocol := known_protocol)] w.
Proof. intros Hw. split; [by apply sent_init|]. intros [|i] q c Hi; cbn in Hi; by simplify_eq. Qed.
End known.

(** ** What blocks *)
Section deadlock.
Context `{K : K6}.

(** The operations that may have to wait, or panic. *)
Definition may_wait {X} (o : op X) : bool :=
  match o with
  | Lock | Unlock | RLock | RUnlock | OnceEnter | Send _ | BufWrite _ _ | BufRead _ | ConnRead _
  | GoPanic => true
  | _ => false
  end.

(** All others are possible, for some answer. *)
Lemma others_enabled (ts : tagset) {X} (o : op X) w :
  may_wait o = false -> exists r x w', interp o r w = Some (x, w').
Proof.
  destruct o; try done; intros _; try (by eexists RNone, _, _).
  - by eexists (RTags ts), _, _.
  - by eexists (RTLS None), _, _.
  - destruct (exist_fresh (dom (bufs w))) as [b Hb]. apply not_elem_of_dom in Hb.
    eexists (RBuf b), b, _. cbn. by rewrite (bool_decide_eq_true_2 _ Hb), orb_true_r.
  - by eexists (RResolve (Err ErrEOF)), _, _.
  - by eexists (RDial (Some ErrEOF)), _, _.
  - by eexists (RError (Some ErrEOF)), _, _.
  - by eexists (RAddr None), _, _.
  - by eexists (RError (Some ErrEOF)), _, _.
  - by eexists (RWrite 0 None), _, _.
Qed.

(** A read of a connection that exists can return. *)
Lemma read_enabled c w : is_Some (conns w !! c) -> exists r x w', interp (ConnRead c) r w = Some (x, w').
Proof.
  intros [nc Hc].
  eexists (RRead [] None), _, _. cbn [interp]. by rewrite Hc.
Qed.

(** No goroutine can take a step, whatever the environment answers. *)
Definition stuck (c : cfg) : Prop :=
  (forall i r, cfg_step (SThread i r) c = None) /\ cfg_step SLoop c = None.

Lemma idle_or th : th = idle \/ th <> idle.
Proof. destruct th as [[[]|]|]; [by left|by right..]. Qed.

Lemma all_idle_or ths :
  Forall (fun th => th = idle) ths \/ exists (i : nat) th, ths !! i = Some th /\ th <> idle.
Proof.
  induction ths as [|th ths [IH|(i & th' & Hi & Hn)]]; [by left| |right; by exists (S i), th'].
  destruct (idle_or th) as [->|Hn]; [left; by constructor|right; by exists 0, th].
Qed.

(** A thread that offers an event. *)
Definition offers (th : thread) : Prop := exists cl, at_op th (Send cl).

Lemma stuck_blocked c i th {X} (o : op X) r :
  stuck c -> threads c !! i = Some th -> at_op th o -> interp o r (cw c) = None.
Proof.
  intros [Hs _] Hi Ho. specialize (Hs i r). cbn in Hs. rewrite Hi in Hs.
  destruct Ho as [[k ->]|[k ->]]; cbn in Hs; by destruct (interp o r (cw c)) as [[]|].
Qed.

Lemma stuck_returned c i b : stuck c -> threads c !! i <> Some (TRead (Ret b)).
Proof. intros [Hs _] Hi. specialize (Hs i RNone). cbn in Hs. rewrite Hi in Hs. by destruct b. Qed.

Section one.
Context (ts : tagset) (c : cfg) (Hr : reachable c) (Hs : stuck c).
Context (Hp : Forall (fun th => panicked th = false) (threads c)).

Lemma stuck_mutex : mu (cw c) = MFree.
Proof.
  destruct (decide (mu (cw c) = MFree)) as [|Hm]; [done|].
  destruct (lock_holder_steps ts c Hr Hm Hp) as (i & r & c' & Hc).
  destruct Hs as [Hn _]. by rewrite Hn in Hc.
Qed.

(** A thread that is about to release the mutex holds it. *)
Lemma no_release i th :
  threads c !! i = Some th -> ~ at_op th Unlock /\ ~ at_op th RUnlock.
Proof.
  intros Hi. destruct (cfg_inv_phase (P := lock_protocol) c i th
    (reachable_cfg_inv (P := lock_protocol) c lock_init Hr) Hi) as (q & Hq).
  pose proof Hq as [_ (qs & [Hm _] & Hqi)]. rewrite stuck_mutex in Hm. destruct Hm as [Hrd Hwr].
  pose proof (countb_lookup is_read qs i q Hqi) as H1.
  pose proof (countb_lookup is_write qs i q Hqi) as H2.
  split; intros Ho; destruct (in_phase_allowed (P := lock_protocol) c i th q _ _ Hq Ho tt) as [q' Hd];
    destruct q; cbn in *; by try lia.
Qed.

(** A thread uses only buffers it owns, and those exist. *)
Lemma buffer_exists i th b :
  threads c !! i = Some th -> (exists data, at_op th (BufWrite b data)) \/ at_op th (BufRead b) ->
  is_Some (bufs (cw c) !! b).
Proof.
  intros Hi Ho. destruct (cfg_inv_phase (P := buffer_protocol None) c i th (reachable_buffers c Hr) Hi)
    as (q & Hq). pose proof Hq as [_ (qs & HI & Hqi)].
  assert (Hb : buffer_of q = Some b).
  { destruct Ho as [[data Ho]|Ho].
    - destruct (in_phase_allowed (P := buffer_protocol None) c i th q _ _ Hq Ho tt) as [q' Hd].
      cbn in Hd. by case_bool_decide; subst.
    - destruct (in_phase_allowed (P := buffer_protocol None) c i th q _ _ Hq Ho []) as [q' Hd].
      cbn in Hd. by case_bool_decide; subst. }
  apply (bi_out _ _ _ _ HI b), elem_of_app. left. apply (owned_lookup _ i).
  rewrite list_lookup_fmap, Hqi. cbn. by rewrite Hb.
Qed.

Lemma read_exists i th cn :
  threads c !! i = Some th -> at_op th (ConnRead cn) -> is_Some (conns (cw c) !! cn).
Proof.
  intros Hi Ho. destruct (cfg_inv_phase (P := known_protocol) c i th
    (reachable_cfg_inv (L := known_protocol_laws) c known_init Hr) Hi) as (q & Hq).
  pose proof Hq as [_ (qs & [_ HI] & Hqi)].
  destruct (in_phase_allowed (P := known_protocol) c i th q _ _ Hq Ho (0, None)) as [q' Hd].
  apply (HI i q cn Hqi). destruct q as [q k]. cbn in Hd |- *. unfold both in Hd. cbn in Hd.
  destruct k as [|[c'|]]; [by repeat case_match|case_bool_decide; [by subst|by repeat case_match]|by repeat case_match].
Qed.

(** What a stuck thread that has not returned waits for. *)
Lemma waits_for i th :
  threads c !! i = Some th -> th <> idle ->
  offers th \/ at_op th OnceEnter /\ once (cw c) = OnceBusy.
Proof.
  intros Hi Hne. destruct (thread_shape th) as [|[[b ->]|(X & o & Ho)]]; [done| |].
  { by destruct (stuck_returned c i b Hs). }
  assert (Hno : forall r x w', interp o r (cw c) <> Some (x, w'))
    by (intros r x w'; by rewrite (stuck_blocked c i th o r Hs Hi Ho)).
  destruct (may_wait o) eqn:Hw.
  2:{ destruct (others_enabled ts o (cw c) Hw) as (r & x & w' & He). by destruct (Hno r x w'). }
  destruct o; try done.
  - exfalso. eapply (Hno RNone). cbn. by rewrite stuck_mutex.
  - by destruct (no_release i th Hi) as [H _].
  - exfalso. eapply (Hno RNone). cbn. by rewrite stuck_mutex.
  - by destruct (no_release i th Hi) as [_ H].
  - right. split; [done|]. destruct (once (cw c)) eqn:Hon; [|done|]; exfalso;
      eapply (Hno RNone); cbn; by rewrite Hon.
  - left. by exists c0.
  - exfalso. destruct (buffer_exists i th b Hi) as [old Hb]; [left; by eexists|].
    eapply (Hno RNone). cbn. by rewrite Hb.
  - exfalso. destruct (buffer_exists i th b Hi) as [old Hb]; [by right|].
    eapply (Hno RNone). cbn. by rewrite Hb.
  - exfalso. destruct (read_enabled c0 (cw c)) as (r & x & w' & He); [by eapply read_exists|].
    by apply (Hno r x w').
  - exfalso. pose proof (Forall_lookup_1 _ _ _ _ Hp Hi) as Hn.
    by destruct Ho as [[k ->]|[k ->]].
Qed.

(** The thread that runs the body of the Once offers an event. *)
Lemma body_offers : once (cw c) = OnceBusy -> exists i th, threads c !! i = Some th /\ offers th.
Proof.
  intros Hon.
  destruct (reachable_cfg_inv (P := once_protocol) c once_init Hr)
    as (qj & qs & th & ths & Ht & Hj & Hgs & Hlen & HI).
  pose proof HI as [_ Hb]. rewrite Hon in Hb. destruct Hb as [Hb _].
  destruct (countb_ex in_body (qj :: qs)) as (i & q & Hi & Hq); [lia|].
  assert (Hthi : exists thi, threads c !! i = Some thi /\
    (js_ok (P := once_protocol) q thi \/ go_ok (P := once_protocol) q thi)).
  { rewrite Ht. destruct i as [|i]; cbn in Hi |- *; [simplify_eq; eauto|].
    destruct (Forall2_lookup_l _ _ _ _ _ Hgs Hi) as (thi & ? & ?). eauto. }
  destruct Hthi as (thi & Hthi & Hok).
  assert (Hphase : in_phase (P := once_protocol) c i thi q) by (split; [done|by exists (qj :: qs)]).
  exists i, thi. split; [done|]. destruct (waits_for i thi Hthi) as [|[Ho _]]; [|done|].
  - intros ->. by destruct Hok as [Hok|Hok]; cbn in Hok; subst q.
  - destruct (in_phase_allowed (P := once_protocol) c i thi q _ _ Hphase Ho true) as [q' Hd].
    by destruct q.
Qed.

(** An event is offered only to a loop that has ended, and while the VU runs. *)
Lemma offers_ended i th :
  threads c !! i = Some th -> offers th -> vu_done (cw c) = false /\ lp (cw c) = LoopExit.
Proof.
  intros Hi [cl Ho].
  pose proof (stuck_blocked c i th _ (RSelect true) Hs Hi Ho) as H1.
  pose proof (stuck_blocked c i th _ (RSelect false) Hs Hi Ho) as H2.
  cbn in H1, H2. destruct (vu_done (cw c)); [done|]. split; [done|].
  destruct Hs as [_ Hl]. cbn in Hl. unfold loop_step in Hl. by destruct (lp (cw c)).
Qed.
End one.

(** C19: the only deadlock. In a reachable configuration in which no thread and
    not the dispatch loop can take a step, whatever the environment answers, and
    no thread has panicked, the mutex is free, and either all threads have
    returned, or: the VU is still running, the dispatch loop has ended, some thread
    offers an event to it, and every other one that has not returned does the same
    or waits for a [destroyOnce] that is running. So goroutines never wait for the
    mutex, a buffer or each other in any other way, and once the VU has ended none
    is left blocked. *)
Theorem deadlock_cause (ts : tagset) (c : cfg) :
  reachable c -> Forall (fun th => panicked th = false) (threads c) -> stuck c ->
  mu (cw c) = MFree /\
  (finished c \/
   vu_done (cw c) = false /\ lp (cw c) = LoopExit /\
   (exists i th, threads c !! i = Some th /\ offers th) /\
   forall i th, threads c !! i = Some th ->
     th = idle \/ offers th \/ at_op th OnceEnter /\ once (cw c) = OnceBusy).
Proof.
  intros Hr Hp Hs. split; [by apply (stuck_mutex ts)|].
  destruct (all_idle_or (threads c)) as [Hf|(i & th & Hi & Hne)]; [by left|right].
  assert (He : exists i th, threads c !! i = Some th /\ offers th).
  { destruct (waits_for ts c Hr Hs Hp i th Hi Hne) as [Ho|[_ Hon]]; [by exists i, th|].
    by apply (body_offers ts). }
  destruct He as (j & th' & Hj & Ho). destruct (offers_ended c Hs j th' Hj Ho) as [Hv Hl].
  split_and!; [done|done|by exists j, th'|]. intros i' th1 Hi1.
  destruct (idle_or th1) as [->|Hn]; [by left|right]. by apply (waits_for ts c Hr Hs Hp i').
Qed.
End deadlock.

(** ** Witness *)
Lemma exited_stuck `{K : K6} c :
  (forall i r, cfg_step (SThread i r) c = None) -> lp (cw c) = LoopExit -> stuck c.
Proof. intros Hs Hl. split; [done|]. cbn. unfold loop_step. by rewrite Hl. Qed.

Lemma busy_js `{K : K6} c :
  match threads c with TProg (Op _ _) :: _ => true | _ => false end = true -> ~ finished c.
Proof. unfold finished. destruct (threads c); [done|]. intros H Hf. by apply Forall_cons in Hf as [-> _]. Qed.

Lemma no_panic `{K : K6} c :
  forallb (fun th => negb (panicked th)) (threads c) = true ->
  Forall (fun th => panicked th = false) (threads c).
Proof.
  rewrite forallb_forall. intros H. apply Forall_forall. intros th Hth.
  apply negb_true_iff, H. by apply list_elem_of_In.
Qed.

#[local] Existing Instance K6Ref.

(** The JS thread that reports a failing [write] on a destroyed socket. *)
Lemma deadlock_cause_witness :
  reachable hung_cfg /\ stuck hung_cfg /\ ~ finished hung_cfg /\
  mu (cw hung_cfg) = MFree /\
  (finished hung_cfg \/
   vu_done (cw hung_cfg) = false /\ lp (cw hung_cfg) = LoopExit /\
   (exists i th, threads hung_cfg !! i = Some th /\ offers th) /\
   forall i th, threads hung_cfg !! i = Some th ->
     th = idle \/ offers th \/ at_op th OnceEnter /\ once (cw hung_cfg) = OnceBusy).
Proof.
  assert (Hs : stuck hung_cfg)
    by (apply exited_stuck; [exact hung_stuck|vm_compute; reflexivity]).
  split; [exact hung_reachable|]. split; [exact Hs|].
  split; [apply busy_js; vm_compute; reflexivity|].
  apply (deadlock_cause no_tags hung_cfg hung_reachable); [|exact Hs].
  apply no_panic. vm_compute. reflexivity.
Defined.
