(* ===== verification/EchoTcp.v ===== *)
(** * The TCP echo server: internal/echo/server_tcp.go

    The goroutines of one [TCPServer], interleaved: acceptors, one handler per
    connection, and [Stop]. [tcp_step] is one atomic step, named by a [tcp_act]
    that carries what the outside answers. *)
From S2P Require Import Prelude GoStd.

Definition host : string := "localhost".
Definition defaultConnectionTimeout : Z := 5000000000.
Definition ErrInvalidTCPAddress : goerr := ErrNew "failed to get TCP address".

(** ** isConnectionClosed *)

Definition closed_texts : list string :=
  ["use of closed network connection"; "connection reset by peer"; "broken pipe";
   "connection refused"].

(** [None] is a nil error. *)
Definition isConnectionClosed (err : option goerr) : bool :=
  match err with
  | None => false
  | Some e =>
      if errors_Is e ErrEOF then true
      else let errMsg := ToLower (Error e) in existsb (fun text => contains text errMsg) closed_texts
  end.

(** The branch of handleConnection that logs an error. *)
Definition logs_error (err : option goerr) : bool :=
  match err with Some _ => negb (isConnectionClosed err) | None => false end.

(** ** Connections and handlers *)

(** The phases of handleConnection: deadlines to set, [io.Copy] about to read,
    [io.Copy] about to write what a read returned (with that read's error), the
    deferred [wg.Done], the deferred [conn.Close], and the end. *)
Inductive phase :=
| PReadDeadline
| PWriteDeadline (deadline : Z)
| PRead
| PWrite (buf : list byte) (er : option goerr)
| PDone
| PClose
| PEnd.

Record handler := {
  h_phase : phase;
  h_rdl : option Z;               (** read deadline *)
  h_wdl : option Z;               (** write deadline *)
  h_in : list byte;               (** the bytes read from the client *)
  h_out : list byte;              (** the bytes written back *)
  h_err : option (option goerr);  (** what io.Copy returned *)
  h_closed : bool
}.

Definition new_handler : handler :=
  {| h_phase := PReadDeadline; h_rdl := None; h_wdl := None; h_in := []; h_out := [];
     h_err := None; h_closed := false |}.

Definition with_phase (p : phase) (h : handler) : handler :=
  {| h_phase := p; h_rdl := h_rdl h; h_wdl := h_wdl h; h_in := h_in h; h_out := h_out h;
     h_err := h_err h; h_closed := h_closed h |}.

(** [io.Copy] returns: its caller looks at the error and returns. *)
Definition copied (err : option goerr) (h : handler) : handler :=
  {| h_phase := PDone; h_rdl := h_rdl h; h_wdl := h_wdl h; h_in := h_in h; h_out := h_out h;
     h_err := Some err; h_closed := h_closed h |}.

(** What [io.Copy] returns for the error of the read that ended it. *)
Definition copy_result (er : goerr) : option goerr := if bool_decide (er = ErrEOF) then None else Some er.

Definition ErrShortWrite : goerr := ErrNew "short write".

(** After a deadline, reads and writes fail (net.Conn). *)
Definition expired (deadline : option Z) (now : Z) : bool :=
  match deadline with Some d => (d <=? now)%Z | None => false end.

Inductive answer :=
| ADeadline (err : option goerr)
| ARead (data : list byte) (err : option goerr)
| AWrite (n : nat) (err : option goerr)
| ANone.

(** One step of handleConnection; [None] when the outside cannot answer so.
    [io.Copy] may read any number of bytes at once. *)
Definition handler_step (now : Z) (a : answer) (h : handler) : option handler :=
  match h_phase h, a with
  | PReadDeadline, ADeadline err =>
      let deadline := (now + defaultConnectionTimeout)%Z in
      Some {| h_phase := PWriteDeadline deadline;
              h_rdl := match err with Some _ => h_rdl h | None => Some deadline end;
              h_wdl := h_wdl h; h_in := h_in h; h_out := h_out h; h_err := h_err h;
              h_closed := h_closed h |}
  | PWriteDeadline deadline, ADeadline err =>
      Some {| h_phase := PRead; h_rdl := h_rdl h;
              h_wdl := match err with Some _ => h_wdl h | None => Some deadline end;
              h_in := h_in h; h_out := h_out h; h_err := h_err h; h_closed := h_closed h |}
  | PRead, ARead data er =>
      if implb (expired (h_rdl h) now) (bool_decide (data = []) && bool_decide (er <> None))
      then
        let h' := {| h_phase := PRead; h_rdl := h_rdl h; h_wdl := h_wdl h; h_in := h_in h ++ data;
                     h_out := h_out h; h_err := h_err h; h_closed := h_closed h |} in
        match data with
        | [] => match er with None => Some h' | Some e => Some (copied (copy_result e) h') end
        | _ => Some (with_phase (PWrite data er) h')
        end
      else None
  | PWrite buf er, AWrite n ew =>
      if (n <=? length buf) && implb (expired (h_wdl h) now) (bool_decide (ew <> None)) then
        let h' := {| h_phase := PRead; h_rdl := h_rdl h; h_wdl := h_wdl h; h_in := h_in h;
                     h_out := h_out h ++ take n buf; h_err := h_err h; h_closed := h_closed h |} in
        match ew with
        | Some e => Some (copied (Some e) h')
        | None =>
            if n <? length buf then Some (copied (Some ErrShortWrite) h')
            else match er with
                 | None => Some h'
                 | Some e => Some (copied (copy_result e) h')
                 end
        end
      else None
  | _, _ => None
  end.

(** ** The server *)

(** The lines of [Stop]: close the channel, close the listener, wait. *)
Inductive stop_phase := StopIdle | StopListener | StopWait | StopReturned.
#[export] Instance stop_phase_eq_dec : EqDecision stop_phase.
Proof. solve_decision. Defined.

Record TCPServer := {
  port : Z;
  done : bool;              (** [done] is closed *)
  listening : bool;         (** the listener is open *)
  wg : Z;
  acceptors : nat;          (** running acceptConnections *)
  conns : list handler;     (** every connection accepted so far *)
  stopping : stop_phase;
  panicked : bool;
  now : Z
}.

Definition set_done (b : bool) (s : TCPServer) : TCPServer :=
  {| port := port s; done := b; listening := listening s; wg := wg s; acceptors := acceptors s;
     conns := conns s; stopping := stopping s; panicked := panicked s; now := now s |}.
Definition set_listening (b : bool) (s : TCPServer) : TCPServer :=
  {| port := port s; done := done s; listening := b; wg := wg s; acceptors := acceptors s;
     conns := conns s; stopping := stopping s; panicked := panicked s; now := now s |}.
Definition set_acceptors (n : nat) (s : TCPServer) : TCPServer :=
  {| port := port s; done := done s; listening := listening s; wg := wg s; acceptors := n;
     conns := conns s; stopping := stopping s; panicked := panicked s; now := now s |}.
Definition set_handlers (l : list handler) (s : TCPServer) : TCPServer :=
  {| port := port s; done := done s; listening := listening s; wg := wg s; acceptors := acceptors s;
     conns := l; stopping := stopping s; panicked := panicked s; now := now s |}.
Definition set_stopping (p : stop_phase) (s : TCPServer) : TCPServer :=
  {| port := port s; done := done s; listening := listening s; wg := wg s; acceptors := acceptors s;
     conns := conns s; stopping := p; panicked := panicked s; now := now s |}.
Definition set_now (t : Z) (s : TCPServer) : TCPServer :=
  {| port := port s; done := done s; listening := listening s; wg := wg s; acceptors := acceptors s;
     conns := conns s; stopping := stopping s; panicked := panicked s; now := t |}.

(** [wg.Add(d)] panics when the counter becomes negative. *)
Definition wg_Add (d : Z) (s : TCPServer) : TCPServer :=
  {| port := port s; done := done s; listening := listening s; wg := wg s + d;
     acceptors := acceptors s; conns := conns s; stopping := stopping s;
     panicked := panicked s || (wg s + d <? 0)%Z; now := now s |}.
Definition set_panicked (s : TCPServer) : TCPServer :=
  {| port := port s; done := done s; listening := listening s; wg := wg s; acceptors := acceptors s;
     conns := conns s; stopping := stopping s; panicked := true; now := now s |}.

(** What the sources do with [lc.Listen(ctx, "tcp", host+":0")]. *)
Inductive listen_result :=
| ListenErr (e : goerr)
| ListenOther                    (** a listener whose address is not a TCPAddr *)
| ListenTCP (p : Z).

(** What the constructors do to listeners. *)
Inductive netev := ListenerOpened | ListenerClosed.
#[export] Instance netev_eq_dec : EqDecision netev.
Proof. solve_decision. Defined.

(** NewTCPServer: the server or the error, and the listeners opened and closed
    on the way. *)
Definition NewTCPServer (r : listen_result) (t : Z) : result TCPServer goerr * list netev :=
  match r with
  | ListenErr e => (Err (ErrWrap "failed to create TCP listener: " e ""), [])
  | ListenOther => (Err ErrInvalidTCPAddress, [ListenerOpened; ListenerClosed])
  | ListenTCP p => (Ok {| port := p; done := false; listening := true; wg := 0; acceptors := 0;
                          conns := []; stopping := StopIdle; panicked := false; now := t |},
                    [ListenerOpened])
  end.

Inductive tcp_act :=
| Start
| Accepted                        (** an acceptor gets a connection *)
| AcceptFailed                    (** Accept returns an error *)
| Handler (i : nat) (a : answer)  (** a step of the i-th handler *)
| HandlerDone (i : nat)
| HandlerClose (i : nat)
| StopCall
| StopClose
| StopWaited
| Tick (d : N).

Definition at_phase (p : phase -> bool) (i : nat) (s : TCPServer) : option handler :=
  match conns s !! i with
  | Some h => if p (h_phase h) then Some h else None
  | None => None
  end.

(** Start *)
Definition Start_step (s : TCPServer) : TCPServer := set_acceptors (S (acceptors s)) (wg_Add 1 s).

(** acceptConnections: one [Accept] that returns a connection, or an error.
    [Accept] fails whenever the listener is closed; while it is open it may fail
    too, and the loop goes on unless [done] is closed. *)
Definition accept_step (accepted : bool) (s : TCPServer) : option TCPServer :=
  if 0 <? acceptors s then
    if accepted then
      if listening s then Some (set_handlers (conns s ++ [new_handler]) (wg_Add 1 s)) else None
    else if done s then Some (wg_Add (-1) (set_acceptors (acceptors s - 1) s)) else Some s
  else None.

(** handleConnection of the i-th connection, up to its deferred function. *)
Definition serve_step (i : nat) (a : answer) (s : TCPServer) : option TCPServer :=
  match conns s !! i with
  | Some h => match handler_step (now s) a h with
              | Some h' => Some (set_handlers (<[i := h']> (conns s)) s)
              | None => None
              end
  | None => None
  end.

(** The deferred function: [s.wg.Done()], then [conn.Close()]. *)
Definition wg_Done_step (i : nat) (s : TCPServer) : option TCPServer :=
  match at_phase (fun p => match p with PDone => true | _ => false end) i s with
  | Some h => Some (wg_Add (-1) (set_handlers (<[i := with_phase PClose h]> (conns s)) s))
  | None => None
  end.
Definition Close_step (i : nat) (s : TCPServer) : option TCPServer :=
  match at_phase (fun p => match p with PClose => true | _ => false end) i s with
  | Some h =>
      Some (set_handlers (<[i := {| h_phase := PEnd; h_rdl := h_rdl h; h_wdl := h_wdl h;
              h_in := h_in h; h_out := h_out h; h_err := h_err h; h_closed := true |}]>
            (conns s)) s)
  | None => None
  end.

(** Stop: [close(s.done)], which panics the second time; closing the listener;
    waiting for the counter to be zero. *)
Definition Stop_call (s : TCPServer) : TCPServer :=
  if done s then set_panicked s else set_stopping StopListener (set_done true s).
Definition Stop_close (s : TCPServer) : option TCPServer :=
  match stopping s with
  | StopListener => Some (set_stopping StopWait (set_listening false s))
  | _ => None
  end.
Definition Stop_wait (s : TCPServer) : option TCPServer :=
  match stopping s with
  | StopWait => if (wg s =? 0)%Z then Some (set_stopping StopReturned s) else None
  | _ => None
  end.

(** One step of the server. *)
Definition tcp_step (a : tcp_act) (s : TCPServer) : option TCPServer :=
  if panicked s then None else
  match a with
  | Start => Some (Start_step s)
  | Accepted => accept_step true s
  | AcceptFailed => accept_step false s
  | Handler i a => serve_step i a s
  | HandlerDone i => wg_Done_step i s
  | HandlerClose i => Close_step i s
  | StopCall => Some (Stop_call s)
  | StopClose => Stop_close s
  | StopWaited => Stop_wait s
  | Tick d => Some (set_now (now s + Z.of_N d)%Z s)
  end.

Fixpoint tcp_run (l : list tcp_act) (s : TCPServer) : option TCPServer :=
  match l with
  | [] => Some s
  | a :: l => match tcp_step a s with Some s' => tcp_run l s' | None => None end
  end.

(** Reachable from a new server. *)
Definition tcp_reachable (s : TCPServer) : Prop :=
  exists r t s0 l, fst (NewTCPServer r t) = Ok s0 /\ tcp_run l s0 = Some s.

(** ** Invariants *)

Lemma tcp_reachable_ind (P : TCPServer -> Prop) :
  (forall r t s, fst (NewTCPServer r t) = Ok s -> P s) ->
  (forall a s s', P s -> tcp_step a s = Some s' -> P s') ->
  forall s, tcp_reachable s -> P s.
Proof.
  intros H0 Hs s (r & t & s0 & l & Hn & Hl). specialize (H0 _ _ _ Hn). clear Hn.
  revert s0 H0 Hl. induction l as [|a l IH]; intros s0 H0 Hl; cbn in Hl; [by simplify_eq|].
  destruct (tcp_step a s0) as [s1|] eqn:Ha; [|done]. eauto.
Qed.

(** A handler whose [wg.Done] is still to come. *)
Definition busy (h : handler) : bool :=
  match h_phase h with PClose | PEnd => false | _ => true end.

(** What the echo has done so far, by phase. *)
Definition echo_ok (h : handler) : Prop :=
  match h_phase h with
  | PReadDeadline | PWriteDeadline _ => h_in h = [] /\ h_out h = [] /\ h_err h = None
  | PRead => h_out h = h_in h /\ h_err h = None
  | PWrite buf _ => h_in h = h_out h ++ buf /\ h_err h = None
  | _ => exists err, h_err h = Some err /\ h_out h `prefix_of` h_in h /\
                     (err = None -> h_out h = h_in h)
  end.

Definition stop_ok (s : TCPServer) : Prop :=
  match stopping s with
  | StopIdle => done s = false /\ listening s = true
  | StopListener => done s = true /\ listening s = true
  | StopWait => done s = true /\ listening s = false
  | StopReturned => done s = true /\ listening s = false /\ countb busy (conns s) = 0
  end.

Record tcp_inv (s : TCPServer) : Prop := {
  inv_wg : wg s = Z.of_nat (acceptors s + countb busy (conns s));
  inv_echo : Forall echo_ok (conns s);
  inv_stop : stop_ok s
}.

Lemma handler_step_ok now a h h' :
  handler_step now a h = Some h' -> echo_ok h ->
  echo_ok h' /\ busy h = true /\ busy h' = true.
Proof.
  unfold handler_step, echo_ok, busy. destruct (h_phase h) eqn:Hp, a; try done.
  - intros [= <-]. done.
  - intros [= <-] (Hi & Ho & He). cbn. by rewrite Hi, Ho.
  - destruct (implb _ _); [|done]. intros H (Ho & He).
    destruct data as [|b data], err as [e|]; simplify_eq/=; rewrite ?app_nil_r, ?Ho;
      split_and!; try done.
    exists (copy_result e). split_and!; try done.
  - destruct (_ && _) eqn:Hc; [|done]. intros H (Hi & He).
    assert (Hpre : h_out h ++ take n buf `prefix_of` h_in h)
      by (rewrite Hi; apply prefix_app, prefix_take).
    assert (Hall : (n <? length buf) = false -> h_out h ++ take n buf = h_in h)
      by (intros Hn; apply Nat.ltb_ge in Hn; rewrite take_ge by done; done).
    destruct err as [e|]; simplify_eq/=; [by split_and!; try done; eexists|].
    destruct (n <? length buf); simplify_eq/=; [by split_and!; try done; eexists|].
    destruct er as [e|]; simplify_eq/=; split_and!; try done; eauto.
Qed.

(** Replacing one handler by one that is not busy unless it was. *)
Lemma inv_update s s' (i : nat) h h' :
  tcp_inv s -> conns s !! i = Some h -> conns s' = <[i := h']> (conns s) ->
  (wg s' + Z.of_nat (Nat.b2n (busy h)) = wg s + Z.of_nat (Nat.b2n (busy h')))%Z ->
  acceptors s' = acceptors s -> stopping s' = stopping s -> done s' = done s ->
  listening s' = listening s -> echo_ok h' -> (busy h' = true -> busy h = true) -> tcp_inv s'.
Proof.
  intros [Hw He Hs] Hi Hc Hw' Ha Hst Hd Hl Hok Hb.
  pose proof (countb_insert busy _ _ _ h' Hi) as Hcount. split.
  - rewrite Hc, Ha. lia.
  - rewrite Hc. by apply Forall_insert.
  - unfold stop_ok in *. rewrite Hst, Hd, Hl, Hc. destruct (stopping s); try done.
    destruct Hs as (Hd1 & Hl1 & Hz). split_and!; [done..|].
    destruct (busy h'), (busy h); cbn in Hcount; try lia.
Qed.

Lemma handler_inv i s s' x :
  tcp_inv s -> serve_step i x s = Some s' \/ wg_Done_step i s = Some s' \/ Close_step i s = Some s' ->
  tcp_inv s'.
Proof.
  intros HI Hst. pose proof HI as [_ He _].
  unfold serve_step, wg_Done_step, Close_step, at_phase in Hst.
  destruct (conns s !! i) as [h|] eqn:Hi; [|by destruct Hst as [|[|]]].
  pose proof (Forall_lookup_1 _ _ _ _ He Hi) as Hok. destruct Hst as [Hst|[Hst|Hst]].
  - destruct (handler_step (now s) x h) as [h'|] eqn:Hh; simplify_eq.
    destruct (handler_step_ok _ _ _ _ Hh Hok) as (Hok' & Hb & Hb').
    eapply (inv_update s _ i h h'); try done. cbn. by rewrite Hb, Hb'.
  - destruct (h_phase h) eqn:Hp; simplify_eq. unfold echo_ok in Hok. rewrite Hp in Hok.
    eapply (inv_update s _ i h (with_phase PClose h)); try done.
    unfold busy. cbn. rewrite Hp. cbn. lia.
  - destruct (h_phase h) eqn:Hp; simplify_eq. unfold echo_ok in Hok. rewrite Hp in Hok.
    eapply (inv_update s _ i h); try done. unfold busy. by rewrite Hp.
Qed.

Lemma tcp_step_inv a s s' : tcp_inv s -> tcp_step a s = Some s' -> tcp_inv s'.
Proof.
  intros HI Hst. pose proof HI as [Hw He Hs]. unfold tcp_step in Hst.
  destruct (panicked s); [done|]. destruct a as [| | |i a|i|i| | | |d].
  4: eapply (handler_inv i s s' a); eauto.
  4-5: eapply (handler_inv i s s' ANone); eauto.
  all: unfold Start_step, accept_step, Stop_call, Stop_close, Stop_wait, stop_ok in *.
  - simplify_eq. split; [cbn; lia|done..].
  - destruct (0 <? acceptors s); [|done]. destruct (listening s) eqn:Hl; simplify_eq. split.
    + cbn. rewrite countb_app. cbn. lia.
    + cbn. apply Forall_app. by repeat constructor.
    + unfold stop_ok. cbn. destruct (stopping s); naive_solver congruence.
  - destruct (Nat.ltb_spec 0 (acceptors s)); [|done].
    destruct (done s) eqn:Hd; simplify_eq; [|exact HI].
    split; [cbn; lia|done|]. unfold stop_ok. cbn. by rewrite Hd.
  - destruct (done s) eqn:Hd; simplify_eq; (split; [cbn; lia|done|]); unfold stop_ok; cbn.
    + rewrite Hd. by destruct (stopping s).
    + destruct (stopping s); naive_solver congruence.
  - destruct (stopping s) eqn:Hp; simplify_eq.
    split; [done..|]. unfold stop_ok. cbn. naive_solver.
  - destruct (stopping s) eqn:Hp; try done. destruct (Z.eqb_spec (wg s) 0); simplify_eq.
    split; [done..|]. unfold stop_ok. cbn. split_and!; [naive_solver..|]. lia.
  - simplify_eq. by split.
Qed.

Lemma tcp_new_inv r t s0 : fst (NewTCPServer r t) = Ok s0 -> tcp_inv s0.
Proof. intros Hn. destruct r; simplify_eq/=. split; [done|constructor|done]. Qed.

Lemma tcp_reachable_inv s : tcp_reachable s -> tcp_inv s.
Proof.
  apply tcp_reachable_ind; [|intros ? ? ?; apply tcp_step_inv].
  apply tcp_new_inv.
Qed.

(** ** Properties *)

(** C31: the echo: at any time, what was written back to a client is a prefix
    of what it sent, in order and unchanged; when the copy ended without error
    it is all of it. *)
Theorem echo_faithful s h :
  tcp_reachable s -> h ∈ conns s ->
  h_out h `prefix_of` h_in h /\ (h_err h = Some None -> h_out h = h_in h).
Proof.
  intros Hr Hh. destruct (tcp_reachable_inv _ Hr) as [_ He _].
  rewrite Forall_forall in He. specialize (He h Hh). unfold echo_ok in He.
  destruct (h_phase h).
  1,2: destruct He as (-> & -> & ->); split; [apply prefix_nil|done].
  1: destruct He as (-> & ->); done.
  1: destruct He as (-> & ->); split; [by apply prefix_app_r|done].
  all: destruct He as (err & He & Hp & Ha); split; [done|]; intros Hn; apply Ha; congruence.
Qed.

(** C34: the [WaitGroup] counts exactly the running acceptors and the handlers
    that have not called [Done], so it never goes negative, and the only panic
    of the server is closing [done] a second time. *)
Theorem wg_exact s a s' :
  tcp_reachable s -> tcp_step a s = Some s' ->
  wg s = Z.of_nat (acceptors s + countb busy (conns s)) /\
  (panicked s' = true -> a = StopCall /\ done s = true).
Proof.
  intros Hr Hs. pose proof (tcp_reachable_inv _ Hr) as HI.
  pose proof (tcp_step_inv _ _ _ HI Hs) as [Hw' _ _]. destruct HI as [Hw _ _]. split; [done|].
  unfold tcp_step, Start_step, accept_step, serve_step, wg_Done_step, Close_step, Stop_call, Stop_close, Stop_wait
    in Hs. destruct (panicked s) eqn:Hp; [done|]. intros Hp'.
  destruct a; repeat case_match; simplify_eq/=; try done; try congruence;
    rewrite Hp in Hp'; cbn in Hp'; apply Z.ltb_lt in Hp'; lia.
Qed.

(** When [Stop] has returned the listener is closed and every connection
    accepted so far has finished echoing. *)
Lemma stop_complete s h :
  tcp_inv s -> stopping s = StopReturned ->
  listening s = false /\ (h ∈ conns s -> is_Some (h_err h)).
Proof.
  intros [_ He Hst] Hs. unfold stop_ok in Hst.
  rewrite Hs in Hst. destruct Hst as (_ & Hl & Hz). split; [done|]. intros Hh.
  rewrite Forall_forall in He. specialize (He h Hh). unfold echo_ok in He.
  apply list_elem_of_lookup_1 in Hh as [i Hi]. apply (countb_lookup busy) in Hi. rewrite Hz in Hi.
  unfold busy in Hi. destruct (h_phase h); cbn in Hi; try lia;
    destruct He as (err & -> & _); by eexists.
Qed.

(** [Stop] does not become undone. *)
Lemma stop_returned_stays a s s' :
  tcp_inv s -> stopping s = StopReturned -> tcp_step a s = Some s' -> stopping s' = StopReturned.
Proof.
  intros [_ _ Hst] Hr Hs. unfold stop_ok in Hst. rewrite Hr in Hst. destruct Hst as [Hd _]. unfold tcp_step, Start_step, accept_step, serve_step, wg_Done_step, Close_step,
    Stop_call, Stop_close, Stop_wait in Hs. rewrite Hr, ?Hd in Hs.
  repeat case_match; simplify_eq; exact Hr.
Qed.


(** *** Stop returns *)

(** A handler that is past its deadline, if it is still copying. *)
Definition overdue (now : Z) (h : handler) : bool :=
  match h_phase h with
  | PReadDeadline | PWriteDeadline _ => false
  | PRead => expired (h_rdl h) now
  | PWrite _ _ => expired (h_wdl h) now
  | _ => true
  end.

(** [Stop] has closed the channel and the listener, and every handler still
    copying is past its deadline: five seconds after the last connection. *)
Definition draining (s : TCPServer) : Prop :=
  (stopping s = StopWait \/ stopping s = StopReturned) /\ panicked s = false /\
  forallb (overdue (now s)) (conns s) = true.

(** The steps of the server's own goroutines. *)
Definition drain_act (a : tcp_act) : bool :=
  match a with Start | StopCall | Tick _ => false | _ => true end.

Definition weight (h : handler) : nat :=
  match h_phase h with PEnd => 0 | PClose => 1 | PDone => 2 | _ => 3 end.

Definition remaining (s : TCPServer) : nat :=
  acceptors s + sum_list_with weight (conns s) +
  match stopping s with StopReturned => 0 | _ => 1 end.

Lemma forallb_insert {A} (p : A -> bool) l (i : nat) y :
  forallb p l = true -> p y = true -> forallb p (<[i := y]> l) = true.
Proof.
  rewrite !forallb_forall. intros Hl Hy x Hx. apply list_elem_of_In, list_elem_of_lookup_1 in Hx as [j Hj].
  apply list_lookup_insert_Some in Hj as [(_ & -> & _)|[_ Hj]]; [done|].
  apply Hl, list_elem_of_In. by eapply list_elem_of_lookup_2.
Qed.

Lemma overdue_step now a h h' :
  overdue now h = true -> handler_step now a h = Some h' -> h_phase h' = PDone /\ weight h = 3.
Proof.
  unfold overdue, handler_step, weight. destruct (h_phase h) eqn:Hp, a; try done.
  - intros ->. cbn. destruct data, err; cbn; try done. intros [= <-]. done.
  - intros ->. destruct err; rewrite ?andb_false_r; [|done]. destruct (_ && _); [|done].
    intros [= <-]. done.
Qed.

Lemma drain_step a s s' :
  tcp_inv s -> draining s -> drain_act a = true -> tcp_step a s = Some s' ->
  draining s' /\ remaining s' < remaining s.
Proof.
  intros [Hw _ Hst] (Hstop & Hp & Ho) Ha Hs. unfold tcp_step, Start_step, accept_step, serve_step, wg_Done_step, Close_step, Stop_call, Stop_close, Stop_wait
    in Hs. rewrite Hp in Hs.
  assert (Hd : done s = true /\ listening s = false)
    by (unfold stop_ok in Hst; destruct Hstop as [H|H]; rewrite H in Hst; naive_solver).
  destruct Hd as [Hd Hl]. unfold draining, remaining.
  assert (Hlook : forall (i : nat) h, conns s !! i = Some h -> overdue (now s) h = true).
  { intros i h Hi. rewrite forallb_forall in Ho. apply Ho, list_elem_of_In. by eapply list_elem_of_lookup_2. }
  destruct a as [| | |i a|i|i| | | |d]; try done.
  - rewrite Hl in Hs. by destruct (0 <? acceptors s).
  - destruct (Nat.ltb_spec 0 (acceptors s)); [|done]. rewrite Hd in Hs. simplify_eq.
    cbn. rewrite Hp. cbn. split; [|lia]. split_and!; [done| |done]. apply Z.ltb_ge. lia.
  - destruct (conns s !! i) as [h|] eqn:Hi; [|done].
    destruct (handler_step (now s) a h) as [h'|] eqn:Hh; simplify_eq.
    destruct (overdue_step _ _ _ _ (Hlook _ _ Hi) Hh) as [Hp' Hw3].
    pose proof (sum_list_with_insert weight _ _ _ h' Hi) as Hsum. rewrite Hw3 in Hsum.
    assert (Hw2 : weight h' = 2) by (unfold weight; by rewrite Hp'). rewrite Hw2 in Hsum.
    cbn. split; [|lia]. split_and!; [done|done|]. apply forallb_insert; [done|].
    unfold overdue. by rewrite Hp'.
  - unfold at_phase in Hs. destruct (conns s !! i) as [h|] eqn:Hi; [|done].
    destruct (h_phase h) eqn:Hph; simplify_eq.
    pose proof (sum_list_with_insert weight _ _ _ (with_phase PClose h) Hi) as Hsum.
    pose proof (countb_lookup busy _ _ _ Hi) as Hb. unfold busy in Hb at 1. rewrite Hph in Hb. cbn in Hb.
    assert (Hw2 : weight h = 2) by (unfold weight; by rewrite Hph). rewrite Hw2 in Hsum. cbn in Hsum.
    cbn. rewrite Hp. cbn. split; [|lia]. split_and!; [done| |by apply forallb_insert].
    apply Z.ltb_ge. lia.
  - unfold at_phase in Hs. destruct (conns s !! i) as [h|] eqn:Hi; [|done].
    destruct (h_phase h) eqn:Hph; simplify_eq.
    assert (Hw1 : weight h = 1) by (unfold weight; by rewrite Hph).
    match goal with |- context [<[i := ?h']> _] =>
      pose proof (sum_list_with_insert weight _ _ _ h' Hi) as Hsum end.
    rewrite Hw1 in Hsum. cbn in Hsum.
    cbn. split; [|lia]. split_and!; [done|done|by apply forallb_insert].
  - destruct Hstop as [H|H]; by rewrite H in Hs.
  - destruct Hstop as [H|H]; rewrite H in Hs; [|done]. destruct (_ =? _)%Z; simplify_eq.
    cbn. rewrite H. split; [|lia]. split_and!; [by right|done..].
Qed.

Lemma drain_progress s :
  tcp_inv s -> draining s -> stopping s = StopWait ->
  exists a s', drain_act a = true /\ tcp_step a s = Some s'.
Proof.
  intros [Hw _ Hst] (_ & Hp & Ho) Hs. unfold stop_ok in Hst. rewrite Hs in Hst.
  destruct Hst as [Hd _]. unfold tcp_step, Start_step, accept_step, serve_step, wg_Done_step, Close_step, Stop_call, Stop_close, Stop_wait.
  rewrite Hp.
  destruct (acceptors s) as [|n] eqn:Hn.
  2:{ exists AcceptFailed. cbn. rewrite Hd. by eexists. }
  destruct (countb busy (conns s)) as [|k] eqn:Hc.
  { exists StopWaited. rewrite Hs, Hw. by eexists. }
  destruct (countb_ex busy (conns s) ltac:(lia)) as (i & h & Hi & Hb).
  assert (Hov : overdue (now s) h = true).
  { rewrite forallb_forall in Ho. apply Ho, list_elem_of_In. by eapply list_elem_of_lookup_2. }
  unfold busy in Hb. unfold overdue in Hov. destruct (h_phase h) eqn:Hph; try done.
  - exists (Handler i (ARead [] (Some ErrEOF))). rewrite Hi. unfold handler_step. rewrite Hph, Hov.
    by eexists.
  - exists (Handler i (AWrite 0 (Some ErrEOF))). rewrite Hi. unfold handler_step. rewrite Hph, Hov.
    by eexists.
  - exists (HandlerDone i). unfold at_phase. rewrite Hi, Hph. by eexists.
Qed.

(** C32: [Stop] returns. Once it has closed the channel and the listener and the
    deadlines of the open connections have passed, the server's goroutines take
    at most [remaining] more steps, in any order and whatever their reads and
    writes answer, and they are never stuck before [Stop] has returned. *)
Theorem stop_terminates s l s' :
  tcp_reachable s -> draining s -> forallb drain_act l = true -> tcp_run l s = Some s' ->
  length l <= remaining s /\
  (stopping s' = StopReturned \/ exists a s2, drain_act a = true /\ tcp_step a s' = Some s2).
Proof.
  intros Hr. pose proof (tcp_reachable_inv _ Hr) as HI. clear Hr. revert s HI.
  induction l as [|a l IH]; intros s HI Hd Hl Hrun; cbn in *.
  - simplify_eq. split; [lia|]. destruct (proj1 Hd) as [H|H]; [|by left].
    right. by apply drain_progress.
  - apply andb_true_iff in Hl as [Ha Hl]. destruct (tcp_step a s) as [s1|] eqn:Hs; [|done].
    destruct (drain_step _ _ _ HI Hd Ha Hs) as [Hd1 Hlt].
    destruct (IH s1 (tcp_step_inv _ _ _ HI Hs) Hd1 Hl Hrun) as [Hlen Hend].
    split; [lia|exact Hend].
Qed.

(** ** Witnesses *)

Definition new_server : TCPServer :=
  {| port := 4242; done := false; listening := true; wg := 0; acceptors := 0; conns := [];
     stopping := StopIdle; panicked := false; now := 0 |}.

(** A client sends three bytes, which are echoed in two reads; it is still
    connected when [Stop] is called, and its deadline passes. *)
Definition echo_acts : list tcp_act :=
  [Start; Accepted; Handler 0 (ADeadline None); Handler 0 (ADeadline None);
   Handler 0 (ARead [x61; x62] None); Handler 0 (AWrite 2 None);
   Handler 0 (ARead [x63] None)].
Definition stop_acts : list tcp_act := [StopCall; StopClose; Tick 5000000000%N].
Definition drain_acts : list tcp_act :=
  [AcceptFailed; Handler 0 (AWrite 0 (Some (ErrNet "i/o timeout" true))); HandlerDone 0; StopWaited].

Definition tcp_play (l : list tcp_act) (s : TCPServer) : TCPServer := default s (tcp_run l s).
Definition echoing : TCPServer := tcp_play echo_acts new_server.
Definition waiting : TCPServer := tcp_play stop_acts echoing.
Definition stopped : TCPServer := tcp_play drain_acts waiting.

Lemma tcp_run_app l1 l2 s : tcp_run (l1 ++ l2) s =
  match tcp_run l1 s with Some s1 => tcp_run l2 s1 | None => None end.
Proof. revert s. induction l1 as [|a l1 IH]; intros s; cbn; [done|]. by destruct (tcp_step a s). Qed.

Lemma played_reachable l s : tcp_run l new_server = Some s -> tcp_reachable s.
Proof. intros H. by exists (ListenTCP 4242), 0%Z, new_server, l. Qed.

Lemma echo_faithful_witness :
  tcp_reachable stopped /\
  exists h, h ∈ conns stopped /\ h_in h = [x61; x62; x63] /\ h_out h = [x61; x62] /\
    h_out h `prefix_of` h_in h /\ (h_err h = Some None -> h_out h = h_in h).
Proof.
  assert (Hr : tcp_reachable stopped)
    by (apply (played_reachable (echo_acts ++ stop_acts ++ drain_acts)); vm_compute; reflexivity).
  split; [exact Hr|].
  assert (Hc : exists h, conns stopped = [h] /\ h_in h = [x61; x62; x63] /\ h_out h = [x61; x62])
    by (eexists; vm_compute; split_and!; reflexivity).
  destruct Hc as (h & Hc & Hi & Ho). exists h.
  assert (Hh : h ∈ conns stopped) by (rewrite Hc; constructor).
  split; [exact Hh|]. split; [exact Hi|]. split; [exact Ho|].
  exact (echo_faithful stopped h Hr Hh).
Defined.

Lemma wg_exact_witness :
  exists s', tcp_step StopCall waiting = Some s' /\
    wg waiting = Z.of_nat (acceptors waiting + countb busy (conns waiting)) /\
    (panicked s' = true -> StopCall = StopCall /\ done waiting = true).
Proof.
  eexists. assert (Hs : tcp_step StopCall waiting = Some (set_panicked waiting))
    by (vm_compute; reflexivity).
  split; [exact Hs|]. apply (wg_exact waiting StopCall).
  - apply (played_reachable (echo_acts ++ stop_acts)). vm_compute. reflexivity.
  - exact Hs.
Defined.

Lemma stop_terminates_witness :
  draining waiting /\ forallb drain_act drain_acts = true /\
  tcp_run drain_acts waiting = Some stopped /\
  length drain_acts <= remaining waiting /\
  (stopping stopped = StopReturned \/
   exists a s2, drain_act a = true /\ tcp_step a stopped = Some s2).
Proof.
  assert (Hd : draining waiting).
  { split; [left; vm_compute; reflexivity|]. split; vm_compute; reflexivity. }
  assert (Hl : forallb drain_act drain_acts = true) by (vm_compute; reflexivity).
  assert (Hr : tcp_run drain_acts waiting = Some stopped) by (vm_compute; reflexivity).
  split; [exact Hd|]. split; [exact Hl|]. split; [exact Hr|].
  apply (stop_terminates waiting drain_acts stopped); [|exact Hd|exact Hl|exact Hr].
  apply (played_reachable (echo_acts ++ stop_acts)). vm_compute. reflexivity.
Defined.

(** The handler calls [wg.Done] before it closes its connection: [Stop] can
    return while the connection is still open. *)
Theorem stop_before_close :
  tcp_reachable stopped /\ stopping stopped = StopReturned /\
  map h_closed (conns stopped) = [false].
Proof.
  split; [|split; vm_compute; reflexivity].
  apply (played_reachable (echo_acts ++ stop_acts ++ drain_acts)). vm_compute. reflexivity.
Qed.
