(* ===== verification/RoundTrip.v ===== *)
(** * A socket and the echo server

    The composition of the client of this repository with its own TCP echo
    server: what the script hears is what the script said. The network between
    the two is TCP: what one side has read of the connection is a prefix of
    what the other side has written to it. *)
From S2P Require Import Prelude GoStd K6 EchoTcp Metrics Lang Socket Events Connect ReadWrite System Scenarios Sent SentSpec Stream StreamSpec.

Section roundtrip.
Context `{K : K6}.

(** The TCP connection [nc] of the client is the connection of handler [h] of
    the server, and the only one of the client. *)
Record tcp_link (w : world) (nc : netconn) (h : handler) : Prop := {
  link_up : h_in h `prefix_of` nc_sent nc;
  link_down : List.concat (arrived w) `prefix_of` h_out h
}.

(** Nothing is under way: the server has read all, echoed all, and all of it
    has arrived. *)
Definition link_idle (w : world) (nc : netconn) (h : handler) : Prop :=
  h_in h = nc_sent nc /\ h_phase h = PRead /\ List.concat (arrived w) = h_out h.

(** What the server wrote back, by its invariant. *)
Lemma echoed s h :
  tcp_reachable s -> h ∈ EchoTcp.conns s ->
  h_out h `prefix_of` h_in h /\ (h_phase h = PRead -> h_out h = h_in h).
Proof.
  intros Hr Hh. destruct (tcp_reachable_inv _ Hr) as [_ He _].
  rewrite Forall_forall in He. specialize (He h Hh). unfold echo_ok in He.
  destruct (h_phase h).
  1,2: destruct He as (-> & -> & _); split; [done|done].
  1: destruct He as (-> & _); done.
  1: destruct He as (-> & _); split; [by apply prefix_app_r|done].
  all: destruct He as (err & _ & Hp & _); split; done.
Qed.

(** C7: the echo. A socket with a data handler talks to a handler of the TCP
    echo server, both in any interleaving of their goroutines. There is a list of
    fragments that explains what its connections were given ([wire_log]: the
    script's writes, each in order, nothing else). At any time the bytes that the
    script's data handler got are the beginning of the fragments on the connection
    [i] to the server, in order and unchanged; and when nothing is under way on the
    link, the socket is at rest and all callbacks have run, they are all of them,
    and [bytes_read] is their number (as int64). *)
Theorem echo_round_trip (c0 c : cfg) (s : TCPServer) i nc h :
  reachable c0 -> listening c0 -> steps c0 c -> vu_done (cw c) = false ->
  readers (spawned (cw c)) <= 1 -> ran c = seq 0 (length (ran c)) ->
  conns (cw c) !! i = Some nc ->
  tcp_reachable s -> h ∈ EchoTcp.conns s -> tcp_link (cw c) nc h ->
  exists log, wire_log log (cw c) /\
  List.concat (handed (cw c)) `prefix_of` on_wire log i /\
  (link_idle (cw c) nc h -> at_rest c = true -> length (ran c) = length (accepted (cw c)) ->
   List.concat (handed (cw c)) = on_wire log i /\
   totalRead (sk (cw c)) = int64 (Z.of_nat (length (on_wire log i)))).
Proof.
  intros Hr0 Hl Hs Hvu Hr Hran Hi Hrs Hh [Hup Hdown]. destruct (echoed _ _ Hrs Hh) as [Hout Hread].
  destruct (reachable_wire c (reachable_steps _ _ Hr0 Hs)) as (log & Hlog & _). exists log. split; [exact Hlog|].
  rewrite <-(wl_wire _ _ Hlog i nc Hi). split.
  - etransitivity; [by eapply concat_prefix, handed_first|]. by do 2 (etransitivity; [eassumption|]).
  - intros (Hin & Hp & Har) Hrest Hlen. rewrite Hlen in Hran.
    destruct (stream_at_rest _ _ Hl Hs Hvu Hr Hrest Hran) as [Hha Hct].
    assert (He : List.concat (arrived (cw c)) = nc_sent nc) by (by rewrite Har, (Hread Hp), Hin).
    rewrite Hha, Hct. unfold total. by rewrite He.
Qed.

(** C8: a script that awaits its writes hears what it said. Suppose the script of
    such a socket dialed once, called each [write] only when the promises of the
    earlier ones were settled, all of them were resolved, and the data [d j] of the
    [j]-th goroutine was left alone. Once nothing is under way on the link to the
    echo server, the socket is at rest and all callbacks have run, the bytes that
    its data handler got are the data of its writes, one after the other. *)
Theorem script_hears_what_it_said (c0 c : cfg) (s : TCPServer) nc h (d : nat -> list byte) :
  reachable c0 -> listening c0 -> steps c0 c -> vu_done (cw c) = false ->
  readers (spawned (cw c)) <= 1 -> ran c = seq 0 (length (accepted (cw c))) -> at_rest c = true ->
  conns (cw c) !! 0 = Some nc -> next_conn (cw c) = 1 ->
  awaited (cw c) ->
  (forall j p sl, is_write (cw c) j p sl ->
     (p, Resolved) ∈ settled (cw c) /\ stable (stores (cw c)) j sl (d j)) ->
  tcp_reachable s -> h ∈ EchoTcp.conns s -> link_idle (cw c) nc h ->
  List.concat (handed (cw c)) = text d (cw c).
Proof.
  intros Hr0 Hl Hs Hvu Hr Hran Hrest Hi Hn Ha Hd Hrs Hh (Hin & Hp & Har).
  destruct (echoed _ _ Hrs Hh) as [_ Hread].
  destruct (reachable_wire c (reachable_steps _ _ Hr0 Hs)) as (log & Hlog & _).
  destruct (stream_at_rest _ _ Hl Hs Hvu Hr Hrest Hran) as [-> _].
  rewrite Har, (Hread Hp), Hin, (wl_wire _ _ Hlog 0 nc Hi). by apply awaited_wire.
Qed.
End roundtrip.

(** ** Witness *)
#[local] Existing Instance K6Ref.

(** The script connects, writes [hi] and gets it back; the server read and
    echoed it. *)
Definition session_cmds : list cmd :=
  call_connect ++ connected 1 ++ callbacks 0 1 ++
  js (AWrite (Some (JSString "hi" 0)) None) [] ++ [Run 3 [RWrite 2 None; RTags no_tags]] ++
  received 2 0 ++ callbacks 1 1 ++ [Run 2 []].
Definition session_cfg : cfg := play session_cmds listening_cfg.

Definition session_acts : list tcp_act :=
  [Start; Accepted; Handler 0 (ADeadline None); Handler 0 (ADeadline None);
   Handler 0 (ARead two_bytes None); Handler 0 (EchoTcp.AWrite 2 None)].
Definition session_server : TCPServer := tcp_play session_acts new_server.

Definition session_conn : netconn :=
  {| nc_closed := false; nc_deadline := None; nc_tls := false; nc_sent := two_bytes |}.

Lemma echo_round_trip_witness :
  exists h log, h ∈ EchoTcp.conns session_server /\ conns (cw session_cfg) !! 0 = Some session_conn /\
    link_idle (cw session_cfg) session_conn h /\ wire_log log (cw session_cfg) /\
    List.concat (handed (cw session_cfg)) `prefix_of` on_wire log 0 /\
    List.concat (handed (cw session_cfg)) = on_wire log 0 /\
    totalRead (sk (cw session_cfg)) = int64 (Z.of_nat (length (on_wire log 0))).
Proof.
  assert (Hc : exists h, EchoTcp.conns session_server = [h] /\ h_in h = two_bytes /\
                         h_out h = two_bytes /\ h_phase h = PRead)
    by (eexists; vm_compute; split_and!; reflexivity).
  destruct Hc as (h & Hc & Hi & Ho & Hp). exists h.
  assert (Hh : h ∈ EchoTcp.conns session_server) by (rewrite Hc; constructor).
  assert (Ha : List.concat (arrived (cw session_cfg)) = two_bytes) by (vm_compute; reflexivity).
  assert (Hn : conns (cw session_cfg) !! 0 = Some session_conn) by (vm_compute; reflexivity).
  assert (Hl : link_idle (cw session_cfg) session_conn h)
    by (unfold link_idle; rewrite Hi, Ho, Hp, Ha; split; [|split]; reflexivity).
  destruct (echo_round_trip listening_cfg session_cfg session_server 0 session_conn h
    (play_reachable _) listening_listening) as (log & Hlog & Hpre & Hall).
  - apply play_steps.
  - vm_compute. reflexivity.
  - apply (bool_decide_unpack _). vm_compute. exact I.
  - vm_compute. reflexivity.
  - exact Hn.
  - apply (played_reachable session_acts). vm_compute. reflexivity.
  - exact Hh.
  - split; [rewrite Hi; reflexivity|rewrite Ho, Ha; reflexivity].
  - exists log. split; [exact Hh|]. split; [exact Hn|]. split; [exact Hl|]. split; [exact Hlog|].
    split; [exact Hpre|]. apply Hall; [exact Hl|vm_compute; reflexivity|vm_compute; reflexivity].
Defined.

(** The script then writes [yo], and gets that back too. *)
Definition yo : list byte := [x79; x6f].
Definition talk_cfg : cfg :=
  play (js (AWrite (Some (JSString "yo" 0)) None) [] ++ [Run 4 [RWrite 2 None; RTags no_tags]] ++
        [Run 2 [RRead yo None; RTags no_tags; RBuf 0; RSelect true]; Step SLoop] ++
        callbacks 2 1 ++ [Run 2 []]) session_cfg.

Definition talk_acts : list tcp_act :=
  session_acts ++ [Handler 0 (ARead yo None); Handler 0 (EchoTcp.AWrite 2 None)].
Definition talk_server : TCPServer := tcp_play talk_acts new_server.

Definition talk_conn : netconn :=
  {| nc_closed := false; nc_deadline := None; nc_tls := false; nc_sent := two_bytes ++ yo |}.

(** The data of the two writing goroutines. *)
Definition said (j : nat) : list byte := if j =? 2 then two_bytes else yo.

Definition no_opts : writeOptions := {| Encoding := ""; wo_Tags := ∅ |}.
Definition talk_spawned : list goroutine :=
  [GConnect 0; GRead; GWrite 1 (Fresh two_bytes) no_opts; GWrite 2 (Fresh yo) no_opts].

Lemma talk_writes w j p sl :
  spawned w = talk_spawned -> is_write w j p sl ->
  j = 2 /\ p = 1 /\ sl = Fresh two_bytes \/ j = 3 /\ p = 2 /\ sl = Fresh yo.
Proof.
  intros Hs [opts Hj]. rewrite Hs in Hj. destruct j as [|[|[|[|j]]]]; try discriminate Hj;
    injection Hj as <- <- <-; auto.
Qed.

Lemma talk_awaited w :
  spawned w = talk_spawned -> marks w = [0; 0; 1; 2] ->
  settled w = [(0, Resolved); (1, Resolved); (2, Resolved)] ->
  awaited w /\ forall j p sl, is_write w j p sl ->
    (p, Resolved) ∈ settled w /\ stable (stores w) j sl (said j).
Proof.
  intros Hs Hm Hp. split.
  - intros j j' p sl p' sl' Hj Hw Hw'. rewrite Hm, Hp.
    destruct (talk_writes w j p sl Hs Hw) as [(-> & -> & _)|(-> & _)];
      destruct (talk_writes w j' p' sl' Hs Hw') as [(-> & _)|(-> & _)]; try lia.
    exists 2. split; [done|]. cbn. right. left.
  - intros j p sl Hw. rewrite Hp.
    destruct (talk_writes w j p sl Hs Hw) as [(-> & -> & ->)|(-> & -> & ->)]; (split; [|done]);
      repeat constructor.
Qed.

Lemma script_hears_what_it_said_witness :
  exists h, h ∈ EchoTcp.conns talk_server /\ link_idle (cw talk_cfg) talk_conn h /\
    awaited (cw talk_cfg) /\ text said (cw talk_cfg) = two_bytes ++ yo /\
    List.concat (handed (cw talk_cfg)) = text said (cw talk_cfg).
Proof.
  assert (Hc : exists h, EchoTcp.conns talk_server = [h] /\ h_in h = two_bytes ++ yo /\
                         h_out h = two_bytes ++ yo /\ h_phase h = PRead)
    by (eexists; vm_compute; split_and!; reflexivity).
  destruct Hc as (h & Hc & Hi & Ho & Hp). exists h.
  assert (Hh : h ∈ EchoTcp.conns talk_server) by (rewrite Hc; constructor).
  assert (Ha : List.concat (arrived (cw talk_cfg)) = two_bytes ++ yo) by (vm_compute; reflexivity).
  assert (Hl : link_idle (cw talk_cfg) talk_conn h)
    by (unfold link_idle; rewrite Hi, Ho, Hp, Ha; split; [|split]; reflexivity).
  assert (Hs : spawned (cw talk_cfg) = talk_spawned) by (vm_compute; reflexivity).
  destruct (talk_awaited (cw talk_cfg) Hs ltac:(vm_compute; reflexivity) ltac:(vm_compute; reflexivity))
    as [Haw Hd].
  split; [exact Hh|]. split; [exact Hl|]. split; [exact Haw|].
  split; [unfold text; rewrite Hs; reflexivity|].
  apply (script_hears_what_it_said listening_cfg talk_cfg talk_server talk_conn h said
    (play_reachable _) listening_listening).
  - unfold talk_cfg, session_cfg. rewrite <-play_app. apply play_steps.
  - vm_compute. reflexivity.
  - apply (bool_decide_unpack _). vm_compute. exact I.
  - vm_compute. reflexivity.
  - vm_compute. reflexivity.
  - vm_compute. reflexivity.
  - vm_compute. reflexivity.
  - exact Haw.
  - exact Hd.
  - apply (played_reachable talk_acts). vm_compute. reflexivity.
  - exact Hh.
  - exact Hl.
Defined.
