(* ===== verification/Echo.v ===== *)
(** * The HTTP echo server and the pair of servers: internal/echo

    internal/echo/server_http.go and internal/echo/server.go: the request
    handler, starting and stopping, and the environment variables that publish
    the addresses. *)
From S2P Require Import Prelude GoStd EchoTcp.
From Stdlib Require Import Ascii String.

Definition ErrInvalidHTTPAddress : goerr := ErrNew "failed to get HTTP address".

(** ** The request handler *)

(** What httpEchoHandler reads of a request: [r.URL.String()], [r.URL.Path],
    [r.URL.Query()] and the other fields. *)
Record request := {
  Method : string;
  URL_String : string;
  URL_Path : string;
  URL_Query : gmap string (list string);
  Header : gmap string (list string);
  Host : string
}.

(** The values handed to the JSON encoder. *)
Inductive json := JString (s : string) | JMap (m : gmap string string).

Inductive body := BText (s : string) | BJson (fields : gmap string json).

Record response := { status : Z; content_type : string; resp_body : body }.

Definition StatusOK : Z := 200.
Definition StatusMethodNotAllowed : Z := 405.

(** One round of the loops over [Query] and [Header]. *)
Definition add_first (m : gmap string string) (kv : string * list string) : gmap string string :=
  match kv.2 with
  | v :: _ => <[kv.1 := v]> m
  | [] => m
  end.

(** The loop over a map whose entries the runtime enumerates as [range]. *)
Definition first_values_from (range : list (string * list string)) : gmap string string :=
  foldl add_first ∅ range.

(** httpEchoHandler, given the orders in which the runtime enumerates the query
    and the headers; [http.Error] answers in plain text and ends the line. *)
Definition httpEchoHandler (query_range header_range : list (string * list string))
    (r : request) : response :=
  if negb (bool_decide (Method r = "GET")) then
    {| status := StatusMethodNotAllowed; content_type := "text/plain; charset=utf-8";
       resp_body := BText (String.append "Method not allowed" (String "010" EmptyString)) |}
  else
    let query := first_values_from query_range in
    let headers := first_values_from header_range in
    {| status := StatusOK; content_type := "application/json";
       resp_body := BJson (list_to_map
         [("method", JString (Method r)); ("url", JString (URL_String r));
          ("path", JString (URL_Path r)); ("query", JMap query);
          ("headers", JMap headers); ("host", JString (Host r))]) |}.

(** ** The HTTP server *)

(** [Serve] runs in its own goroutine: it registers the listener with the
    [http.Server] until [Shutdown], which closes the registered listeners;
    started after [Shutdown] it returns at once, closing its listener. *)
Record HTTPServer := {
  http_port : Z;
  http_open : bool;        (** the listener is open *)
  http_started : bool;     (** Start has launched the goroutine *)
  http_serving : bool;     (** Serve has registered the listener *)
  http_served : bool;      (** the goroutine has run Serve *)
  http_shutdown : bool
}.

(** NewHTTPServer *)
Definition NewHTTPServer (r : listen_result) : result HTTPServer goerr * list netev :=
  match r with
  | ListenErr e => (Err (ErrWrap "failed to create HTTP listener: " e ""), [])
  | ListenOther => (Err ErrInvalidHTTPAddress, [ListenerOpened; ListenerClosed])
  | ListenTCP p => (Ok {| http_port := p; http_open := true; http_started := false;
                          http_serving := false; http_served := false; http_shutdown := false |},
                    [ListenerOpened])
  end.

Inductive http_act := HStart | HServe | HStop.

Definition http_step (a : http_act) (s : HTTPServer) : option HTTPServer :=
  match a with
  | HStart =>
      Some {| http_port := http_port s; http_open := http_open s; http_started := true;
              http_serving := http_serving s; http_served := http_served s;
              http_shutdown := http_shutdown s |}
  | HServe =>
      if http_started s && negb (http_served s) then
        Some {| http_port := http_port s; http_open := http_open s && negb (http_shutdown s);
                http_started := true; http_serving := negb (http_shutdown s); http_served := true;
                http_shutdown := http_shutdown s |}
      else None
  | HStop =>
      Some {| http_port := http_port s; http_open := http_open s && negb (http_serving s);
              http_started := http_started s; http_serving := false; http_served := http_served s;
              http_shutdown := true |}
  end.

Fixpoint http_run (l : list http_act) (s : HTTPServer) : option HTTPServer :=
  match l with
  | [] => Some s
  | a :: l => match http_step a s with Some s' => http_run l s' | None => None end
  end.

(** Methods Port and Host of the two servers. *)
Definition TCPServer_Port (s : TCPServer) : Z := port s.
Definition TCPServer_Host : string := host.
Definition HTTPServer_Port (s : HTTPServer) : Z := http_port s.
Definition HTTPServer_Host : string := host.

(** Method URL of HTTPServer. *)
Definition URL (s : HTTPServer) : string :=
  String.append "http://" (JoinHostPort host (Itoa (http_port s))).

(** ** The pair of servers *)

Record Server := { tcp : TCPServer; http : HTTPServer }.

Definition Port (s : Server) : Z := TCPServer_Port (tcp s).
Definition HTTPPort (s : Server) : Z := HTTPServer_Port (http s).
Definition HTTPURL (s : Server) : string := URL (http s).
Definition ServerHost : string := host.

(** The lines of [Stop] on a server that runs no goroutine. *)
Definition stop_tcp : list tcp_act := [StopCall; StopClose; StopWaited].

(** New: when the HTTP server cannot be made the TCP server is stopped. The
    server or the error, and the listeners opened and closed on the way;
    [None] would be a [Stop] that blocks or panics. *)
Definition New (r1 r2 : listen_result) (t : Z) : option (result Server goerr * list netev) :=
  match NewTCPServer r1 t with
  | (Err e, evs) => Some (Err e, evs)
  | (Ok tcp, evs) =>
      match NewHTTPServer r2 with
      | (Err e, evs2) =>
          match tcp_run stop_tcp tcp with
          | Some tcp' =>
              Some (Err e, evs ++ evs2 ++ if listening tcp' then [] else [ListenerClosed])
          | None => None
          end
      | (Ok http, evs2) => Some (Ok {| tcp := tcp; http := http |}, evs ++ evs2)
      end
  end.

(** The steps of the pair: those of its servers; [Stop] goes on to the HTTP
    server once the TCP server's [Stop] has returned. *)
Inductive server_act := TcpAct (a : tcp_act) | HttpAct (a : http_act).

Definition server_step (a : server_act) (s : Server) : option Server :=
  match a with
  | TcpAct a =>
      match tcp_step a (tcp s) with
      | Some tcp' => Some {| tcp := tcp'; http := http s |}
      | None => None
      end
  | HttpAct a =>
      if match a with HStop => bool_decide (stopping (tcp s) = StopReturned) | _ => true end then
        match http_step a (http s) with
        | Some http' => Some {| tcp := tcp s; http := http' |}
        | None => None
        end
      else None
  end.

Fixpoint server_run (l : list server_act) (s : Server) : option Server :=
  match l with
  | [] => Some s
  | a :: l => match server_step a s with Some s' => server_run l s' | None => None end
  end.

(** ** The environment *)

Definition EnvTCPEchoHost : string := "TCP_ECHO_HOST".
Definition EnvTCPEchoPort : string := "TCP_ECHO_PORT".
Definition EnvHTTPEchoURL : string := "HTTP_ECHO_URL".
Definition EnvHTTPEchoHost : string := "HTTP_ECHO_HOST".
Definition EnvHTTPEchoPort : string := "HTTP_ECHO_PORT".

(** [os.Setenv], on Unix: the key must not be empty nor contain [=] or NUL, the
    value must not contain NUL. *)
Definition EINVAL : goerr := ErrNew "setenv: invalid argument".
Definition os_Setenv (key value : string) (env : gmap string string)
    : option goerr * gmap string string :=
  if bool_decide (key = "") || has_char "=" key || has_char "000" key || has_char "000" value
  then (Some EINVAL, env) else (None, <[key := value]> env).

(** setenv *)
Definition setenv (key value : string) (env : gmap string string)
    : option goerr * gmap string string :=
  match os_Setenv key value env with
  | (Some err, env) =>
      (Some (ErrWrap (String.append "failed to set " (String.append key " environment variable: ")) err ""), env)
  | (None, env) => (None, env)
  end.

(** A list of assignments that stops at the first error. *)
Fixpoint setenvs (l : list (string * string)) (env : gmap string string)
    : option goerr * gmap string string :=
  match l with
  | [] => (None, env)
  | (k, v) :: l =>
      match setenv k v env with
      | (Some err, env) => (Some err, env)
      | (None, env) => setenvs l env
      end
  end.

Definition echo_variables (s : Server) : list (string * string) :=
  [(EnvTCPEchoHost, host); (EnvTCPEchoPort, Itoa (port (tcp s)));
   (EnvHTTPEchoHost, host); (EnvHTTPEchoPort, Itoa (http_port (http s)));
   (EnvHTTPEchoURL, String.append "http://" (JoinHostPort host (Itoa (http_port (http s)))))].

(** Setenv *)
Definition Setenv (s : Server) (env : gmap string string) : option goerr * gmap string string :=
  setenvs (echo_variables s) env.

(** Setup: [inl] is the message of a panic. [Start] launches both accepting
    goroutines. *)
Definition Start_server (s : Server) : option Server :=
  match tcp_step Start (tcp s), http_step HStart (http s) with
  | Some tcp', Some http' => Some {| tcp := tcp'; http := http' |}
  | _, _ => None
  end.

Definition Setup (r1 r2 : listen_result) (t : Z) (env : gmap string string)
    : option (result Server goerr * gmap string string) :=
  match New r1 r2 t with
  | None => None
  | Some (Err err, _) => Some (Err (ErrWrap "failed to start embedded echo server: " err ""), env)
  | Some (Ok server, _) =>
      match Setenv server env with
      | (Some err, env) =>
          Some (Err (ErrWrap "failed to set up embedded echo server environment: " err ""), env)
      | (None, env) =>
          match Start_server server with
          | Some server => Some (Ok server, env)
          | None => None
          end
      end
  end.

(** ** Facts *)

(** *** First values *)

Lemma first_values_from_lookup l m k :
  NoDup l.*1 -> (forall k v, (k, v) ∈ l -> m !! k = None) ->
  foldl add_first m l !! k =
  match (list_to_map l : gmap string (list string)) !! k with
  | Some (v :: _) => Some v
  | _ => m !! k
  end.
Proof.
  revert m. induction l as [|[k' vs] l IH]; intros m Hnd Hm; cbn; [done|].
  apply NoDup_cons in Hnd as [Hk' Hnd]. rewrite IH; [|done|].
  - destruct (decide (k' = k)) as [->|Hne].
    + rewrite lookup_insert_eq.
      rewrite (not_elem_of_list_to_map_1 (M := gmap string) l k) by done.
      unfold add_first. cbn. destruct vs as [|v vs]; [done|].
      by rewrite lookup_insert_eq.
    + rewrite lookup_insert_ne by done. unfold add_first. cbn.
      destruct vs as [|v vs]; [done|]. by rewrite lookup_insert_ne.
  - intros k2 v2 Hin. unfold add_first. cbn. destruct vs as [|v vs].
    + eapply Hm. by right.
    + rewrite lookup_insert_ne; [eapply Hm; by right|]. intros ->. apply Hk'.
      apply list_elem_of_fmap. by exists (k2, v2).
Qed.

(** What the loop computes, whatever the order of the map. *)
Lemma first_values_from_omap l (m : gmap string (list string)) :
  l ≡ₚ map_to_list m -> first_values_from l = omap head m.
Proof.
  intros Hl. apply map_eq. intros k. unfold first_values_from.
  assert (Hnd : NoDup l.*1) by (rewrite Hl; apply NoDup_fst_map_to_list).
  rewrite first_values_from_lookup; [|done|by intros; apply lookup_empty].
  assert (Hm : (list_to_map l : gmap string (list string)) = m).
  { rewrite <-(list_to_map_to_list m). by apply list_to_map_proper. }
  rewrite Hm, lookup_omap, lookup_empty.
  destruct (m !! k) as [[|v vs]|]; done.
Qed.

(** *** Environment variables *)

Lemma has_char_pretty_N_go c n s :
  (forall d, c <> pretty_N_char d) -> has_char c s = false -> has_char c (pretty_N_go n s) = false.
Proof.
  intros Hc. revert s. induction (N.lt_wf_0 n) as [n _ IH]; intros s Hs.
  destruct (N.eq_dec n 0%N) as [->|Hn]; [by rewrite pretty_N_go_0|].
  rewrite pretty_N_go_step by lia. apply IH; [apply N.div_lt; lia|].
  cbn. rewrite Hs, orb_false_r. apply Ascii.eqb_neq, Hc.
Qed.

Lemma has_char_Itoa z : has_char "000" (Itoa z) = false.
Proof.
  assert (Hd : forall d, "000"%char <> pretty_N_char d).
  { intros d. unfold pretty_N_char. repeat case_match; discriminate. }
  assert (HN : forall n, has_char "000" (pretty (n : N)) = false).
  { intros n. unfold pretty, pretty_N. case_decide; [done|]. by apply has_char_pretty_N_go. }
  unfold Itoa, pretty, pretty_Z. destruct z as [|p|p]; [done|apply (HN (Npos p))|].
  cbn. apply (HN (Npos p)).
Qed.

Lemma has_char_app c s1 s2 : has_char c (String.append s1 s2) = has_char c s1 || has_char c s2.
Proof.
  induction s1 as [|d s1 IH]; [done|]. 
  change (Ascii.eqb c d || has_char c (String.append s1 s2) = Ascii.eqb c d || has_char c s1 || has_char c s2).
  by rewrite IH, orb_assoc.
Qed.

(** A variable that the system accepts. *)
Definition settable (kv : string * string) : bool :=
  negb (bool_decide (kv.1 = "") || has_char "=" kv.1 || has_char "000" kv.1 || has_char "000" kv.2).

Lemma setenvs_ok l env :
  Forall (fun kv => settable kv = true) l ->
  setenvs l env = (None, foldl (fun e kv => <[kv.1 := kv.2]> e) env l).
Proof.
  intros Hl. revert env. induction Hl as [|[k v] l Hkv _ IH]; intros env; cbn; [done|].
  unfold setenv, os_Setenv. unfold settable in Hkv. apply negb_true_iff in Hkv. cbn in Hkv.
  rewrite Hkv. apply IH.
Qed.

Lemma echo_variables_ok s : Forall (fun kv => settable kv = true) (echo_variables s).
Proof.
  assert (Hport : forall k p, settable (k, "") = true -> settable (k, Itoa p) = true).
  { intros k p. unfold settable. cbn [fst snd]. by rewrite has_char_Itoa. }
  unfold echo_variables. repeat (apply Forall_cons; split).
  1,3: vm_compute; reflexivity.
  1,2: apply Hport; vm_compute; reflexivity.
  - unfold settable. cbn [fst snd]. unfold JoinHostPort.
    change (has_char ":" host) with false. cbv iota.
    rewrite !has_char_app, has_char_Itoa. vm_compute. reflexivity.
  - constructor.
Qed.

(** *** The HTTP server *)

Definition http_inv (s : HTTPServer) : Prop :=
  http_open s = (if http_served s then http_serving s else true) /\
  (http_served s = false -> http_serving s = false) /\
  (http_shutdown s = true -> http_serving s = false) /\
  (http_served s = true -> http_started s = true).

Lemma http_step_inv a s s' : http_inv s -> http_step a s = Some s' -> http_inv s'.
Proof.
  intros (H1 & H2 & H3 & H4) Hs. destruct a; cbn in Hs.
  - by simplify_eq.
  - destruct (http_started s); [|done]. destruct (http_served s); [done|]. simplify_eq/=.
    unfold http_inv. cbn. rewrite H1. by destruct (http_shutdown s).
  - simplify_eq/=. unfold http_inv. cbn. rewrite H1.
    destruct (http_served s); [by destruct (http_serving s)|]. by rewrite H2.
Qed.

Lemma http_run_inv l s s' : http_inv s -> http_run l s = Some s' -> http_inv s'.
Proof.
  revert s. induction l as [|a l IH]; intros s Hi Hr; cbn in Hr; [by simplify_eq|].
  destruct (http_step a s) as [s1|] eqn:Hs; [|done]. eapply IH; [|done]. by eapply http_step_inv.
Qed.

(** ** Properties *)

(** What the handler is documented to answer: an echo of the request, with the
    first value of each query parameter and header that has one. *)
Definition echo_of (r : request) : gmap string json :=
  {[ "method" := JString "GET"; "url" := JString (URL_String r); "path" := JString (URL_Path r);
     "query" := JMap (omap head (URL_Query r)); "headers" := JMap (omap head (Header r));
     "host" := JString (Host r) ]}.

(** C35: whatever the orders in which the runtime enumerates query and headers,
    the handler answers GET with status 200 and the JSON object of six members that
    echoes the request: its method, URL, path and host, and of each query parameter and
    of each header that has a value the first one. Every other method gets 405 in
    plain text. *)
Theorem httpEchoHandler_echoes (r : request) query_range header_range :
  query_range ≡ₚ map_to_list (URL_Query r) -> header_range ≡ₚ map_to_list (Header r) ->
  httpEchoHandler query_range header_range r =
  if decide (Method r = "GET")
  then {| status := 200; content_type := "application/json"; resp_body := BJson (echo_of r) |}
  else {| status := 405; content_type := "text/plain; charset=utf-8";
          resp_body := BText (String.append "Method not allowed" (String "010" EmptyString)) |}.
Proof.
  intros Hq Hh. unfold httpEchoHandler. destruct (decide (Method r = "GET")) as [Hm|Hm].
  - rewrite bool_decide_true by done. cbn [negb].
    rewrite (first_values_from_omap _ _ Hq), (first_values_from_omap _ _ Hh), Hm. reflexivity.
  - by rewrite bool_decide_false.
Qed.

(** [Setenv] never fails, whatever the ports: it sets the five variables,
    the URL being the one of the HTTP server, and no other. *)
Theorem Setenv_publishes (s : Server) env :
  exists env', Setenv s env = (None, env') /\
    env' !! EnvTCPEchoHost = Some ServerHost /\ env' !! EnvTCPEchoPort = Some (Itoa (Port s)) /\
    env' !! EnvHTTPEchoHost = Some ServerHost /\ env' !! EnvHTTPEchoPort = Some (Itoa (HTTPPort s)) /\
    env' !! EnvHTTPEchoURL = Some (HTTPURL s) /\
    forall k, k ∉ (echo_variables s).*1 -> env' !! k = env !! k.
Proof.
  eexists. split; [apply setenvs_ok, echo_variables_ok|]. cbn [foldl echo_variables fst snd].
  split_and!; try (by rewrite lookup_insert_eq);
    try (repeat (rewrite lookup_insert_ne by done); by rewrite lookup_insert_eq).
  intros k Hk. cbn in Hk. rewrite !not_elem_of_cons in Hk. destruct Hk as (?&?&?&?&?&_).
  by rewrite !lookup_insert_ne.
Qed.

Definition opened (evs : list netev) : nat :=
  countb (fun e => match e with ListenerOpened => true | _ => false end) evs.
Definition closed (evs : list netev) : nat :=
  countb (fun e => match e with ListenerClosed => true | _ => false end) evs.

(** [New] returns, whatever [Listen] answers, and leaks no listener: when it
    fails every listener it opened is closed again, and when it succeeds exactly
    the two of its servers are open. *)
Theorem New_leaks_nothing r1 r2 t :
  exists res evs, New r1 r2 t = Some (res, evs) /\
    opened evs = closed evs + (if is_ok res then 2 else 0).
Proof.
  destruct r1 as [e1| |p1]; [by eexists _, _|by eexists _, _|].
  destruct r2 as [e2| |p2]; by eexists _, _.
Qed.

(** What holds of the pair at any time. *)
Definition server_inv (s : Server) : Prop :=
  tcp_inv (tcp s) /\ http_inv (http s) /\
  (http_shutdown (http s) = true -> stopping (tcp s) = StopReturned).

Lemma server_step_inv a s s' : server_inv s -> server_step a s = Some s' -> server_inv s'.
Proof.
  intros (Ht & Hh & Hs) Hst. destruct a as [a|a]; cbn in Hst.
  - destruct (tcp_step a (tcp s)) as [t'|] eqn:Ha; simplify_eq.
    split; [by eapply tcp_step_inv|]. split; [done|]. intros Hsd. cbn in *.
    eapply stop_returned_stays; [exact Ht|by apply Hs|done].
  - destruct (if a is HStop then _ else _) eqn:Hg; [|done].
    destruct (http_step a (http s)) as [h'|] eqn:Ha; simplify_eq.
    split; [done|]. split; [by eapply http_step_inv|]. cbn. intros Hsd.
    destruct a; cbn in Ha; [simplify_eq; by apply Hs| |by apply bool_decide_eq_true in Hg].
    apply Hs. by destruct (_ && _); simplify_eq.
Qed.

Lemma server_run_inv l s s' : server_inv s -> server_run l s = Some s' -> server_inv s'.
Proof.
  revert s. induction l as [|a l IH]; intros s Hi Hr; cbn in Hr; [by simplify_eq|].
  destruct (server_step a s) as [s1|] eqn:Hs; [|done]. eapply IH; [|done]. by eapply server_step_inv.
Qed.

(** C33: when [Stop] of the pair has returned (its last act is to shut the HTTP
    server down), the TCP listener is closed and every TCP connection has finished
    echoing. The HTTP listener is closed if and only if the goroutine of [Start] has
    run [Serve], before or after [Stop]: if it is still to run, its run closes the
    listener; if [Start] was never called, the listener stays open. *)
Theorem server_stop_complete r1 r2 t s0 evs l s :
  New r1 r2 t = Some (Ok s0, evs) -> server_run l s0 = Some s ->
  http_shutdown (http s) = true ->
  listening (tcp s) = false /\ (forall h, h ∈ conns (tcp s) -> is_Some (h_err h)) /\
  http_open (http s) = negb (http_served (http s)) /\
  (http_started (http s) = true -> http_served (http s) = false ->
     exists s', server_step (HttpAct HServe) s = Some s' /\ http_open (http s') = false) /\
  (http_started (http s) = false -> http_served (http s) = false).
Proof.
  intros Hn Hr Hsd.
  assert (H0 : server_inv s0).
  { destruct r1 as [| |p1], r2 as [| |p2]; cbn in Hn; simplify_eq.
    split; [exact (tcp_new_inv (ListenTCP p1) t _ eq_refl)|]. done. }
  destruct (server_run_inv _ _ _ H0 Hr) as (Ht & (Ho & _ & Hsh & Hstart) & Hs). specialize (Hs Hsd).
  split; [by apply (stop_complete _ new_handler)|]. split.
  - intros h. by apply stop_complete.
  - split; [rewrite Ho; destruct (http_served (http s)); [by rewrite Hsh|done]|]. split.
    + intros Hst Hsv. cbn. rewrite Hst, Hsv, Hsd. eexists. split; [done|]. cbn. by rewrite andb_false_r.
    + intros Hst. destruct (http_served (http s)) eqn:Hsv; [|done]. by rewrite Hstart in Hst.
Qed.

(** [Stop] of a pair that was never started: the HTTP listener is left open. *)
Theorem stop_without_start_leaks p1 p2 t :
  exists s0 evs s, New (ListenTCP p1) (ListenTCP p2) t = Some (Ok s0, evs) /\
    server_run (map TcpAct stop_tcp ++ [HttpAct HStop]) s0 = Some s /\
    http_shutdown (http s) = true /\ http_open (http s) = true.
Proof. by eexists _, _, _. Qed.

(** ** Witnesses *)

Definition some_request : request :=
  {| Method := "GET"; URL_String := "/x?a=1&a=2"; URL_Path := "/x";
     URL_Query := {["a" := ["1"; "2"]; "b" := []]}; Header := {["Accept" := ["*/*"]]};
     Host := "localhost" |}.

Lemma httpEchoHandler_echoes_witness :
  let query_range := reverse (map_to_list (URL_Query some_request)) in
  let header_range := map_to_list (Header some_request) in
  query_range ≡ₚ map_to_list (URL_Query some_request) /\
  omap head (URL_Query some_request) !! "a" = Some "1" /\
  httpEchoHandler query_range header_range some_request =
    {| status := 200; content_type := "application/json"; resp_body := BJson (echo_of some_request) |}.
Proof.
  intros query_range header_range.
  assert (Hp : query_range ≡ₚ map_to_list (URL_Query some_request)) by apply reverse_Permutation.
  split; [exact Hp|]. split; [vm_compute; reflexivity|].
  exact (httpEchoHandler_echoes some_request query_range header_range Hp (reflexivity _)).
Defined.

(** A client is echoed, [Stop] is called while it is connected, and the
    goroutine serving HTTP runs only after that. *)
Definition pair_acts : list server_act :=
  map TcpAct (echo_acts ++ stop_acts ++ drain_acts) ++ [HttpAct HStart; HttpAct HStop; HttpAct HServe].

Lemma server_stop_complete_witness :
  exists s0 evs s,
    New (ListenTCP 4242) (ListenTCP 80) 0 = Some (Ok s0, evs) /\ server_run pair_acts s0 = Some s /\
    listening (tcp s) = false /\ (forall h, h ∈ conns (tcp s) -> is_Some (h_err h)) /\
    http_open (http s) = negb (http_served (http s)) /\
    (http_started (http s) = true -> http_served (http s) = false ->
       exists s', server_step (HttpAct HServe) s = Some s' /\ http_open (http s') = false) /\
    (http_started (http s) = false -> http_served (http s) = false).
Proof.
  eexists _, _, _. split; [reflexivity|]. split; [vm_compute; reflexivity|].
  eapply (server_stop_complete (ListenTCP 4242) (ListenTCP 80) 0 _ _ pair_acts);
    [reflexivity|vm_compute; reflexivity|reflexivity].
Defined.
