(* ===== verification/WithEcho.v ===== *)
(** * The command runner: tools/with-echo/main.go

    [run] with its exit codes and the order of its effects, and the goroutine
    that forwards signals to the child, with exactly the signals it drops. *)
From S2P Require Import Prelude GoStd EchoTcp Echo.
From Stdlib Require Import Ascii.

(** ** What the runner does, in order *)
Inductive effect :=
| Stderr (text : string)                      (** fmt.Fprintf(os.Stderr, ...) *)
| LogError (msg : string) (err : goerr)
| ServersStarted (s : Server)                 (** server.Start() *)
| SignalsOn                                   (** signal.Notify *)
| CommandStarted (name : string) (args : list string)
| SignalsOff                                  (** signal.Stop; close(done) *)
| ServersStopped.                             (** cr.server.Stop() *)

(** What [cmd.Wait] returns: nil, an error that wraps an [exec.ExitError] with
    its exit code, or another error. *)
Inductive wait_result := WaitOk | WaitExit (code : Z) | WaitErr (e : goerr).

(** waitForCommand *)
Definition waitForCommand (w : wait_result) : Z * list effect :=
  match w with
  | WaitOk => (0%Z, [])
  | WaitExit code => (code, [])
  | WaitErr e => (1%Z, [LogError "Command execution error" e])
  end.

(** What the outside answers during one run. *)
Record outside := {
  listen_tcp : listen_result;
  listen_http : listen_result;
  start_time : Z;
  start_error : option goerr;      (** of cmd.Start *)
  wait : wait_result
}.

(** NewCommandRunner: the runner's server or the error, the effects and the
    environment; [None] would be a call that never returns. *)
Definition NewCommandRunner (o : outside) (env : gmap string string)
    : option (result Server goerr * list effect * gmap string string) :=
  match New (listen_tcp o) (listen_http o) (start_time o) with
  | None => None
  | Some (Err e, _) => Some (Err (ErrWrap "failed to create echo servers: " e ""), [], env)
  | Some (Ok server, _) =>
      match Start_server server with
      | None => None
      | Some server =>
          match Setenv server env with
          | (Some e, env) => Some (Err e, [ServersStarted server], env)
          | (None, env) => Some (Ok server, [ServersStarted server], env)
          end
      end
  end.

(** Run *)
Definition Run (o : outside) (cmdName : string) (cmdArgs : list string) : Z * list effect :=
  match start_error o with
  | Some e => (1%Z, [SignalsOn; LogError "Failed to start command" e])
  | None =>
      let '(exitCode, logs) := waitForCommand (wait o) in
      (exitCode, [SignalsOn; CommandStarted cmdName cmdArgs] ++ logs ++ [SignalsOff])
  end.

(** Shutdown: the server of a runner is never nil. *)
Definition Shutdown : list effect := [ServersStopped].

(** printUsage, for [os.Args[0]]. *)
Definition printUsage (arg0 : string) : list effect :=
  [Stderr (String.append "Usage: " (String.append arg0
     (String.append " <command> [args...]" (String "010" EmptyString))))].

(** run: the exit code and the effects; [os.Args] is [arg0 :: args]. *)
Definition run (o : outside) (arg0 : string) (args : list string) (env : gmap string string)
    : option (Z * list effect * gmap string string) :=
  match args with
  | [] => Some (1%Z, printUsage arg0, env)
  | cmdName :: cmdArgs =>
      match NewCommandRunner o env with
      | None => None
      | Some (Err e, effs, env) =>
          Some (1%Z, effs ++ [LogError "Failed to initialize command runner" e], env)
      | Some (Ok _, effs, env) =>
          let '(code, effs2) := Run o cmdName cmdArgs in
          Some (code, effs ++ effs2 ++ Shutdown, env)
      end
  end.

(** ** Signal forwarding

    The channel holds one signal; [signal.Notify] drops a signal when it is
    full. [delivered] and [forwarded] record what arrived and what the child
    was sent. *)
Inductive signal := SIGINT | SIGTERM.
#[export] Instance signal_eq_dec : EqDecision signal.
Proof. solve_decision. Defined.

Record sigs := {
  sigChan : option signal;
  notifying : bool;
  done_closed : bool;
  handling : bool;                (** handleSignals has not returned *)
  delivered : list signal;
  dropped : list signal;
  forwarded : list signal
}.

Inductive sig_act :=
| Deliver (s : signal)      (** the runner gets a signal *)
| Forward                   (** handleSignals receives one and signals the child *)
| CommandEnds               (** Run: signal.Stop(sigChan); close(done) *)
| HandlerReturns.           (** handleSignals receives from done *)

(** handleSignals and the lines of Run around it. *)
Definition sig_step (a : sig_act) (s : sigs) : option sigs :=
  match a with
  | Deliver x =>
      if notifying s then
        match sigChan s with
        | None => Some {| sigChan := Some x; notifying := true; done_closed := done_closed s;
                          handling := handling s; delivered := delivered s ++ [x];
                          dropped := dropped s; forwarded := forwarded s |}
        | Some _ => Some {| sigChan := sigChan s; notifying := true; done_closed := done_closed s;
                            handling := handling s; delivered := delivered s ++ [x];
                            dropped := dropped s ++ [x]; forwarded := forwarded s |}
        end
      else None
  | Forward =>
      match sigChan s with
      | Some x =>
          if handling s then
            Some {| sigChan := None; notifying := notifying s; done_closed := done_closed s;
                    handling := true; delivered := delivered s; dropped := dropped s;
                    forwarded := forwarded s ++ [x] |}
          else None
      | None => None
      end
  | CommandEnds =>
      if notifying s then
        Some {| sigChan := sigChan s; notifying := false; done_closed := true;
                handling := handling s; delivered := delivered s; dropped := dropped s;
                forwarded := forwarded s |}
      else None
  | HandlerReturns =>
      if handling s && done_closed s then
        Some {| sigChan := sigChan s; notifying := notifying s; done_closed := true;
                handling := false; delivered := delivered s; dropped := dropped s;
                forwarded := forwarded s |}
      else None
  end.

Definition sigs_init : sigs :=
  {| sigChan := None; notifying := true; done_closed := false; handling := true;
     delivered := []; dropped := []; forwarded := [] |}.

Fixpoint sig_run (l : list sig_act) (s : sigs) : option sigs :=
  match l with
  | [] => Some s
  | a :: l => match sig_step a s with Some s' => sig_run l s' | None => None end
  end.

(** ** Facts *)

Lemma New_ok r1 r2 t s evs :
  New r1 r2 t = Some (Ok s, evs) -> exists p1 p2, r1 = ListenTCP p1 /\ r2 = ListenTCP p2.
Proof. destruct r1, r2; intros H; simplify_eq/=; eauto. Qed.

(** Making the runner fails only when [New] fails, before any goroutine. *)
Lemma NewCommandRunner_cases o env :
  (exists e, NewCommandRunner o env = Some (Err e, [], env)) \/
  exists server env', NewCommandRunner o env = Some (Ok server, [ServersStarted server], env').
Proof.
  unfold NewCommandRunner.
  destruct (listen_tcp o) as [e1| |p1]; [by left; eexists|by left; eexists|].
  destruct (listen_http o) as [e2| |p2]; [by left; eexists|by left; eexists|]. right.
  cbn -[Setenv setenvs echo_variables].
  match goal with |- context [Setenv ?s env] =>
    exists s; unfold Setenv; rewrite (setenvs_ok _ env (echo_variables_ok s)); by eexists end.
Qed.

(** ** Properties *)

(** The position of effects in a run. *)
Definition is_start (e : effect) : bool := match e with ServersStarted _ => true | _ => false end.
Definition is_command (e : effect) : bool := match e with CommandStarted _ _ => true | _ => false end.

(** C36: the runner always returns, and either never starts its servers, exits
    with 1 and starts no command, or starts them first and stops them last,
    exactly once, after at most one command; its exit code is then 1 when the
    command could not be started or waited for, and otherwise the command's. *)
Theorem run_outcome (o : outside) arg0 args env :
  exists code effs env', run o arg0 args env = Some (code, effs, env') /\
  (code = 1%Z /\ env' = env /\ countb is_start effs = 0 /\ countb is_command effs = 0 /\
     ServersStopped ∉ effs \/
   exists server name rest middle,
     args = name :: rest /\ effs = ServersStarted server :: middle ++ [ServersStopped] /\
     countb is_start middle = 0 /\ (ServersStopped ∉ middle) /\
     match start_error o with
     | Some _ => code = 1%Z /\ countb is_command middle = 0
     | None =>
         countb is_command middle = 1 /\ CommandStarted name rest ∈ middle /\
         code = match wait o with WaitOk => 0 | WaitExit c => c | WaitErr _ => 1 end%Z
     end).
Proof.
  destruct args as [|name rest].
  { eexists _, _, _. split; [done|]. left. split_and!; try done. set_solver. }
  cbn [run]. destruct (NewCommandRunner_cases o env) as [[e ->]|(server & env' & ->)].
  { eexists _, _, _. split; [done|]. left. split_and!; try done. set_solver. }
  unfold Run. destruct (start_error o) as [e|].
  - eexists _, _, _. split; [done|]. right. exists server, name, rest, [SignalsOn; LogError "Failed to start command" e].
    split_and!; try done. set_solver.
  - destruct (wait o) as [|c|e]; cbn [waitForCommand];
      (eexists _, _, _; split; [done|]; right; eexists server, name, rest, (_ :: _ :: _);
       split_and!; [done|done|done|set_solver|done|set_solver|done]).
Qed.

(** The signals that reach the channel, in order, and how many of them have been
    taken out, told from the actions alone: a signal that is delivered is kept
    exactly when every signal kept before has been forwarded. *)
Fixpoint kept (l : list sig_act) (keep : list signal) (out : nat) : list signal * nat :=
  match l with
  | [] => (keep, out)
  | Deliver x :: l => kept l (if length keep =? out then keep ++ [x] else keep) out
  | Forward :: l => kept l keep (S out)
  | (CommandEnds | HandlerReturns) :: l => kept l keep out
  end.

(** The signals that the runner got. *)
Definition arrivals (l : list sig_act) : list signal :=
  omap (fun a => match a with Deliver x => Some x | _ => None end) l.

(** What the state says of the signals kept so far. *)
Definition sigs_inv (keep : list signal) (out : nat) (s : sigs) : Prop :=
  forwarded s = take out keep /\ option_list (sigChan s) = drop out keep /\
  out <= length keep <= S out /\
  delivered s ≡ₚ keep ++ dropped s /\ keep `sublist_of` delivered s /\
  (handling s = false -> done_closed s = true) /\ (done_closed s = true -> notifying s = false).

Lemma sigs_chan keep out s :
  sigs_inv keep out s -> (sigChan s = None /\ length keep = out) \/
  exists x, sigChan s = Some x /\ length keep = S out /\ keep = take out keep ++ [x].
Proof.
  intros (_ & Hc & Hl & _). pose proof (length_drop keep out) as Hd. rewrite <-Hc in Hd.
  destruct (sigChan s) as [x|]; cbn in Hd, Hc; [right|left; split; [done|lia]].
  exists x. split; [done|]. split; [lia|]. by rewrite Hc, take_drop.
Qed.

Lemma sig_step_inv a keep out s s' :
  sigs_inv keep out s -> sig_step a s = Some s' ->
  let '(keep', out') := kept [a] keep out in sigs_inv keep' out' s'.
Proof.
  intros HI Ha. pose proof (sigs_chan _ _ _ HI) as Hc.
  destruct HI as (Hf & Hch & Hl & Hp & Hs & Hh & Hn). unfold sigs_inv.
  destruct a as [x| | |]; cbn in Ha |- *.
  - destruct (notifying s) eqn:Hno; [|done].
    destruct Hc as [[Hc Hk]|(y & Hc & Hk & _)]; rewrite Hc in Ha, Hch; simplify_eq/=.
    + rewrite Nat.eqb_refl, length_app, take_app_length, drop_app_length. cbn.
      rewrite Hf, firstn_all. split_and!; try done; try lia.
      * rewrite Hp. solve_Permutation.
      * by apply sublist_app.
    + rewrite Hk, (proj2 (Nat.eqb_neq _ _)) by lia. split_and!; try done; try lia.
      * rewrite Hp. solve_Permutation.
      * by apply sublist_inserts_r.
  - destruct Hc as [[Hc Hk]|(y & Hc & Hk & Hkeep)]; rewrite Hc in Ha; [done|].
    destruct (handling s) eqn:Hhs; simplify_eq/=. split_and!; try done; try lia.
    + rewrite Hf. rewrite (take_ge keep (S out)) by lia. by symmetry.
    + by rewrite drop_ge by lia.
  - destruct (notifying s); simplify_eq/=. split_and!; try done; lia.
  - destruct (handling s); [|done]. destruct (done_closed s) eqn:Hd; simplify_eq/=.
    split_and!; try done; lia.
Qed.

Lemma sig_run_inv l keep out s s' :
  sigs_inv keep out s -> sig_run l s = Some s' ->
  let '(keep', out') := kept l keep out in sigs_inv keep' out' s'.
Proof.
  revert keep out s. induction l as [|a l IH]; intros keep out s HI Hr; cbn in Hr; [by simplify_eq|].
  destruct (sig_step a s) as [s1|] eqn:Ha; [|done]. apply (sig_step_inv a keep out) in Ha; [|done].
  destruct a; cbn [kept] in *; by eapply IH.
Qed.

Lemma sig_run_delivered l s s' :
  sig_run l s = Some s' -> delivered s' = delivered s ++ arrivals l.
Proof.
  revert s. induction l as [|a l IH]; intros s Hr; cbn in Hr; [simplify_eq; by rewrite app_nil_r|].
  destruct (sig_step a s) as [s1|] eqn:Ha; [|done]. rewrite (IH s1) by done.
  destruct a; cbn in Ha; repeat case_match; simplify_eq/=; by rewrite <-?app_assoc.
Qed.

(** C37: of the signals that arrive, exactly those are kept that find the channel
    empty, that is, that arrive when all the ones kept before have been forwarded;
    the others are dropped. What is kept is forwarded to the child in the order in
    which it arrived, each signal at most once, and at most one is still waiting in
    the channel. The forwarding goroutine returns only after the command has ended,
    and then no further signal is kept; the one that may be left in the channel is
    never forwarded. *)
Theorem signals_forwarded_in_order l s :
  sig_run l sigs_init = Some s ->
  let '(keep, out) := kept l [] 0 in
  delivered s = arrivals l /\ keep `sublist_of` arrivals l /\ arrivals l ≡ₚ keep ++ dropped s /\
  forwarded s = take out keep /\ option_list (sigChan s) = drop out keep /\ length keep <= S out /\
  (handling s = false ->
     done_closed s = true /\ sig_step Forward s = None /\ forall x, sig_step (Deliver x) s = None).
Proof.
  intros Hr. pose proof (sig_run_delivered _ _ _ Hr) as Hd. cbn in Hd.
  apply (sig_run_inv l [] 0) in Hr; [|split_and!; try done; cbn; lia].
  destruct (kept l [] 0) as [keep out]. destruct Hr as (Hf & Hch & [_ Hl] & Hp & Hs & Hh & Hn).
  rewrite Hd in Hp, Hs. split_and!; try done. intros Hend. specialize (Hh Hend).
  split; [done|]. cbn. rewrite Hend, (Hn Hh). split; [by destruct (sigChan s)|done].
Qed.

(** ** Witnesses *)
Definition some_signals : list sig_act :=
  [Deliver SIGINT; Deliver SIGTERM; Forward; Deliver SIGTERM; CommandEnds; HandlerReturns].

(** The second signal finds the channel full, the third waits in it for ever. *)
Lemma signals_forwarded_in_order_witness :
  exists s, sig_run some_signals sigs_init = Some s /\
    kept some_signals [] 0 = ([SIGINT; SIGTERM], 1) /\
    forwarded s = take 1 [SIGINT; SIGTERM] /\ arrivals some_signals ≡ₚ [SIGINT; SIGTERM] ++ dropped s.
Proof.
  eexists. split; [reflexivity|]. split; [reflexivity|].
  destruct (signals_forwarded_in_order some_signals _ eq_refl) as (_ & _ & Hp & Hf & _).
  split; [exact Hf|exact Hp].
Defined.
