(* ===== verification/Unicode.v ===== *)
(** * UTF-8 and UTF-16

    The conversions of Go between strings, runes and UTF-16 code units, as the test
    console uses them: [[]rune(s)], [utf16.Encode], and what a runtime does to print a
    UTF-16 string, [utf16.Decode] and [string(runes)]. Text survives the way there and
    back. *)
From S2P Require Import Prelude.
From Stdlib Require Import Ascii.

Definition RuneError : N := 65533.

Definition in_range (lo hi : N) (b : byte) : bool :=
  (lo <=? Byte.to_N b)%N && (Byte.to_N b <=? hi)%N.
Definition low6 (b : byte) : N := N.land (Byte.to_N b) 63.

(** The range of the second byte of a sequence of three or four bytes. *)
Definition second3 (b0 : byte) : N * N :=
  let n := Byte.to_N b0 in
  (if (n =? 224)%N then 160%N else 128%N, if (n =? 237)%N then 159%N else 191%N).
Definition second4 (b0 : byte) : N * N :=
  let n := Byte.to_N b0 in
  (if (n =? 240)%N then 144%N else 128%N, if (n =? 244)%N then 143%N else 191%N).

(** UTF-8 decoding: a byte that starts no valid sequence is one [RuneError]. *)
Fixpoint runes (l : list byte) : list N :=
  match l with
  | [] => []
  | b0 :: r0 =>
      if (Byte.to_N b0 <? 128)%N then Byte.to_N b0 :: runes r0
      else
        match r0 with
        | b1 :: r1 =>
            if in_range 194 223 b0 && in_range 128 191 b1 then
              (N.land (Byte.to_N b0) 31 * 64 + low6 b1)%N :: runes r1
            else
              match r1 with
              | b2 :: r2 =>
                  if in_range 224 239 b0 && in_range (second3 b0).1 (second3 b0).2 b1 &&
                     in_range 128 191 b2 then
                    (N.land (Byte.to_N b0) 15 * 4096 + low6 b1 * 64 + low6 b2)%N :: runes r2
                  else
                    match r2 with
                    | b3 :: r3 =>
                        if in_range 240 244 b0 && in_range (second4 b0).1 (second4 b0).2 b1 &&
                           in_range 128 191 b2 && in_range 128 191 b3 then
                          (N.land (Byte.to_N b0) 7 * 262144 + low6 b1 * 4096 + low6 b2 * 64
                           + low6 b3)%N :: runes r3
                        else RuneError :: runes r0
                    | [] => RuneError :: runes r0
                    end
              | [] => RuneError :: runes r0
              end
        | [] => RuneError :: runes r0
        end
  end.

(** [utf16.Encode]: surrogate pairs above the basic plane. *)
Definition utf16_rune (r : N) : list N :=
  if (r <? 65536)%N then
    (if ((55296 <=? r) && (r <? 57344))%N then [RuneError] else [r])
  else if (r <=? 1114111)%N then
    [(55296 + N.shiftr (r - 65536) 10)%N; (56320 + N.land (r - 65536) 1023)%N]
  else [RuneError].
Definition utf16_Encode (l : list N) : list N := List.concat (map utf16_rune l).

(** [utf16.Decode]: a lone surrogate is one [RuneError]. *)
Definition high_surrogate (u : N) : bool := (55296 <=? u)%N && (u <? 56320)%N.
Definition low_surrogate (u : N) : bool := (56320 <=? u)%N && (u <? 57344)%N.

Fixpoint utf16_Decode (l : list N) : list N :=
  match l with
  | [] => []
  | u :: r =>
      if high_surrogate u then
        match r with
        | v :: r' =>
            if low_surrogate v
            then (N.lor (N.shiftl (u - 55296) 10) (v - 56320) + 65536)%N :: utf16_Decode r'
            else RuneError :: utf16_Decode r
        | [] => [RuneError]
        end
      else (if low_surrogate u then RuneError else u) :: utf16_Decode r
  end.

(** [string(runes)], as bytes; a rune that is no scalar value becomes
    [RuneError]. *)
Definition utf8_rune (r : N) : list byte :=
  (let r := if ((r <? 55296) || (57344 <=? r)) && (r <=? 1114111) then r else RuneError in
   map byte_of_N
     (if r <? 128 then [r]
      else if r <? 2048 then [192 + r / 64; 128 + r `mod` 64]
      else if r <? 65536 then [224 + r / 4096; 128 + (r / 64) `mod` 64; 128 + r `mod` 64]
      else [240 + r / 262144; 128 + (r / 4096) `mod` 64; 128 + (r / 64) `mod` 64; 128 + r `mod` 64]))%N.
Definition utf8 (l : list N) : list byte := List.concat (map utf8_rune l).

(** ** Facts *)

(** The Unicode scalar values. *)
Definition scalar (r : N) : Prop := (r < 55296 \/ 57344 <= r <= 1114111)%N.

(** The text that is left of a string: every byte that is not UTF-8 becomes
    U+FFFD. *)
Definition valid_text (s : string) : string := string_of_bytes (utf8 (runes (bytes_of_string s))).

(** The strings that are UTF-8. *)
Definition utf8_text (s : string) : Prop :=
  exists rs, Forall scalar rs /\ bytes_of_string s = utf8 rs.

(** *** Surrogate pairs *)
Lemma split_10 (x : N) : N.lor (N.shiftl (N.shiftr x 10) 10) (N.land x 1023) = x.
Proof. rewrite <-N.ldiff_ones_r. apply (N.lor_ldiff_and x (N.ones 10)). Qed.

Lemma utf16_units rs : Forall (fun u => (u < 65536)%N) (utf16_Encode rs).
Proof.
  unfold utf16_Encode. apply Forall_concat, Forall_map, Forall_forall. intros r _. unfold utf16_rune.
  destruct (N.ltb_spec r 65536).
  - destruct (_ && _); by repeat constructor.
  - destruct (N.leb_spec r 1114111); [|by repeat constructor].
    assert (N.land (r - 65536) 1023 < 1024)%N by (rewrite (N.land_ones _ 10); apply N.mod_lt; lia).
    assert (N.shiftr (r - 65536) 10 < 1024)%N
      by (rewrite N.shiftr_div_pow2; apply N.Div0.div_lt_upper_bound; lia).
    repeat constructor; lia.
Qed.

Lemma utf16_Decode_rune r rest :
  scalar r -> utf16_Decode (utf16_rune r ++ rest) = r :: utf16_Decode rest.
Proof.
  unfold scalar. intros Hr. unfold utf16_rune. destruct (N.ltb_spec r 65536).
  - rewrite (proj2 (andb_false_iff _ _)) by (rewrite N.leb_gt, N.ltb_ge; lia).
    cbn [app utf16_Decode]. unfold high_surrogate, low_surrogate.
    rewrite !(proj2 (andb_false_iff _ _)) by (rewrite N.leb_gt, N.ltb_ge; lia). done.
  - rewrite (proj2 (N.leb_le _ _)) by lia. cbn [app utf16_Decode].
    assert (Hl : (N.land (r - 65536) 1023 < 1024)%N) by (rewrite (N.land_ones _ 10); apply N.mod_lt; lia).
    assert (Hh : (N.shiftr (r - 65536) 10 < 1024)%N)
      by (rewrite N.shiftr_div_pow2; apply N.Div0.div_lt_upper_bound; lia).
    unfold high_surrogate, low_surrogate.
    rewrite !(proj2 (andb_true_iff _ _)) by (rewrite N.leb_le, N.ltb_lt; lia).
    replace (55296 + N.shiftr (r - 65536) 10 - 55296)%N with (N.shiftr (r - 65536) 10) by lia.
    replace (56320 + N.land (r - 65536) 1023 - 56320)%N with (N.land (r - 65536) 1023) by lia.
    rewrite split_10. f_equal. lia.
Qed.

Lemma utf16_Decode_Encode rs : Forall scalar rs -> utf16_Decode (utf16_Encode rs) = rs.
Proof.
  unfold utf16_Encode. induction 1 as [|r rs Hr _ IH]; [done|]. cbn [map List.concat].
  rewrite utf16_Decode_rune by done. by rewrite IH.
Qed.

(** *** UTF-8 *)
Lemma in_range_spec lo hi b :
  reflect (lo <= Byte.to_N b <= hi)%N (in_range lo hi b).
Proof.
  unfold in_range. apply iff_reflect. rewrite andb_true_iff, !N.leb_le. tauto.
Qed.

Lemma in_range_true lo hi b : in_range lo hi b = true -> (lo <= Byte.to_N b <= hi)%N.
Proof. by destruct (in_range_spec lo hi b). Qed.

Lemma land_31 n : N.land n 31 = (n `mod` 32)%N.
Proof. apply (N.land_ones n 5). Qed.
Lemma land_15 n : N.land n 15 = (n `mod` 16)%N.
Proof. apply (N.land_ones n 4). Qed.
Lemma land_7 n : N.land n 7 = (n `mod` 8)%N.
Proof. apply (N.land_ones n 3). Qed.
Lemma low6_mod b : low6 b = (Byte.to_N b `mod` 64)%N.
Proof. apply (N.land_ones _ 6). Qed.

(** Linear arithmetic over remainders that are bounded already. *)
Ltac mod_lia := repeat match goal with |- context [(?a `mod` ?b)%N] => generalize dependent (a `mod` b)%N end; lia.

(** Every rune is a scalar value. *)
Lemma scalar_2 n0 n1 : (194 <= n0 <= 223)%N -> scalar (n0 `mod` 32 * 64 + n1 `mod` 64).
Proof.
  intros H0. pose proof (N.mod_lt n0 32 ltac:(done)). pose proof (N.mod_lt n1 64 ltac:(done)). left. lia.
Qed.

Lemma scalar_3 n0 n1 n2 :
  (224 <= n0 <= 239)%N -> (n0 = 237 -> n1 <= 159)%N -> (128 <= n1)%N ->
  scalar (n0 `mod` 16 * 4096 + n1 `mod` 64 * 64 + n2 `mod` 64).
Proof.
  intros H0 H1 H1'. pose proof (N.mod_lt n1 64 ltac:(done)). pose proof (N.mod_lt n2 64 ltac:(done)).
  assert (Hn : (n0 `mod` 16 = n0 - 224)%N) by (symmetry; apply (N.mod_unique _ _ 14); lia).
  destruct (N.eq_dec n0 237%N) as [Heq|Hne].
  - assert (n1 `mod` 64 = n1 - 128)%N by (symmetry; apply (N.mod_unique _ _ 2); lia).
    left. mod_lia.
  - unfold scalar. mod_lia.
Qed.

Lemma scalar_4 n0 n1 n2 n3 :
  (240 <= n0 <= 244)%N -> (n0 = 240 -> 144 <= n1)%N -> (n0 = 244 -> n1 <= 143)%N -> (128 <= n1 <= 191)%N ->
  scalar (n0 `mod` 8 * 262144 + n1 `mod` 64 * 4096 + n2 `mod` 64 * 64 + n3 `mod` 64).
Proof.
  intros H0 H1 H1' H1''. pose proof (N.mod_lt n2 64 ltac:(done)). pose proof (N.mod_lt n3 64 ltac:(done)).
  assert (Hn : (n0 `mod` 8 = n0 - 240)%N) by (symmetry; apply (N.mod_unique _ _ 30); lia).
  assert (n1 `mod` 64 = n1 - 128)%N by (symmetry; apply (N.mod_unique _ _ 2); lia).
  right. mod_lia.
Qed.

(** The first rune of a string. *)
Lemma runes_cons b0 r0 :
  exists r rest, runes (b0 :: r0) = r :: runes rest /\ scalar r /\ length rest <= length r0.
Proof.
  assert (He : scalar RuneError) by (right; unfold RuneError; lia).
  cbn [runes]. destruct (N.ltb_spec (Byte.to_N b0) 128).
  { eexists _, r0. split; [done|]. split; [left; lia|done]. }
  assert (Hbad : exists r rest, RuneError :: runes r0 = r :: runes rest /\ scalar r /\
    length rest <= length r0) by (by exists RuneError, r0).
  destruct r0 as [|b1 r1]; [done|]. rewrite land_31, land_15, land_7, !low6_mod.
  destruct (in_range 194 223 b0 && _) eqn:H2.
  { apply andb_true_iff in H2 as [?%in_range_true _]. eexists _, r1. split; [done|].
    split; [by apply scalar_2|cbn; lia]. }
  destruct r1 as [|b2 r2]; [done|]. rewrite !low6_mod.
  destruct (in_range 224 239 b0 && _ && _) eqn:H3.
  { apply andb_true_iff in H3 as [[H30%in_range_true H31%in_range_true]%andb_true_iff _].
    eexists _, r2. split; [done|]. split; [|cbn; lia]. unfold second3 in H31. cbn [fst snd] in H31.
    apply scalar_3; [done| |]; repeat case_match; rewrite ?N.eqb_eq, ?N.eqb_neq in *; lia. }
  destruct r2 as [|b3 r3]; [done|]. rewrite !low6_mod.
  destruct (in_range 240 244 b0 && _ && _ && _) eqn:H4; [|done].
  apply andb_true_iff in H4 as [[[H40%in_range_true H41%in_range_true]%andb_true_iff _]%andb_true_iff _].
  eexists _, r3. split; [done|]. split; [|cbn; lia]. unfold second4 in H41. cbn [fst snd] in H41.
  apply scalar_4; [done|..]; repeat case_match; rewrite ?N.eqb_eq, ?N.eqb_neq in *; lia.
Qed.

Lemma runes_scalar l : Forall scalar (runes l).
Proof.
  induction l as [l IH] using (induction_ltof1 _ length). unfold ltof in IH.
  destruct l as [|b0 r0]; [constructor|]. destruct (runes_cons b0 r0) as (r & rest & -> & Hr & Hl).
  constructor; [done|]. apply IH. cbn. lia.
Qed.

(** Decoding what was encoded. *)
Lemma to_N_byte_of_N n : (n < 256)%N -> Byte.to_N (byte_of_N n) = n.
Proof.
  intros H. unfold byte_of_N. rewrite N.mod_small by done.
  destruct (Byte.of_N n) as [b|] eqn:Hb; [by apply Byte.to_of_N|].
  apply Byte.of_N_None_iff in Hb. lia.
Qed.

Lemma in_range_byte lo hi n : (lo <= n <= hi)%N -> (hi < 256)%N -> in_range lo hi (byte_of_N n) = true.
Proof.
  intros H Hhi. unfold in_range. rewrite to_N_byte_of_N by lia.
  by rewrite !(proj2 (N.leb_le _ _)) by lia.
Qed.

Lemma out_of_range lo hi b : (hi < Byte.to_N b)%N -> in_range lo hi b = false.
Proof. intros H. unfold in_range. apply andb_false_iff. rewrite (N.leb_gt _ hi). by right. Qed.

(** The valid sequences of two, three and four bytes. *)
Lemma runes_2 b0 b1 r :
  in_range 194 223 b0 = true -> in_range 128 191 b1 = true ->
  runes (b0 :: b1 :: r) = (Byte.to_N b0 `mod` 32 * 64 + Byte.to_N b1 `mod` 64)%N :: runes r.
Proof.
  intros H0 H1. cbn [runes]. pose proof (in_range_true _ _ _ H0).
  rewrite (proj2 (N.ltb_ge (Byte.to_N b0) 128)), H0, H1 by lia. cbn [andb]. by rewrite land_31, low6_mod.
Qed.

Lemma runes_3 b0 b1 b2 r :
  in_range 224 239 b0 = true -> in_range (second3 b0).1 (second3 b0).2 b1 = true ->
  in_range 128 191 b2 = true ->
  runes (b0 :: b1 :: b2 :: r) =
    (Byte.to_N b0 `mod` 16 * 4096 + Byte.to_N b1 `mod` 64 * 64 + Byte.to_N b2 `mod` 64)%N :: runes r.
Proof.
  intros H0 H1 H2. cbn [runes]. pose proof (in_range_true _ _ _ H0).
  rewrite (proj2 (N.ltb_ge (Byte.to_N b0) 128)), (out_of_range 194 223 b0) by lia. cbn [andb].
  rewrite H0, H1, H2. cbn [andb]. by rewrite land_15, !low6_mod.
Qed.

Lemma runes_4 b0 b1 b2 b3 r :
  in_range 240 244 b0 = true -> in_range (second4 b0).1 (second4 b0).2 b1 = true ->
  in_range 128 191 b2 = true -> in_range 128 191 b3 = true ->
  runes (b0 :: b1 :: b2 :: b3 :: r) =
    (Byte.to_N b0 `mod` 8 * 262144 + Byte.to_N b1 `mod` 64 * 4096 + Byte.to_N b2 `mod` 64 * 64
     + Byte.to_N b3 `mod` 64)%N :: runes r.
Proof.
  intros H0 H1 H2 H3. cbn [runes]. pose proof (in_range_true _ _ _ H0).
  rewrite (proj2 (N.ltb_ge (Byte.to_N b0) 128)), (out_of_range 194 223 b0), (out_of_range 224 239 b0) by lia. cbn [andb].
  rewrite H0, H1, H2, H3. cbn [andb]. by rewrite land_7, !low6_mod.
Qed.

Lemma mod_add k m q : (q < m)%N -> ((k * m + q) `mod` m = q)%N.
Proof. intros H. symmetry. apply (N.mod_unique _ _ k); lia. Qed.

(** The digits in base 64. *)
Lemma digits r :
  (r = r / 64 * 64 + r `mod` 64)%N /\ (r / 64 = r / 4096 * 64 + (r / 64) `mod` 64)%N /\
  (r / 4096 = r / 262144 * 64 + (r / 4096) `mod` 64)%N.
Proof.
  assert (H : forall n, (n = n / 64 * 64 + n `mod` 64)%N)
    by (intros n; rewrite N.mul_comm; apply N.div_mod; done).
  split; [apply H|]. split.
  - rewrite (H (r / 64)%N) at 1. by rewrite N.Div0.div_div.
  - rewrite (H (r / 4096)%N) at 1. by rewrite N.Div0.div_div.
Qed.

Lemma runes_utf8_rune r rest : scalar r -> runes (utf8_rune r ++ rest) = r :: runes rest.
Proof.
  intros Hr. unfold utf8_rune.
  replace (((r <? 55296) || (57344 <=? r)) && (r <=? 1114111))%N with true.
  2:{ symmetry. apply andb_true_iff. rewrite orb_true_iff, N.ltb_lt, !N.leb_le. unfold scalar in Hr. lia. }
  cbv zeta iota. unfold scalar in Hr.
  destruct (N.ltb_spec r 128).
  { cbn [map app runes]. rewrite to_N_byte_of_N by lia. by rewrite (proj2 (N.ltb_lt _ _)). }
  destruct (digits r) as (H0 & H1 & H2).
  pose proof (N.mod_lt r 64 ltac:(done)) as L0. pose proof (N.mod_lt (r / 64) 64 ltac:(done)) as L1.
  pose proof (N.mod_lt (r / 4096) 64 ltac:(done)) as L2.
  generalize dependent (r `mod` 64)%N. generalize dependent ((r / 64) `mod` 64)%N.
  generalize dependent ((r / 4096) `mod` 64)%N. generalize dependent (r / 262144)%N.
  generalize dependent (r / 4096)%N. generalize dependent (r / 64)%N.
  intros q1 q2 q3 d2 H2 L2 d1 H1 L1 d0 H0 L0.
  assert (M0 : ((128 + d0) `mod` 64 = d0)%N) by (by apply (mod_add 2 64)).
  assert (M1 : ((128 + d1) `mod` 64 = d1)%N) by (by apply (mod_add 2 64)).
  assert (M2 : ((128 + d2) `mod` 64 = d2)%N) by (by apply (mod_add 2 64)).
  destruct (N.ltb_spec r 2048).
  { assert (M : ((192 + q1) `mod` 32 = q1)%N) by (apply (mod_add 6 32); lia).
    cbn [map app]. rewrite runes_2 by (apply in_range_byte; lia). rewrite !to_N_byte_of_N by lia.
    by rewrite M, M0, <-H0. }
  destruct (N.ltb_spec r 65536).
  { assert (M : ((224 + q2) `mod` 16 = q2)%N) by (apply (mod_add 14 16); lia).
    cbn [map app]. rewrite runes_3; try (apply in_range_byte; lia).
    - rewrite !to_N_byte_of_N by lia. rewrite M, M1, M0. f_equal. lia.
    - unfold second3. rewrite to_N_byte_of_N by lia. cbn [fst snd].
      apply in_range_byte; repeat case_match; rewrite ?N.eqb_eq, ?N.eqb_neq in *; lia. }
  assert (M : ((240 + q3) `mod` 8 = q3)%N) by (apply (mod_add 30 8); lia).
  cbn [map app]. rewrite runes_4; try (apply in_range_byte; lia).
  - rewrite !to_N_byte_of_N by lia. rewrite M, M2, M1, M0. f_equal. lia.
  - unfold second4. rewrite to_N_byte_of_N by lia. cbn [fst snd].
    apply in_range_byte; repeat case_match; rewrite ?N.eqb_eq, ?N.eqb_neq in *; lia.
Qed.

Lemma runes_utf8 rs : Forall scalar rs -> runes (utf8 rs) = rs.
Proof.
  unfold utf8. induction 1 as [|r rs Hr _ IH]; [done|]. cbn [map List.concat].
  rewrite runes_utf8_rune by done. by rewrite IH.
Qed.

(** UTF-8 text is left as it is. *)
Lemma valid_text_utf8 s : utf8_text s -> valid_text s = s.
Proof.
  intros (rs & Hrs & Hs). unfold valid_text. rewrite Hs, runes_utf8, <-Hs by done.
  apply string_of_bytes_of_string.
Qed.

(** The text that a string keeps through UTF-16. *)
Lemma utf16_text s :
  string_of_bytes (utf8 (utf16_Decode (utf16_Encode (runes (bytes_of_string s))))) = valid_text s.
Proof. by rewrite utf16_Decode_Encode by apply runes_scalar. Qed.

Lemma utf8_app rs1 rs2 : utf8 (rs1 ++ rs2) = utf8 rs1 ++ utf8 rs2.
Proof. unfold utf8. by rewrite map_app, concat_app. Qed.

Lemma bytes_of_string_app s1 s2 :
  bytes_of_string (String.append s1 s2) = bytes_of_string s1 ++ bytes_of_string s2.
Proof.
  unfold bytes_of_string. induction s1 as [|c s1 IH]; [done|].
  change (byte_of_ascii c :: String.list_byte_of_string (String.append s1 s2)
    = byte_of_ascii c :: (String.list_byte_of_string s1 ++ String.list_byte_of_string s2)).
  by rewrite IH.
Qed.

Lemma utf8_text_app s1 s2 : utf8_text s1 -> utf8_text s2 -> utf8_text (String.append s1 s2).
Proof.
  intros (rs1 & H1 & E1) (rs2 & H2 & E2). exists (rs1 ++ rs2). split; [by apply Forall_app|].
  by rewrite bytes_of_string_app, utf8_app, E1, E2.
Qed.
