(* ===== verification/Console.v ===== *)
(** * The console of the test scripts: internal/testscript/console.go

    The JavaScript values are the host's: the class [JSValues] has the
    operations that the console calls on them. *)
From S2P Require Import Prelude GoStd Unicode.
From Stdlib Require Import Ascii String.

(** ** The host's values *)
Class JSValues := {
  JSValue : Type;
  AssertFunction : JSValue -> bool;
  IsString : JSValue -> bool;
  ToString : JSValue -> string;               (** v.String() *)
  GoError : JSValue -> option string;
    (** the message of the Go error the value exports to, if its export type
        implements error *)
  IsErrorObject : JSValue -> bool;            (** an object of class Error *)
  MarshalJSON : JSValue -> option (result string goerr);
    (** json.Marshal, when the value is a json.Marshaler *)
  StringFromUTF16 : list N -> JSValue
}.

Section console.
Context `{V : JSValues}.

Definition functionLog : string := "[object Function]".

(** valueString *)
Definition valueString (v : JSValue) : string :=
  if AssertFunction v then functionLog
  else match GoError v with
  | Some msg => msg
  | None =>
      if IsErrorObject v then ToString v
      else match MarshalJSON v with
      | Some (Ok b) => b
      | _ => ToString v
      end
  end.

(** What the console does to its [testing.TB]: lines written to its output,
    errors reported with [Errorf], and whether the test has failed. *)
Record tb := { output : list string; errors : list string; failed : bool }.

Definition newline : string := String "010" EmptyString.

(** [fmt.Sprintf("%-6s %s\n", level, msg)] *)
Fixpoint spaces (n : nat) : string :=
  match n with O => EmptyString | S n => String " " (spaces n) end.
Definition pad6 (s : string) : string := String.append s (spaces (6 - String.length s)).
Definition log_line (level msg : string) : string :=
  String.append (pad6 level) (String.append " " (String.append msg newline)).

(** log. [werr] is the error of writing to the test's output, if any. *)
Definition log (level : string) (args : list JSValue) (werr : option goerr) (t : tb) : tb :=
  let msg := String.concat " " (map valueString args) in
  let level := ToUpper level in
  let t := match werr with
    | None => {| output := output t ++ [log_line level msg]; errors := errors t; failed := failed t |}
    | Some e => {| output := output t;
                   errors := errors t ++ [String.append "failed to write to test output: " (Error e)];
                   failed := true |}
    end in
  if bool_decide (level = "ERROR") || bool_decide (level = "ASSERT")
  then {| output := output t; errors := errors t; failed := true |} else t.

Definition Info (args : list JSValue) := log "info" args.
Definition Log (args : list JSValue) := Info args.
Definition Debug (args : list JSValue) := log "debug" args.
Definition Warn (args : list JSValue) := log "warn" args.
Definition ConsoleError (args : list JSValue) := log "error" args.

Definition toString (s : string) : JSValue := StringFromUTF16 (utf16_Encode (runes (bytes_of_string s))).

(** The arguments that Assert logs. *)
Definition assert_args (args : list JSValue) : list JSValue :=
  let msg := "Assertion failed" in
  match args with
  | [] => [toString msg]
  | first :: rest =>
      if IsString first
      then toString (String.append msg (String.append ": " (ToString first))) :: rest
      else toString msg :: args
  end.

(** Assert *)
Definition Assert (assertion : bool) (args : list JSValue) (werr : option goerr) (t : tb) : tb :=
  if assertion then t else log "assert" (assert_args args) werr t.

(** ** Properties *)

(** What the console relies on: the host's value for UTF-16 text is a string
    that prints as that text, in UTF-8, and nothing else. *)
Class StringLaws : Prop := {
  string_plain units : AssertFunction (StringFromUTF16 units) = false /\
    GoError (StringFromUTF16 units) = None /\ IsErrorObject (StringFromUTF16 units) = false /\
    MarshalJSON (StringFromUTF16 units) = None;
  string_text units : Forall (fun u => (u < 65536)%N) units ->
    ToString (StringFromUTF16 units) = string_of_bytes (utf8 (utf16_Decode units))
}.
Context {L : StringLaws}.

Lemma valueString_toString s : valueString (toString s) = valid_text s.
Proof.
  unfold toString, valueString.
  destruct (string_plain (utf16_Encode (runes (bytes_of_string s)))) as (-> & -> & -> & ->).
  rewrite string_text by apply utf16_units. apply utf16_text.
Qed.

Lemma failed_text : utf8_text "Assertion failed: ".
Proof.
  exists (map Byte.to_N (bytes_of_string "Assertion failed: ")). split; [|reflexivity].
  apply (bool_decide_unpack _). vm_compute. exact I.
Qed.

(** The text of a failed assertion, as the WHATWG console specification has it:
    a leading string is appended to the message, other values follow it. Bytes of
    the leading string that are not UTF-8 are replaced. *)
Definition assertion_text (args : list JSValue) : string :=
  String.concat " " match args with
  | [] => ["Assertion failed"]
  | first :: rest =>
      if IsString first
      then valid_text (String.append "Assertion failed: " (ToString first)) :: map valueString rest
      else "Assertion failed" :: map valueString args
  end.

(** C38: a true assertion does nothing. A false one fails the test and writes
    exactly one line, with the specified text, in which a leading string appears as
    it is when it is UTF-8; if the line cannot be written, that is reported as a
    further error of the test. *)
Theorem Assert_spec (assertion : bool) (args : list JSValue) (werr : option goerr) (t : tb) :
  Assert assertion args werr t =
    (if assertion then t
     else {| output := output t ++ match werr with
                                   | None => [log_line "ASSERT" (assertion_text args)]
                                   | Some _ => []
                                   end;
             errors := errors t ++ match werr with
                                   | None => []
                                   | Some e => [String.append "failed to write to test output: " (Error e)]
                                   end;
             failed := true |}) /\
  (forall first rest, args = first :: rest -> IsString first = true -> utf8_text (ToString first) ->
     assertion_text args =
       String.concat " " (String.append "Assertion failed: " (ToString first) :: map valueString rest)).
Proof.
  split.
  - unfold Assert. destruct assertion; [done|]. unfold log.
    replace (ToUpper "assert") with "ASSERT" by done.
    rewrite (bool_decide_eq_true_2 ("ASSERT" = "ASSERT") eq_refl), orb_true_r.
    destruct werr as [e|]; cbn [output errors]; rewrite app_nil_r; [done|].
    do 4 f_equal. unfold assertion_text, assert_args. destruct args as [|first rest].
    + cbn [map]. by rewrite valueString_toString.
    + destruct (IsString first); cbn [map]; by rewrite valueString_toString.
  - intros first rest -> Hf Ht. unfold assertion_text. rewrite Hf.
    by rewrite valid_text_utf8 by (apply utf8_text_app; [apply failed_text|done]).
Qed.

(** Of the logging methods only [error] (and a failed assertion) fails the
    test, unless writing the line itself fails. *)
Theorem log_fails (args : list JSValue) (t : tb) level :
  level ∈ ["debug"; "info"; "warn"; "error"; "assert"] ->
  failed (log level args None t) = failed t || bool_decide (level ∈ ["error"; "assert"]) /\
  output (log level args None t) =
    output t ++ [log_line (ToUpper level) (String.concat " " (map valueString args))].
Proof.
  intros Hl. unfold log. repeat (apply elem_of_cons in Hl as [->|Hl]);
    [..|by apply elem_of_nil in Hl]; cbn -[log_line String.concat];
    by rewrite ?orb_false_r, ?orb_true_r.
Qed.
End console.

(** ** A concrete host and witnesses *)
Inductive console_value := CString (s : string) | CNumber (z : Z) | CFunction | CError (msg : string).

Definition string_of_units (l : list N) : string := string_of_bytes (utf8 (utf16_Decode l)).

Definition ConsoleRef : JSValues := {|
  JSValue := console_value;
  AssertFunction v := match v with CFunction => true | _ => false end;
  IsString v := match v with CString _ => true | _ => false end;
  ToString v := match v with
    | CString s => s | CNumber z => Itoa z | CFunction => "function () {}" | CError m => String.append "Error: " m end;
  GoError v := None;
  IsErrorObject v := match v with CError _ => true | _ => false end;
  MarshalJSON v := None;
  StringFromUTF16 l := CString (string_of_units l)
|}.

#[export] Instance ConsoleRef_laws : StringLaws (V := ConsoleRef).
Proof. by split. Qed.

Definition fresh_tb : tb := {| output := []; errors := []; failed := false |}.

(** A word that is not ASCII. *)
Definition accented : string := string_of_bytes [x63; x61; x66; xc3; xa9].

Lemma accented_utf8 : utf8_text accented.
Proof.
  exists [99; 97; 102; 233]%N. split; [|reflexivity].
  apply (bool_decide_unpack _). vm_compute. exact I.
Qed.

Lemma Assert_spec_witness :
  Assert (V := ConsoleRef) false [CString accented; CNumber 80] None fresh_tb =
  {| output := [log_line "ASSERT" (assertion_text (V := ConsoleRef) [CString accented; CNumber 80])];
     errors := []; failed := true |} /\
  assertion_text (V := ConsoleRef) [CString accented; CNumber 80] =
    String.concat " " [String.append "Assertion failed: " accented; "80"].
Proof.
  destruct (Assert_spec (V := ConsoleRef) false [CString accented; CNumber 80] None fresh_tb) as [H1 H2].
  split; [exact H1|]. exact (H2 (CString accented) [CNumber 80] eq_refl eq_refl accented_utf8).
Defined.

Lemma log_fails_witness :
  failed (log (V := ConsoleRef) "warn" [] None fresh_tb) = false /\
  output (log (V := ConsoleRef) "warn" [] None fresh_tb) = [log_line "WARN" ""].
Proof.
  apply (log_fails (V := ConsoleRef) [] fresh_tb "warn").
  apply (bool_decide_unpack _). vm_compute. exact I.
Defined.
