(* ===== verification/TestScript.v ===== *)
(** * The test script harness: internal/testscript

    run.go, runtime.go, execution.go and integration.go: which modules and
    which environment a test script sees, which scripts run, and the command
    line of the integration tests. A test that fails for good ends with
    [Err]: the message of [t.Fatalf], or the error that [require.NoError]
    got. *)
From S2P Require Import Prelude GoStd K6.
From Stdlib Require Import Ascii.

Open Scope go_scope.

(** ** Module pairs *)

(** The values passed as module pairs: a string, or something else with the
    name of its type ([%T]). *)
Inductive pairval := PVString (s : string) | PVOther (typ : string) (id : nat).

#[export] Instance pairval_eq_dec : EqDecision pairval.
Proof. solve_decision. Defined.

(** The module [newExecutionRoot] makes for k6/execution. *)
Definition execution_root : pairval := PVOther "*testscript.executionRoot" 0.

(** The loop of newTestRuntime over the pairs, from index [i]. *)
Fixpoint add_pairs (i : nat) (pairs : list pairval) (m : gmap string pairval)
    : result (gmap string pairval) string :=
  match pairs with
  | p :: q :: rest =>
      match p with
      | PVString importPath => add_pairs (i + 2) rest (<[importPath := q]> m)
      | PVOther typ _ =>
          Err (String.append "module pair at index " (String.append (Itoa (Z.of_nat i))
            (String.append ": expected string for import path, got " typ)))
      end
  | _ => Ok m
  end.

(** newTestRuntime: the modules of the runtime. *)
Definition module_map (pairs : list pairval) : result (gmap string pairval) string :=
  let? m := add_pairs 0 pairs ∅ in Ok (<["k6/execution" := execution_root]> m).

(** registeredExtensions, for the order in which the runtime enumerates the
    registered extensions. *)
Definition registeredExtensions (extensions : list (string * pairval)) : list pairval :=
  List.concat (map (fun '(path, e) => [PVString path; e]) extensions).

(** modulePairsOrRegistered *)
Definition modulePairsOrRegistered (extensions : list (string * pairval)) (pairs : list pairval)
    : result (list pairval) string :=
  if Nat.odd (length pairs) then
    Err (String.append "modulePairs length must be even, got " (Itoa (Z.of_nat (length pairs))))
  else match pairs with
  | [] => Ok (registeredExtensions extensions)
  | _ => Ok pairs
  end.

(** ** The environment *)

(** [strings.Cut(s, "=")] *)
Fixpoint Cut_eq (s : string) : option (string * string) :=
  match s with
  | EmptyString => None
  | String c r =>
      if Ascii.eqb c "=" then Some (EmptyString, r)
      else match Cut_eq r with
           | Some (key, value) => Some (String c key, value)
           | None => None
           end
  end.

(** The loop of newTestRuntime over [os.Environ()]. *)
Definition add_env (env : gmap string string) (e : string) : gmap string string :=
  match Cut_eq e with Some (key, value) => <[key := value]> env | None => env end.
Definition env_of (environ : list string) : gmap string string := foldl add_env ∅ environ.

(** ** The runtime *)

(** How a test fails: with the message of [t.Fatalf], or because
    [require.NoError] got an error. *)
Inductive failure := Fatalf (message : string) | NoError (err : goerr).

Definition or_fatal {A} (r : result A string) : result A failure :=
  match r with Ok a => Ok a | Err m => Err (Fatalf m) end.

Definition require_NoError (err : option goerr) : result unit failure :=
  match err with None => Ok tt | Some e => Err (NoError e) end.

(** What k6 answers while the runtime is made: the errors of setting
    [console], of SetupModuleSystem and of setting [__ENV]. *)
Record runtime_answers := {
  console_error : option goerr;
  modules_error : option goerr;
  env_error : option goerr
}.

(** What a script finds: the modules it can import and [__ENV]. *)
Record test_runtime := {
  modules : gmap string pairval;
  env_var : gmap string string
}.

(** newTestRuntime *)
Definition newTestRuntime (pairs : list pairval) (environ : list string) (o : runtime_answers)
    : result test_runtime failure :=
  let? _ := require_NoError (console_error o) in
  let? moduleMap := or_fatal (module_map pairs) in
  let? _ := require_NoError (modules_error o) in
  let env := env_of environ in
  let? _ := require_NoError (env_error o) in
  Ok {| modules := moduleMap; env_var := env |}.

(** newTestVUState, for k6's root tag set, [lib.RootGroupPath] and default
    system tags: the fields of [lib.State] that it sets from values of its
    own. The sample channel is closed when the test is over. *)
Definition maxTestSampleContainers : nat := 1000.

Inductive loglevel := InfoLevel.
Inductive dns_select := DNSfirst.
Inductive dns_policy := DNSpreferIPv4.

Record vu_state `{K : K6} (SystemTagSet : Type) := {
  SystemTags : SystemTagSet;
  resolver : Z * dns_select * dns_policy;   (** time to live, selection, policy *)
  samples_capacity : nat;
  vu_tags : tagset;
  level : loglevel
}.

Definition newTestVUState `{K : K6} {SystemTagSet : Type} (RootTagSet : tagset)
    (RootGroupPath : string) (DefaultSystemTagSet : SystemTagSet) : vu_state SystemTagSet := {|
  SystemTags := DefaultSystemTagSet;
  resolver := (0%Z, DNSfirst, DNSpreferIPv4);
  samples_capacity := maxTestSampleContainers;
  vu_tags := WithTagsFromMap RootTagSet {["group" := RootGroupPath]};
  level := InfoLevel
|}.

(** ** k6/execution *)

(** What [test.fail] and [test.abort] do: [t.Error] marks the test failed and
    goes on, [t.Fatal] also ends it. *)
Inductive test_call := TestFail (message : string) | TestAbort (message : string).
Definition execution_call (c : test_call) : string * bool :=
  match c with
  | TestFail m => (m, true)    (** the test goes on *)
  | TestAbort m => (m, false)
  end.

(** The exports of the module: no default, and [test] with its functions. *)
Definition executionModule_Exports : gmap string (gmap string (string -> test_call)) :=
  {["test" := {["fail" := TestFail; "abort" := TestAbort]}]}.

(** ** Running scripts *)

(** What the runtime answers while one script runs: the errors of the three
    [Set] calls, of compiling and running it, of reading [module.exports];
    whether the default export is a function, and the error it ends with. *)
Record script_run := {
  set_errors : list (option goerr);   (** module.exports, module, exports *)
  compile_error : option goerr;
  run_error : option goerr;
  exports_error : option goerr;
  default_is_function : bool;
  default_error : option goerr
}.

Definition fatal_if (err : option goerr) (text : string) : result unit string :=
  match err with None => Ok tt | Some e => Err (String.append text (Error e)) end.

Definition set_property (filename : string) (k : nat) (o : script_run) : result unit string :=
  let key := default "" (["exports"; "module"; "exports"] !! k) in
  fatal_if (default None (set_errors o !! k))
    (String.append filename (String.append ": Set property "
      (String.append (quote key) " failed: "))).

(** RunFile, after the runtime is made: the first failing step ends the test. *)
Definition RunFile_script (filename : string) (o : script_run) : result unit string :=
  let? _ := set_property filename 0 o in
  let? _ := set_property filename 1 o in
  let? _ := set_property filename 2 o in
  let? _ := fatal_if (compile_error o) (String.append filename ": compile failed: ") in
  let? _ := fatal_if (run_error o) (String.append filename ": run failed: ") in
  let? _ := fatal_if (exports_error o) (String.append filename ": failed to get module.exports: ") in
  if negb (default_is_function o)
  then Err (String.append filename ": exports.default should be a function")
  else fatal_if (default_error o) (String.append filename ": default() failed: ").

(** What the outside answers to the run of one file. *)
Record file_answers := {
  environ : list string;           (** os.Environ() *)
  runtime_run : runtime_answers;
  script_answers : script_run
}.

(** RunFile *)
Definition RunFile (filename : string) (pairs : list pairval) (o : file_answers)
    : result test_runtime failure :=
  let? rt := newTestRuntime pairs (environ o) (runtime_run o) in
  let? _ := or_fatal (RunFile_script filename (script_answers o)) in
  Ok rt.

(** RunFiles: one subtest per file, in order, each with its own outcome. *)
Definition RunFiles (extensions : list (string * pairval)) (files : list string)
    (pairs : list pairval) (o : string -> file_answers)
    : result (list (string * result test_runtime failure)) string :=
  match files with
  | [] => Err "no test files provided"
  | _ =>
      let? pairs := modulePairsOrRegistered extensions pairs in
      Ok (map (fun file => (file, RunFile file pairs (o file))) files)
  end.

Definition glob_failed (glob : string) (e : goerr) : string :=
  String.append "glob " (String.append (quote glob) (String.append " failed: " (Error e))).

(** RunGlob, given what [filepath.Glob] answers. *)
Definition RunGlob (extensions : list (string * pairval)) (glob : string)
    (files : result (list string) goerr) (pairs : list pairval) (o : string -> file_answers)
    : result (list (string * result test_runtime failure)) string :=
  match files with
  | Err e => Err (glob_failed glob e)
  | Ok files => RunFiles extensions files pairs o
  end.

(** ** Integration tests *)

(** runIntegrationSubprocess: the arguments given to k6, when this process is
    the subprocess; otherwise it returns. *)
Definition runIntegrationSubprocess (subprocess : bool) (script : string) : option (list string) :=
  if negb subprocess || bool_decide (script = "") then None
  else Some ["k6"; "--quiet"; "--log-format=raw"; "--summary-mode=disabled"; "--no-usage-report";
             "--address=127.0.0.1:0"; "--vus=1"; "--iterations=1"; "--no-thresholds"; "--no-setup";
             "--no-teardown"; "--no-color"; "run"; script].

(** RunFileIntegration: the command line of the subprocess. *)
Definition integration_command (exe test_name file : string) : list string :=
  [exe; String.append "-test.run=" test_name; "-subprocess"; String.append "-script=" file].

(** What RunFileIntegration does: become k6, whose [cmd.Execute] ends the
    process, or start a subprocess. *)
Inductive integration := RunK6 (argv : list string) | Subprocess (argv : list string).
Definition RunFileIntegration (subprocess : bool) (script exe test_name file : string) : integration :=
  match runIntegrationSubprocess subprocess script with
  | Some argv => RunK6 argv
  | None => Subprocess (integration_command exe test_name file)
  end.

(** RunFilesIntegration: one subtest per file; a subprocess never gets here. *)
Definition RunFilesIntegration (subprocess : bool) (script exe : string)
    (files : list (string * string)) : result (list integration) string :=
  match runIntegrationSubprocess subprocess script with
  | Some argv => Ok [RunK6 argv]
  | None =>
      match files with
      | [] => Err "no test files provided"
      | _ => Ok (map (fun '(name, file) => RunFileIntegration subprocess script exe name file) files)
      end
  end.

(** RunGlobIntegration *)
Definition RunGlobIntegration (subprocess : bool) (script exe glob : string)
    (files : result (list (string * string)) goerr) : result (list integration) string :=
  match runIntegrationSubprocess subprocess script with
  | Some argv => Ok [RunK6 argv]
  | None =>
      match files with
      | Err e => Err (glob_failed glob e)
      | Ok files => RunFilesIntegration subprocess script exe files
      end
  end.

(** The flags [-subprocess] and [-script], as the flag package parses the
    arguments above. *)
Fixpoint strip (prefix s : string) : option string :=
  match prefix, s with
  | EmptyString, _ => Some s
  | String a p, String b r => if Ascii.eqb a b then strip p r else None
  | _, _ => None
  end.
Definition parse_flag (fl : bool * string) (arg : string) : bool * string :=
  if bool_decide (arg = "-subprocess") then (true, fl.2)
  else match strip "-script=" arg with Some v => (fl.1, v) | None => fl end.
Definition parse_flags (args : list string) : bool * string := foldl parse_flag (false, "") args.

(** ** Facts *)

Lemma add_pairs_registered i l m :
  add_pairs i (registeredExtensions l) m = Ok (foldl (fun m kv => <[kv.1 := kv.2]> m) m l).
Proof.
  revert i m. induction l as [|[path e] l IH]; intros i m; [done|].
  change (registeredExtensions ((path, e) :: l)) with (PVString path :: e :: registeredExtensions l).
  cbn [add_pairs]. apply IH.
Qed.

(** Inserting the entries of a map, in any order, onto the empty map. *)
Lemma foldl_insert_entries {A} l (m m0 : gmap string A) :
  NoDup l.*1 -> list_to_map l = m -> foldl (fun m kv => <[kv.1 := kv.2]> m) m0 l = m ∪ m0.
Proof.
  revert m m0. induction l as [|[k v] l IH]; intros m m0 Hnd <-; cbn [foldl list_to_map].
  - symmetry. apply (left_id_L ∅ (∪)).
  - apply NoDup_cons in Hnd as [Hk Hnd]. rewrite (IH _ _ Hnd eq_refl). cbn.
    rewrite <-insert_union_l, insert_union_r; [done|]. by apply not_elem_of_list_to_map_1.
Qed.

Lemma foldl_insert_map {A} l (m : gmap string A) :
  l ≡ₚ map_to_list m -> foldl (fun m kv => <[kv.1 := kv.2]> m) ∅ l = m.
Proof.
  intros Hl. assert (Hnd : NoDup l.*1) by (rewrite Hl; apply NoDup_fst_map_to_list).
  rewrite (foldl_insert_entries l m ∅ Hnd).
  - apply (right_id_L ∅ (∪)).
  - rewrite <-(list_to_map_to_list m). by apply list_to_map_proper.
Qed.

Lemma length_registered l : length (registeredExtensions l) = 2 * length l.
Proof.
  induction l as [|[path e] l IH]; [done|].
  change (registeredExtensions ((path, e) :: l)) with (PVString path :: e :: registeredExtensions l).
  cbn [length]. rewrite IH. lia.
Qed.

Lemma Cut_eq_entry k v :
  has_char "=" k = false -> Cut_eq (String.append k (String "=" v)) = Some (k, v).
Proof.
  induction k as [|c k IH]; [done|]. cbn [has_char]. rewrite orb_false_iff. intros [Hc Hk].
  change (String.append (String c k) (String "=" v)) with (String c (String.append k (String "=" v))).
  cbn [Cut_eq]. rewrite Ascii.eqb_sym, Hc. by rewrite IH.
Qed.

(** A variable as it appears in [os.Environ()]. *)
Definition env_entry (kv : string * string) : string := String.append kv.1 (String "=" kv.2).

Lemma env_of_entries l m0 :
  Forall (fun kv => has_char "=" kv.1 = false) l ->
  foldl add_env m0 (map env_entry l) = foldl (fun m kv => <[kv.1 := kv.2]> m) m0 l.
Proof.
  intros Hl. revert m0. induction Hl as [|[k v] l Hk _ IH]; intros m0; [done|].
  assert (Ha : add_env m0 (env_entry (k, v)) = <[k := v]> m0)
    by (unfold add_env, env_entry; by rewrite Cut_eq_entry).
  cbn [map foldl]. rewrite Ha. apply IH.
Qed.

Lemma strip_append p s : strip p (String.append p s) = Some s.
Proof.
  induction p as [|a p IH]; [by destruct s|].
  change (String.append (String a p) s) with (String a (String.append p s)).
  cbn [strip]. by rewrite Ascii.eqb_refl.
Qed.

(** ** Properties *)

(** Without explicit pairs a test script sees exactly the registered
    extensions, whatever the order in which the runtime enumerates them, and the
    harness's own k6/execution, which replaces a registered one. *)
Lemma registered_modules (extensions : gmap string pairval) range :
  range ≡ₚ map_to_list extensions ->
  result_bind (modulePairsOrRegistered range []) module_map
  = Ok (<["k6/execution" := execution_root]> extensions).
Proof.
  intros Hr. cbn [modulePairsOrRegistered length Nat.odd result_bind]. unfold module_map.
  cbn. rewrite add_pairs_registered. cbn [result_bind].
  by rewrite (foldl_insert_map _ extensions).
Qed.

(** What becomes of one file: it sees the registered modules and the process
    environment and its default function returned, or the test failed with an
    error that the runtime answered, or with the message of the script's first
    failing step. *)
Definition run_spec (extensions : gmap string pairval) (file : string) (o : file_answers)
    (res : result test_runtime failure) : Prop :=
  match res with
  | Ok rt =>
      modules rt = <["k6/execution" := execution_root]> extensions /\
      env_var rt = env_of (environ o) /\ RunFile_script file (script_answers o) = Ok tt
  | Err (NoError e) =>
      Some e ∈ [console_error (runtime_run o); modules_error (runtime_run o); env_error (runtime_run o)]
  | Err (Fatalf m) => RunFile_script file (script_answers o) = Err m
  end.

(** C39: without explicit pairs every file is run, in order, each in a runtime of
    its own with exactly the registered extensions (and the harness's own
    k6/execution), whatever the order in which the runtime enumerates them; the
    failure of one file does not keep the others from running. *)
Theorem RunFiles_outcomes (extensions : gmap string pairval) range files o :
  range ≡ₚ map_to_list extensions -> files <> [] ->
  exists outcomes, RunFiles range files [] o = Ok outcomes /\ map fst outcomes = files /\
    Forall (fun '(file, res) => run_spec extensions file (o file) res) outcomes.
Proof.
  intros Hr Hf. pose proof (registered_modules _ _ Hr) as Hm.
  change (modulePairsOrRegistered range []) with (Ok (registeredExtensions range) : result _ string) in Hm.
  cbn [result_bind] in Hm.
  assert (Hrun : RunFiles range files [] o =
    Ok (map (fun file => (file, RunFile file (registeredExtensions range) (o file))) files))
    by (by destruct files).
  rewrite Hrun. eexists. split; [done|]. split; [rewrite map_map; apply map_id|].
  clear Hrun Hf. induction files as [|file files IH]; constructor; [|done].
  unfold run_spec, RunFile, newTestRuntime. rewrite Hm.
  destruct (console_error (runtime_run (o file))) as [e|] eqn:He; cbn; [constructor|].
  destruct (modules_error (runtime_run (o file))) as [e|] eqn:He2; cbn;
    [do 2 constructor|].
  destruct (env_error (runtime_run (o file))) as [e|] eqn:He3; cbn;
    [do 3 constructor|].
  destruct (RunFile_script file (script_answers (o file))) as [[]|m] eqn:Hs; cbn; done.
Qed.

(** C40: the harness reads its environment back: of a process environment made of
    [key=value] entries whose keys contain no [=], in any order, [__ENV] holds
    exactly the variables; values may contain [=]. *)
Theorem env_roundtrip (env : gmap string string) environ :
  (forall k, is_Some (env !! k) -> has_char "=" k = false) ->
  environ ≡ₚ map env_entry (map_to_list env) -> env_of environ = env.
Proof.
  intros Hk Hp. apply Permutation_map_inv in Hp as (l & -> & Hl). symmetry in Hl.
  unfold env_of. rewrite env_of_entries; [by apply foldl_insert_map|].
  apply Forall_forall. intros [k v] Hin. rewrite Hl in Hin. apply elem_of_map_to_list in Hin.
  apply Hk. by eexists.
Qed.

(** The subprocess that RunFileIntegration starts for a file parses its own
    command line back, becomes k6, and runs exactly that file; it starts no
    further subprocess. *)
Theorem integration_runs_file exe test_name file name' file' :
  file <> "" ->
  let '(subprocess, script) := parse_flags (tail (integration_command exe test_name file)) in
  exists argv, RunFileIntegration subprocess script exe name' file' = RunK6 argv /\
    last argv = Some file.
Proof.
  intros Hf. unfold integration_command, parse_flags. cbn [tail foldl].
  assert (H1 : parse_flag (false, "") (String.append "-test.run=" test_name) = (false, "")).
  { unfold parse_flag. rewrite bool_decide_false by done. done. }
  rewrite H1. unfold parse_flag. rewrite (bool_decide_true ("-subprocess" = "-subprocess")) by done.
  rewrite bool_decide_false by done.
  rewrite strip_append. cbn [fst snd]. unfold RunFileIntegration, runIntegrationSubprocess.
  rewrite bool_decide_false by done. cbn [negb orb]. by eexists.
Qed.

(** ** Witnesses *)
Definition tcp_module : pairval := PVOther "*tcp.rootModule" 1.
Definition some_extensions : gmap string pairval :=
  {["k6/x/tcp" := tcp_module; "k6/execution" := PVOther "other" 2]}.

Definition no_errors : file_answers := {|
  environ := ["A=b"];
  runtime_run := {| console_error := None; modules_error := None; env_error := None |};
  script_answers := {| set_errors := []; compile_error := None; run_error := None;
    exports_error := None; default_is_function := true; default_error := None |}
|}.

(** The second of two scripts does not compile. *)
Definition second_fails (file : string) : file_answers :=
  if bool_decide (file = "b.js")
  then {| environ := []; runtime_run := runtime_run no_errors;
          script_answers := {| set_errors := []; compile_error := Some (ErrNew "syntax error");
            run_error := None; exports_error := None; default_is_function := true;
            default_error := None |} |}
  else no_errors.

Lemma RunFiles_outcomes_witness :
  let range := reverse (map_to_list some_extensions) in
  exists outcomes, RunFiles range ["a.js"; "b.js"] [] second_fails = Ok outcomes /\
    map fst outcomes = ["a.js"; "b.js"] /\
    Forall (fun '(file, res) => run_spec some_extensions file (second_fails file) res) outcomes.
Proof.
  intros range.
  destruct (RunFiles_outcomes some_extensions range ["a.js"; "b.js"] second_fails
    (reverse_Permutation _) ltac:(discriminate)) as (outcomes & H1 & H2 & H3).
  by exists outcomes.
Defined.

Definition some_env : gmap string string := {["PATH" := "/bin"; "OPTS" := "a=b"]}.

Lemma env_roundtrip_witness : env_of (map env_entry (map_to_list some_env)) = some_env.
Proof.
  apply (env_roundtrip some_env); [|reflexivity].
  intros k [v Hk]. unfold some_env in Hk.
  apply lookup_insert_Some in Hk as [[<- _]|[_ Hk]]; [reflexivity|].
  apply lookup_singleton_Some in Hk as [<- _]. reflexivity.
Defined.

Lemma integration_runs_file_witness :
  parse_flags (tail (integration_command "tcp.test" "TestX" "a.js")) = (true, "a.js") /\
  exists argv, RunFileIntegration true "a.js" "tcp.test" "TestX" "a.js" = RunK6 argv /\
    last argv = Some "a.js".
Proof.
  split; [reflexivity|].
  exact (integration_runs_file "tcp.test" "TestX" "a.js" "TestX" "a.js" ltac:(discriminate)).
Defined.
