(* ===== verification/Extension.v ===== *)
(** * The extension: register.go, tcp/module.go and the constructor

    What the package registers with k6, the module instance each VU gets with
    the nine metrics, its exports, and the whole constructor of a socket: the
    JavaScript properties it binds, what each of them runs, and what a failure leaves
    behind. The documented interface and metrics are the reference. k6's metrics
    registry and logger are parameters. *)
From S2P Require Import Prelude GoStd K6 Metrics Lang Socket Events Exec Connect ReadWrite System.

Open Scope go_scope.

(** ** tcp/module.go *)

Definition ImportPath : string := "k6/x/tcp".

(** An empty struct. *)
Inductive rootModule := RootModule.

Definition New : rootModule := RootModule.

(** register.go: the arguments of the calls of [modules.Register] that the
    package's [init] makes. *)
Definition init : list (string * rootModule) := [(ImportPath, New)].

(** [metrics.Registry]: a mutable object, passed along. *)
Class MetricRegistry := {
  registry : Type;
  metric_id : Type;
  (** NewMetric(name, type, valueType), the last as whether [metrics.Time] is
      passed *)
  NewMetric : registry -> string -> metric_type -> bool -> result (metric_id * registry) goerr
}.

(** Documented: asking again for a metric of the same name and types returns
    the one that is registered, and leaves the registry alone; a metric stays
    registered. *)
Class MetricRegistryLaws (R : MetricRegistry) : Prop := {
  NewMetric_again r name t v m r' :
    NewMetric r name t v = Ok (m, r') -> NewMetric r' name t v = Ok (m, r');
  NewMetric_stays r name t v m name' t' v' m' r' :
    NewMetric r name t v = Ok (m, r) -> NewMetric r name' t' v' = Ok (m', r') ->
    NewMetric r' name t v = Ok (m, r')
}.

Section module.
Context `{R : MetricRegistry} {VU Logger : Type} (InitEnv_Logger : VU -> Logger).
Context (WithField : Logger -> string -> string -> Logger).

(** newTCPMetrics, which makes the registrations [newTCPMetrics] in this
    order: the fields of [tcpMetrics], or the error that MustNewMetric panics
    with. *)
Fixpoint register_metrics (l : list registration) (r : registry)
    : result (list (metric * metric_id) * registry) goerr :=
  match l with
  | [] => Ok ([], r)
  | g :: l =>
      let? mr := NewMetric r (metric_name (reg_metric g)) (reg_type g) (reg_time g) in
      let? msr := register_metrics l mr.2 in
      Ok ((reg_metric g, mr.1) :: msr.1, msr.2)
  end.

Record module := {
  vu : VU;
  log : Logger;
  metrics : list (metric * metric_id)
}.

(** NewModuleInstance *)
Definition NewModuleInstance (_ : rootModule) (v : VU) (r : registry)
    : result (module * registry) goerr :=
  let? msr := register_metrics newTCPMetrics r in
  Ok ({| vu := v; log := WithField (InitEnv_Logger v) "module" "tcp"; metrics := msr.1 |}, msr.2).

(** The instances of several VUs, which share one registry. *)
Fixpoint instances (vus : list VU) (r : registry) : result (list module * registry) goerr :=
  match vus with
  | [] => Ok ([], r)
  | v :: vus =>
      let? mr := NewModuleInstance New v r in
      let? msr := instances vus mr.2 in
      Ok (mr.1 :: msr.1, msr.2)
  end.

(** Exports: no default export; [Socket] is the constructor of the module. *)
Inductive export := SocketConstructor (m : module).
Record exports := { Default : option export; Named : gmap string export }.

Definition Exports (m : module) : exports :=
  {| Default := None; Named := {["Socket" := SocketConstructor m]} |}.
End module.

(** ** tcp/socket_base.go: the bindings *)

(** The methods of [socket] that are bound to the JS object. *)
Inductive gofunc :=
| Fconnect | Fwrite | Fdestroy | FsetTimeout | Fon
| FreadyState | FbytesWritten | FbytesRead | FlocalIP | FlocalPort | FremoteIP | FremotePort
| FisConnected.

#[export] Instance gofunc_eq_dec : EqDecision gofunc.
Proof. solve_decision. Defined.

(** One call of [this.Set] or [this.DefineAccessorProperty]; [None] is the nil
    setter, the flags are configurable and enumerable. *)
Inductive binding :=
| BSet (name : string) (f : gofunc)
| BAccessor (name : string) (getter : gofunc) (setter : option gofunc)
    (configurable enumerable : bool).

Definition readonly (name : string) (getter : gofunc) : binding :=
  BAccessor name getter None false false.

Definition bindings : list binding :=
  [ BSet "connect" Fconnect; BSet "write" Fwrite; BSet "destroy" Fdestroy;
    BSet "setTimeout" FsetTimeout; BSet "on" Fon;
    readonly "ready_state" FreadyState; readonly "bytes_written" FbytesWritten;
    readonly "bytes_read" FbytesRead; readonly "local_ip" FlocalIP;
    readonly "local_port" FlocalPort; readonly "remote_ip" FremoteIP;
    readonly "remote_port" FremotePort; readonly "connected" FisConnected ].

Definition binding_name (b : binding) : string :=
  match b with BSet name _ | BAccessor name _ _ _ _ => name end.
Definition bound (b : binding) : gofunc :=
  match b with BSet _ f | BAccessor _ f _ _ _ => f end.

(** The calls that are made, given what the runtime answers each, and the
    error that [must] throws. *)
Fixpoint bind_all (answer : binding -> option goerr) (l : list binding)
    : list binding * option goerr :=
  match l with
  | [] => ([], None)
  | b :: l =>
      match answer b with
      | Some e => ([b], Some e)
      | None => let '(made, err) := bind_all answer l in (b :: made, err)
      end
  end.

(** module.socket: the bindings made on [this], and the world once the loop
    goroutine has been started, or the error that is thrown. [arg] is the
    result of exporting the first argument, when there is one. *)
Definition module_socket `{K : K6} (arg : option (result (option socketOptions) goerr))
    (answer : binding -> option goerr) (now : Z) : list binding * result world goerr :=
  match construct arg now with
  | Err e => ([], Err e)
  | Ok w =>
      match bind_all answer bindings with
      | (made, Some e) => (made, Err e)
      | (made, None) => (made, Ok w)
      end
  end.

(** The program that a bound method runs when it is called as in [a]; a getter
    is called when its property is read. *)
Definition runs `{K : K6} (f : gofunc) (a : apicall) : option (prog unit) :=
  match f, a with
  | Fconnect, AConnect p h => Some (ignore (connect p h))
  | Fwrite, AWrite v o => Some (ignore (write v o))
  | Fdestroy, ADestroy => Some destroy
  | FsetTimeout, ASetTimeout ms => Some (ignore (setTimeout ms))
  | Fon, AOn ev h => Some (on ev h)
  | FreadyState, AReadyState => Some (ignore readyState)
  | FisConnected, AConnected => Some (ignore isConnected)
  | FlocalIP, ALocalIP => Some (ignore get_localIP)
  | FlocalPort, ALocalPort => Some (ignore get_localPort)
  | FremoteIP, ARemoteIP => Some (ignore get_remoteIP)
  | FremotePort, ARemotePort => Some (ignore get_remotePort)
  | FbytesRead, ABytesRead => Some (ignore bytesRead)
  | FbytesWritten, ABytesWritten => Some (ignore bytesWritten)
  | _, _ => None
  end.

(** The value that a getter gives to the script. *)
Inductive jsval := JUndefined | JString (s : string) | JNumber (n : Z) | JBool (b : bool).

Definition or_undefined {A} (f : A -> jsval) (v : option A) : jsval :=
  match v with Some a => f a | None => JUndefined end.

Definition getter `{K : K6} (f : gofunc) : option (prog jsval) :=
  match f with
  | FreadyState => Some (let! s := readyState in Ret (JString s))
  | FbytesWritten => Some (let! n := bytesWritten in Ret (JNumber n))
  | FbytesRead => Some (let! n := bytesRead in Ret (JNumber n))
  | FlocalIP => Some (let! v := get_localIP in Ret (or_undefined JString v))
  | FlocalPort => Some (let! v := get_localPort in Ret (or_undefined JNumber v))
  | FremoteIP => Some (let! v := get_remoteIP in Ret (or_undefined JString v))
  | FremotePort => Some (let! v := get_remotePort in Ret (or_undefined JNumber v))
  | FisConnected => Some (let! b := isConnected in Ret (JBool b))
  | _ => None
  end.

(** ** The documented surface (index.d.ts) *)

(** The property a script uses for each call. *)
Definition api_name `{K : K6} (a : apicall) : option string :=
  match a with
  | AConnect _ _ => Some "connect" | AWrite _ _ => Some "write" | ADestroy => Some "destroy"
  | ASetTimeout _ => Some "setTimeout" | AOn _ _ => Some "on"
  | AReadyState => Some "ready_state" | AConnected => Some "connected"
  | ALocalIP => Some "local_ip" | ALocalPort => Some "local_port"
  | ARemoteIP => Some "remote_ip" | ARemotePort => Some "remote_port"
  | ABytesRead => Some "bytes_read" | ABytesWritten => Some "bytes_written"
  | AStore _ _ => None
  end.

(** The value of each readable property: the addresses are there while the
    socket has a connection. *)
Definition documented : list (string * (socket -> jsval)) :=
  let conn_only {A} (f : A -> jsval) (field : socketEndpoints -> A) (s : socket) :=
    match conn s with Some _ => f (field (endpoints s)) | None => JUndefined end in
  [ ("ready_state", fun s => JString (socketState_string (state s)));
    ("bytes_written", fun s => JNumber (totalWritten s));
    ("bytes_read", fun s => JNumber (totalRead s));
    ("local_ip", conn_only JString localIP); ("local_port", conn_only JNumber localPort);
    ("remote_ip", conn_only JString remoteIP); ("remote_port", conn_only JNumber remotePort);
    ("connected", fun s => JBool (bool_decide (state s = socketStateOpen))) ].

(** An object with these bindings is a Socket as documented: it has thirteen
    properties; the one a script uses for a call runs that call; and the readable
    ones, which cannot be assigned, reconfigured or enumerated, have the documented
    values on any live socket whose mutex is free. *)
Definition is_Socket `{K : K6} (made : list binding) : Prop :=
  length made = 13 /\ NoDup (map binding_name made) /\
  (forall a name, api_name a = Some name ->
     exists b, b ∈ made /\ binding_name b = name /\ runs (bound b) a = Some (api_prog a)) /\
  (forall name value, (name, value) ∈ documented ->
     exists f get, BAccessor name f None false false ∈ made /\ getter f = Some get /\
       forall rs w, alive w -> mu w = MFree -> exec get rs w = Done (value (sk w)) rs w).

(** ** Facts *)

(** A registration that gives [m] and changes nothing. *)
Definition registered `{R : MetricRegistry} (r : registry) (g : registration) (m : metric_id) : Prop :=
  NewMetric r (metric_name (reg_metric g)) (reg_type g) (reg_time g) = Ok (m, r).

Section registry.
Context {R : MetricRegistry} {RL : MetricRegistryLaws R}.

Lemma register_metrics_stays l r ms r' g m :
  register_metrics l r = Ok (ms, r') -> registered r g m -> registered r' g m.
Proof.
  revert r ms. induction l as [|g' l IH]; intros r ms Hl Hg; cbn in Hl; [by simplify_eq|].
  destruct (NewMetric r _ _ _) as [[m1 r1]|] eqn:H1; [|done]. cbn in Hl.
  destruct (register_metrics l r1) as [[ms2 r2]|] eqn:H2; [|done]. cbn in Hl. simplify_eq.
  eapply IH; [exact H2|]. by eapply NewMetric_stays.
Qed.

Lemma register_metrics_registered l r ms r' :
  register_metrics l r = Ok (ms, r') ->
  Forall2 (fun g km => km.1 = reg_metric g /\ registered r' g km.2) l ms.
Proof.
  revert r ms. induction l as [|g l IH]; intros r ms Hl; cbn in Hl; [by simplify_eq; constructor|].
  destruct (NewMetric r _ _ _) as [[m1 r1]|] eqn:H1; [|done]. cbn in Hl.
  destruct (register_metrics l r1) as [[ms2 r2]|] eqn:H2; [|done]. cbn in Hl. simplify_eq.
  constructor; [|by eapply IH]. split; [done|]. eapply register_metrics_stays; [exact H2|].
  by eapply NewMetric_again.
Qed.

(** Where all metrics are registered, registering them again finds them. *)
Lemma register_metrics_again l ms r :
  Forall2 (fun g km => km.1 = reg_metric g /\ registered r g km.2) l ms ->
  register_metrics l r = Ok (ms, r).
Proof.
  induction 1 as [|g [k m] l ms [Hk Hg] _ IH]; [done|]. cbn in Hk, Hg |- *. subst k.
  unfold registered in Hg. rewrite Hg. cbn. by rewrite IH.
Qed.
End registry.

Lemma bind_all_none answer l :
  (bind_all answer l).2 = None ->
  (bind_all answer l).1 = l /\ Forall (fun b => answer b = None) l.
Proof.
  induction l as [|b l IH]; [done|]. cbn. destruct (answer b) eqn:Hb; [done|].
  destruct (bind_all answer l) as [made err]. cbn in *. intros He. destruct (IH He) as [-> ?].
  split; [done|by constructor].
Qed.

Lemma bind_all_some answer l e :
  (bind_all answer l).2 = Some e -> exists pre b post, l = pre ++ b :: post /\
    (bind_all answer l).1 = pre ++ [b] /\ answer b = Some e /\ Forall (fun b => answer b = None) pre.
Proof.
  induction l as [|b l IH]; [done|]. cbn. destruct (answer b) eqn:Hb.
  - intros [= ->]. by exists [], b, l.
  - destruct (bind_all answer l) as [made err]. cbn in *. intros He.
    destruct (IH He) as (pre & b' & post & -> & -> & Hb' & Hpre).
    exists (b :: pre), b', post. split_and!; try done. by constructor.
Qed.

(** A property that is read under the lock, or without it, alone. *)
Lemma exec_rlocked_alone `{K : K6} {A B} (f : socket -> A) (g : A -> B) rs w :
  alive w -> mu w = MFree -> exec (let! a := rlocked f in Ret (g a)) rs w = Done (g (f (sk w))) rs w.
Proof.
  intros Ha Hm. unfold rlocked. cbn [bind do].
  rewrite exec_op by done. cbn [interp]. rewrite Hm, alive_run by exact Ha.
  rewrite exec_op by done. cbn [interp]. rewrite alive_run by exact Ha.
  rewrite exec_op by done. cbn [interp mu set_mu]. rewrite alive_run by exact Ha. cbn [exec].
  destruct w. cbn in *. by subst.
Qed.

Lemma exec_GetS_alone `{K : K6} {A B} (f : socket -> A) (g : A -> B) rs w :
  alive w ->
  exec (let! a := (let! s := do GetS in Ret (f s)) in Ret (g a)) rs w = Done (g (f (sk w))) rs w.
Proof. intros Ha. cbn [bind do]. by rewrite exec_GetS. Qed.

Lemma Forall_pairs {A B} (P : A -> B -> Prop) l :
  Forall (fun p => P p.1 p.2) l -> forall a b, (a, b) ∈ l -> P a b.
Proof. intros H a b Hin. by apply (proj1 (Forall_forall _ _) H (a, b)). Qed.

(** The [n]-th binding is the one that is asked for. *)
Ltac bound_at n := eexists; split; [apply (list_elem_of_lookup_2 _ n); reflexivity|by split].
Ltac read_at n reads :=
  eexists _, _; split; [apply (list_elem_of_lookup_2 _ n); reflexivity|]; split; [reflexivity|];
  intros rs w Ha Hm; etransitivity; [reads; assumption|]; unfold when_conn; cbn [snd];
  destruct (conn (sk w)); reflexivity.

Lemma bindings_surface `{K : K6} : is_Socket bindings.
Proof.
  split; [done|]. split; [apply (bool_decide_unpack _); vm_compute; exact I|]. split.
  - intros [| | | | | | | | | | | | |] name [= <-].
    all: first [bound_at 0 | bound_at 1 | bound_at 2 | bound_at 3 | bound_at 4 | bound_at 5
               | bound_at 6 | bound_at 7 | bound_at 8 | bound_at 9 | bound_at 10 | bound_at 11
               | bound_at 12].
  - intros name value. revert name value. apply Forall_pairs. repeat (apply Forall_cons; split); [..|by constructor].
    + read_at 5 ltac:(apply (exec_rlocked_alone _ JString)).
    + read_at 6 ltac:(apply (exec_GetS_alone _ JNumber)).
    + read_at 7 ltac:(apply (exec_GetS_alone _ JNumber)).
    + read_at 8 ltac:(apply (exec_rlocked_alone _ (or_undefined JString))).
    + read_at 9 ltac:(apply (exec_rlocked_alone _ (or_undefined JNumber))).
    + read_at 10 ltac:(apply (exec_rlocked_alone _ (or_undefined JString))).
    + read_at 11 ltac:(apply (exec_rlocked_alone _ (or_undefined JNumber))).
    + read_at 12 ltac:(apply (exec_rlocked_alone _ JBool)).
Qed.

(** ** Properties *)

(** The metrics as README.md documents them: the field that holds each, its
    name, its type, and whether its values are times. *)
Record metric_doc := { doc_field : metric; doc_name : string; doc_type : metric_type; doc_time : bool }.

Definition documented_metrics : list metric_doc :=
  let doc f n t b := {| doc_field := f; doc_name := n; doc_type := t; doc_time := b |} in
  [ doc tcpConnecting "tcp_socket_connecting" Trend true;
    doc tcpResolving "tcp_socket_resolving" Trend true;
    doc tcpDuration "tcp_socket_duration" Trend true;
    doc tcpSockets "tcp_sockets" Counter false;
    doc tcpReads "tcp_reads" Counter false;
    doc tcpWrites "tcp_writes" Counter false;
    doc tcpErrors "tcp_errors" Counter false;
    doc tcpTimeouts "tcp_timeouts" Counter false;
    doc tcpPartialWrites "tcp_partial_writes" Counter false ].

(** C29: every VU's module instance gets the nine metrics that are documented:
    when the first instance could be made, each of its fields holds the metric that
    the registry has under the documented name with the documented type; then so can
    those of any further VUs on the same registry: no registration panics, the
    registry stays as it is, and each instance has the same metrics, its own VU and
    that VU's logger with the module's field. *)
Theorem instances_share_metrics {R : MetricRegistry} {RL : MetricRegistryLaws R} {VU Logger : Type}
    (lg : VU -> Logger) (wf : Logger -> string -> string -> Logger) (v : VU) r m r1 (vus : list VU) :
  NewModuleInstance lg wf New v r = Ok (m, r1) ->
  Forall2 (fun d km => km.1 = doc_field d /\
             NewMetric r1 (doc_name d) (doc_type d) (doc_time d) = Ok (km.2, r1))
    documented_metrics (metrics m) /\
  exists ms, instances lg wf vus r1 = Ok (ms, r1) /\
    Forall2 (fun v' m' => vu m' = v' /\ metrics m' = metrics m /\
               log m' = wf (lg v') "module" "tcp") vus ms.
Proof.
  unfold NewModuleInstance. destruct (register_metrics newTCPMetrics r) as [[ids r']|] eqn:Hr; [|done].
  cbn [result_bind]. intros [= <- <-]. cbn [metrics fst snd].
  pose proof (register_metrics_registered _ _ _ _ Hr) as Hall.
  pose proof (register_metrics_again _ _ _ Hall) as Hagain. split.
  { assert (Hdocs : newTCPMetrics = map (fun d =>
      {| reg_metric := doc_field d; reg_type := doc_type d; reg_time := doc_time d |}) documented_metrics)
      by reflexivity.
    assert (Hnames : Forall (fun d => metric_name (doc_field d) = doc_name d) documented_metrics)
      by (repeat constructor).
    rewrite Hdocs in Hall. clear -Hall Hnames. revert ids Hall.
    induction Hnames as [|d l Hd _ IH]; intros ids Hall; inversion Hall as [|? km ? ? [Hk Hreg] Hrest]; subst;
      [constructor|]. constructor; [|by apply IH]. split; [exact Hk|]. rewrite <-Hd. exact Hreg. }
  induction vus as [|v' vus IH]; [by exists []|]. destruct IH as (ms & Hms & Hf).
  unfold NewModuleInstance in Hms |- *. cbn [instances]. unfold NewModuleInstance. rewrite Hagain.
  cbn [result_bind fst snd]. unfold NewModuleInstance in Hms. rewrite Hms. cbn [result_bind fst snd].
  eexists. split; [done|]. by constructor.
Qed.

(** C28: [new Socket()] makes a Socket as documented, that is, all thirteen
    properties, each running the call or giving the value that is documented for its
    name, and starts the loop goroutine of a disconnected socket; or it throws and
    starts nothing: either its argument cannot be exported and nothing is bound, or
    one property cannot be bound, the ones before it are there and no later one is
    tried. *)
Theorem constructor_outcome `{K : K6} arg answer now :
  match module_socket arg answer now with
  | (made, Ok w) =>
      is_Socket made /\ Forall (fun b => answer b = None) made /\ initial w /\
      exists s, w = world_of s now /\ state s = socketStateDisconnected /\ conn s = None /\
        handlers s = ∅
  | (made, Err e) =>
      (arg = Some (Err e) /\ made = []) \/
      exists pre b post, is_Socket (pre ++ b :: post) /\ made = pre ++ [b] /\ answer b = Some e /\
        Forall (fun b => answer b = None) pre
  end.
Proof.
  unfold module_socket. destruct (construct arg now) as [w|e] eqn:Hc.
  - destruct (bind_all answer bindings) as [made [e|]] eqn:Hb.
    + right. destruct (bind_all_some answer bindings e) as (pre & b & post & Hl & Hm & Ha & Hp);
        [by rewrite Hb|]. rewrite Hb in Hm. cbn in Hm.
      exists pre, b, post. rewrite <-Hl. split; [apply bindings_surface|]. done.
    + destruct (bind_all_none answer bindings) as [Hm Hf]; [by rewrite Hb|]. rewrite Hb in Hm.
      cbn in Hm. subst made. split_and!; [apply bindings_surface|exact Hf|by exists arg, now|].
      unfold construct in Hc. repeat case_match; simplify_eq; eexists; done.
  - left. unfold construct in Hc. repeat case_match; by simplify_eq.
Qed.

(** ** Witness *)

(** A registry that keeps the types of each name. *)
Definition RegistryRef : MetricRegistry := {|
  registry := gmap string (metric_type * bool);
  metric_id := string;
  NewMetric r name t v :=
    match r !! name with
    | Some tv => if bool_decide (tv = (t, v)) then Ok (name, r) else Err (ErrNew "already exists")
    | None => Ok (name, <[name := (t, v)]> r)
    end
|}.

Lemma RegistryRef_laws : MetricRegistryLaws RegistryRef.
Proof.
  split; cbn.
  - intros r name t v m r'. destruct (r !! name) as [tv|] eqn:Hn.
    + case_bool_decide; [|done]. intros [= <- <-]. rewrite Hn. by rewrite bool_decide_true.
    + intros [= <- <-]. rewrite lookup_insert_eq. by rewrite bool_decide_true.
  - intros r name t v m name' t' v' m' r'. destruct (r !! name) as [tv|] eqn:Hn.
    + case_bool_decide; [|done]. intros [= <-]. destruct (r !! name') as [tv'|] eqn:Hn'.
      * case_bool_decide; [|done]. intros [= <- <-]. rewrite Hn. by rewrite bool_decide_true.
      * intros [= <- <-]. rewrite lookup_insert_ne by congruence. rewrite Hn. by rewrite bool_decide_true.
    + intros [= _ Hr]. exfalso. assert (Hl : (<[name := (t, v)]> r) !! name = None) by (by rewrite Hr).
      by rewrite lookup_insert_eq in Hl.
Qed.

Lemma instances_share_metrics_witness :
  exists m r1,
    NewModuleInstance (R := RegistryRef) (fun v : nat => v) (fun l _ _ => l) New 0 ∅ = Ok (m, r1) /\
    Forall2 (fun d km => km.1 = doc_field d /\
               NewMetric (MetricRegistry := RegistryRef) r1 (doc_name d) (doc_type d) (doc_time d)
               = Ok (km.2, r1))
      documented_metrics (metrics m) /\
    exists ms, instances (R := RegistryRef) (fun v : nat => v) (fun l _ _ => l) [1; 2] r1 = Ok (ms, r1) /\
      Forall2 (fun v' m' => vu m' = v' /\ metrics m' = metrics m /\ log m' = v') [1; 2] ms.
Proof.
  destruct (is_ok_inv (NewModuleInstance (R := RegistryRef) (fun v : nat => v) (fun l _ _ => l) New 0 ∅))
    as [[m r1] Hn]; [vm_compute; reflexivity|].
  exists m, r1. split; [exact Hn|].
  exact (instances_share_metrics (RL := RegistryRef_laws) (fun v : nat => v) (fun l _ _ => l)
    0 ∅ m r1 [1; 2] Hn).
Defined.
